(** * Kmap-Solver: a shallow embedding of the minimisation engine

    The development follows the JavaScript sources:
    - [js/simplifier.js]  (class KMapSimplifier),
    - [js/kmap.js]        (class KarnaughMap),
    - [js/truthTable.js]  (class TruthTableGenerator).

    JavaScript strings are modelled by [string], arrays by [list], array
    indices and minterm numbers by [nat], the value [-1] returned by
    [indexOf] by [Z], exceptions by an explicit outcome type. *)

From Stdlib Require Import List Arith Lia Bool ZArith NArith String Ascii Permutation DecimalString.
Import ListNotations.

Local Open Scope list_scope.
Local Open Scope nat_scope.

Notation "a +++ b" := (String.append a b) (at level 60, right associativity).

(* ================================================================== *)
(** * JavaScript string primitives *)
(* ================================================================== *)

Module JsString.

(** [s[0]], [undefined] on the empty string. *)
Definition head (s : string) : option ascii :=
  match s with
  | EmptyString => None
  | String c _ => Some c
  end.

(** [s.substring(1)]. *)
Definition tail (s : string) : string :=
  match s with
  | EmptyString => EmptyString
  | String _ r => r
  end.

(** [s.substring(0, k)]. *)
Fixpoint take (k : nat) (s : string) : string :=
  match k, s with
  | S k', String c r => String c (take k' r)
  | _, _ => EmptyString
  end.

(** [s.substring(k)] and [s.slice(k)] for [k >= 0]. *)
Fixpoint drop (k : nat) (s : string) : string :=
  match k, s with
  | S k', String _ r => drop k' r
  | _, _ => s
  end.

(** [s.slice(i, j)] for [0 <= i <= j]. *)
Definition slice (i j : nat) (s : string) : string := take (j - i) (drop i s).

(** [c.repeat(k)] for a one-character string [c]. *)
Fixpoint repeat (c : ascii) (k : nat) : string :=
  match k with
  | 0 => EmptyString
  | S k' => String c (repeat c k')
  end.

(** [s.padStart(n, c)] for a one-character pad string. *)
Definition padStart (n : nat) (c : ascii) (s : string) : string :=
  repeat c (n - String.length s) +++ s.

(** Binary digits of a positive number, most significant first. *)
Fixpoint posBits (p : positive) : string :=
  match p with
  | xH => "1"
  | xO q => posBits q +++ "0"
  | xI q => posBits q +++ "1"
  end.

(** [m.toString(2)] for a non-negative integer [m]. *)
Definition toString2 (m : nat) : string :=
  match N.of_nat m with
  | N0 => "0"
  | Npos p => posBits p
  end.

(** [sep]-joined concatenation: [ls.join(sep)]. *)
Fixpoint join (sep : string) (ls : list string) : string :=
  match ls with
  | [] => EmptyString
  | [x] => x
  | x :: rest => x +++ sep +++ join sep rest
  end.

(** [arr.indexOf(x)] on an array of strings, [-1] when absent. *)
Fixpoint indexOfFrom (i : Z) (arr : list string) (x : string) : Z :=
  match arr with
  | [] => (-1)%Z
  | y :: rest => if String.eqb y x then i else indexOfFrom (i + 1)%Z rest x
  end.

Definition indexOf (arr : list string) (x : string) : Z := indexOfFrom 0%Z arr x.

(** [s.split('')] *)
Definition chars (s : string) : list ascii := list_ascii_of_string s.

End JsString.

(** [m.toString(2).padStart(numVars, '0')], used all over the sources. *)
Definition toBinary (numVars m : nat) : string :=
  JsString.padStart numVars "0"%char (JsString.toString2 m).

(* ================================================================== *)
(** * js/simplifier.js: combineBinary *)
(* ================================================================== *)

Definition opt_ascii_eqb (a b : option ascii) : bool :=
  match a, b with
  | Some x, Some y => Ascii.eqb x y
  | None, None => true
  | _, _ => false
  end.

Definition is_dash (a : option ascii) : bool := opt_ascii_eqb a (Some "-"%char).

(** The [for] loop of [combineBinary]: [i] runs over the characters of
    [bin1]; [bin2] is walked in step, so that its head is [bin2[i]]
    ([undefined] past its end).  The state is [(differences, diffPos)];
    [None] is the early [return null]. *)
Fixpoint combineScan (bin1 bin2 : string) (i differences : nat) (diffPos : Z)
  {struct bin1} : option (nat * Z) :=
  match bin1 with
  | EmptyString => Some (differences, diffPos)
  | String c1 rest1 =>
      let c2 := JsString.head bin2 in
      if negb (opt_ascii_eqb (Some c1) c2) then
        if is_dash (Some c1) || is_dash c2 then None
        else combineScan rest1 (JsString.tail bin2) (S i) (S differences) (Z.of_nat i)
      else combineScan rest1 (JsString.tail bin2) (S i) differences diffPos
  end.

Definition combineBinary (bin1 bin2 : string) : option string :=
  match combineScan bin1 bin2 0 0 (-1)%Z with
  | None => None
  | Some (differences, diffPos) =>
      if differences =? 1 then
        Some (JsString.take (Z.to_nat diffPos) bin1 +++ "-" +++
              JsString.drop (Z.to_nat (diffPos + 1)) bin1)
      else None
  end.

(* ================================================================== *)
(** * Plain objects with integer keys, arrays used as sets *)
(* ================================================================== *)

(** A plain JavaScript object whose keys are array indices.  Such keys
    are enumerated in ascending numeric order by [Object.keys],
    [Object.values] and [forEach]; the association list is kept sorted
    by key to reflect that. *)
Module JsObject.

Definition t (V : Type) : Type := list (nat * V).

Definition empty {V : Type} : t V := [].

Fixpoint get {V : Type} (o : t V) (k : nat) : option V :=
  match o with
  | [] => None
  | (k', v) :: rest => if k =? k' then Some v else get rest k
  end.

Fixpoint set {V : Type} (o : t V) (k : nat) (v : V) : t V :=
  match o with
  | [] => [(k, v)]
  | (k', v') :: rest =>
      if k =? k' then (k, v) :: rest
      else if k <? k' then (k, v) :: o
      else (k', v') :: set rest k v
  end.

Definition keys {V : Type} (o : t V) : list nat := map fst o.
Definition values {V : Type} (o : t V) : list V := map snd o.

End JsObject.

(** [arr.includes(m)] on an array of numbers. *)
Definition includesNat (arr : list nat) (m : nat) : bool := existsb (Nat.eqb m) arr.

(** Insertion into a [Set] of numbers: insertion order is kept, a value
    already present is not added again. *)
Definition setAdd (s : list nat) (m : nat) : list nat :=
  if includesNat s m then s else s ++ [m].

(** [[...new Set(arr)]]: first occurrences, in order. *)
Definition uniq (arr : list nat) : list nat := fold_left setAdd arr [].

(** [const index = arr.indexOf(m); if (index > -1) arr.splice(index, 1)]. *)
Fixpoint removeFirst (m : nat) (arr : list nat) : list nat :=
  match arr with
  | [] => []
  | x :: rest => if x =? m then rest else x :: removeFirst m rest
  end.

(* ================================================================== *)
(** * js/simplifier.js: quineMcCluskey *)
(* ================================================================== *)

(** The objects [{ binary, minterms, used }] handled by the tabulation.
    [tid] stands for the identity of the JavaScript object: every object
    literal evaluated by [quineMcCluskey] receives a fresh [tid], and the
    same object pushed twice is the same record twice. *)
Record term : Type := mkTerm {
  tid : nat;
  binary : string;
  minterms : list nat;
  used : bool
}.

Definition list_nat_eqb (a b : list nat) : bool :=
  if list_eq_dec Nat.eq_dec a b then true else false.

Definition term_eqb (a b : term) : bool :=
  (tid a =? tid b) && String.eqb (binary a) (binary b)
  && list_nat_eqb (minterms a) (minterms b) && Bool.eqb (used a) (used b).

(** [arr.includes(pi)] on an array of term objects. *)
Definition includesTerm (arr : list term) (pi : term) : bool := existsb (term_eqb pi) arr.

(** [(term.binary.match(/1/g) || []).length] *)
Fixpoint countOnes (s : string) : nat :=
  match s with
  | EmptyString => 0
  | String c r => (if Ascii.eqb c "1" then 1 else 0) + countOnes r
  end.

(** [groupByOnes]: the groups object is filled in the order of [terms];
    the groups come out by ascending number of ones. *)
Definition groupByOnes (terms : list term) : list (list term) :=
  let groups :=
    fold_left
      (fun (groups : JsObject.t (list term)) (t : term) =>
         let ones := countOnes (binary t) in
         let groups' :=
           match JsObject.get groups ones with
           | None => JsObject.set groups ones []
           | Some _ => groups
           end in
         match JsObject.get groups' ones with
         | Some g => JsObject.set groups' ones (g ++ [t])
         | None => groups'
         end)
      terms JsObject.empty in
  JsObject.values groups.

(** State of one pass of the [while] body: the array [terms] (whose
    objects get their [used] flag set in place), the array [newTerms]
    and the next fresh object identity. *)
Record passState : Type := mkPass {
  ps_terms : list term;
  ps_newTerms : list term;
  ps_next : nat
}.

(** [term.used = true] on the object with identity [i]. *)
Definition markUsed (i : nat) (terms : list term) : list term :=
  map (fun t => if tid t =? i then mkTerm (tid t) (binary t) (minterms t) true else t) terms.

(** Body of the innermost loop.  ([combined], when not [null], contains
    a dash and is a truthy string; the [grouped] set of the source is
    written and never read.) *)
Definition tryPair (term1 term2 : term) (st : passState) : passState :=
  match combineBinary (binary term1) (binary term2) with
  | Some combined =>
      let terms' := markUsed (tid term2) (markUsed (tid term1) (ps_terms st)) in
      let exists_ := existsb (fun t => String.eqb (binary t) combined) (ps_newTerms st) in
      if exists_ then mkPass terms' (ps_newTerms st) (ps_next st)
      else mkPass terms'
             (ps_newTerms st ++
                [mkTerm (ps_next st) combined (uniq (minterms term1 ++ minterms term2)) false])
             (S (ps_next st))
  | None => st
  end.

(** [for (term1 of group1) for (term2 of group2) ...] *)
Definition pairLoop (group1 group2 : list term) (st : passState) : passState :=
  fold_left (fun st1 term1 => fold_left (fun st2 term2 => tryPair term1 term2 st2) group2 st1)
            group1 st.

(** [for (i = 0; i < groups.length - 1; i++)] over adjacent groups. *)
Fixpoint adjacentLoop (groups : list (list term)) (st : passState) : passState :=
  match groups with
  | group1 :: ((group2 :: _) as rest) => adjacentLoop rest (pairLoop group1 group2 st)
  | _ => st
  end.

Definition mergePass (terms : list term) (next : nat) : passState :=
  adjacentLoop (groupByOnes terms) (mkPass terms [] next).

(** [terms.forEach(term => { if (!term.used) primeImplicants.push(term) })] *)
Definition pushUnused (primeImplicants terms : list term) : list term :=
  primeImplicants ++ filter (fun t => negb (used t)) terms.

Inductive loopExit : Type :=
| NoNewTerms   (* [if (newTerms.length === 0) break] *)
| PassBound.   (* [iteration < numVars] became false *)

Record qmRun : Type := mkRun {
  run_terms : list term;            (* [terms] when the loop is left *)
  run_primeImplicants : list term;  (* [primeImplicants] when the loop is left *)
  run_passes : nat;                 (* executions of the loop body *)
  run_exit : loopExit
}.

(** The [while (iteration < numVars)] loop; [remaining] is
    [numVars - iteration]. *)
Fixpoint qmLoop (remaining : nat) (terms primeImplicants : list term) (next passes : nat)
  : qmRun :=
  match remaining with
  | 0 => mkRun terms primeImplicants passes PassBound
  | S remaining' =>
      let st := mergePass terms next in
      let primeImplicants' := pushUnused primeImplicants (ps_terms st) in
      match ps_newTerms st with
      | [] => mkRun (ps_terms st) primeImplicants' (S passes) NoNewTerms
      | _ :: _ => qmLoop remaining' (ps_newTerms st) primeImplicants' (ps_next st) (S passes)
      end
  end.

(** [minterms.map(m => ({ binary: ..., minterms: [m], used: false }))] *)
Definition initialTerms (mins : list nat) (numVars : nat) : list term :=
  map (fun im => mkTerm (fst im) (toBinary numVars (snd im)) [snd im] false)
      (combine (seq 0 (List.length mins)) mins).

Definition quineMcCluskeyRun (mins : list nat) (numVars : nat) : qmRun :=
  qmLoop numVars (initialTerms mins numVars) [] (List.length mins) 0.

Definition quineMcCluskey (mins : list nat) (numVars : nat) : list term :=
  let r := quineMcCluskeyRun mins numVars in
  pushUnused (run_primeImplicants r) (run_terms r).

(* ================================================================== *)
(** * js/simplifier.js: findEssentialPrimeImplicants *)
(* ================================================================== *)

(** [primeImplicants.forEach((pi, index) => ...)]: elements with their index. *)
Definition indexed {A : Type} (l : list A) : list (nat * A) :=
  combine (seq 0 (List.length l)) l.

(** The coverage object: one (initially empty) index list per required
    minterm, then every prime implicant index pushed on the list of each
    required minterm the implicant covers. *)
Definition coverageInit (mins : list nat) : JsObject.t (list nat) :=
  fold_left (fun coverage m => JsObject.set coverage m []) mins JsObject.empty.

Definition coverageAdd (coverage : JsObject.t (list nat)) (ipi : nat * term)
  : JsObject.t (list nat) :=
  fold_left
    (fun cov m =>
       match JsObject.get cov m with
       | Some piList => JsObject.set cov m (piList ++ [fst ipi])
       | None => cov
       end)
    (minterms (snd ipi)) coverage.

Definition buildCoverage (primeImplicants : list term) (mins : list nat)
  : JsObject.t (list nat) :=
  fold_left coverageAdd (indexed primeImplicants) (coverageInit mins).

(** [essentialIndices]: a [Set], filled in the order of [Object.values]. *)
Definition essentialIndicesOf (coverage : JsObject.t (list nat)) : list nat :=
  fold_left
    (fun essentialIndices piList =>
       match piList with
       | [i] => setAdd essentialIndices i
       | _ => essentialIndices
       end)
    (JsObject.values coverage) [].

(** [Array.from(essentialIndices).map(i => primeImplicants[i])]; the
    indices come from the coverage object and are within bounds. *)
Definition lookupAll (primeImplicants : list term) (indices : list nat) : list term :=
  flat_map (fun i => match nth_error primeImplicants i with
                     | Some pi => [pi]
                     | None => []
                     end) indices.

(** [pi.minterms.filter(m => uncovered.includes(m)).length] *)
Definition coverageCount (pi : term) (uncovered : list nat) : nat :=
  List.length (filter (includesNat uncovered) (minterms pi)).

(** The [primeImplicants.forEach] of the greedy step, on the state
    [(bestPI, maxCoverage)]. *)
Definition selectBest (primeImplicants essentialPIs additionalPIs : list term)
  (uncovered : list nat) : option term * nat :=
  fold_left
    (fun (acc : option term * nat) pi =>
       if negb (includesTerm essentialPIs pi) && negb (includesTerm additionalPIs pi) then
         let coverage := coverageCount pi uncovered in
         if snd acc <? coverage then (Some pi, coverage) else acc
       else acc)
    primeImplicants (None, 0).

(** [bestPI.minterms.forEach(m => { ... uncovered.splice(index, 1) })] *)
Definition removeCovered (pi : term) (uncovered : list nat) : list nat :=
  fold_left (fun u m => removeFirst m u) (minterms pi) uncovered.

(** One execution of the body of [while (uncovered.length > 0)];
    [None] is the [break]. *)
Definition greedyStep (primeImplicants essentialPIs : list term)
  (st : list nat * list term) : option (list nat * list term) :=
  let (uncovered, additionalPIs) := st in
  match fst (selectBest primeImplicants essentialPIs additionalPIs uncovered) with
  | Some bestPI => Some (removeCovered bestPI uncovered, additionalPIs ++ [bestPI])
  | None => None
  end.

(** The [while] loop.  Every step that does not [break] removes a
    minterm from [uncovered], so [fuel = uncovered.length] executions
    are enough (lemma [greedyLoop_complete] below). *)
Fixpoint greedyLoop (fuel : nat) (primeImplicants essentialPIs : list term)
  (st : list nat * list term) : list nat * list term :=
  match fuel with
  | 0 => st
  | S fuel' =>
      match fst st with
      | [] => st
      | _ :: _ =>
          match greedyStep primeImplicants essentialPIs st with
          | Some st' => greedyLoop fuel' primeImplicants essentialPIs st'
          | None => st
          end
      end
  end.

Definition essentialOnly (primeImplicants : list term) (mins : list nat) : list term :=
  lookupAll primeImplicants (essentialIndicesOf (buildCoverage primeImplicants mins)).

Definition uncoveredAfterEssential (essentialPIs : list term) (mins : list nat) : list nat :=
  let coveredMinterms := flat_map minterms essentialPIs in
  filter (fun m => negb (includesNat coveredMinterms m)) mins.

Definition additionalOnly (primeImplicants : list term) (mins : list nat) : list term :=
  let essentialPIs := essentialOnly primeImplicants mins in
  let uncovered := uncoveredAfterEssential essentialPIs mins in
  snd (greedyLoop (List.length uncovered) primeImplicants essentialPIs (uncovered, [])).

Definition findEssentialPrimeImplicants (primeImplicants : list term) (mins : list nat)
  : list term :=
  essentialOnly primeImplicants mins ++ additionalOnly primeImplicants mins.

(* ================================================================== *)
(** * js/simplifier.js: convertToSOP, convertToPOS, findGroups, simplify *)
(* ================================================================== *)

(** [variables[i]] inside a string concatenation: a missing entry is
    [undefined] and concatenates as the text "undefined". *)
Definition varName (variables : list string) (i : nat) : string :=
  nth i variables "undefined"%string.

(** The [for] loop building one product term, from position [i] on. *)
Fixpoint sopTermFrom (variables : list string) (i : nat) (bin : string) : string :=
  match bin with
  | EmptyString => EmptyString
  | String c rest =>
      (if Ascii.eqb c "1" then varName variables i
       else if Ascii.eqb c "0" then varName variables i +++ "'"
       else EmptyString) +++ sopTermFrom variables (S i) rest
  end.

(** [return term || '1'] *)
Definition sopTerm (variables : list string) (pi : term) : string :=
  match sopTermFrom variables 0 (binary pi) with
  | EmptyString => "1"%string
  | t => t
  end.

Definition convertToSOP (primeImplicants : list term) (variables : list string) : string :=
  match primeImplicants with
  | [] => "0"%string
  | _ => JsString.join " + " (map (sopTerm variables) primeImplicants)
  end.

(** The middle dot U+00B7 joining the sum terms, as its UTF-8 bytes. *)
Definition middleDot : string :=
  String (ascii_of_nat 194) (String (ascii_of_nat 183) EmptyString).

(** [variables[i]] as an element of a joined array: [join] prints a
    missing entry ([undefined]) as the empty text. *)
Definition varJoined (variables : list string) (i : nat) : string :=
  nth i variables EmptyString.

Definition posTerm (variables : list string) (maxterm : nat) : string :=
  let bin := toBinary (List.length variables) maxterm in
  let literals :=
    map (fun bi : nat * ascii =>
           if Ascii.eqb (snd bi) "0" then varJoined variables (fst bi)
           else varName variables (fst bi) +++ "'")
        (indexed (JsString.chars bin)) in
  "(" +++ JsString.join " + " literals +++ ")".

Definition convertToPOS (maxterms : list nat) (variables : list string) : string :=
  match maxterms with
  | [] => "1"%string
  | _ => JsString.join middleDot (map (posTerm variables) maxterms)
  end.

Record group : Type := mkGroup {
  g_minterms : list nat;
  g_size : nat;
  g_binary : string
}.

(** The object read by [simplify] and by [generate]: its fields
    [minterms], [variables], [numVars] and [dontCares].  The indices are
    assignment indices, that is non-negative integers, as the truth
    table generators produce them; what the code does with a negative
    number is outside this model. *)
Record kmapInput : Type := mkKmapInput {
  k_minterms : list nat;
  k_variables : list string;
  k_numVars : nat;
  k_dontCares : list nat
}.

Definition findGroups (kmap : kmapInput) : list group :=
  map (fun m => mkGroup [m] 1 (toBinary (k_numVars kmap) m)) (k_minterms kmap).

Record simplified : Type := mkSimplified {
  sop : string;
  pos : string;
  primeImplicants : list term;
  essentialPrimeImplicants : list term;
  groups : option (list group)   (* absent from the two constant results *)
}.

Definition simplify (kmap : kmapInput) : simplified :=
  let mins := k_minterms kmap in
  let variables := k_variables kmap in
  let numVars := k_numVars kmap in
  let dontCares := k_dontCares kmap in
  if List.length mins =? 0 then mkSimplified "0" "1" [] [] None
  else if List.length mins =? 2 ^ numVars then mkSimplified "1" "0" [] [] None
  else
    let allOnes := mins ++ dontCares in
    let pis := quineMcCluskey allOnes numVars in
    let essentialPIs := findEssentialPrimeImplicants pis mins in
    let allTerms := seq 0 (2 ^ numVars) in
    let maxterms :=
      filter (fun t => negb (includesNat mins t) && negb (includesNat dontCares t)) allTerms in
    mkSimplified (convertToSOP essentialPIs variables) (convertToPOS maxterms variables)
                 pis essentialPIs (Some (findGroups kmap)).

(* ================================================================== *)
(** * Exceptions *)
(* ================================================================== *)

Inductive jsError : Type :=
| Error (message : string)   (* [throw new Error(message)] *)
| TypeError.                 (* raised by the engine: write through [undefined] *)

Inductive outcome (A : Type) : Type :=
| Return (a : A)
| Throw (e : jsError).

Arguments Return {A} a.
Arguments Throw {A} e.

Definition bind {A B : Type} (x : outcome A) (f : A -> outcome B) : outcome B :=
  match x with
  | Return a => f a
  | Throw e => Throw e
  end.

(* ================================================================== *)
(** * js/kmap.js: KarnaughMap *)
(* ================================================================== *)

Inductive cellValue : Type :=
| CZero          (* 0 *)
| COne           (* 1 *)
| CX             (* 'X' *)
| CHole.         (* empty slot of an array extended by a write *)

(** A row of the grid, a JavaScript array: its elements, and its own
    properties that are not elements.  Such a property is created by a
    write at a negative index ([row[-1] = v] sets the property "-1" and
    leaves the elements and [length] alone); the properties are kept in
    creation order, as JavaScript enumerates them. *)
Record gridRow : Type := mkGridRow {
  row_cells : list cellValue;
  row_props : list (Z * cellValue)
}.

Definition grid2 : Type := list gridRow.

(** [obj[key] = v] on the properties that are not elements: a key
    already present keeps its place and gets the new value. *)
Fixpoint setProp (props : list (Z * cellValue)) (key : Z) (v : cellValue)
  : list (Z * cellValue) :=
  match props with
  | [] => [(key, v)]
  | (k, w) :: rest =>
      if (k =? key)%Z then (k, v) :: rest else (k, w) :: setProp rest key v
  end.

(** [this.grayCode[2]] and the local [grayCode] arrays. *)
Definition grayCode : list string := ["00"; "01"; "11"; "10"]%string.

(** [arr[col] = v] on one row.  A negative [col] sets a property that
    is not an element, a [col] past the end extends the array. *)
Definition writeRow (row : gridRow) (col : Z) (v : cellValue) : gridRow :=
  if (col <? 0)%Z then mkGridRow (row_cells row) (setProp (row_props row) col v)
  else
    let c := Z.to_nat col in
    let cells := row_cells row in
    mkGridRow
      (if c <? List.length cells then firstn c cells ++ v :: skipn (S c) cells
       else cells ++ repeat CHole (c - List.length cells) ++ [v])
      (row_props row).

(** [grid[row][col] = v]; [grid[row]] is [undefined] outside the grid and
    the write then raises a TypeError. *)
Definition writeCell (grid : grid2) (row col : Z) (v : cellValue) : outcome grid2 :=
  if (row <? 0)%Z then Throw TypeError
  else
    let r := Z.to_nat row in
    match nth_error grid r with
    | Some cells => Return (firstn r grid ++ writeRow cells col v :: skipn (S r) grid)
    | None => Throw TypeError
    end.

(** [grids[mapIndex][row][col] = v] *)
Definition writeCell3 (grids : list grid2) (mapIndex row col : Z) (v : cellValue)
  : outcome (list grid2) :=
  if (mapIndex <? 0)%Z then Throw TypeError
  else
    let k := Z.to_nat mapIndex in
    match nth_error grids k with
    | Some g => bind (writeCell g row col v)
                     (fun g' => Return (firstn k grids ++ g' :: skipn (S k) grids))
    | None => Throw TypeError
    end.

(** A cell of the map: tile ([0] for the single grid of 2 to 4
    variables), row and column, as computed by the [forEach] bodies. *)
Record cellPos : Type := mkCell { c_map : Z; c_row : Z; c_col : Z }.

(** [parseInt(bit)] for a one-character string holding a binary digit. *)
Definition parseBit (s : string) : Z :=
  if String.eqb s "1" then 1%Z else 0%Z.

Definition cell2 (m : nat) : cellPos :=
  mkCell 0 (Z.of_nat (m / 2)) (Z.of_nat (m mod 2)).

Definition cell3 (m : nat) : cellPos :=
  let bin := toBinary 3 m in
  let rowBit := JsString.slice 0 1 bin in
  let colBits := JsString.drop 1 bin in
  mkCell 0 (parseBit rowBit) (JsString.indexOf grayCode colBits).

Definition cell4 (m : nat) : cellPos :=
  let bin := toBinary 4 m in
  let rowBits := JsString.slice 0 2 bin in
  let colBits := JsString.drop 2 bin in
  mkCell 0 (JsString.indexOf grayCode rowBits) (JsString.indexOf grayCode colBits).

Definition cell5 (m : nat) : cellPos :=
  let bin := toBinary 5 m in
  let firstBit := JsString.slice 0 1 bin in
  let rowBits := JsString.slice 1 3 bin in
  let colBits := JsString.drop 3 bin in
  mkCell (if String.eqb firstBit "0" then 0 else 1)
         (JsString.indexOf grayCode rowBits) (JsString.indexOf grayCode colBits).

Definition cell6 (m : nat) : cellPos :=
  let bin := toBinary 6 m in
  let firstTwoBits := JsString.slice 0 2 bin in
  let rowBits := JsString.slice 2 4 bin in
  let colBits := JsString.drop 4 bin in
  mkCell (JsString.indexOf grayCode firstTwoBits)
         (JsString.indexOf grayCode rowBits) (JsString.indexOf grayCode colBits).

(** The cell in which [generate] records index [m]. *)
Definition cellOf (numVars m : nat) : option cellPos :=
  match numVars with
  | 2 => Some (cell2 m)
  | 3 => Some (cell3 m)
  | 4 => Some (cell4 m)
  | 5 => Some (cell5 m)
  | 6 => Some (cell6 m)
  | _ => None
  end.

(** [indices.forEach(m => { grid[row][col] = v })] on a single grid. *)
Definition fillGrid (cell : nat -> cellPos) (v : cellValue) (indices : list nat)
  (grid : grid2) : outcome grid2 :=
  fold_left
    (fun acc m => bind acc (fun g => writeCell g (c_row (cell m)) (c_col (cell m)) v))
    indices (Return grid).

(** The same on an array of grids. *)
Definition fillGrids (cell : nat -> cellPos) (v : cellValue) (indices : list nat)
  (grids : list grid2) : outcome (list grid2) :=
  fold_left
    (fun acc m =>
       bind acc (fun gs => writeCell3 gs (c_map (cell m)) (c_row (cell m)) (c_col (cell m)) v))
    indices (Return grids).

Definition zeroGrid (rows cols : nat) : grid2 :=
  repeat (mkGridRow (repeat CZero cols) []) rows.

Inductive gridShape : Type :=
| SingleGrid (g : grid2)
| MultiGrid (gs : list grid2).

Record dimensions : Type := mkDim { d_rows : nat; d_cols : nat; d_maps : option nat }.

Record kmapBody : Type := mkBody {
  b_grid : gridShape;
  b_rowLabels : list string;
  b_colLabels : list string;
  b_rowVars : list (option string);   (* [None] is [undefined] *)
  b_colVars : list (option string);
  b_mapLabels : option (list string);
  b_dimensions : dimensions
}.

(** [variables[i]] as an array element. *)
Definition varAt (variables : list string) (i : nat) : option string := nth_error variables i.

Definition create2VarKMap (variables : list string) (mins dontCares : list nat)
  : outcome kmapBody :=
  bind (fillGrid cell2 COne mins (zeroGrid 2 2)) (fun g1 =>
  bind (fillGrid cell2 CX dontCares g1) (fun g2 =>
  Return (mkBody (SingleGrid g2) ["0"; "1"]%string ["0"; "1"]%string
                 [varAt variables 0] [varAt variables 1]
                 None (mkDim 2 2 None)))).

Definition create3VarKMap (variables : list string) (mins dontCares : list nat)
  : outcome kmapBody :=
  bind (fillGrid cell3 COne mins (zeroGrid 2 4)) (fun g1 =>
  bind (fillGrid cell3 CX dontCares g1) (fun g2 =>
  Return (mkBody (SingleGrid g2) ["0"; "1"]%string grayCode
                 [varAt variables 0] [varAt variables 1; varAt variables 2]
                 None (mkDim 2 4 None)))).

Definition create4VarKMap (variables : list string) (mins dontCares : list nat)
  : outcome kmapBody :=
  bind (fillGrid cell4 COne mins (zeroGrid 4 4)) (fun g1 =>
  bind (fillGrid cell4 CX dontCares g1) (fun g2 =>
  Return (mkBody (SingleGrid g2) grayCode grayCode
                 [varAt variables 0; varAt variables 1]
                 [varAt variables 2; varAt variables 3]
                 None (mkDim 4 4 None)))).

Definition create5VarKMap (variables : list string) (mins dontCares : list nat)
  : outcome kmapBody :=
  bind (fillGrids cell5 COne mins [zeroGrid 4 4; zeroGrid 4 4]) (fun g1 =>
  bind (fillGrids cell5 CX dontCares g1) (fun g2 =>
  Return (mkBody (MultiGrid g2) grayCode grayCode
                 [varAt variables 1; varAt variables 2]
                 [varAt variables 3; varAt variables 4]
                 (Some [varName variables 0 +++ "=0"; varName variables 0 +++ "=1"])
                 (mkDim 4 4 (Some 2))))).

(** [variables[0] + variables[1]] ahead of a string: two missing
    entries add up to the number NaN, whose text is "NaN"; otherwise
    the texts are concatenated. *)
Definition varPair (variables : list string) : string :=
  match nth_error variables 0, nth_error variables 1 with
  | None, None => "NaN"%string
  | _, _ => varName variables 0 +++ varName variables 1
  end.

Definition create6VarKMap (variables : list string) (mins dontCares : list nat)
  : outcome kmapBody :=
  bind (fillGrids cell6 COne mins
          [zeroGrid 4 4; zeroGrid 4 4; zeroGrid 4 4; zeroGrid 4 4]) (fun g1 =>
  bind (fillGrids cell6 CX dontCares g1) (fun g2 =>
  Return (mkBody (MultiGrid g2) grayCode grayCode
                 [varAt variables 2; varAt variables 3]
                 [varAt variables 4; varAt variables 5]
                 (Some (map (fun sel => varPair variables +++ "=" +++ sel) grayCode))
                 (mkDim 4 4 (Some 4))))).

(** The truth table object read by [generate]: [variables], [minterms],
    [numVars] and [dontCares] (default [[]]); the result spreads the
    created map and copies these four fields, so that it can be handed
    to [simplify]. *)
Record kmapData : Type := mkKmap {
  km_body : kmapBody;
  km_input : kmapInput
}.

Definition generate (truthTable : kmapInput) : outcome kmapData :=
  let variables := k_variables truthTable in
  let mins := k_minterms truthTable in
  let numVars := k_numVars truthTable in
  let dontCares := k_dontCares truthTable in
  if (numVars <? 2) || (6 <? numVars) then
    Throw (Error "K-map supports 2-6 variables only")
  else
    bind (match numVars with
          | 2 => create2VarKMap variables mins dontCares
          | 3 => create3VarKMap variables mins dontCares
          | 4 => create4VarKMap variables mins dontCares
          | 5 => create5VarKMap variables mins dontCares
          | _ => create6VarKMap variables mins dontCares   (* [case 6], by the guard *)
          end)
         (fun body => Return (mkKmap body (mkKmapInput mins variables numVars dontCares))).

(** [parseInt(s, 2)] of a binary numeral. *)
Fixpoint parseBinaryFrom (acc : nat) (s : string) : nat :=
  match s with
  | EmptyString => acc
  | String c r => parseBinaryFrom (2 * acc + (if Ascii.eqb c "1" then 1 else 0)) r
  end.

Definition parseBinary (s : string) : nat := parseBinaryFrom 0 s.

(** The selector bits of tile [mapIndex], as [getMintermFromPosition]
    prefixes them to the row and column bits: the decimal text of the
    index itself (0 or 1) for five variables, [grayCode[mapIndex]] for
    six. *)
Definition tileSelector (numVars : nat) (mapIndex : nat) : string :=
  match numVars with
  | 5 => if mapIndex =? 0 then "0"%string else "1"%string
  | 6 => nth mapIndex grayCode "undefined"%string
  | _ => EmptyString
  end.

(* ================================================================== *)
(** * js/truthTable.js: generateFromOutputs *)
(* ================================================================== *)

(** The values found in an [outputs] array. *)
Inductive jsValue : Type :=
| JNum (z : Z)
| JStr (s : string)
| JBool (b : bool)
| JUndefined.

(** Truthiness, for [output ? 1 : 0]. *)
Definition truthy (v : jsValue) : bool :=
  match v with
  | JNum z => negb (z =? 0)%Z
  | JStr s => negb (String.eqb s EmptyString)
  | JBool b => b
  | JUndefined => false
  end.

(** [output === 'X'] *)
Definition isX (v : jsValue) : bool :=
  match v with
  | JStr s => String.eqb s "X"
  | _ => false
  end.

Inductive rowOutput : Type := Out0 | Out1 | OutX.

Record ttRow : Type := mkRow {
  r_index : nat;
  r_inputs : list (string * Z);   (* [values], in the enumeration order of its keys *)
  r_output : rowOutput;
  r_binary : string;
  r_isDontCare : bool
}.

Record truthTable : Type := mkTT {
  tt_variables : list string;
  tt_rows : list ttRow;
  tt_minterms : list nat;
  tt_maxterms : list nat;
  tt_dontCares : list nat;
  tt_numVars : nat
}.

(** Decimal text of a number inside a template literal. *)
Definition decimal (n : nat) : string := NilEmpty.string_of_uint (Nat.to_uint n).

(** Keys of a plain object.  A key that is the decimal text, without
    leading zero, of a number up to [2^32 - 2] is an array index: such
    keys are enumerated first, by ascending number; the other keys
    follow in creation order. *)
Definition indexKey (key : string) : option N :=
  match NilEmpty.uint_of_string key with
  | Some d =>
      if String.eqb (NilEmpty.string_of_uint (Decimal.unorm d)) key
         && (N.of_uint d <=? 4294967294)%N
      then Some (N.of_uint d) else None
  | None => None
  end.

(** The new key [key] is enumerated before the existing key [other]. *)
Definition keyBefore (key other : string) : bool :=
  match indexKey key, indexKey other with
  | Some a, Some b => (a <? b)%N
  | Some _, None => true
  | None, _ => false
  end.

Fixpoint hasKey (values : list (string * Z)) (key : string) : bool :=
  match values with
  | [] => false
  | (k, _) :: rest => String.eqb k key || hasKey rest key
  end.

Fixpoint updateKey (values : list (string * Z)) (key : string) (bit : Z)
  : list (string * Z) :=
  match values with
  | [] => []
  | (k, v) :: rest =>
      if String.eqb k key then (k, bit) :: rest else (k, v) :: updateKey rest key bit
  end.

Fixpoint insertKey (values : list (string * Z)) (key : string) (bit : Z)
  : list (string * Z) :=
  match values with
  | [] => [(key, bit)]
  | (k, v) :: rest =>
      if keyBefore key k then (key, bit) :: values else (k, v) :: insertKey rest key bit
  end.

(** [values[variable] = bit] on a plain object, for a number [bit]: a
    key already present keeps its place and gets the new value, a new
    key takes its place in the enumeration; the key "__proto__" is the
    accessor of [Object.prototype], which ignores a number and creates
    no property. *)
Definition assign (values : list (string * Z)) (variable : string) (bit : Z)
  : list (string * Z) :=
  if String.eqb variable "__proto__" then values
  else if hasKey values variable then updateKey values variable bit
  else insertKey values variable bit.

(** [variables.forEach((variable, index) => values[variable] = parseInt(binary[index]))] *)
Definition rowInputs (variables : list string) (bin : string) : list (string * Z) :=
  fold_left
    (fun values iv => assign values (snd iv) (parseBit (JsString.slice (fst iv) (S (fst iv)) bin)))
    (indexed variables) [].

(** State of the [for] loop: [rows], [minterms], [maxterms], [dontCareTerms]. *)
Record ttState : Type := mkTTState {
  s_rows : list ttRow;
  s_minterms : list nat;
  s_maxterms : list nat;
  s_dontCareTerms : list nat
}.

(** Body of [for (let i = 0; i < numRows; i++)]; [output] is [outputs[i]]. *)
Definition ttStep (variables : list string) (numVars : nat) (dontCares : list nat)
  (st : ttState) (io : nat * jsValue) : ttState :=
  let i := fst io in
  let output := snd io in
  let bin := toBinary numVars i in
  let values := rowInputs variables bin in
  if isX output || includesNat dontCares i then
    mkTTState (s_rows st ++ [mkRow i values OutX bin true])
              (s_minterms st) (s_maxterms st) (s_dontCareTerms st ++ [i])
  else if truthy output then
    mkTTState (s_rows st ++ [mkRow i values Out1 bin false])
              (s_minterms st ++ [i]) (s_maxterms st) (s_dontCareTerms st)
  else
    mkTTState (s_rows st ++ [mkRow i values Out0 bin false])
              (s_minterms st) (s_maxterms st ++ [i]) (s_dontCareTerms st).

(** [generateFromOutputs(variables, outputs, dontCares = [])].  Past the
    length check the loop reads [outputs[0]] to [outputs[numRows - 1]],
    which all exist. *)
Definition generateFromOutputs (variables : list string) (outputs : list jsValue)
  (dontCares : list nat) : outcome truthTable :=
  let numVars := List.length variables in
  let numRows := 2 ^ numVars in
  if negb (List.length outputs =? numRows) then
    Throw (Error ("Expected " +++ decimal numRows +++ " output values, got "
                  +++ decimal (List.length outputs)))
  else
    let st := fold_left (ttStep variables numVars dontCares)
                        (combine (seq 0 numRows) outputs) (mkTTState [] [] [] []) in
    Return (mkTT variables (s_rows st) (s_minterms st) (s_maxterms st)
                 (s_dontCareTerms st) numVars).

(** The truth table as [generate] and [simplify] read it. *)
Definition asKmapInput (tt : truthTable) : kmapInput :=
  mkKmapInput (tt_minterms tt) (tt_variables tt) (tt_numVars tt) (tt_dontCares tt).

(* ================================================================== *)
(** * Notions used to state the properties *)
(* ================================================================== *)

(** A pattern string over the three symbols 0, 1 and -. *)
Definition triStateChar (c : ascii) : Prop := c = "0"%char \/ c = "1"%char \/ c = "-"%char.

Fixpoint triState (s : string) : Prop :=
  match s with
  | EmptyString => True
  | String c r => triStateChar c /\ triState r
  end.

(** [a] and [b] differ at position [p] and nowhere else. *)
Definition differOnlyAt (a b : string) (p : nat) : Prop :=
  String.get p a <> String.get p b /\
  forall i, i <> p -> String.get i a = String.get i b.

(** The cube [cube] contains the assignment written [bits]: at every
    position the cube has a dash or the same digit. *)
Fixpoint covers (cube bits : string) : bool :=
  match cube, bits with
  | EmptyString, EmptyString => true
  | String c cube', String b bits' => (Ascii.eqb c "-" || Ascii.eqb c b) && covers cube' bits'
  | _, _ => false
  end.

(** Number of literals of a cube: its positions that are not a dash. *)
Fixpoint literalCount (cube : string) : nat :=
  match cube with
  | EmptyString => 0
  | String c r => (if Ascii.eqb c "-" then 0 else 1) + literalCount r
  end.

(** ** Reading a sum of products

    The text produced by [convertToSOP] is read the usual way: product
    terms separated by " + "; a product term is a juxtaposition of
    literals, a literal is a one-letter variable optionally followed by
    a quote for its complement; [1] and [0] are the constants.  The
    value of the variable at position [i] of [variables] under
    assignment index [m] is digit [i] of [toBinary numVars m], as in
    [TruthTableGenerator.generate]. *)

Fixpoint lookupVar (variables : list string) (bits : string) (c : ascii) : option bool :=
  match variables, bits with
  | v :: vs, String b bs =>
      if String.eqb v (String c EmptyString) then Some (Ascii.eqb b "1")
      else lookupVar vs bs c
  | _, _ => None
  end.

(** [evalFrom variables bits text cur]: value of the sum [text], whose
    first product term has the partial value [cur]; [None] when [text]
    is not a sum of products over [variables]. *)
Fixpoint evalFrom (variables : list string) (bits : string) (text : string) (cur : bool)
  {struct text} : option bool :=
  match text with
  | EmptyString => Some cur
  | String c rest =>
      if Ascii.eqb c " " then
        match rest with
        | String p (String s rest') =>
            if Ascii.eqb p "+" && Ascii.eqb s " " then
              option_map (orb cur) (evalFrom variables bits rest' true)
            else None
        | _ => None
        end
      else if Ascii.eqb c "1" then evalFrom variables bits rest cur
      else if Ascii.eqb c "0" then evalFrom variables bits rest false
      else
        match lookupVar variables bits c with
        | Some v =>
            match rest with
            | String q rest' =>
                if Ascii.eqb q "'" then evalFrom variables bits rest' (cur && negb v)
                else evalFrom variables bits rest (cur && v)
            | EmptyString => Some (cur && v)
            end
        | None => None
        end
  end.

Definition evalSOP (variables : list string) (numVars : nat) (text : string) (m : nat)
  : option bool :=
  evalFrom variables (toBinary numVars m) text true.

(** One-letter variable names, as the expression parser extracts them
    ([/[A-Za-z]/]). *)
Definition isLetter (c : ascii) : bool :=
  let k := nat_of_ascii c in
  ((65 <=? k) && (k <=? 90)) || ((97 <=? k) && (k <=? 122)).

Definition letterNames (letters : list ascii) : list string :=
  map (fun c => String c EmptyString) letters.

(** ** Adjacency in the map *)

(** Rows and columns of one tile, as in the [dimensions] of [create*VarKMap]. *)
Definition gridRows (numVars : nat) : Z :=
  match numVars with 2 | 3 => 2%Z | _ => 4%Z end.

Definition gridCols (numVars : nat) : Z :=
  match numVars with 2 => 2%Z | _ => 4%Z end.

(** Neighbours on a ring of [size] positions (the first and the last
    position are neighbours). *)
Definition ringAdjacent (size a b : Z) : bool :=
  (((a + 1) mod size =? b) || ((b + 1) mod size =? a))%Z.

(** Number of positions at which two strings of the same length differ. *)
Fixpoint hamming (a b : string) : nat :=
  match a, b with
  | String x a', String y b' => (if Ascii.eqb x y then 0 else 1) + hamming a' b'
  | _, _ => 0
  end.

Definition sameTileAdjacent (numVars : nat) (p q : cellPos) : bool :=
  (c_map p =? c_map q)%Z &&
  (((c_row p =? c_row q)%Z && ringAdjacent (gridCols numVars) (c_col p) (c_col q)) ||
   ((c_col p =? c_col q)%Z && ringAdjacent (gridRows numVars) (c_row p) (c_row q))).

Definition sameCellAdjacentTiles (numVars : nat) (p q : cellPos) : bool :=
  (c_row p =? c_row q)%Z && (c_col p =? c_col q)%Z &&
  (hamming (tileSelector numVars (Z.to_nat (c_map p)))
           (tileSelector numVars (Z.to_nat (c_map q))) =? 1).

Definition adjacentCells (numVars : nat) (p q : cellPos) : bool :=
  sameTileAdjacent numVars p q || sameCellAdjacentTiles numVars p q.

(** The value stored at a cell of the generated map: an element of a
    row of the grid. *)
Definition readGrid (g : grid2) (row col : Z) : option cellValue :=
  if (row <? 0)%Z || (col <? 0)%Z then None
  else match nth_error g (Z.to_nat row) with
       | Some cells => nth_error (row_cells cells) (Z.to_nat col)
       | None => None
       end.

Definition readCell (shape : gridShape) (p : cellPos) : option cellValue :=
  match shape with
  | SingleGrid g => if (c_map p =? 0)%Z then readGrid g (c_row p) (c_col p) else None
  | MultiGrid gs =>
      if (c_map p <? 0)%Z then None
      else match nth_error gs (Z.to_nat (c_map p)) with
           | Some g => readGrid g (c_row p) (c_col p)
           | None => None
           end
  end.

(** ** Validation errors *)

Definition isValidationError {A : Type} (r : outcome A) : Prop :=
  exists message, r = Throw (Error message).

Definition indexOutOfRange (tt : kmapInput) : Prop :=
  exists m, In m (k_minterms tt ++ k_dontCares tt) /\ 2 ^ k_numVars tt <= m.

Definition setsOverlap (tt : kmapInput) : Prop :=
  exists m, In m (k_minterms tt) /\ In m (k_dontCares tt).

(* ================================================================== *)
(** * Notions used in the proofs *)
(* ================================================================== *)

(** Two strings that split as [pre x post] and [pre y post], with
    distinct symbols [x] and [y], none of them a dash. *)
Definition splitAt (a b pre : string) (x y : ascii) (post : string) : Prop :=
  a = pre +++ String x post /\ b = pre +++ String y post /\
  x <> y /\ x <> "-"%char /\ y <> "-"%char.

(** All the indices classified so far by the loop of [generateFromOutputs]. *)
Definition classified (st : ttState) : list nat :=
  s_minterms st ++ s_maxterms st ++ s_dontCareTerms st.

(** An outcome that is not an [Error] raised by a [throw] statement. *)
Definition notValidation {A : Type} (r : outcome A) : Prop :=
  forall message, r <> Throw (Error message).

(** Exhaustive check of the adjacency of the cells of two indices that
    differ in one bit, for one variable count. *)
Definition isPowerOfTwo (x : nat) : bool :=
  existsb (fun k => x =? 2 ^ k) (seq 0 6).

Definition adjacencyCheckAt (numVars m1 m2 : nat) : bool :=
  (Nat.lxor m1 m2 <? 64) &&
  implb (isPowerOfTwo (Nat.lxor m1 m2))
        (match cellOf numVars m1, cellOf numVars m2 with
         | Some p, Some q => adjacentCells numVars p q
         | _, _ => false
         end).

Definition adjacencyCheck (numVars : nat) : bool :=
  forallb (fun m1 => forallb (adjacencyCheckAt numVars m1) (seq 0 (2 ^ numVars)))
          (seq 0 (2 ^ numVars)).

(** Exhaustive check that [generate], given the single required index
    [m], stores a 1 in the cell [cellOf numVars m] and nowhere else. *)
Definition cellCount (v : cellValue) (shape : gridShape) : nat :=
  let countGrid (g : grid2) :=
    List.length (filter (fun c => match c, v with
                                  | COne, COne | CX, CX | CZero, CZero | CHole, CHole => true
                                  | _, _ => false
                                  end) (List.concat (map row_cells g))) in
  match shape with
  | SingleGrid g => countGrid g
  | MultiGrid gs => list_sum (map countGrid gs)
  end.

Definition placementCheckAt (numVars m : nat) : bool :=
  match generate (mkKmapInput [m] [] numVars []), cellOf numVars m with
  | Return k, Some p =>
      match readCell (b_grid (km_body k)) p with
      | Some COne => cellCount COne (b_grid (km_body k)) =? 1
      | _ => false
      end
  | _, _ => false
  end.

Definition placementCheck (numVars : nat) : bool :=
  forallb (placementCheckAt numVars) (seq 0 (2 ^ numVars)).

(** A prime implicant that the greedy step may still select:
    [!essentialPIs.includes(pi) && !additionalPIs.includes(pi)]. *)
Definition eligible (essentialPIs additionalPIs : list term) (pi : term) : bool :=
  negb (includesTerm essentialPIs pi) && negb (includesTerm additionalPIs pi).

(** [best], at position [k] of [pis], is the first eligible implicant of
    [pis] covering the largest, non-zero, number of uncovered minterms. *)
Definition firstBest (pis essentialPIs additionalPIs : list term) (uncovered : list nat)
  (k : nat) (best : term) : Prop :=
  nth_error pis k = Some best /\
  eligible essentialPIs additionalPIs best = true /\
  0 < coverageCount best uncovered /\
  (forall j pj, nth_error pis j = Some pj -> eligible essentialPIs additionalPIs pj = true ->
                coverageCount pj uncovered <= coverageCount best uncovered) /\
  (forall j pj, j < k -> nth_error pis j = Some pj ->
                eligible essentialPIs additionalPIs pj = true ->
                coverageCount pj uncovered < coverageCount best uncovered).

(** State of the selection loop after the implicants [seen]. *)
Definition selectInv (seen essentialPIs additionalPIs : list term) (uncovered : list nat)
  (acc : option term * nat) : Prop :=
  match fst acc with
  | None =>
      snd acc = 0 /\
      forall pj, In pj seen -> eligible essentialPIs additionalPIs pj = true ->
                 coverageCount pj uncovered = 0
  | Some best =>
      snd acc = coverageCount best uncovered /\
      exists k, firstBest seen essentialPIs additionalPIs uncovered k best
  end.

(** The keys of an object come in strictly ascending order. *)
Fixpoint ascending {V : Type} (o : JsObject.t V) : Prop :=
  match o with
  | [] => True
  | (k, _) :: rest => (forall k', In k' (JsObject.keys rest) -> k < k') /\ ascending rest
  end.

(** The coverage object [cov] has the keys of [cov0] and lists, for each
    of them, the entries of [cov0] and the positions of the implicants
    of [ips] that cover it. *)
Definition coverageExtends (ips : list (nat * term))
  (cov0 cov : JsObject.t (list nat)) : Prop :=
  forall m,
    match JsObject.get cov0 m with
    | None => JsObject.get cov m = None
    | Some l0 =>
        exists l, JsObject.get cov m = Some l /\
                  forall j, In j l <-> In j l0 \/ exists pj, In (j, pj) ips /\ In m (minterms pj)
    end.

(** What holds of every implicant added by the greedy loop. *)
Definition greedyPick (pis : list term) (mins : list nat) (pi : term) : Prop :=
  In pi pis /\ exists m, In m mins /\ In m (minterms pi).

(** A string of binary digits. *)
Fixpoint allBits (s : string) : Prop :=
  match s with
  | EmptyString => True
  | String c r => (c = "0"%char \/ c = "1"%char) /\ allBits r
  end.

(** A term of the tabulation over [numVars] variables, for the set
    [ones] of minterms and don't-cares: its pattern has [numVars]
    symbols 0, 1 or -, its minterm list holds exactly the indices below
    [2^numVars] that the pattern covers, all of them members of [ones]. *)
Definition termOk (numVars : nat) (ones : list nat) (t : term) : Prop :=
  String.length (binary t) = numVars /\
  triState (binary t) /\
  (forall m, m < 2 ^ numVars ->
             (covers (binary t) (toBinary numVars m) = true <-> In m (minterms t))) /\
  incl (minterms t) ones.

(** The fields of a term object that are never written after its creation. *)
Definition frozen (t : term) : nat * string * list nat := (tid t, binary t, minterms t).

(** Invariant of one pass of the merge loop over the terms [terms0]. *)
Definition passInv (numVars : nat) (ones : list nat) (terms0 : list term) (st : passState)
  : Prop :=
  map frozen (ps_terms st) = map frozen terms0 /\
  Forall (termOk numVars ones) (ps_newTerms st) /\
  Forall (fun t => used t = false) (ps_newTerms st) /\
  NoDup (map tid (ps_newTerms st)) /\
  (forall t, In t (ps_newTerms st) -> tid t < ps_next st) /\
  (forall t, In t (ps_terms st) -> used t = true ->
             exists t', In t' (ps_newTerms st) /\ incl (minterms t) (minterms t')).

(** Every member of [ones] is listed by a term of [terms] or of [pis]. *)
Definition allCovered (ones : list nat) (terms pis : list term) : Prop :=
  forall m, In m ones -> exists t, In t (terms ++ pis) /\ In m (minterms t).

(** Invariant of the greedy loop, for the required minterms [mins] and
    the essential implicants [essentialPIs]. *)
Definition greedyInv (mins : list nat) (essentialPIs : list term)
  (st : list nat * list term) : Prop :=
  NoDup (fst st) /\
  incl (fst st) mins /\
  (forall m, In m mins ->
             In m (fst st) \/ exists t, In t (essentialPIs ++ snd st) /\ In m (minterms t)) /\
  (forall t, In t (essentialPIs ++ snd st) -> forall m, In m (minterms t) -> ~ In m (fst st)).

(** Value of the literal written for cube symbol [c] when the variable
    has the digit [b], and value of a whole product term. *)
Definition litValue (c b : ascii) : bool :=
  if Ascii.eqb c "1" then Ascii.eqb b "1"
  else if Ascii.eqb c "0" then negb (Ascii.eqb b "1")
  else true.

Fixpoint termValue (cube bits : string) : bool :=
  match cube, bits with
  | String c cube', String b bits' => litValue c b && termValue cube' bits'
  | _, _ => true
  end.

(* ================================================================== *)
(** * Further string primitives *)
(* ================================================================== *)

Module JsText.

(** [s.split(sep)] for a one-character separator: at least one piece. *)
Fixpoint split (sep : ascii) (s : string) : list string :=
  match s with
  | EmptyString => [EmptyString]
  | String c r =>
      if Ascii.eqb c sep then EmptyString :: split sep r
      else match split sep r with
           | piece :: pieces => String c piece :: pieces
           | [] => [String c EmptyString]
           end
  end.

(** White space of the ASCII range: tab, line feed, vertical tab, form
    feed, carriage return and space. *)
Definition isSpace (c : ascii) : bool :=
  let k := nat_of_ascii c in
  ((9 <=? k) && (k <=? 13)) || (k =? 32).

Fixpoint trimStart (s : string) : string :=
  match s with
  | EmptyString => EmptyString
  | String c r => if isSpace c then trimStart r else s
  end.

Fixpoint trimEnd (s : string) : string :=
  match s with
  | EmptyString => EmptyString
  | String c r =>
      match trimEnd r with
      | EmptyString => if isSpace c then EmptyString else String c EmptyString
      | r' => String c r'
      end
  end.

(** [s.trim()].  JavaScript also strips the white space outside the
    ASCII range; it is made of characters that are not letters. *)
Definition trim (s : string) : string := trimEnd (trimStart s).

(** The longest prefix of binary digits. *)
Fixpoint binaryPrefix (s : string) : string :=
  match s with
  | EmptyString => EmptyString
  | String c r =>
      if Ascii.eqb c "0" || Ascii.eqb c "1" then String c (binaryPrefix r) else EmptyString
  end.

(** [parseInt(s, 2)] for a text that starts with neither white space
    nor a sign: the value of its longest prefix of binary digits,
    [None] (the number NaN) when that prefix is empty. *)
Definition parseInt2 (s : string) : option nat :=
  match binaryPrefix s with
  | EmptyString => None
  | digits => Some (parseBinary digits)
  end.

End JsText.

(* ================================================================== *)
(** * js/kmap.js: getMintermFromPosition *)
(* ================================================================== *)

(** [a + grayCode[i]] for a string [a]: a missing entry concatenates
    as the text "undefined". *)
Definition appendGray (a : string) (i : nat) : string :=
  a +++ nth i grayCode "undefined"%string.

(** [getMintermFromPosition(row, col, numVars, mapIndex = 0)] for
    non-negative integer arguments; [None] is NaN.  A number added to a
    missing entry of [grayCode] is NaN, and so is everything built from
    it; a string added to a missing entry gets the text "undefined". *)
Definition getMintermFromPosition (row col numVars mapIndex : nat) : option nat :=
  match numVars with
  | 2 => Some (row * 2 + col)
  | 3 => match nth_error grayCode col with
         | Some g => JsText.parseInt2 (decimal row +++ g)
         | None => None
         end
  | 4 => match nth_error grayCode row with
         | Some g => JsText.parseInt2 (appendGray g col)
         | None => None
         end
  | 5 => match nth_error grayCode row with
         | Some g => JsText.parseInt2 (appendGray (decimal mapIndex +++ g) col)
         | None => None
         end
  | 6 => match nth_error grayCode mapIndex with
         | Some g => JsText.parseInt2 (appendGray (appendGray g row) col)
         | None => None
         end
  | _ => Some 0
  end.

(* ================================================================== *)
(** * js/parser.js: extractVariables, toSOP, toPOS *)
(* ================================================================== *)

(** [[...new Set(chars)]] on characters: first occurrences, in order. *)
Fixpoint uniqChars (seen cs : list ascii) : list ascii :=
  match cs with
  | [] => []
  | c :: rest =>
      if existsb (Ascii.eqb c) seen then uniqChars seen rest
      else c :: uniqChars (c :: seen) rest
  end.

(** [arr.sort()] on one-character strings: ascending character codes. *)
Fixpoint insertChar (c : ascii) (sorted : list ascii) : list ascii :=
  match sorted with
  | [] => [c]
  | d :: rest =>
      if nat_of_ascii c <=? nat_of_ascii d then c :: sorted else d :: insertChar c rest
  end.

Definition sortChars (cs : list ascii) : list ascii := fold_right insertChar [] cs.

(** [extractVariables(expression)]: the matches of [/[A-Za-z]/g], made
    unique, then sorted. *)
Definition extractVariables (expression : string) : list string :=
  letterNames (sortChars (uniqChars [] (filter isLetter (JsString.chars expression)))).

(** One product term of [toSOP]: [literals.join('')]. *)
Definition canonicalProduct (variables : list string) (minterm : nat) : string :=
  let bin := toBinary (List.length variables) minterm in
  JsString.join EmptyString
    (map (fun bi : nat * ascii =>
            if Ascii.eqb (snd bi) "1" then varJoined variables (fst bi)
            else varName variables (fst bi) +++ "'")
         (indexed (JsString.chars bin))).

Definition toSOP (mins : list nat) (variables : list string) : string :=
  if List.length mins =? 0 then "0"%string
  else if List.length mins =? 2 ^ List.length variables then "1"%string
  else JsString.join " + " (map (canonicalProduct variables) mins).

Definition toPOS (maxterms : list nat) (variables : list string) : string :=
  if List.length maxterms =? 0 then "1"%string
  else if List.length maxterms =? 2 ^ List.length variables then "0"%string
  else JsString.join EmptyString (map (posTerm variables) maxterms).

(* ================================================================== *)
(** * js/schematic.js: parseSOPTerms *)
(* ================================================================== *)

Record literal : Type := mkLiteral { variable : string; inverted : bool }.

(** The [while (i < term.length)] loop over the characters of a term. *)
Fixpoint scanLiterals (text : string) : list literal :=
  match text with
  | EmptyString => []
  | String c rest =>
      if isLetter c then
        match rest with
        | String q rest' =>
            if Ascii.eqb q "'" then mkLiteral (String c EmptyString) true :: scanLiterals rest'
            else mkLiteral (String c EmptyString) false :: scanLiterals rest
        | EmptyString => [mkLiteral (String c EmptyString) false]
        end
      else scanLiterals rest
  end.

(** [parseSOPTerms(sop)]: one literal list per product term. *)
Definition parseSOPTerms (sopText : string) : list (list literal) :=
  map (fun t => scanLiterals (JsText.trim t)) (JsText.split "+" sopText).

(* ================================================================== *)
(** * Reading a product of sums *)
(* ================================================================== *)

(** The text produced by [convertToPOS] and [toPOS] is read the usual
    way: sum terms in parentheses, multiplied together (with or without
    a middle dot between them); inside a sum, literals separated by
    " + "; [1] and [0] outside parentheses are the constants.
    [evalPOSFrom variables bits text acc cur]: [acc] is the product of
    the sums read so far, [cur] the value of the sum being read. *)
Fixpoint evalPOSFrom (variables : list string) (bits : string) (text : string)
  (acc cur : bool) {struct text} : option bool :=
  match text with
  | EmptyString => Some acc
  | String c rest =>
      if Ascii.eqb c "(" then evalPOSFrom variables bits rest acc false
      else if Ascii.eqb c ")" then evalPOSFrom variables bits rest (acc && cur) false
      else if Ascii.eqb c " " then
        match rest with
        | String p (String s rest') =>
            if Ascii.eqb p "+" && Ascii.eqb s " " then evalPOSFrom variables bits rest' acc cur
            else None
        | _ => None
        end
      else if Ascii.eqb c (ascii_of_nat 194) then
        match rest with
        | String d rest' =>
            if Ascii.eqb d (ascii_of_nat 183) then evalPOSFrom variables bits rest' acc cur
            else None
        | EmptyString => None
        end
      else if Ascii.eqb c "1" then evalPOSFrom variables bits rest acc cur
      else if Ascii.eqb c "0" then evalPOSFrom variables bits rest false cur
      else
        match lookupVar variables bits c with
        | Some v =>
            match rest with
            | String q rest' =>
                if Ascii.eqb q "'" then evalPOSFrom variables bits rest' acc (cur || negb v)
                else evalPOSFrom variables bits rest acc (cur || v)
            | EmptyString => None
            end
        | None => None
        end
  end.

Definition evalPOS (variables : list string) (numVars : nat) (text : string) (m : nat)
  : option bool :=
  evalPOSFrom variables (toBinary numVars m) text true false.

(** The literals of a cube, as [parseSOPTerms] returns them: one per
    position that is not a dash, inverted for the symbol 0. *)
Fixpoint cubeLiterals (letters : list ascii) (cube : string) : list literal :=
  match letters, cube with
  | x :: letters', String c cube' =>
      (if Ascii.eqb c "1" then [mkLiteral (String x EmptyString) false]
       else if Ascii.eqb c "0" then [mkLiteral (String x EmptyString) true]
       else []) ++ cubeLiterals letters' cube'
  | _, _ => []
  end.

(* ================================================================== *)
(** * Notions used in the further proofs *)
(* ================================================================== *)

(** A text without the character +. *)
Fixpoint noPlus (s : string) : Prop :=
  match s with
  | EmptyString => True
  | String c r => c <> "+"%char /\ noPlus r
  end.

(** A text made of white space only. *)
Fixpoint allSpaces (s : string) : Prop :=
  match s with
  | EmptyString => True
  | String c r => JsText.isSpace c = true /\ allSpaces r
  end.


(** Value of the sum term written for the maxterm digits [cs] when the
    variables have the digits [bits]: a digit 0 gives the variable
    itself, any other digit its complement. *)
Fixpoint sumValue (cs : list ascii) (bits : string) : bool :=
  match cs, bits with
  | c :: cs', String b bits' =>
      (if Ascii.eqb c "0" then Ascii.eqb b "1" else negb (Ascii.eqb b "1")) || sumValue cs' bits'
  | _, _ => false
  end.

(** The literal of a sum term, as [convertToPOS] and [toPOS] write it. *)
Definition posLiteral (variables : list string) (bi : nat * ascii) : string :=
  if Ascii.eqb (snd bi) "0" then varJoined variables (fst bi)
  else varName variables (fst bi) +++ "'".


(** ** Grids *)

(** Number of tiles of the map, as in [dimensions.maps] (a single grid
    for 2 to 4 variables). *)
Definition gridMaps (numVars : nat) : Z :=
  match numVars with 5 => 2%Z | 6 => 4%Z | _ => 1%Z end.

(** A cell inside the map of [numVars] variables. *)
Definition cellInside (numVars : nat) (p : cellPos) : bool :=
  ((0 <=? c_map p) && (c_map p <? gridMaps numVars) &&
   (0 <=? c_row p) && (c_row p <? gridRows numVars) &&
   (0 <=? c_col p) && (c_col p <? gridCols numVars))%Z.

(** All the cells of the map of [numVars] variables. *)
Definition cellsOf (numVars : nat) : list cellPos :=
  flat_map (fun k =>
    flat_map (fun r =>
      map (fun c => mkCell (Z.of_nat k) (Z.of_nat r) (Z.of_nat c))
          (seq 0 (Z.to_nat (gridCols numVars))))
      (seq 0 (Z.to_nat (gridRows numVars))))
    (seq 0 (Z.to_nat (gridMaps numVars))).

(** The index that [getMintermFromPosition] gives for a cell. *)
Definition mintermAt (numVars : nat) (p : cellPos) : option nat :=
  getMintermFromPosition (Z.to_nat (c_row p)) (Z.to_nat (c_col p)) numVars (Z.to_nat (c_map p)).

Definition cellPos_eqb (p q : cellPos) : bool :=
  ((c_map p =? c_map q) && (c_row p =? c_row q) && (c_col p =? c_col q))%Z.

(** Exhaustive checks, for one variable count: the cell of every index
    is inside the map and [getMintermFromPosition] gives the index
    back; every cell of the map gives an index below [2^numVars] whose
    cell it is; two cells that are neighbours hold indices that differ
    in one bit. *)
Definition cellRoundTripCheck (numVars : nat) : bool :=
  forallb (fun m =>
             match cellOf numVars m with
             | Some p => cellInside numVars p &&
                         match mintermAt numVars p with
                         | Some m' => m' =? m
                         | None => false
                         end
             | None => false
             end) (seq 0 (2 ^ numVars)).

Definition positionRoundTripCheck (numVars : nat) : bool :=
  forallb (fun p =>
             match mintermAt numVars p with
             | Some m => (m <? 2 ^ numVars) &&
                         match cellOf numVars m with
                         | Some q => cellPos_eqb p q
                         | None => false
                         end
             | None => false
             end) (cellsOf numVars).

Definition neighbourCheck (numVars : nat) : bool :=
  forallb (fun p =>
    forallb (fun q =>
      implb (adjacentCells numVars p q)
            (match mintermAt numVars p, mintermAt numVars q with
             | Some m1, Some m2 => isPowerOfTwo (Nat.lxor m1 m2)
             | _, _ => false
             end)) (cellsOf numVars)) (cellsOf numVars).

(** A grid of [rows] rows of [cols] cells. *)
Definition wellShaped (rows cols : nat) (g : grid2) : Prop :=
  List.length g = rows /\
  forall cells, In cells g -> List.length (row_cells cells) = cols.

(** The value at row [r], column [c] of a grid. *)
Definition gridAt (g : grid2) (r c : nat) : option cellValue :=
  match nth_error g r with
  | Some cells => nth_error (row_cells cells) c
  | None => None
  end.

(** The cell [p] is at row [r], column [c]. *)
Definition hits (p : cellPos) (r c : nat) : bool :=
  ((c_row p =? Z.of_nat r) && (c_col p =? Z.of_nat c))%Z.

(** Row and column of [p] are fit for a write into a grid of [rows]
    rows of [cols] cells: the row exists, the column exists or is -1. *)
Definition writable (rows cols : nat) (p : cellPos) : Prop :=
  (0 <= c_row p < Z.of_nat rows)%Z /\
  (c_col p = (-1)%Z \/ (0 <= c_col p < Z.of_nat cols)%Z).

(** The result of [ones.forEach] then [dontCares.forEach] at one cell. *)
Definition cellContent (mins dontCares : list nat) (m : nat) : cellValue :=
  if includesNat dontCares m then CX
  else if includesNat mins m then COne
  else CZero.

(** Rows and columns of a tile, as natural numbers. *)
Definition tileRows (numVars : nat) : nat := Z.to_nat (gridRows numVars).
Definition tileCols (numVars : nat) : nat := Z.to_nat (gridCols numVars).

(** The row and column computation used for [numVars] variables. *)
Definition cellFun (numVars : nat) : nat -> cellPos :=
  match numVars with
  | 2 => cell2
  | 3 => cell3
  | 4 => cell4
  | 5 => cell5
  | _ => cell6
  end.


(** The value at row [r], column [c] of tile [k]. *)
Definition gridsAt (gs : list grid2) (k r c : nat) : option cellValue :=
  match nth_error gs k with
  | Some g => gridAt g r c
  | None => None
  end.

(** The cell [p] is at row [r], column [c] of tile [k]. *)
Definition hits3 (p : cellPos) (k r c : nat) : bool :=
  (c_map p =? Z.of_nat k)%Z && hits p r c.

(** The truth table without the indices that have no assignment. *)
Definition dropOutOfRange (tt : kmapInput) : kmapInput :=
  mkKmapInput (filter (fun m => m <? 2 ^ k_numVars tt) (k_minterms tt))
              (k_variables tt) (k_numVars tt)
              (filter (fun m => m <? 2 ^ k_numVars tt) (k_dontCares tt)).


(** The class that the loop of [generateFromOutputs] gives to index [i]
    with output [output]. *)
Definition classifyOutput (dontCares : list nat) (i : nat) (output : jsValue) : rowOutput :=
  if isX output || includesNat dontCares i then OutX
  else if truthy output then Out1
  else Out0.

Definition sameOutput (a b : rowOutput) : bool :=
  match a, b with
  | Out0, Out0 | Out1, Out1 | OutX, OutX => true
  | _, _ => false
  end.

(** The indices below [2^n] of one class, in ascending order. *)
Definition indicesOfClass (numVars : nat) (outputs : list jsValue) (dontCares : list nat)
  (c : rowOutput) : list nat :=
  filter (fun i => sameOutput (classifyOutput dontCares i (nth i outputs JUndefined)) c)
         (seq 0 (2 ^ numVars)).

(** The row that the loop builds for index [i]. *)
Definition rowOf (variables : list string) (outputs : list jsValue) (dontCares : list nat)
  (i : nat) : ttRow :=
  let c := classifyOutput dontCares i (nth i outputs JUndefined) in
  mkRow i (rowInputs variables (toBinary (List.length variables) i)) c
        (toBinary (List.length variables) i) (sameOutput c OutX).


(** Character codes strictly ascending along the list. *)
Fixpoint ascendingCodes (cs : list ascii) : Prop :=
  match cs with
  | [] => True
  | c :: rest =>
      (forall d, In d rest -> nat_of_ascii c < nat_of_ascii d) /\ ascendingCodes rest
  end.


(** ** Prime implicants *)

(** Number of dashes of a cube. *)
Fixpoint dashCount (cube : string) : nat :=
  match cube with
  | EmptyString => 0
  | String c r => (if Ascii.eqb c "-" then 1 else 0) + dashCount r
  end.

(** The cube [cube] is an implicant of the function whose ones and
    don't-cares are [ones]: every assignment it contains is in [ones]. *)
Definition implicant (numVars : nat) (ones : list nat) (cube : string) : Prop :=
  forall m, m < 2 ^ numVars -> covers cube (toBinary numVars m) = true -> In m ones.

Definition implicantb (numVars : nat) (ones : list nat) (cube : string) : bool :=
  forallb (fun m => implb (covers cube (toBinary numVars m)) (includesNat ones m))
          (seq 0 (2 ^ numVars)).

(** The cube [cube] cannot be enlarged: replacing any one of its digits
    by a dash gives a cube that contains an assignment outside [ones]. *)
Definition prime (numVars : nat) (ones : list nat) (cube : string) : Prop :=
  forall pre x post,
    cube = pre +++ String x post -> x <> "-"%char ->
    exists m, m < 2 ^ numVars /\
              covers (pre +++ String "-" post) (toBinary numVars m) = true /\
              ~ In m ones.

(** [terms] holds every implicant with [k] dashes. *)
Definition complete (numVars : nat) (ones : list nat) (k : nat) (terms : list term) : Prop :=
  forall cube,
    String.length cube = numVars -> triState cube -> dashCount cube = k ->
    implicant numVars ones cube ->
    exists t, In t terms /\ binary t = cube.

(** The pair [term1], [term2] has been merged into [combined]: both
    objects are flagged and [newTerms] holds the merged pattern. *)
Definition pairDone (term1 term2 : term) (combined : string) (st : passState) : Prop :=
  (forall t, In t (ps_terms st) -> tid t = tid term1 \/ tid t = tid term2 -> used t = true) /\
  exists t', In t' (ps_newTerms st) /\ binary t' = combined.

(** The terms handled by pass number [k] of the tabulation. *)
Definition levelInv (numVars : nat) (ones : list nat) (k : nat) (terms : list term) : Prop :=
  Forall (termOk numVars ones) terms /\
  NoDup (map tid terms) /\
  Forall (fun t => used t = false) terms /\
  (forall t, In t terms -> dashCount (binary t) = k) /\
  complete numVars ones k terms.


(** Every flag set during a pass over [terms0] comes from a successful
    merge of two terms of [terms0]. *)
Definition flagsJustified (terms0 : list term) (st : passState) : Prop :=
  forall t, In t (ps_terms st) -> used t = true ->
    exists a b c,
      In a terms0 /\ In b terms0 /\
      combineBinary (binary a) (binary b) = Some c /\
      (tid t = tid a \/ tid t = tid b).


(** Two members of [l] with the same pattern are the same term object. *)
Definition samePatternSameTerm (l : list term) : Prop :=
  forall t1 t2, In t1 l -> In t2 l -> binary t1 = binary t2 -> t1 = t2.


(** [generate] records the index [m] in the cell [p]: whatever the
    truth table over [numVars] variables, with indices below
    [2^numVars], the call returns a map whose cell [p] holds the class
    of [m] in that table ('X' for a don't-care index, else 1 for a
    required index, else 0). *)
Definition recordsAt (numVars m : nat) (p : cellPos) : Prop :=
  forall tt : kmapInput,
    k_numVars tt = numVars ->
    (forall i, In i (k_minterms tt ++ k_dontCares tt) -> i < 2 ^ numVars) ->
    exists k,
      generate tt = Return k /\
      readCell (b_grid (km_body k)) p =
      Some (if includesNat (k_dontCares tt) m then CX
            else if includesNat (k_minterms tt) m then COne
            else CZero).




(** The rows of a generated map, tile after tile. *)
Definition shapeRows (shape : gridShape) : list gridRow :=
  match shape with
  | SingleGrid g => g
  | MultiGrid gs => List.concat gs
  end.

(** A row that has, besides its elements, no property or the property
    ["-1"] alone. *)
Definition strayOnly (row : gridRow) : Prop :=
  row_props row = [] \/ exists v, row_props row = [((-1)%Z, v)].

(* ================================================================== *)
(** * Strings: basic facts *)
(* ================================================================== *)

Section StringFacts.

Lemma append_assoc (a b c : string) : (a +++ b) +++ c = a +++ (b +++ c).
Proof. induction a as [|x a IH]; simpl; [reflexivity | now rewrite IH]. Qed.

Lemma append_empty_r (a : string) : a +++ EmptyString = a.
Proof. induction a as [|x a IH]; simpl; [reflexivity | now rewrite IH]. Qed.

Lemma length_append (a b : string) :
  String.length (a +++ b) = String.length a + String.length b.
Proof. induction a as [|x a IH]; simpl; [reflexivity | now rewrite IH]. Qed.

Lemma take_append (pre rest : string) :
  JsString.take (String.length pre) (pre +++ rest) = pre.
Proof. induction pre as [|x pre IH]; simpl; [now destruct rest | now rewrite IH]. Qed.

Lemma drop_append (pre rest : string) :
  JsString.drop (String.length pre) (pre +++ rest) = rest.
Proof. induction pre as [|x pre IH]; simpl; [now destruct rest | exact IH]. Qed.

Lemma get_middle (pre post : string) (x : ascii) :
  String.get (String.length pre) (pre +++ String x post) = Some x.
Proof. induction pre as [|c pre IH]; simpl; [reflexivity | exact IH]. Qed.

Lemma get_off_middle (pre post : string) (x y : ascii) (i : nat) :
  i <> String.length pre ->
  String.get i (pre +++ String x post) = String.get i (pre +++ String y post).
Proof.
  revert i; induction pre as [|c pre IH]; simpl; intros [|i] H; try reflexivity.
  - congruence.
  - apply IH; lia.
Qed.

Lemma get_ext (a b : string) : (forall i, String.get i a = String.get i b) -> a = b.
Proof. intro H; now apply get_correct. Qed.

Lemma opt_ascii_eqb_eq (x y : option ascii) : opt_ascii_eqb x y = true <-> x = y.
Proof.
  destruct x as [x|], y as [y|]; simpl; try (split; congruence).
  rewrite Ascii.eqb_eq; split; congruence.
Qed.

Lemma triState_append (a b : string) : triState (a +++ b) <-> triState a /\ triState b.
Proof. induction a as [|x a IH]; simpl; tauto. Qed.

End StringFacts.

(* ================================================================== *)
(** * combineBinary *)
(* ================================================================== *)

Section CombineBinary.

Lemma combineScan_same (a : string) (i d : nat) (p : Z) :
  combineScan a a i d p = Some (d, p).
Proof.
  revert i; induction a as [|c a IH]; intro i; simpl; [reflexivity|].
  rewrite Ascii.eqb_refl; simpl; apply IH.
Qed.

Lemma combineScan_prefix (pre a b : string) (i d : nat) (p : Z) :
  combineScan (pre +++ a) (pre +++ b) i d p
  = combineScan a b (i + String.length pre) d p.
Proof.
  revert i; induction pre as [|c pre IH]; intro i; simpl.
  - now rewrite Nat.add_0_r.
  - rewrite Ascii.eqb_refl; simpl. rewrite IH. f_equal; lia.
Qed.

Lemma combineScan_split (a b pre post : string) (x y : ascii) :
  splitAt a b pre x y post ->
  combineScan a b 0 0 (-1)%Z = Some (1, Z.of_nat (String.length pre)).
Proof.
  intros (-> & -> & Hxy & Hx & Hy).
  rewrite combineScan_prefix; simpl.
  destruct (Ascii.eqb_spec x y) as [E|_]; [contradiction|]; simpl.
  destruct (Ascii.eqb_spec x "-") as [E|_]; [contradiction|].
  destruct (Ascii.eqb_spec y "-") as [E|_]; [contradiction|]; simpl.
  apply combineScan_same.
Qed.

Lemma combineScan_inv (a : string) :
  forall (b : string) (i d : nat) (p : Z) (d' : nat) (q : Z),
    String.length a = String.length b ->
    combineScan a b i d p = Some (d', q) ->
    d <= d' /\
    (d' = d -> a = b /\ q = p) /\
    (d' = S d -> exists pre x y post,
         splitAt a b pre x y post /\ q = Z.of_nat (i + String.length pre)).
Proof.
  induction a as [|c a IH]; intros [|c2 b] i d p d' q Hlen H; simpl in *; try discriminate.
  - injection H as <- <-. split; [lia|]. split; [auto|]. intro; lia.
  - injection Hlen as Hlen.
    destruct (Ascii.eqb_spec c c2) as [<-|Hne]; simpl in H.
    + destruct (IH _ _ _ _ _ _ Hlen H) as (Hle & Heq & Hst).
      split; [exact Hle|]. split.
      * intro E. destruct (Heq E) as [-> ->]. now split.
      * intro E. destruct (Hst E) as (pre & x & y & post & (-> & -> & Hs) & ->).
        exists (String c pre), x, y, post. repeat split; try tauto.
        simpl. f_equal; lia.
    + destruct (Ascii.eqb c "-" || Ascii.eqb c2 "-") eqn:Hd; [discriminate|].
      apply orb_false_elim in Hd as [Hd1 Hd2].
      apply Ascii.eqb_neq in Hd1, Hd2.
      destruct (IH _ _ _ _ _ _ Hlen H) as (Hle & Heq & _).
      split; [lia|]. split; [intro; lia|].
      intro E. destruct (Heq E) as [-> ->].
      exists EmptyString, c, c2, b. repeat split; auto.
Qed.

Lemma combineBinary_split (a b pre post : string) (x y : ascii) :
  splitAt a b pre x y post ->
  combineBinary a b = Some (pre +++ String "-" post).
Proof.
  intro H. unfold combineBinary. rewrite (combineScan_split _ _ _ _ _ _ H). simpl.
  destruct H as (-> & _).
  rewrite Nat2Z.id, take_append.
  replace (Z.to_nat (Z.of_nat (String.length pre) + 1)) with (String.length (pre +++ String x EmptyString)).
  - replace (pre +++ String x post) with ((pre +++ String x EmptyString) +++ post)
      by (now rewrite append_assoc).
    now rewrite drop_append.
  - rewrite length_append; simpl; lia.
Qed.

Lemma combineBinary_inv (a b c : string) :
  String.length a = String.length b ->
  combineBinary a b = Some c ->
  exists pre x y post, splitAt a b pre x y post /\ c = pre +++ String "-" post.
Proof.
  intros Hlen H. unfold combineBinary in H.
  destruct (combineScan a b 0 0 (-1)%Z) as [[d q]|] eqn:Hs; [|discriminate].
  destruct (Nat.eqb_spec d 1) as [->|]; [|discriminate].
  destruct (combineScan_inv _ _ _ _ _ _ _ Hlen Hs) as (_ & _ & Hst).
  destruct (Hst eq_refl) as (pre & x & y & post & Hsp & _).
  exists pre, x, y, post. split; [exact Hsp|].
  pose proof (combineBinary_split _ _ _ _ _ _ Hsp) as E.
  unfold combineBinary in E. rewrite Hs in E. simpl in E, H. congruence.
Qed.

Lemma splitAt_sym (a b pre post : string) (x y : ascii) :
  splitAt a b pre x y post -> splitAt b a pre y x post.
Proof. unfold splitAt; intuition congruence. Qed.

Lemma combineBinary_comm (a b : string) :
  String.length a = String.length b -> combineBinary a b = combineBinary b a.
Proof.
  intro Hlen.
  destruct (combineBinary a b) as [c|] eqn:Hab.
  - destruct (combineBinary_inv _ _ _ Hlen Hab) as (pre & x & y & post & Hsp & ->).
    symmetry. apply (combineBinary_split _ _ _ _ _ _ (splitAt_sym _ _ _ _ _ _ Hsp)).
  - destruct (combineBinary b a) as [c|] eqn:Hba; [|reflexivity].
    destruct (combineBinary_inv _ _ _ (eq_sym Hlen) Hba) as (pre & x & y & post & Hsp & ->).
    rewrite (combineBinary_split _ _ _ _ _ _ (splitAt_sym _ _ _ _ _ _ Hsp)) in Hab.
    discriminate.
Qed.

Lemma differOnlyAt_split (a : string) :
  forall (b : string) (p : nat),
    String.length a = String.length b ->
    differOnlyAt a b p ->
    exists pre x y post,
      a = pre +++ String x post /\ b = pre +++ String y post /\
      x <> y /\ String.length pre = p.
Proof.
  induction a as [|x a IH]; intros [|y b] p Hlen [Hp Hrest]; simpl in *; try discriminate.
  - destruct p; simpl in Hp; congruence.
  - injection Hlen as Hlen. destruct p as [|p].
    + exists EmptyString, x, y, b. simpl. repeat split; try congruence.
      f_equal. apply get_ext. intro i. apply (Hrest (S i)). discriminate.
    + assert (x = y) as <- by (specialize (Hrest 0 ltac:(discriminate)); simpl in Hrest; congruence).
      destruct (IH b p Hlen) as (pre & x' & y' & post & -> & -> & Hxy & <-).
      * split; [exact Hp|]. intros i Hi. apply (Hrest (S i)). congruence.
      * exists (String x pre), x', y', post. simpl. repeat split; auto.
Qed.

Lemma split_differOnlyAt (pre post : string) (x y : ascii) :
  x <> y ->
  differOnlyAt (pre +++ String x post) (pre +++ String y post) (String.length pre).
Proof.
  intro Hxy. split.
  - rewrite !get_middle. congruence.
  - intros i Hi. now apply get_off_middle.
Qed.

End CombineBinary.

Section CombineBinarySpec.

Lemma triState_middle (pre post : string) (x : ascii) :
  triState (pre +++ String x post) -> x <> "-"%char -> x = "0"%char \/ x = "1"%char.
Proof.
  intros H Hx. apply triState_append in H as [_ [Hc _]].
  unfold triStateChar in Hc. tauto.
Qed.

Lemma merge_at (a b : string) (p : nat) :
  String.length a = String.length b ->
  differOnlyAt a b p ->
  String.get p a <> Some "-"%char -> String.get p b <> Some "-"%char ->
  exists pre x y post, splitAt a b pre x y post /\ String.length pre = p.
Proof.
  intros Hlen Hd Ha Hb.
  destruct (differOnlyAt_split _ _ _ Hlen Hd) as (pre & x & y & post & -> & -> & Hxy & <-).
  rewrite get_middle in Ha, Hb.
  exists pre, x, y, post. unfold splitAt. repeat split; congruence.
Qed.

(** C5. For pattern strings [a] and [b] of the same length over
    0, 1 and -, [combineBinary a b] is not [null] exactly when the two
    strings differ at one position only and neither has a dash there
    (so one has 0 and the other 1); the result is then [a] with a dash
    at that position and every other position unchanged; and the
    result does not depend on the order of the two arguments. *)
Theorem combineBinary_single_difference (a b : string) :
  String.length a = String.length b -> triState a -> triState b ->
  (combineBinary a b <> None <->
   exists p, differOnlyAt a b p /\
             String.get p a <> Some "-"%char /\ String.get p b <> Some "-"%char)
  /\
  (forall p, differOnlyAt a b p ->
             String.get p a <> Some "-"%char -> String.get p b <> Some "-"%char ->
     ((String.get p a = Some "0"%char /\ String.get p b = Some "1"%char) \/
      (String.get p a = Some "1"%char /\ String.get p b = Some "0"%char)) /\
     exists c, combineBinary a b = Some c /\
               String.length c = String.length a /\
               String.get p c = Some "-"%char /\
               forall i, i <> p -> String.get i c = String.get i a)
  /\
  combineBinary a b = combineBinary b a.
Proof.
  intros Hlen Ta Tb.
  assert (Hmerge : forall p, differOnlyAt a b p ->
             String.get p a <> Some "-"%char -> String.get p b <> Some "-"%char ->
     ((String.get p a = Some "0"%char /\ String.get p b = Some "1"%char) \/
      (String.get p a = Some "1"%char /\ String.get p b = Some "0"%char)) /\
     exists c, combineBinary a b = Some c /\
               String.length c = String.length a /\
               String.get p c = Some "-"%char /\
               forall i, i <> p -> String.get i c = String.get i a).
  { intros p Hd Ha Hb.
    destruct (merge_at _ _ _ Hlen Hd Ha Hb) as (pre & x & y & post & Hsp & <-).
    pose proof (combineBinary_split _ _ _ _ _ _ Hsp) as Hc.
    destruct Hsp as (-> & -> & Hxy & Hx & Hy).
    pose proof (triState_middle _ _ _ Ta Hx) as Hx01.
    pose proof (triState_middle _ _ _ Tb Hy) as Hy01.
    rewrite !get_middle. split.
    - destruct Hx01 as [-> | ->], Hy01 as [-> | ->]; auto; congruence.
    - exists (pre +++ String "-" post). split; [exact Hc|].
      split; [now rewrite !length_append|].
      split; [apply get_middle|].
      intros i Hi. now apply get_off_middle. }
  split; [|split; [exact Hmerge | now apply combineBinary_comm]].
  split.
  - intro Hne. destruct (combineBinary a b) as [c|] eqn:Hc; [|congruence].
    destruct (combineBinary_inv _ _ _ Hlen Hc) as (pre & x & y & post & Hsp & _).
    destruct Hsp as (-> & -> & Hxy & Hx & Hy).
    exists (String.length pre). rewrite !get_middle.
    split; [now apply split_differOnlyAt|]. split; congruence.
  - intros (p & Hd & Ha & Hb).
    destruct (Hmerge p Hd Ha Hb) as (_ & c & -> & _). discriminate.
Qed.

Lemma combineBinary_single_difference_witness :
  String.length "1010" = String.length "1011" /\
  combineBinary "1010" "1011" = combineBinary "1011" "1010".
Proof.
  split; [reflexivity|].
  apply (combineBinary_single_difference "1010" "1011");
    [reflexivity | simpl; unfold triStateChar; tauto | simpl; unfold triStateChar; tauto].
Defined.

End CombineBinarySpec.

(* ================================================================== *)
(** * The merge loop: number of passes *)
(* ================================================================== *)

Section MergePasses.

Lemma qmLoop_passes (remaining : nat) :
  forall (terms pis : list term) (next passes : nat),
    let r := qmLoop remaining terms pis next passes in
    run_passes r <= passes + remaining /\
    match run_exit r with
    | PassBound => run_passes r = passes + remaining
    | NoNewTerms =>
        passes < run_passes r /\
        exists terms' next',
          ps_newTerms (mergePass terms' next') = [] /\
          run_terms r = ps_terms (mergePass terms' next')
    end.
Proof.
  induction remaining as [|remaining IH]; intros terms pis next passes; simpl.
  - split; lia.
  - destruct (ps_newTerms (mergePass terms next)) as [|t new] eqn:Hnew; simpl.
    + split; [lia|]. split; [lia|]. exists terms, next. now split.
    + specialize (IH (t :: new) (pushUnused pis (ps_terms (mergePass terms next)))
                     (ps_next (mergePass terms next)) (S passes)).
      simpl in IH. destruct IH as [Hle Hex]. split; [lia|].
      destruct (run_exit _); [|lia].
      destruct Hex as [Hlt Hlast]. split; [lia | exact Hlast].
Qed.

(** C9. Whatever the minterm list and the variable count [numVars],
    the merge loop of [quineMcCluskey] stops after at most [numVars]
    passes: it is left either because a pass produced no new term or
    because [numVars] passes have been made. *)
Theorem quineMcCluskey_pass_bound (mins : list nat) (numVars : nat) :
  let r := quineMcCluskeyRun mins numVars in
  run_passes r <= numVars /\
  match run_exit r with
  | PassBound => run_passes r = numVars
  | NoNewTerms =>
      exists terms next,
        ps_newTerms (mergePass terms next) = [] /\
        run_terms r = ps_terms (mergePass terms next)
  end.
Proof.
  unfold quineMcCluskeyRun.
  destruct (qmLoop_passes numVars (initialTerms mins numVars) [] (List.length mins) 0)
    as [Hle Hex].
  split; [exact Hle|].
  destruct (run_exit _); [tauto | exact Hex].
Qed.

(** C3 (defect). When the loop is left through [break], the terms of
    the last pass have already been pushed inside the loop and are
    pushed a second time by the code that follows it: for the single
    minterm 0 over two variables the returned list holds the pattern
    00 twice. *)
Theorem quineMcCluskey_repeats_last_pass :
  map binary (quineMcCluskey [0] 2) = ["00"; "00"]%string /\
  ~ NoDup (map binary (quineMcCluskey [0] 2)).
Proof.
  split; [reflexivity|].
  intro H. change (map binary (quineMcCluskey [0] 2)) with ["00"; "00"]%string in H.
  inversion H as [|? ? Hin _]. apply Hin. now left.
Qed.

End MergePasses.

(* ================================================================== *)
(** * simplify: the two constant results *)
(* ================================================================== *)

Section ConstantResults.

Lemma full_domain_length (mins : list nat) (size : nat) :
  NoDup mins -> (forall m, In m mins <-> m < size) -> List.length mins = size.
Proof.
  intros Hnd Hall.
  transitivity (List.length (seq 0 size)); [|apply length_seq].
  apply Permutation_length.
  apply NoDup_Permutation; [exact Hnd | apply seq_NoDup |].
  intro m. rewrite in_seq, Hall. lia.
Qed.

(** C8. [simplify] returns the constant results before any other
    computation: with no required minterm, sop "0" and pos "1"; with
    the required minterms being the whole domain [0, 2^numVars), sop
    "1" and pos "0"; the two implicant lists are empty in both cases. *)
Theorem simplify_constant_cases (kmap : kmapInput) :
  (k_minterms kmap = [] ->
   simplify kmap = mkSimplified "0" "1" [] [] None)
  /\
  (NoDup (k_minterms kmap) ->
   (forall m, In m (k_minterms kmap) <-> m < 2 ^ k_numVars kmap) ->
   simplify kmap = mkSimplified "1" "0" [] [] None).
Proof.
  unfold simplify. split.
  - intros ->. reflexivity.
  - intros Hnd Hall.
    rewrite (full_domain_length _ _ Hnd Hall).
    rewrite Nat.eqb_refl.
    destruct (Nat.eqb_spec (2 ^ k_numVars kmap) 0) as [E|_]; [|reflexivity].
    pose proof (Nat.pow_nonzero 2 (k_numVars kmap)). lia.
Qed.

Lemma simplify_constant_cases_witness :
  simplify (mkKmapInput [] ["A"; "B"]%string 2 []) = mkSimplified "0" "1" [] [] None /\
  simplify (mkKmapInput [0; 1; 2; 3] ["A"; "B"]%string 2 []) = mkSimplified "1" "0" [] [] None.
Proof.
  split.
  - apply (simplify_constant_cases (mkKmapInput [] ["A"; "B"]%string 2 [])). reflexivity.
  - apply (simplify_constant_cases (mkKmapInput [0; 1; 2; 3] ["A"; "B"]%string 2 [])); simpl.
    + repeat constructor; simpl; intuition discriminate.
    + intro m. lia.
Defined.

End ConstantResults.

(* ================================================================== *)
(** * generateFromOutputs: the three index lists *)
(* ================================================================== *)

Section TruthTableLists.

Variables (variables : list string) (numVars : nat) (dontCares : list nat).

Lemma ttStep_classified (st : ttState) (io : nat * jsValue) :
  Permutation (classified (ttStep variables numVars dontCares st io)) (fst io :: classified st).
Proof.
  unfold ttStep, classified.
  destruct (isX (snd io) || includesNat dontCares (fst io)); [|destruct (truthy (snd io))];
    simpl; symmetry.
  - replace (s_minterms st ++ s_maxterms st ++ s_dontCareTerms st ++ [fst io])
      with ((s_minterms st ++ s_maxterms st ++ s_dontCareTerms st) ++ [fst io])
      by (now rewrite <- !app_assoc).
    apply Permutation_cons_append.
  - rewrite <- app_assoc. apply Permutation_middle.
  - replace (s_minterms st ++ (s_maxterms st ++ [fst io]) ++ s_dontCareTerms st)
      with ((s_minterms st ++ s_maxterms st) ++ fst io :: s_dontCareTerms st)
      by (now rewrite <- !app_assoc).
    rewrite (app_assoc (s_minterms st)). apply Permutation_middle.
Qed.

Lemma ttFold_classified (l : list (nat * jsValue)) :
  forall st, Permutation (classified (fold_left (ttStep variables numVars dontCares) l st)) (map fst l ++ classified st).
Proof.
  induction l as [|io l IH]; intro st; simpl; [reflexivity|].
  rewrite IH, ttStep_classified. symmetry. apply Permutation_middle.
Qed.

Lemma ttStep_keeps (st : ttState) (io : nat * jsValue) :
  (forall i, In i (s_dontCareTerms st) -> In i (s_dontCareTerms (ttStep variables numVars dontCares st io))) /\
  (forall r, In r (s_rows st) -> In r (s_rows (ttStep variables numVars dontCares st io))).
Proof.
  unfold ttStep.
  destruct (isX (snd io) || includesNat dontCares (fst io)); [|destruct (truthy (snd io))];
    simpl; split; intros; try assumption; apply in_or_app; now left.
Qed.

Lemma ttFold_keeps (l : list (nat * jsValue)) :
  forall st,
    (forall i, In i (s_dontCareTerms st) -> In i (s_dontCareTerms (fold_left (ttStep variables numVars dontCares) l st))) /\
    (forall r, In r (s_rows st) -> In r (s_rows (fold_left (ttStep variables numVars dontCares) l st))).
Proof.
  induction l as [|io l IH]; intro st; simpl; [tauto|].
  destruct (IH (ttStep variables numVars dontCares st io)) as [H1 H2], (ttStep_keeps st io) as [K1 K2]. split; auto.
Qed.

Lemma ttFold_dontCare (l : list (nat * jsValue)) :
  forall st io,
    In io l -> includesNat dontCares (fst io) = true ->
    In (fst io) (s_dontCareTerms (fold_left (ttStep variables numVars dontCares) l st)) /\
    exists row, In row (s_rows (fold_left (ttStep variables numVars dontCares) l st)) /\
                r_index row = fst io /\ r_output row = OutX /\ r_isDontCare row = true.
Proof.
  induction l as [|io' l IH]; intros st io Hin Hdc; simpl in *; [contradiction|].
  destruct Hin as [->|Hin]; [|now apply IH].
  destruct (ttFold_keeps l (ttStep variables numVars dontCares st io)) as [K1 K2].
  assert (E : ttStep variables numVars dontCares st io =
              mkTTState (s_rows st ++ [mkRow (fst io) (rowInputs variables (toBinary numVars (fst io)))
                                             OutX (toBinary numVars (fst io)) true])
                        (s_minterms st) (s_maxterms st) (s_dontCareTerms st ++ [fst io])).
  { unfold ttStep. now rewrite Hdc, orb_true_r. }
  split.
  - apply K1. rewrite E. simpl. apply in_or_app. right. now left.
  - eexists. split; [apply K2; rewrite E; simpl; apply in_or_app; right; now left|].
    simpl. auto.
Qed.

End TruthTableLists.

Section GenerateFromOutputs.

Lemma map_fst_combine {A B : Type} (l1 : list A) :
  forall l2 : list B, List.length l2 = List.length l1 -> map fst (combine l1 l2) = l1.
Proof.
  induction l1 as [|a l1 IH]; intros [|b l2] H; simpl in *; try discriminate; try reflexivity.
  f_equal. apply IH. lia.
Qed.

Lemma in_combine_exists {A B : Type} (l1 : list A) :
  forall (l2 : list B) (a : A),
    List.length l2 = List.length l1 -> In a l1 -> exists b, In (a, b) (combine l1 l2).
Proof.
  induction l1 as [|x l1 IH]; intros [|y l2] a H Hin; simpl in *; try discriminate;
    try contradiction.
  destruct Hin as [->|Hin].
  - exists y. now left.
  - destruct (IH l2 a ltac:(lia) Hin) as [b Hb]. exists b. now right.
Qed.

Lemma NoDup_app_disjoint {A : Type} (l1 l2 : list A) (x : A) :
  NoDup (l1 ++ l2) -> In x l1 -> In x l2 -> False.
Proof.
  induction l1 as [|a l1 IH]; simpl; intros H H1 H2; [contradiction|].
  inversion H as [|? ? Hnotin Hnd]; subst.
  destruct H1 as [->|H1]; [|now apply IH].
  apply Hnotin. apply in_or_app. now right.
Qed.

Lemma includesNat_In (l : list nat) (m : nat) : includesNat l m = true <-> In m l.
Proof.
  unfold includesNat. rewrite existsb_exists. split.
  - intros (x & Hx & E). apply Nat.eqb_eq in E. now subst.
  - intro H. exists m. split; [exact H | apply Nat.eqb_refl].
Qed.

(** C10. When [outputs] has [2^n] entries, [n] being the number of
    variables, [generateFromOutputs] returns lists [minterms],
    [maxterms] and [dontCares] that are pairwise disjoint and hold
    every index below [2^n] exactly once; an index listed in the
    [dontCares] argument is classified as a don't-care, with output
    'X', whatever its entry in [outputs]. *)
Theorem generateFromOutputs_partition
  (variables : list string) (outputs : list jsValue) (dontCares : list nat) :
  List.length outputs = 2 ^ List.length variables ->
  exists tt,
    generateFromOutputs variables outputs dontCares = Return tt /\
    NoDup (tt_minterms tt ++ tt_maxterms tt ++ tt_dontCares tt) /\
    (forall i, In i (tt_minterms tt ++ tt_maxterms tt ++ tt_dontCares tt)
               <-> i < 2 ^ List.length variables) /\
    (forall i, In i (tt_minterms tt) -> In i (tt_maxterms tt) -> False) /\
    (forall i, In i (tt_minterms tt) -> In i (tt_dontCares tt) -> False) /\
    (forall i, In i (tt_maxterms tt) -> In i (tt_dontCares tt) -> False) /\
    (forall i, i < 2 ^ List.length variables -> In i dontCares ->
               In i (tt_dontCares tt) /\
               exists row, In row (tt_rows tt) /\ r_index row = i /\ r_output row = OutX).
Proof.
  intro Hlen. unfold generateFromOutputs. rewrite Hlen, Nat.eqb_refl. simpl.
  set (n := List.length variables) in *.
  set (l := combine (seq 0 (2 ^ n)) outputs).
  set (st := fold_left (ttStep variables n dontCares) l (mkTTState [] [] [] [])).
  eexists. split; [reflexivity|]. simpl.
  assert (Hfst : map fst l = seq 0 (2 ^ n))
    by (apply map_fst_combine; now rewrite length_seq).
  assert (Hperm : Permutation (s_minterms st ++ s_maxterms st ++ s_dontCareTerms st)
                              (seq 0 (2 ^ n))).
  { pose proof (ttFold_classified variables n dontCares l (mkTTState [] [] [] [])) as P.
    unfold classified in P. simpl in P. now rewrite app_nil_r, Hfst in P. }
  assert (Hnd : NoDup (s_minterms st ++ s_maxterms st ++ s_dontCareTerms st)).
  { apply (Permutation_NoDup (Permutation_sym Hperm)), seq_NoDup. }
  split; [exact Hnd|]. split; [|split; [|split; [|split]]].
  - intro i. split; intro H.
    + apply (Permutation_in _ Hperm), in_seq in H. lia.
    + apply (Permutation_in _ (Permutation_sym Hperm)), in_seq. lia.
  - intros i H1 H2. apply (NoDup_app_disjoint _ _ i Hnd H1). apply in_or_app. now left.
  - intros i H1 H2. apply (NoDup_app_disjoint _ _ i Hnd H1). apply in_or_app. now right.
  - intros i H1 H2. apply NoDup_app_remove_l in Hnd.
    exact (NoDup_app_disjoint _ _ i Hnd H1 H2).
  - intros i Hi Hdc.
    destruct (in_combine_exists (seq 0 (2 ^ n)) outputs i) as [o Ho];
      [now rewrite length_seq | apply in_seq; lia |].
    destruct (ttFold_dontCare variables n dontCares l (mkTTState [] [] [] []) (i, o) Ho)
      as (H1 & row & H2 & H3 & H4 & _); [now apply includesNat_In|].
    split; [exact H1|]. exists row. auto.
Qed.

Lemma generateFromOutputs_partition_witness :
  exists tt,
    generateFromOutputs ["A"; "B"]%string [JNum 0; JNum 1; JNum 1; JNum 0] [2] = Return tt /\
    tt_minterms tt = [1] /\ tt_maxterms tt = [0; 3] /\ tt_dontCares tt = [2].
Proof.
  destruct (generateFromOutputs_partition
              ["A"; "B"]%string [JNum 0; JNum 1; JNum 1; JNum 0] [2] eq_refl)
    as (tt & Htt & _).
  exists tt. split; [exact Htt|].
  vm_compute in Htt. injection Htt as <-. repeat split.
Defined.

End GenerateFromOutputs.

(* ================================================================== *)
(** * Validation errors of generate and generateFromOutputs *)
(* ================================================================== *)

Section Validation.

Lemma bind_notValidation {A B : Type} (x : outcome A) (f : A -> outcome B) :
  notValidation x -> (forall a, notValidation (f a)) -> notValidation (bind x f).
Proof.
  intros Hx Hf. destruct x as [a|e]; simpl; [apply Hf|].
  intros message E. apply (Hx message). congruence.
Qed.

Lemma return_notValidation {A : Type} (a : A) : notValidation (Return a).
Proof. intros message E. discriminate. Qed.

Lemma writeCell_notValidation (g : grid2) (row col : Z) (v : cellValue) :
  notValidation (writeCell g row col v).
Proof.
  unfold writeCell. destruct (row <? 0)%Z; [intros m E; discriminate|].
  destruct (nth_error g (Z.to_nat row)); intros m E; discriminate.
Qed.

Lemma writeCell3_notValidation (gs : list grid2) (k row col : Z) (v : cellValue) :
  notValidation (writeCell3 gs k row col v).
Proof.
  unfold writeCell3. destruct (k <? 0)%Z; [intros m E; discriminate|].
  destruct (nth_error gs (Z.to_nat k)); [|intros m E; discriminate].
  apply bind_notValidation; [apply writeCell_notValidation|].
  intro a. apply return_notValidation.
Qed.

Lemma fillGrid_notValidation (cell : nat -> cellPos) (v : cellValue) (indices : list nat) :
  forall g, notValidation (fillGrid cell v indices g).
Proof.
  unfold fillGrid.
  assert (H : forall acc : outcome grid2, notValidation acc ->
            notValidation (fold_left
              (fun acc m => bind acc (fun g => writeCell g (c_row (cell m)) (c_col (cell m)) v))
              indices acc)).
  { induction indices as [|m indices IH]; intros acc Hacc; simpl; [exact Hacc|].
    apply IH. apply bind_notValidation; [exact Hacc|].
    intro a. apply writeCell_notValidation. }
  intro g. apply H, return_notValidation.
Qed.

Lemma fillGrids_notValidation (cell : nat -> cellPos) (v : cellValue) (indices : list nat) :
  forall gs, notValidation (fillGrids cell v indices gs).
Proof.
  unfold fillGrids.
  assert (H : forall acc : outcome (list grid2), notValidation acc ->
            notValidation (fold_left
              (fun acc m => bind acc (fun gs =>
                 writeCell3 gs (c_map (cell m)) (c_row (cell m)) (c_col (cell m)) v))
              indices acc)).
  { induction indices as [|m indices IH]; intros acc Hacc; simpl; [exact Hacc|].
    apply IH. apply bind_notValidation; [exact Hacc|].
    intro a. apply writeCell3_notValidation. }
  intro gs. apply H, return_notValidation.
Qed.

Ltac create_ok :=
  repeat (apply bind_notValidation;
          [first [apply fillGrid_notValidation | apply fillGrids_notValidation] | intro]);
  apply return_notValidation.

Lemma create_notValidation (variables : list string) (mins dontCares : list nat) :
  notValidation (create2VarKMap variables mins dontCares) /\
  notValidation (create3VarKMap variables mins dontCares) /\
  notValidation (create4VarKMap variables mins dontCares) /\
  notValidation (create5VarKMap variables mins dontCares) /\
  notValidation (create6VarKMap variables mins dontCares).
Proof.
  unfold create2VarKMap, create3VarKMap, create4VarKMap, create5VarKMap, create6VarKMap.
  repeat split; create_ok.
Qed.

Lemma generate_validation (tt : kmapInput) :
  isValidationError (generate tt) <-> (k_numVars tt < 2 \/ 6 < k_numVars tt).
Proof.
  unfold generate.
  destruct ((k_numVars tt <? 2) || (6 <? k_numVars tt)) eqn:G.
  - split; [intros _|intros _; eexists; reflexivity].
    apply orb_true_iff in G as [G|G]; [left; now apply Nat.ltb_lt | right; now apply Nat.ltb_lt].
  - split.
    + intros [message E]. exfalso. revert message E.
      apply bind_notValidation; [|intro; apply return_notValidation].
      destruct (create_notValidation (k_variables tt) (k_minterms tt) (k_dontCares tt))
        as (H2 & H3 & H4 & H5 & H6).
      destruct (k_numVars tt) as [|[|[|[|[|[|n]]]]]]; assumption.
    + apply orb_false_iff in G as [G1 G2].
      apply Nat.ltb_ge in G1, G2. lia.
Qed.

Lemma generateFromOutputs_validation
  (variables : list string) (outputs : list jsValue) (dontCares : list nat) :
  isValidationError (generateFromOutputs variables outputs dontCares)
  <-> List.length outputs <> 2 ^ List.length variables.
Proof.
  unfold generateFromOutputs.
  destruct (Nat.eqb_spec (List.length outputs) (2 ^ List.length variables)) as [E|E]; simpl.
  - split; [intros [message H]; discriminate | contradiction].
  - split; [intros _; exact E | intros _; eexists; reflexivity].
Qed.

(** C7, as the code has it. A validation error is raised by
    [generate] exactly when the variable count is outside [2,6] (the
    check is the first statement, and the error does not depend on
    the index lists), and by [generateFromOutputs] exactly when the
    output vector does not have [2^n] entries.  Nothing is said of
    indices outside [0, 2^n) or of overlapping index sets: no function
    checks them. *)
Theorem validation_errors_as_implemented :
  (forall tt, isValidationError (generate tt) <-> (k_numVars tt < 2 \/ 6 < k_numVars tt)) /\
  (forall tt, k_numVars tt < 2 \/ 6 < k_numVars tt ->
              generate tt = Throw (Error "K-map supports 2-6 variables only")) /\
  (forall variables outputs dontCares,
      isValidationError (generateFromOutputs variables outputs dontCares)
      <-> List.length outputs <> 2 ^ List.length variables).
Proof.
  split; [exact generate_validation|]. split; [|exact generateFromOutputs_validation].
  intros tt H. unfold generate.
  destruct ((k_numVars tt <? 2) || (6 <? k_numVars tt)) eqn:G; [reflexivity|].
  apply orb_false_iff in G as [G1 G2]. apply Nat.ltb_ge in G1, G2. lia.
Qed.

(** C7 as stated fails: index 8 is outside [0, 2^3) and the sets {1}
    and {1} overlap, yet [generate] returns a map in both cases. *)
Lemma validation_counterexample :
  let tt1 := mkKmapInput [8] ["A"; "B"; "C"]%string 3 [] in
  let tt2 := mkKmapInput [1] ["A"; "B"]%string 2 [1] in
  (indexOutOfRange tt1 /\ ~ isValidationError (generate tt1) /\
   exists k, generate tt1 = Return k) /\
  (setsOverlap tt2 /\ ~ isValidationError (generate tt2) /\
   exists k, generate tt2 = Return k).
Proof.
  simpl. split; split.
  - exists 8. simpl. split; [now left | lia].
  - split; [intros [message E]; vm_compute in E; discriminate|].
    eexists. vm_compute. reflexivity.
  - exists 1. simpl. split; now left.
  - split; [intros [message E]; vm_compute in E; discriminate|].
    eexists. vm_compute. reflexivity.
Qed.

End Validation.

(* ================================================================== *)
(** * Adjacency of the cells of the map *)
(* ================================================================== *)

Section Adjacency.

Lemma adjacencyCheck_all :
  forallb adjacencyCheck [2; 3; 4; 5; 6] = true.
Proof. vm_compute. reflexivity. Qed.

Lemma placementCheck_all :
  forallb placementCheck [2; 3; 4; 5; 6] = true.
Proof. vm_compute. reflexivity. Qed.

Lemma isPowerOfTwo_complete (x k : nat) : x < 64 -> x = 2 ^ k -> isPowerOfTwo x = true.
Proof.
  intros Hx ->. unfold isPowerOfTwo. apply existsb_exists.
  exists k. split; [|apply Nat.eqb_refl].
  apply in_seq. split; [lia|]. simpl.
  change 64 with (2 ^ 6) in Hx. apply Nat.pow_lt_mono_r_iff in Hx; lia.
Qed.

(** [generate] records a required index [m] in the cell [cellOf numVars m]. *)
Lemma generate_marks_cellOf (numVars m : nat) :
  2 <= numVars <= 6 -> m < 2 ^ numVars ->
  exists k p,
    generate (mkKmapInput [m] [] numVars []) = Return k /\
    cellOf numVars m = Some p /\
    readCell (b_grid (km_body k)) p = Some COne /\
    cellCount COne (b_grid (km_body k)) = 1.
Proof.
  intros Hn Hm.
  pose proof placementCheck_all as H. rewrite forallb_forall in H.
  assert (Hin : In numVars [2; 3; 4; 5; 6]) by (simpl; lia).
  specialize (H _ Hin). unfold placementCheck in H. rewrite forallb_forall in H.
  specialize (H m ltac:(apply in_seq; lia)). unfold placementCheckAt in H.
  destruct (generate _) as [k|]; [|discriminate].
  destruct (cellOf numVars m) as [p|]; [|discriminate].
  exists k, p. repeat split.
  - destruct (readCell _ p) as [[| | |]|]; try discriminate. reflexivity.
  - destruct (readCell _ p) as [[| | |]|]; try discriminate. now apply Nat.eqb_eq.
Qed.

End Adjacency.

(* ================================================================== *)
(** * Arrays used as sets *)
(* ================================================================== *)

Section ArraySets.

Lemma setAdd_In (s : list nat) (m x : nat) : In x (setAdd s m) <-> In x s \/ x = m.
Proof.
  unfold setAdd. destruct (includesNat s m) eqn:E.
  - apply includesNat_In in E. split; [tauto | intros [H | ->]; assumption].
  - rewrite in_app_iff. simpl. intuition.
Qed.

Lemma setAdd_NoDup (s : list nat) (m : nat) : NoDup s -> NoDup (setAdd s m).
Proof.
  intro H. unfold setAdd. destruct (includesNat s m) eqn:E; [exact H|].
  assert (~ In m s) by (rewrite <- includesNat_In; congruence).
  apply NoDup_app; [exact H | repeat constructor; auto | ].
  intros a Ha [<- | []]. contradiction.
Qed.

Lemma uniq_fold_In (l : list nat) :
  forall acc x, In x (fold_left setAdd l acc) <-> In x acc \/ In x l.
Proof.
  induction l as [|m l IH]; intros acc x; simpl; [tauto|].
  rewrite IH, setAdd_In. intuition.
Qed.

Lemma uniq_In (l : list nat) (x : nat) : In x (uniq l) <-> In x l.
Proof. unfold uniq. rewrite uniq_fold_In. simpl. tauto. Qed.

Lemma removeFirst_In (m : nat) (l : list nat) (x : nat) :
  NoDup l -> (In x (removeFirst m l) <-> In x l /\ x <> m).
Proof.
  induction l as [|y l IH]; intro Hnd; simpl; [tauto|].
  inversion Hnd as [|? ? Hy Hl]; subst.
  destruct (Nat.eqb_spec y m) as [->|Hne].
  - split; [intro H; split; [now right | intros ->; contradiction]|].
    intros [[<- | H] Hx]; [contradiction | exact H].
  - simpl. rewrite (IH Hl). split.
    + intros [<- | [H Hx]]; split; auto.
    + intros [[<- | H] Hx]; [now left | right; now split].
Qed.

Lemma removeFirst_NoDup (m : nat) (l : list nat) : NoDup l -> NoDup (removeFirst m l).
Proof.
  induction l as [|y l IH]; intro Hnd; simpl; [constructor|].
  inversion Hnd as [|? ? Hy Hl]; subst.
  destruct (Nat.eqb_spec y m) as [->|Hne]; [exact Hl|].
  constructor; [|now apply IH].
  rewrite (removeFirst_In _ _ _ Hl). tauto.
Qed.

Lemma removeAll_spec (ms : list nat) :
  forall unc, NoDup unc ->
    NoDup (fold_left (fun u m => removeFirst m u) ms unc) /\
    forall x, In x (fold_left (fun u m => removeFirst m u) ms unc) <-> In x unc /\ ~ In x ms.
Proof.
  induction ms as [|m ms IH]; intros unc Hnd; simpl; [tauto|].
  destruct (IH (removeFirst m unc) (removeFirst_NoDup _ _ Hnd)) as [H1 H2].
  split; [exact H1|]. intro x. rewrite H2, (removeFirst_In _ _ _ Hnd). intuition.
Qed.

Lemma NoDup_smaller (l l' : list nat) (m : nat) :
  NoDup l -> incl l l' -> In m l' -> ~ In m l -> List.length l < List.length l'.
Proof.
  intros Hnd Hincl Hm Hnot.
  assert (H : List.length (m :: l) <= List.length l').
  { apply NoDup_incl_length; [now constructor|].
    intros x [<- | Hx]; [exact Hm | now apply Hincl]. }
  simpl in H. lia.
Qed.

Lemma coverageCount_positive (pi : term) (unc : list nat) :
  0 < coverageCount pi unc <-> exists m, In m (minterms pi) /\ In m unc.
Proof.
  unfold coverageCount. split.
  - destruct (filter (includesNat unc) (minterms pi)) as [|m l] eqn:E; simpl; [lia|].
    intros _. exists m.
    assert (H : In m (filter (includesNat unc) (minterms pi))) by (rewrite E; now left).
    apply filter_In in H as [H1 H2]. split; [exact H1 | now apply includesNat_In].
  - intros (m & H1 & H2).
    assert (H : In m (filter (includesNat unc) (minterms pi)))
      by (apply filter_In; split; [exact H1 | now apply includesNat_In]).
    destruct (filter _ _); [contradiction | simpl; lia].
Qed.

Lemma removeCovered_spec (pi : term) (unc : list nat) :
  NoDup unc ->
  NoDup (removeCovered pi unc) /\
  (forall x, In x (removeCovered pi unc) <-> In x unc /\ ~ In x (minterms pi)) /\
  (0 < coverageCount pi unc -> List.length (removeCovered pi unc) < List.length unc).
Proof.
  intro Hnd. unfold removeCovered.
  destruct (removeAll_spec (minterms pi) unc Hnd) as [H1 H2].
  split; [exact H1|]. split; [exact H2|].
  intro Hpos. apply coverageCount_positive in Hpos as (m & Hm1 & Hm2).
  apply (NoDup_smaller _ _ m H1); [|exact Hm2|].
  - intros x Hx. now apply H2 in Hx.
  - rewrite H2. tauto.
Qed.

End ArraySets.

(* ================================================================== *)
(** * The greedy step *)
(* ================================================================== *)

Section GreedyStep.

Variables (essentialPIs additionalPIs : list term) (uncovered : list nat).

Lemma nth_error_snoc {A : Type} (l : list A) (a x : A) (j : nat) :
  nth_error (l ++ [a]) j = Some x ->
  nth_error l j = Some x \/ (j = List.length l /\ x = a).
Proof.
  intro H. destruct (Nat.lt_ge_cases j (List.length l)) as [Hlt|Hge].
  - left. now rewrite nth_error_app1 in H.
  - right. rewrite nth_error_app2 in H by exact Hge.
    destruct (j - List.length l) as [|d] eqn:E; simpl in H.
    + split; [lia | congruence].
    + destruct d; discriminate.
Qed.

Lemma nth_error_keep {A : Type} (l l' : list A) (x : A) (j : nat) :
  nth_error l j = Some x -> nth_error (l ++ l') j = Some x.
Proof.
  intro H. rewrite nth_error_app1; [exact H|].
  apply nth_error_Some. congruence.
Qed.

Lemma select_step (seen : list term) (acc : option term * nat) (pi : term) :
  selectInv seen essentialPIs additionalPIs uncovered acc ->
  selectInv (seen ++ [pi]) essentialPIs additionalPIs uncovered
    (if negb (includesTerm essentialPIs pi) && negb (includesTerm additionalPIs pi) then
       if snd acc <? coverageCount pi uncovered then (Some pi, coverageCount pi uncovered)
       else acc
     else acc).
Proof.
  intro Hinv. fold (eligible essentialPIs additionalPIs pi).
  destruct (eligible essentialPIs additionalPIs pi) eqn:Hel.
  - destruct (Nat.ltb_spec (snd acc) (coverageCount pi uncovered)) as [Hlt|Hge].
    + (* pi becomes the best *)
      unfold selectInv; simpl. split; [reflexivity|].
      exists (List.length seen). unfold firstBest.
      split; [now rewrite nth_error_app2, Nat.sub_diag by lia|].
      split; [exact Hel|]. split; [lia|].
      assert (Hseen : forall j pj, nth_error seen j = Some pj ->
                eligible essentialPIs additionalPIs pj = true ->
                coverageCount pj uncovered < coverageCount pi uncovered).
      { intros j pj Hj Hpj. unfold selectInv in Hinv.
        destruct (fst acc) as [best|].
        - destruct Hinv as (E & k & _ & _ & _ & Hmax & _).
          specialize (Hmax j pj Hj Hpj). lia.
        - destruct Hinv as (E & Hzero).
          rewrite (Hzero pj (nth_error_In _ _ Hj) Hpj). lia. }
      split.
      * intros j pj Hj Hpj. apply nth_error_snoc in Hj as [Hj | [_ ->]]; [|lia].
        specialize (Hseen j pj Hj Hpj). lia.
      * intros j pj Hlt' Hj Hpj. apply nth_error_snoc in Hj as [Hj | [-> _]]; [|lia].
        exact (Hseen j pj Hj Hpj).
    + (* the accumulator is kept *)
      unfold selectInv in *. destruct (fst acc) as [best|].
      * destruct Hinv as (E & k & Hk & Hbe & Hpos & Hmax & Hfirst).
        split; [exact E|]. exists k. unfold firstBest.
        split; [now apply nth_error_keep|]. split; [exact Hbe|]. split; [exact Hpos|].
        assert (Hklt : k < List.length seen) by (apply nth_error_Some; congruence).
        split.
        -- intros j pj Hj Hpj. apply nth_error_snoc in Hj as [Hj | [_ ->]]; [eauto | lia].
        -- intros j pj Hlt' Hj Hpj. apply nth_error_snoc in Hj as [Hj | [-> _]]; [eauto | lia].
      * destruct Hinv as (E & Hzero). split; [exact E|].
        intros pj Hin Hpj. apply in_app_iff in Hin as [Hin | [<- | []]]; [eauto | lia].
  - (* pi is not eligible *)
    unfold selectInv in *. destruct (fst acc) as [best|].
    + destruct Hinv as (E & k & Hk & Hbe & Hpos & Hmax & Hfirst).
      split; [exact E|]. exists k. unfold firstBest.
      split; [now apply nth_error_keep|]. split; [exact Hbe|]. split; [exact Hpos|].
      split.
      * intros j pj Hj Hpj. apply nth_error_snoc in Hj as [Hj | [_ ->]]; [eauto | congruence].
      * intros j pj Hlt' Hj Hpj. apply nth_error_snoc in Hj as [Hj | [_ ->]]; [eauto | congruence].
    + destruct Hinv as (E & Hzero). split; [exact E|].
      intros pj Hin Hpj. apply in_app_iff in Hin as [Hin | [<- | []]]; [eauto | congruence].
Qed.

Lemma select_fold (l : list term) :
  forall seen acc,
    selectInv seen essentialPIs additionalPIs uncovered acc ->
    selectInv (seen ++ l) essentialPIs additionalPIs uncovered
      (fold_left
         (fun (acc : option term * nat) pi =>
            if negb (includesTerm essentialPIs pi) && negb (includesTerm additionalPIs pi) then
              let coverage := coverageCount pi uncovered in
              if snd acc <? coverage then (Some pi, coverage) else acc
            else acc) l acc).
Proof.
  induction l as [|pi l IH]; intros seen acc Hinv; simpl.
  - now rewrite app_nil_r.
  - replace (seen ++ pi :: l) with ((seen ++ [pi]) ++ l) by (now rewrite <- app_assoc).
    apply IH. now apply select_step.
Qed.

Lemma selectBest_spec (pis : list term) :
  selectInv pis essentialPIs additionalPIs uncovered
            (selectBest pis essentialPIs additionalPIs uncovered).
Proof.
  unfold selectBest. apply (select_fold pis [] (None, 0)).
  unfold selectInv; simpl. split; [reflexivity | contradiction].
Qed.

End GreedyStep.

Section GreedySelection.

(** C4, as the code has it. One execution of the body of the greedy
    loop, on a duplicate-free array [uncovered]: if some prime implicant
    not yet selected covers an uncovered minterm, the step selects the
    one covering the most uncovered minterms, ties going to the
    implicant that comes first in the prime implicant list; it appends
    it to the selection and removes exactly the minterms it covers from
    [uncovered], which gets shorter.  Otherwise the loop is left. *)
Theorem greedyStep_first_best
  (pis essentialPIs additionalPIs : list term) (uncovered : list nat) :
  NoDup uncovered ->
  match greedyStep pis essentialPIs (uncovered, additionalPIs) with
  | Some (uncovered', additionalPIs') =>
      exists k best,
        firstBest pis essentialPIs additionalPIs uncovered k best /\
        additionalPIs' = additionalPIs ++ [best] /\
        uncovered' = removeCovered best uncovered /\
        (forall x, In x uncovered' <-> In x uncovered /\ ~ In x (minterms best)) /\
        List.length uncovered' < List.length uncovered
  | None =>
      forall pj, In pj pis -> eligible essentialPIs additionalPIs pj = true ->
                 coverageCount pj uncovered = 0
  end.
Proof.
  intro Hnd. unfold greedyStep.
  pose proof (selectBest_spec essentialPIs additionalPIs uncovered pis) as Hinv.
  unfold selectInv in Hinv.
  destruct (fst (selectBest pis essentialPIs additionalPIs uncovered)) as [best|].
  - destruct Hinv as (_ & k & Hbest). exists k, best.
    destruct (removeCovered_spec best uncovered Hnd) as (_ & Hin & Hlen).
    split; [exact Hbest|]. split; [reflexivity|]. split; [reflexivity|].
    split; [exact Hin|]. apply Hlen. now destruct Hbest as (_ & _ & Hpos & _).
  - now destruct Hinv as (_ & Hzero).
Qed.

Lemma greedyStep_first_best_witness :
  NoDup [7] /\
  exists k best,
    firstBest (quineMcCluskey [7; 3; 4; 5; 6] 3) [] [] [7] k best /\
    greedyStep (quineMcCluskey [7; 3; 4; 5; 6] 3) [] ([7], [])
    = Some (removeCovered best [7], [best]).
Proof.
  assert (Hnd : NoDup [7]) by (repeat constructor; simpl; tauto).
  split; [exact Hnd|].
  pose proof (greedyStep_first_best (quineMcCluskey [7; 3; 4; 5; 6] 3) [] [] [7] Hnd) as H.
  destruct (greedyStep (quineMcCluskey [7; 3; 4; 5; 6] 3) [] ([7], [])) as [[u a]|] eqn:E.
  - destruct H as (k & best & Hbest & -> & -> & _).
    exists k, best. split; [exact Hbest | reflexivity].
  - vm_compute in E. discriminate.
Defined.

(** C4 as stated fails on the tie-break: with required minterm 7 and
    don't-cares 3, 4, 5, 6 over three variables, no implicant is
    essential, the cubes -11 (two literals) and 1-- (one literal) both
    cover the single uncovered minterm, and the step selects -11, which
    comes first in the list. *)
Lemma greedy_tie_break_counterexample :
  let pis := quineMcCluskey [7; 3; 4; 5; 6] 3 in
  essentialOnly pis [7] = [] /\
  uncoveredAfterEssential [] [7] = [7] /\
  exists picked other,
    greedyStep pis [] ([7], []) = Some ([], [picked]) /\
    binary picked = "-11"%string /\
    In other pis /\ binary other = "1--"%string /\
    eligible [] [] other = true /\
    coverageCount other [7] = coverageCount picked [7] /\
    literalCount (binary other) < literalCount (binary picked) /\
    sop (simplify (mkKmapInput [7] ["A"; "B"; "C"]%string 3 [3; 4; 5; 6])) = "BC"%string.
Proof.
  cbv zeta. split; [reflexivity|]. split; [reflexivity|].
  exists (mkTerm 7 "-11" [3; 7] false), (mkTerm 10 "1--" [4; 5; 6; 7] false).
  vm_compute. repeat split; auto.
Qed.

End GreedySelection.

(* ================================================================== *)
(** * Objects with integer keys *)
(* ================================================================== *)

Section ObjectFacts.

Context {V : Type}.

Lemma get_set (o : JsObject.t V) (k k' : nat) (v : V) :
  JsObject.get (JsObject.set o k v) k' = if k' =? k then Some v else JsObject.get o k'.
Proof.
  induction o as [|[k0 v0] o IH]; simpl.
  - reflexivity.
  - destruct (Nat.eqb_spec k k0) as [->|Hne]; simpl.
    + destruct (Nat.eqb_spec k' k0); reflexivity.
    + destruct (Nat.ltb_spec k k0); simpl.
      * destruct (Nat.eqb_spec k' k); reflexivity.
      * rewrite IH. destruct (Nat.eqb_spec k' k0) as [E0|], (Nat.eqb_spec k' k) as [E|];
          try reflexivity. congruence.
Qed.

Lemma keys_set (o : JsObject.t V) (k k' : nat) (v : V) :
  In k' (JsObject.keys (JsObject.set o k v)) <-> k' = k \/ In k' (JsObject.keys o).
Proof.
  unfold JsObject.keys. induction o as [|[k0 v0] o IH]; simpl.
  - intuition.
  - destruct (Nat.eqb_spec k k0) as [->|Hne]; simpl; [intuition|].
    destruct (Nat.ltb_spec k k0); simpl; [intuition|].
    rewrite IH. intuition.
Qed.

Lemma ascending_set (o : JsObject.t V) (k : nat) (v : V) :
  ascending o -> ascending (JsObject.set o k v).
Proof.
  induction o as [|[k0 v0] o IH]; simpl.
  - intros _. split; [contradiction | exact I].
  - intros [Hlt Hasc].
    destruct (Nat.eqb_spec k k0) as [->|Hne]; simpl; [now split|].
    destruct (Nat.ltb_spec k k0) as [Hk|Hk]; simpl.
    + split; [|now split].
      intros k' [<- | Hin]; [exact Hk|]. specialize (Hlt k' Hin). lia.
    + split; [|now apply IH].
      intros k' Hin. apply keys_set in Hin as [-> | Hin]; [lia | now apply Hlt].
Qed.

Lemma get_In (o : JsObject.t V) (k : nat) (v : V) :
  JsObject.get o k = Some v -> In (k, v) o.
Proof.
  induction o as [|[k0 v0] o IH]; simpl; [discriminate|].
  destruct (Nat.eqb_spec k k0) as [->|Hne].
  - intros [= ->]. now left.
  - intro H. right. now apply IH.
Qed.

Lemma In_get (o : JsObject.t V) (k : nat) (v : V) :
  ascending o -> In (k, v) o -> JsObject.get o k = Some v.
Proof.
  induction o as [|[k0 v0] o IH]; simpl; [contradiction|].
  intros [Hlt Hasc] [[= -> ->] | Hin].
  - now rewrite Nat.eqb_refl.
  - destruct (Nat.eqb_spec k k0) as [->|Hne]; [|now apply IH].
    exfalso. apply (Nat.lt_irrefl k0). apply Hlt.
    unfold JsObject.keys. apply in_map_iff. now exists (k0, v).
Qed.

Lemma values_get (o : JsObject.t V) (v : V) :
  ascending o -> (In v (JsObject.values o) <-> exists k, JsObject.get o k = Some v).
Proof.
  intro Hasc. unfold JsObject.values. rewrite in_map_iff. split.
  - intros ([k v'] & E & Hin). simpl in E. subst v'. exists k. now apply In_get.
  - intros [k Hk]. exists (k, v). split; [reflexivity | now apply get_In].
Qed.

End ObjectFacts.

(* ================================================================== *)
(** * The coverage object *)
(* ================================================================== *)

Section Coverage.

Lemma coverageInit_fold (mins : list nat) :
  forall cov : JsObject.t (list nat),
    ascending cov ->
    ascending (fold_left (fun coverage m => JsObject.set coverage m []) mins cov) /\
    forall k, JsObject.get (fold_left (fun coverage m => JsObject.set coverage m []) mins cov) k
              = if includesNat mins k then Some [] else JsObject.get cov k.
Proof.
  induction mins as [|m mins IH]; intros cov Hasc; simpl; [now split|].
  destruct (IH (JsObject.set cov m []) (ascending_set _ _ _ Hasc)) as [H1 H2].
  split; [exact H1|]. intro k. rewrite H2, get_set.
  destruct (Nat.eqb_spec k m); simpl; [now destruct (includesNat mins k) | reflexivity].
Qed.

Lemma coverageInit_spec (mins : list nat) :
  ascending (coverageInit mins) /\
  forall k, JsObject.get (coverageInit mins) k = if includesNat mins k then Some [] else None.
Proof. apply (coverageInit_fold mins JsObject.empty). exact I. Qed.

Lemma coverageExtends_refl (cov : JsObject.t (list nat)) : coverageExtends [] cov cov.
Proof.
  intro m. destruct (JsObject.get cov m) as [l|]; [|reflexivity].
  exists l. split; [reflexivity|]. intro j. split; [tauto|].
  intros [H | (pj & [] & _)]. exact H.
Qed.

Lemma coverageExtends_trans (ips1 ips2 : list (nat * term)) (cov0 cov1 cov2 : JsObject.t (list nat)) :
  coverageExtends ips1 cov0 cov1 -> coverageExtends ips2 cov1 cov2 ->
  coverageExtends (ips1 ++ ips2) cov0 cov2.
Proof.
  intros H1 H2 m. specialize (H1 m). specialize (H2 m).
  destruct (JsObject.get cov0 m) as [l0|].
  - destruct H1 as (l1 & E1 & Hl1). rewrite E1 in H2.
    destruct H2 as (l2 & E2 & Hl2). exists l2. split; [exact E2|].
    intro j. rewrite Hl2, Hl1. split.
    + intros [[H | (pj & Hin & Hm)] | (pj & Hin & Hm)]; [now left | right | right];
        exists pj; (split; [apply in_app_iff; auto | exact Hm]).
    + intros [H | (pj & Hin & Hm)]; [now left; left|].
      apply in_app_iff in Hin as [Hin | Hin]; [left; right | right]; now exists pj.
  - now rewrite H1 in H2.
Qed.

(** The inner loop of the coverage construction, for the implicant at
    position [i] and the part [ms] of its minterm list. *)
Lemma coveragePush_fold (i : nat) (ms : list nat) :
  forall cov : JsObject.t (list nat),
    ascending cov ->
    let cov' :=
      fold_left (fun cov m =>
                   match JsObject.get cov m with
                   | Some piList => JsObject.set cov m (piList ++ [i])
                   | None => cov
                   end) ms cov in
    ascending cov' /\
    forall m,
      match JsObject.get cov m with
      | None => JsObject.get cov' m = None
      | Some l0 => exists l, JsObject.get cov' m = Some l /\
                             forall j, In j l <-> In j l0 \/ (j = i /\ In m ms)
      end.
Proof.
  induction ms as [|x ms IH]; intros cov Hasc; simpl.
  - split; [exact Hasc|]. intro m. destruct (JsObject.get cov m) as [l|]; [|reflexivity].
    exists l. split; [reflexivity|]. intro j. tauto.
  - set (cov1 := match JsObject.get cov x with
                 | Some piList => JsObject.set cov x (piList ++ [i])
                 | None => cov
                 end).
    assert (Hasc1 : ascending cov1)
      by (unfold cov1; destruct (JsObject.get cov x); [now apply ascending_set | exact Hasc]).
    destruct (IH cov1 Hasc1) as [H1 H2]. split; [exact H1|].
    intro m. specialize (H2 m).
    assert (Hget1 : JsObject.get cov1 m =
                    match JsObject.get cov m with
                    | Some l0 => Some (if m =? x then l0 ++ [i] else l0)
                    | None => None
                    end).
    { unfold cov1. destruct (JsObject.get cov x) as [pl|] eqn:Ex.
      - rewrite get_set. destruct (Nat.eqb_spec m x) as [->|]; [now rewrite Ex|].
        now destruct (JsObject.get cov m).
      - destruct (Nat.eqb_spec m x) as [->|]; [now rewrite Ex|].
        now destruct (JsObject.get cov m). }
    rewrite Hget1 in H2. destruct (JsObject.get cov m) as [l0|]; [|exact H2].
    destruct H2 as (l & El & Hl). exists l. split; [exact El|].
    intro j. rewrite Hl. destruct (Nat.eqb_spec m x) as [->|Hne].
    + rewrite in_app_iff. simpl. intuition.
    + intuition congruence.
Qed.

Lemma coverageAdd_spec (cov : JsObject.t (list nat)) (ipi : nat * term) :
  ascending cov ->
  ascending (coverageAdd cov ipi) /\ coverageExtends [ipi] cov (coverageAdd cov ipi).
Proof.
  intro Hasc. destruct (coveragePush_fold (fst ipi) (minterms (snd ipi)) cov Hasc) as [H1 H2].
  split; [exact H1|]. intro m. specialize (H2 m). fold (coverageAdd cov ipi) in H2.
  destruct (JsObject.get cov m) as [l0|]; [|exact H2].
  destruct H2 as (l & El & Hl). exists l. split; [exact El|].
  intro j. rewrite Hl. split.
  - intros [H | [-> Hm]]; [now left|]. right. exists (snd ipi). split; [|exact Hm].
    left. now destruct ipi.
  - intros [H | (pj & [E | []] & Hm)]; [now left|].
    subst ipi. right. now split.
Qed.

Lemma coverage_fold (ips : list (nat * term)) :
  forall cov, ascending cov ->
    ascending (fold_left coverageAdd ips cov) /\
    coverageExtends ips cov (fold_left coverageAdd ips cov).
Proof.
  induction ips as [|ipi ips IH]; intros cov Hasc; simpl.
  - split; [exact Hasc | apply coverageExtends_refl].
  - destruct (coverageAdd_spec cov ipi Hasc) as [H1 H2].
    destruct (IH _ H1) as [H3 H4]. split; [exact H3|].
    exact (coverageExtends_trans [ipi] ips _ _ _ H2 H4).
Qed.

Lemma combine_seq_In {A : Type} (l : list A) :
  forall (s j : nat) (x : A),
    In (j, x) (combine (seq s (List.length l)) l) <-> s <= j /\ nth_error l (j - s) = Some x.
Proof.
  induction l as [|a l IH]; intros s j x; simpl.
  - split; [contradiction|]. intros [_ H]. destruct (j - s); discriminate.
  - rewrite IH. split.
    + intros [[= <- <-] | [Hle Hnth]].
      * split; [lia|]. now rewrite Nat.sub_diag.
      * split; [lia|]. replace (j - s) with (S (j - S s)) by lia. exact Hnth.
    + intros [Hle Hnth]. destruct (j - s) as [|d] eqn:E; simpl in Hnth.
      * left. injection Hnth as ->. f_equal. lia.
      * right. split; [lia|]. replace (j - S s) with d by lia. exact Hnth.
Qed.

Lemma indexed_In {A : Type} (l : list A) (j : nat) (x : A) :
  In (j, x) (indexed l) <-> nth_error l j = Some x.
Proof.
  unfold indexed. rewrite combine_seq_In, Nat.sub_0_r. split; [tauto | split; [lia | tauto]].
Qed.

(** The coverage object built by [findEssentialPrimeImplicants]: its
    keys are the required minterms, and the list of a minterm holds
    exactly the positions of the prime implicants covering it. *)
Lemma buildCoverage_spec (pis : list term) (mins : list nat) :
  ascending (buildCoverage pis mins) /\
  forall m,
    if includesNat mins m then
      exists l, JsObject.get (buildCoverage pis mins) m = Some l /\
                forall j, In j l <-> exists pj, nth_error pis j = Some pj /\ In m (minterms pj)
    else JsObject.get (buildCoverage pis mins) m = None.
Proof.
  destruct (coverageInit_spec mins) as [Hasc Hget].
  destruct (coverage_fold (indexed pis) (coverageInit mins) Hasc) as [H1 H2].
  split; [exact H1|]. intro m. specialize (H2 m). rewrite Hget in H2.
  fold (buildCoverage pis mins) in H2.
  destruct (includesNat mins m); [|exact H2].
  destruct H2 as (l & El & Hl). exists l. split; [exact El|].
  intro j. rewrite Hl. split.
  - intros [[] | (pj & Hin & Hm)]. exists pj. split; [now apply indexed_In | exact Hm].
  - intros (pj & Hnth & Hm). right. exists pj. split; [now apply indexed_In | exact Hm].
Qed.

End Coverage.

(* ================================================================== *)
(** * Essential and additional implicants *)
(* ================================================================== *)

Section EssentialList.

Lemma essentialIndices_fold (vals : list (list nat)) :
  forall acc i,
    In i (fold_left (fun essentialIndices piList =>
                       match piList with
                       | [i] => setAdd essentialIndices i
                       | _ => essentialIndices
                       end) vals acc)
    <-> In i acc \/ In [i] vals.
Proof.
  induction vals as [|pl vals IH]; intros acc i; simpl; [tauto|].
  rewrite IH. destruct pl as [|a [|b r]].
  - intuition discriminate.
  - rewrite setAdd_In. split.
    + intros [[H | ->] | H]; auto.
    + intros [H | [[= ->] | H]]; auto.
  - intuition discriminate.
Qed.

Lemma lookupAll_In (pis : list term) (indices : list nat) (pi : term) :
  In pi (lookupAll pis indices) <-> exists i, In i indices /\ nth_error pis i = Some pi.
Proof.
  unfold lookupAll. rewrite in_flat_map. split.
  - intros (i & Hi & Hin). exists i. split; [exact Hi|].
    destruct (nth_error pis i) as [p|]; [|contradiction].
    destruct Hin as [-> | []]. reflexivity.
  - intros (i & Hi & Hnth). exists i. split; [exact Hi|]. rewrite Hnth. now left.
Qed.

Lemma essentialOnly_In (pis : list term) (mins : list nat) (pi : term) :
  In pi (essentialOnly pis mins) <->
  exists m i, JsObject.get (buildCoverage pis mins) m = Some [i] /\ nth_error pis i = Some pi.
Proof.
  unfold essentialOnly. rewrite lookupAll_In.
  destruct (buildCoverage_spec pis mins) as [Hasc _].
  unfold essentialIndicesOf. split.
  - intros (i & Hi & Hnth). apply essentialIndices_fold in Hi as [[] | Hi].
    apply (values_get _ _ Hasc) in Hi as [m Hm]. now exists m, i.
  - intros (m & i & Hm & Hnth). exists i. split; [|exact Hnth].
    apply essentialIndices_fold. right. apply (values_get _ _ Hasc). now exists m.
Qed.

(** A minterm whose coverage list has the single entry [i]: it is a
    required minterm, the implicant at position [i] covers it, and no
    implicant at another position does. *)
Lemma sole_entry (pis : list term) (mins : list nat) (m i : nat) (pi : term) :
  JsObject.get (buildCoverage pis mins) m = Some [i] ->
  nth_error pis i = Some pi ->
  In m mins /\ In m (minterms pi) /\
  forall j pj, nth_error pis j = Some pj -> In m (minterms pj) -> j = i.
Proof.
  intros Hget Hnth.
  destruct (buildCoverage_spec pis mins) as [_ Hspec]. specialize (Hspec m).
  destruct (includesNat mins m) eqn:Hm; [|congruence].
  destruct Hspec as (l & El & Hl). rewrite Hget in El. injection El as <-.
  split; [now apply includesNat_In|]. split.
  - destruct (proj1 (Hl i) (or_introl eq_refl)) as (pj & Hpj & Hcov). congruence.
  - intros j pj Hj Hcov.
    destruct (proj2 (Hl j) (ex_intro _ pj (conj Hj Hcov))) as [E | []]. now symmetry.
Qed.

Lemma removeFirst_incl (m : nat) (l : list nat) (x : nat) :
  In x (removeFirst m l) -> In x l.
Proof.
  induction l as [|y l IH]; simpl; [tauto|].
  destruct (y =? m); simpl; [now right | intros [H | H]; auto].
Qed.

Lemma removeCovered_incl (pi : term) (unc : list nat) (x : nat) :
  In x (removeCovered pi unc) -> In x unc.
Proof.
  unfold removeCovered. revert unc.
  induction (minterms pi) as [|m ms IH]; intro unc; simpl; [tauto|].
  intro H. apply IH in H. now apply removeFirst_incl in H.
Qed.

Lemma greedyLoop_picks (pis essentialPIs : list term) (mins : list nat) (fuel : nat) :
  forall unc add,
    incl unc mins ->
    (forall p, In p add -> greedyPick pis mins p) ->
    forall p, In p (snd (greedyLoop fuel pis essentialPIs (unc, add))) -> greedyPick pis mins p.
Proof.
  induction fuel as [|fuel IH]; intros unc add Hincl Hadd; simpl; [exact Hadd|].
  destruct unc as [|u unc']; [exact Hadd|].
  set (unc := u :: unc') in *.
  pose proof (selectBest_spec essentialPIs add unc pis) as Hinv. unfold selectInv in Hinv.
  destruct (fst (selectBest pis essentialPIs add unc)) as [best|]; [|exact Hadd].
  destruct Hinv as (_ & k & Hk & _ & Hpos & _).
  apply IH.
  - intros x Hx. apply Hincl. now apply removeCovered_incl in Hx.
  - intros p Hp. apply in_app_iff in Hp as [Hp | [<- | []]]; [now apply Hadd|].
    split; [exact (nth_error_In _ _ Hk)|].
    apply coverageCount_positive in Hpos as (m & Hm1 & Hm2).
    exists m. split; [now apply Hincl | exact Hm1].
Qed.

Lemma additionalOnly_In (pis : list term) (mins : list nat) (pi : term) :
  In pi (additionalOnly pis mins) -> greedyPick pis mins pi.
Proof.
  unfold additionalOnly. apply greedyLoop_picks; [|contradiction].
  unfold uncoveredAfterEssential. intros x Hx. now apply filter_In in Hx.
Qed.


End EssentialList.

(* ================================================================== *)
(** * Binary numerals *)
(* ================================================================== *)

Section BinaryNumerals.

Lemma length_repeat (c : ascii) (k : nat) : String.length (JsString.repeat c k) = k.
Proof. induction k as [|k IH]; simpl; [reflexivity | now rewrite IH]. Qed.

Lemma allBits_append (a b : string) : allBits (a +++ b) <-> allBits a /\ allBits b.
Proof. induction a as [|x a IH]; simpl; tauto. Qed.

Lemma allBits_repeat_zero (k : nat) : allBits (JsString.repeat "0" k).
Proof. induction k as [|k IH]; simpl; auto. Qed.

Lemma allBits_posBits (p : positive) : allBits (JsString.posBits p).
Proof.
  induction p as [q IH|q IH|]; simpl.
  - apply allBits_append. simpl. auto.
  - apply allBits_append. simpl. auto.
  - auto.
Qed.

Lemma allBits_toBinary (n m : nat) : allBits (toBinary n m).
Proof.
  unfold toBinary, JsString.padStart. apply allBits_append.
  split; [apply allBits_repeat_zero|].
  unfold JsString.toString2. destruct (N.of_nat m); [simpl; auto | apply allBits_posBits].
Qed.

Lemma allBits_triState (s : string) : allBits s -> triState s.
Proof.
  induction s as [|c s IH]; simpl; [tauto|].
  unfold triStateChar. intros [[-> | ->] H]; auto.
Qed.

Lemma length_posBits (p : positive) :
  forall n, Pos.to_nat p < 2 ^ n -> String.length (JsString.posBits p) <= n.
Proof.
  induction p as [q IH|q IH|]; intros [|n] H; simpl in *.
  - pose proof (Pos2Nat.is_pos q~1). lia.
  - rewrite length_append. simpl. rewrite Pos2Nat.inj_xI in H.
    specialize (IH n). lia.
  - pose proof (Pos2Nat.is_pos q~0). lia.
  - rewrite length_append. simpl. rewrite Pos2Nat.inj_xO in H.
    specialize (IH n). lia.
  - rewrite Pos2Nat.inj_1 in H. lia.
  - lia.
Qed.

Lemma length_toBinary (n m : nat) :
  1 <= n -> m < 2 ^ n -> String.length (toBinary n m) = n.
Proof.
  intros Hn Hm. unfold toBinary, JsString.padStart.
  rewrite length_append, length_repeat.
  assert (H : String.length (JsString.toString2 m) <= n); [|lia].
  unfold JsString.toString2. destruct (N.of_nat m) as [|p] eqn:E; [simpl; lia|].
  apply length_posBits.
  replace (Pos.to_nat p) with m; [exact Hm|].
  rewrite <- (Nat2N.id m), E. reflexivity.
Qed.

Lemma parseBinaryFrom_append (a b : string) :
  forall acc, parseBinaryFrom acc (a +++ b) = parseBinaryFrom (parseBinaryFrom acc a) b.
Proof. induction a as [|x a IH]; intro acc; simpl; [reflexivity | apply IH]. Qed.

Lemma parseBinary_zeros (k : nat) : parseBinaryFrom 0 (JsString.repeat "0" k) = 0.
Proof. induction k as [|k IH]; simpl; [reflexivity | exact IH]. Qed.

Lemma parseBinary_posBits (p : positive) :
  parseBinaryFrom 0 (JsString.posBits p) = Pos.to_nat p.
Proof.
  induction p as [q IH|q IH|]; simpl.
  - rewrite parseBinaryFrom_append, IH, Pos2Nat.inj_xI. simpl. lia.
  - rewrite parseBinaryFrom_append, IH, Pos2Nat.inj_xO. simpl. lia.
  - reflexivity.
Qed.

(** [parseInt(m.toString(2).padStart(n, '0'), 2) === m] *)
Lemma parseBinary_toBinary (n m : nat) : parseBinary (toBinary n m) = m.
Proof.
  unfold parseBinary, toBinary, JsString.padStart.
  rewrite parseBinaryFrom_append, parseBinary_zeros.
  unfold JsString.toString2. destruct (N.of_nat m) as [|p] eqn:E.
  - simpl. destruct m; [reflexivity | discriminate].
  - rewrite parseBinary_posBits, <- (Nat2N.id m), E. reflexivity.
Qed.

Lemma toBinary_inj (n m1 m2 : nat) : toBinary n m1 = toBinary n m2 -> m1 = m2.
Proof.
  intro H. rewrite <- (parseBinary_toBinary n m1), <- (parseBinary_toBinary n m2).
  now rewrite H.
Qed.

End BinaryNumerals.

(* ================================================================== *)
(** * Cubes and the assignments they cover *)
(* ================================================================== *)

Section Cubes.

Lemma covers_length (cube bits : string) :
  covers cube bits = true -> String.length cube = String.length bits.
Proof.
  revert bits. induction cube as [|c cube IH]; intros [|b bits]; simpl; try discriminate.
  - reflexivity.
  - intro H. apply andb_true_iff in H as [_ H]. f_equal. now apply IH.
Qed.

Lemma covers_bits (cube bits : string) :
  allBits cube -> (covers cube bits = true <-> cube = bits).
Proof.
  revert bits. induction cube as [|c cube IH]; intros [|b bits] Hb; simpl in *;
    try (split; [discriminate | congruence]).
  - tauto.
  - destruct Hb as [Hc Hb]. rewrite andb_true_iff, (IH bits Hb).
    assert (Hd : Ascii.eqb c "-" = false) by (destruct Hc as [-> | ->]; reflexivity).
    rewrite Hd. simpl. rewrite Ascii.eqb_eq. split; [intros [-> ->]; reflexivity|].
    intros [= -> ->]. tauto.
Qed.

Lemma covers_merged (pre post : string) (x y : ascii) :
  forall bits,
    allBits bits ->
    x <> y -> (x = "0" \/ x = "1")%char -> (y = "0" \/ y = "1")%char ->
    covers (pre +++ String "-" post) bits
    = covers (pre +++ String x post) bits || covers (pre +++ String y post) bits.
Proof.
  induction pre as [|c pre IH]; intros [|b bits] Hb Hxy Hx Hy; simpl in *; try reflexivity.
  - destruct Hb as [Hb _].
    destruct Hx as [-> | ->], Hy as [-> | ->], Hb as [-> | ->]; try congruence; simpl;
      destruct (covers post bits); reflexivity.
  - destruct Hb as [_ Hb]. rewrite (IH bits Hb Hxy Hx Hy).
    destruct (Ascii.eqb c "-" || Ascii.eqb c b); simpl; reflexivity.
Qed.

End Cubes.

(* ================================================================== *)
(** * The tabulation: terms *)
(* ================================================================== *)

Section TabulationTerms.

Variables (numVars : nat) (ones : list nat).
Hypothesis numVars_pos : 1 <= numVars.
Hypothesis ones_in_range : forall m, In m ones -> m < 2 ^ numVars.

Lemma termOk_frozen (t t0 : term) :
  frozen t = frozen t0 -> termOk numVars ones t0 -> termOk numVars ones t.
Proof.
  unfold frozen, termOk. intros [= _ Hb Hm]. now rewrite Hb, Hm.
Qed.

Lemma termOk_initial (i m : nat) :
  In m ones -> termOk numVars ones (mkTerm i (toBinary numVars m) [m] false).
Proof.
  intro Hm. unfold termOk; simpl.
  split; [apply length_toBinary; auto|].
  split; [apply allBits_triState, allBits_toBinary|].
  split.
  - intros m' _. rewrite (covers_bits _ _ (allBits_toBinary numVars m)). split.
    + intro E. left. now apply toBinary_inj in E.
    + intros [-> | []]. reflexivity.
  - intros x [<- | []]. exact Hm.
Qed.

Lemma covers_combined (b1 b2 c : string) (m : nat) :
  String.length b1 = String.length b2 -> triState b1 -> triState b2 ->
  combineBinary b1 b2 = Some c ->
  covers c (toBinary numVars m)
  = covers b1 (toBinary numVars m) || covers b2 (toBinary numVars m).
Proof.
  intros Hlen T1 T2 Hc.
  destruct (combineBinary_inv _ _ _ Hlen Hc) as (pre & x & y & post & Hsp & ->).
  destruct Hsp as (-> & -> & Hxy & Hx & Hy).
  apply covers_merged; [apply allBits_toBinary | exact Hxy | |].
  - exact (triState_middle _ _ _ T1 Hx).
  - exact (triState_middle _ _ _ T2 Hy).
Qed.

Lemma combined_shape (b1 b2 c : string) :
  String.length b1 = String.length b2 -> triState b1 ->
  combineBinary b1 b2 = Some c ->
  String.length c = String.length b1 /\ triState c.
Proof.
  intros Hlen T1 Hc.
  destruct (combineBinary_inv _ _ _ Hlen Hc) as (pre & x & y & post & Hsp & ->).
  destruct Hsp as (-> & _). split.
  - now rewrite !length_append.
  - apply triState_append in T1 as [Tpre [_ Tpost]].
    apply triState_append. split; [exact Tpre|]. simpl. unfold triStateChar. auto.
Qed.

Lemma termOk_combined (t1 t2 : term) (c : string) (i : nat) :
  termOk numVars ones t1 -> termOk numVars ones t2 ->
  combineBinary (binary t1) (binary t2) = Some c ->
  termOk numVars ones (mkTerm i c (uniq (minterms t1 ++ minterms t2)) false).
Proof.
  intros (L1 & T1 & C1 & I1) (L2 & T2 & C2 & I2) Hc.
  assert (Hlen : String.length (binary t1) = String.length (binary t2)) by congruence.
  destruct (combined_shape _ _ _ Hlen T1 Hc) as [Lc Tc].
  unfold termOk; simpl. split; [congruence|]. split; [exact Tc|]. split.
  - intros m Hm. rewrite (covers_combined _ _ _ m Hlen T1 T2 Hc).
    rewrite orb_true_iff, (C1 m Hm), (C2 m Hm), uniq_In, in_app_iff. tauto.
  - intros m Hm. apply uniq_In, in_app_iff in Hm as [Hm | Hm]; auto.
Qed.

(** A term whose pattern is the merge of [t1] and [t2] lists every
    minterm of [t1] and of [t2]. *)
Lemma combined_lists_both (t1 t2 t' : term) :
  termOk numVars ones t1 -> termOk numVars ones t2 -> termOk numVars ones t' ->
  combineBinary (binary t1) (binary t2) = Some (binary t') ->
  incl (minterms t1) (minterms t') /\ incl (minterms t2) (minterms t').
Proof.
  intros (L1 & T1 & C1 & I1) (L2 & T2 & C2 & I2) (L' & T' & C' & I') Hc.
  assert (Hlen : String.length (binary t1) = String.length (binary t2)) by congruence.
  split; intros m Hm.
  - assert (Hr : m < 2 ^ numVars) by auto.
    apply (C' m Hr). rewrite (covers_combined _ _ _ m Hlen T1 T2 Hc).
    apply orb_true_iff. left. now apply (C1 m Hr).
  - assert (Hr : m < 2 ^ numVars) by auto.
    apply (C' m Hr). rewrite (covers_combined _ _ _ m Hlen T1 T2 Hc).
    apply orb_true_iff. right. now apply (C2 m Hr).
Qed.

End TabulationTerms.

Section MarkUsed.

Lemma markUsed_frozen (i : nat) (terms : list term) :
  map frozen (markUsed i terms) = map frozen terms.
Proof.
  unfold markUsed. rewrite map_map. apply map_ext.
  intro t. now destruct (tid t =? i).
Qed.

Lemma markUsed_In (i : nat) (terms : list term) (t : term) :
  In t (markUsed i terms) ->
  exists t0, In t0 terms /\ frozen t = frozen t0 /\
             (used t = true -> used t0 = true \/ tid t0 = i).
Proof.
  unfold markUsed. intro H. apply in_map_iff in H as (t0 & E & Hin).
  exists t0. split; [exact Hin|].
  destruct (Nat.eqb_spec (tid t0) i) as [Ei|Ei]; subst t; simpl; auto.
Qed.

Lemma NoDup_map_inj {A B : Type} (f : A -> B) (l : list A) (a b : A) :
  NoDup (map f l) -> In a l -> In b l -> f a = f b -> a = b.
Proof.
  induction l as [|x l IH]; simpl; intros Hnd Ha Hb E; [contradiction|].
  inversion Hnd as [|? ? Hx Hl]; subst.
  destruct Ha as [<- | Ha], Hb as [<- | Hb]; auto.
  - exfalso. apply Hx. rewrite E. now apply in_map.
  - exfalso. apply Hx. rewrite <- E. now apply in_map.
Qed.

Lemma frozen_preimage (terms terms0 : list term) (t : term) :
  map frozen terms = map frozen terms0 -> In t terms ->
  exists t0, In t0 terms0 /\ frozen t0 = frozen t.
Proof.
  intros E Hin. apply (in_map frozen) in Hin. rewrite E in Hin.
  apply in_map_iff in Hin as (t0 & E0 & H0). now exists t0.
Qed.

End MarkUsed.

(* ================================================================== *)
(** * The tabulation: one pass *)
(* ================================================================== *)

Section TabulationPass.

Variables (numVars : nat) (ones : list nat).
Hypothesis numVars_pos : 1 <= numVars.
Hypothesis ones_in_range : forall m, In m ones -> m < 2 ^ numVars.

Variable terms0 : list term.
Hypothesis terms0_ok : Forall (termOk numVars ones) terms0.
Hypothesis terms0_distinct : NoDup (map tid terms0).

(** The terms whose flag is set by the marking of [term1] have the
    minterm list of [term1]. *)
Lemma marked_is (st : passState) (term1 t : term) :
  map frozen (ps_terms st) = map frozen terms0 ->
  In term1 terms0 -> In t (ps_terms st) -> tid t = tid term1 ->
  minterms t = minterms term1.
Proof.
  intros E H1 Ht Htid.
  destruct (frozen_preimage _ _ _ E Ht) as (t0 & Hin0 & E0).
  injection E0 as Et _ Em.
  assert (t0 = term1) by (apply (NoDup_map_inj tid terms0); auto; congruence).
  congruence.
Qed.

Lemma tryPair_inv (term1 term2 : term) (st : passState) :
  In term1 terms0 -> In term2 terms0 ->
  passInv numVars ones terms0 st ->
  passInv numVars ones terms0 (tryPair term1 term2 st).
Proof.
  intros H1 H2 Hinv. unfold tryPair.
  destruct (combineBinary (binary term1) (binary term2)) as [c|] eqn:Hc; [|exact Hinv].
  destruct Hinv as (Hfro & Hok & Hunused & Hnd & Hnext & Hused).
  assert (Ok1 : termOk numVars ones term1) by (rewrite Forall_forall in terms0_ok; auto).
  assert (Ok2 : termOk numVars ones term2) by (rewrite Forall_forall in terms0_ok; auto).
  set (terms' := markUsed (tid term2) (markUsed (tid term1) (ps_terms st))).
  assert (Hfro' : map frozen terms' = map frozen terms0)
    by (unfold terms'; now rewrite !markUsed_frozen).
  (* where the flag of a term of [terms'] comes from *)
  assert (Hsrc : forall t, In t terms' -> used t = true ->
            (exists t0, In t0 (ps_terms st) /\ used t0 = true /\ minterms t = minterms t0) \/
            minterms t = minterms term1 \/ minterms t = minterms term2).
  { intros t Ht Hu. unfold terms' in Ht.
    apply markUsed_In in Ht as (ta & Hta & Ea & Hua).
    apply markUsed_In in Hta as (tb & Htb & Eb & Hub).
    assert (Em : minterms t = minterms tb)
      by (injection Ea as _ _ Ea; injection Eb as _ _ Eb; congruence).
    assert (Etid : tid ta = tid tb) by (injection Eb as Eb _ _; exact Eb).
    destruct (Hua Hu) as [Hu' | Htid].
    - destruct (Hub Hu') as [Hu'' | Htid].
      + left. now exists tb.
      + right. left. rewrite Em. now apply (marked_is st).
    - right. right. rewrite Em. apply (marked_is st); auto. congruence. }
  destruct (existsb (fun t => (binary t =? c)%string) (ps_newTerms st)) eqn:Hex.
  - (* the merged pattern is already in [newTerms] *)
    apply existsb_exists in Hex as (t' & Ht' & Eb). apply String.eqb_eq in Eb.
    assert (Ok' : termOk numVars ones t') by (rewrite Forall_forall in Hok; auto).
    rewrite <- Eb in Hc.
    destruct (combined_lists_both numVars ones ones_in_range _ _ _ Ok1 Ok2 Ok' Hc) as [I1 I2].
    unfold passInv; simpl. repeat split; try assumption.
    intros t Ht Hu. destruct (Hsrc t Ht Hu) as [(t0 & Hin0 & Hu0 & Em) | [Em | Em]].
    + rewrite Em. now apply Hused.
    + exists t'. rewrite Em. now split.
    + exists t'. rewrite Em. now split.
  - (* a new term object is pushed *)
    set (new := mkTerm (ps_next st) c (uniq (minterms term1 ++ minterms term2)) false).
    unfold passInv; simpl. split; [exact Hfro'|].
    split; [apply Forall_app; split; [exact Hok|];
            constructor; [now apply termOk_combined | constructor]|].
    split; [apply Forall_app; split; [exact Hunused|]; now repeat constructor|].
    split.
    { rewrite map_app. simpl. apply NoDup_app; [exact Hnd | repeat constructor; auto|].
      intros i Hi [<- | []]. apply in_map_iff in Hi as (t & Et & Ht).
      specialize (Hnext t Ht). lia. }
    split.
    { intros t Ht. apply in_app_iff in Ht as [Ht | [<- | []]]; [|simpl; lia].
      specialize (Hnext t Ht). lia. }
    intros t Ht Hu. destruct (Hsrc t Ht Hu) as [(t0 & Hin0 & Hu0 & Em) | [Em | Em]].
    + destruct (Hused t0 Hin0 Hu0) as (t' & Ht' & Hincl).
      exists t'. split; [apply in_app_iff; now left | now rewrite Em].
    + exists new. split; [apply in_app_iff; right; now left|].
      rewrite Em. intros m Hm. simpl. apply uniq_In, in_app_iff. now left.
    + exists new. split; [apply in_app_iff; right; now left|].
      rewrite Em. intros m Hm. simpl. apply uniq_In, in_app_iff. now right.
Qed.

Lemma pairLoop_inv (group1 group2 : list term) :
  incl group1 terms0 -> incl group2 terms0 ->
  forall st, passInv numVars ones terms0 st ->
             passInv numVars ones terms0 (pairLoop group1 group2 st).
Proof.
  intros G1 G2. unfold pairLoop.
  induction group1 as [|t1 group1 IH1]; intros st Hinv; simpl; [exact Hinv|].
  apply IH1; [intros x Hx; apply G1; now right|].
  assert (Hin1 : In t1 terms0) by (apply G1; now left).
  clear IH1 G1. revert st Hinv.
  induction group2 as [|t2 group2 IH2]; intros st Hinv; simpl; [exact Hinv|].
  apply IH2; [intros x Hx; apply G2; now right|].
  apply tryPair_inv; auto. apply G2. now left.
Qed.

Lemma adjacentLoop_inv (groups : list (list term)) :
  (forall g, In g groups -> incl g terms0) ->
  forall st, passInv numVars ones terms0 st ->
             passInv numVars ones terms0 (adjacentLoop groups st).
Proof.
  induction groups as [|g1 groups IH]; intros Hg st Hinv; simpl; [exact Hinv|].
  destruct groups as [|g2 groups]; [exact Hinv|].
  apply IH; [intros g Hin; apply Hg; now right|].
  apply pairLoop_inv; auto; apply Hg; simpl; auto.
Qed.

End TabulationPass.

Section Grouping.

Lemma set_In_inv {V : Type} (o : JsObject.t V) (k : nat) (v : V) (kv : nat * V) :
  In kv (JsObject.set o k v) -> kv = (k, v) \/ In kv o.
Proof.
  induction o as [|[k0 v0] o IH]; simpl.
  - intros [<- | []]. now left.
  - destruct (Nat.eqb_spec k k0) as [->|Hne]; simpl.
    + intros [<- | H]; auto.
    + destruct (Nat.ltb_spec k k0) as [Hlt|Hge]; simpl.
      * intros [<- | [<- | H]]; auto.
      * intros [<- | H]; auto. apply IH in H as [-> | H']; auto.
Qed.

Lemma groupByOnes_fold (P : term -> Prop) (terms : list term) :
  forall groups : JsObject.t (list term),
    (forall kg, In kg groups -> forall t, In t (snd kg) -> P t) ->
    (forall t, In t terms -> P t) ->
    forall kg,
      In kg (fold_left
               (fun (groups : JsObject.t (list term)) (t : term) =>
                  let ones := countOnes (binary t) in
                  let groups' :=
                    match JsObject.get groups ones with
                    | None => JsObject.set groups ones []
                    | Some _ => groups
                    end in
                  match JsObject.get groups' ones with
                  | Some g => JsObject.set groups' ones (g ++ [t])
                  | None => groups'
                  end) terms groups) ->
      forall t, In t (snd kg) -> P t.
Proof.
  induction terms as [|t0 terms IH]; intros groups Hg Ht; simpl; [exact Hg|].
  apply IH; [|intros t H; apply Ht; now right].
  set (ones := countOnes (binary t0)).
  set (groups' := match JsObject.get groups ones with
                  | None => JsObject.set groups ones []
                  | Some _ => groups
                  end).
  assert (Hg' : forall kg, In kg groups' -> forall t, In t (snd kg) -> P t).
  { unfold groups'. destruct (JsObject.get groups ones); [exact Hg|].
    intros kg Hkg t Hin. apply set_In_inv in Hkg as [-> | Hkg]; [contradiction|].
    now apply (Hg kg). }
  destruct (JsObject.get groups' ones) as [g|] eqn:Eg; [|exact Hg'].
  intros kg Hkg t Hin. apply set_In_inv in Hkg as [-> | Hkg]; [|now apply (Hg' kg)].
  simpl in Hin. apply in_app_iff in Hin as [Hin | [<- | []]].
  - apply (Hg' (ones, g)); [now apply get_In | exact Hin].
  - apply Ht. now left.
Qed.

Lemma groupByOnes_In (terms : list term) (g : list term) :
  In g (groupByOnes terms) -> incl g terms.
Proof.
  unfold groupByOnes, JsObject.values. intro H.
  apply in_map_iff in H as (kg & <- & Hkg).
  intros t Ht.
  apply (groupByOnes_fold (fun t => In t terms) terms JsObject.empty) with (kg := kg); auto.
  intros kg' [].
Qed.

End Grouping.

(* ================================================================== *)
(** * The tabulation: all passes *)
(* ================================================================== *)

Section Tabulation.

Variables (numVars : nat) (ones : list nat).
Hypothesis numVars_pos : 1 <= numVars.
Hypothesis ones_in_range : forall m, In m ones -> m < 2 ^ numVars.

Lemma mergePass_inv (terms : list term) (next : nat) :
  Forall (termOk numVars ones) terms ->
  NoDup (map tid terms) ->
  Forall (fun t => used t = false) terms ->
  passInv numVars ones terms (mergePass terms next).
Proof.
  intros Hok Hnd Hun. unfold mergePass.
  apply adjacentLoop_inv; try assumption.
  - intros g Hg. now apply groupByOnes_In.
  - unfold passInv; simpl. repeat split; try constructor; try contradiction.
    intros t Ht Hu. rewrite Forall_forall in Hun. rewrite (Hun t Ht) in Hu. discriminate.
Qed.

Lemma pass_terms_ok (terms : list term) (st : passState) :
  Forall (termOk numVars ones) terms ->
  map frozen (ps_terms st) = map frozen terms ->
  Forall (termOk numVars ones) (ps_terms st).
Proof.
  intros Hok E. apply Forall_forall. intros t Ht.
  destruct (frozen_preimage _ _ _ E Ht) as (t0 & H0 & E0).
  apply (termOk_frozen numVars ones t t0); [congruence|].
  rewrite Forall_forall in Hok. auto.
Qed.

Lemma pushUnused_ok (pis terms : list term) :
  Forall (termOk numVars ones) pis -> Forall (termOk numVars ones) terms ->
  Forall (termOk numVars ones) (pushUnused pis terms).
Proof.
  intros H1 H2. unfold pushUnused. apply Forall_app. split; [exact H1|].
  apply Forall_forall. intros t Ht. apply filter_In in Ht as [Ht _].
  rewrite Forall_forall in H2. auto.
Qed.

(** What one pass does to the coverage of [ones]. *)
Lemma pass_covered (terms pis : list term) (st : passState) :
  passInv numVars ones terms st ->
  allCovered ones terms pis ->
  allCovered ones (ps_newTerms st) (pushUnused pis (ps_terms st)).
Proof.
  intros (Hfro & _ & _ & _ & _ & Hused) Hcov m Hm.
  destruct (Hcov m Hm) as (t & Ht & Hmt).
  apply in_app_iff in Ht as [Ht | Ht].
  - destruct (frozen_preimage _ _ _ (eq_sym Hfro) Ht) as (t' & Ht' & E).
    assert (Em : minterms t' = minterms t) by (injection E as _ _ E; exact E).
    destruct (used t') eqn:Hu.
    + destruct (Hused t' Ht' Hu) as (t'' & Ht'' & Hincl).
      exists t''. split; [apply in_app_iff; now left|].
      apply Hincl. now rewrite Em.
    + exists t'. split; [|now rewrite Em].
      apply in_app_iff. right. unfold pushUnused. apply in_app_iff. right.
      apply filter_In. split; [exact Ht' | now rewrite Hu].
  - exists t. split; [|exact Hmt].
    apply in_app_iff. right. unfold pushUnused. apply in_app_iff. now left.
Qed.

Lemma qmLoop_inv (remaining : nat) :
  forall (terms pis : list term) (next passes : nat),
    Forall (termOk numVars ones) terms ->
    NoDup (map tid terms) ->
    Forall (fun t => used t = false) terms ->
    Forall (termOk numVars ones) pis ->
    allCovered ones terms pis ->
    let r := qmLoop remaining terms pis next passes in
    let result := pushUnused (run_primeImplicants r) (run_terms r) in
    Forall (termOk numVars ones) result /\
    forall m, In m ones -> exists t, In t result /\ In m (minterms t).
Proof.
  induction remaining as [|remaining IH]; intros terms pis next passes Hok Hnd Hun Hpis Hcov.
  - simpl. split; [now apply pushUnused_ok|].
    intros m Hm. destruct (Hcov m Hm) as (t & Ht & Hmt). exists t. split; [|exact Hmt].
    unfold pushUnused. apply in_app_iff. apply in_app_iff in Ht as [Ht | Ht]; [right | now left].
    apply filter_In. split; [exact Ht|]. rewrite Forall_forall in Hun. now rewrite (Hun t Ht).
  - simpl. pose proof (mergePass_inv terms next Hok Hnd Hun) as Hinv.
    pose proof (pass_covered terms pis _ Hinv Hcov) as Hcov'.
    destruct Hinv as (Hfro & Hnew & Hnewun & Hnewnd & _ & _).
    pose proof (pass_terms_ok terms _ Hok Hfro) as Hterms'.
    pose proof (pushUnused_ok pis _ Hpis Hterms') as Hpis'.
    destruct (ps_newTerms (mergePass terms next)) as [|t new] eqn:Enew.
    + simpl. split; [now apply pushUnused_ok|].
      intros m Hm. destruct (Hcov' m Hm) as (t & Ht & Hmt). simpl in Ht.
      exists t. split; [|exact Hmt]. unfold pushUnused at 1. apply in_app_iff. now left.
    + apply IH; assumption.
Qed.

Lemma initialTerms_spec (mins : list nat) :
  (forall m, In m mins -> In m ones) ->
  Forall (termOk numVars ones) (initialTerms mins numVars) /\
  NoDup (map tid (initialTerms mins numVars)) /\
  Forall (fun t => used t = false) (initialTerms mins numVars) /\
  forall m, In m mins -> exists t, In t (initialTerms mins numVars) /\ In m (minterms t).
Proof.
  intro Hsub. unfold initialTerms. repeat split.
  - apply Forall_forall. intros t Ht. apply in_map_iff in Ht as ([i m] & <- & Him).
    simpl. apply (termOk_initial numVars ones numVars_pos); auto.
    apply Hsub. now apply in_combine_r in Him.
  - rewrite map_map. simpl.
    change (fun x : nat * nat => fst x) with (@fst nat nat).
    rewrite (map_fst_combine (seq 0 (List.length mins)) mins) by (now rewrite length_seq).
    apply seq_NoDup.
  - apply Forall_forall. intros t Ht. apply in_map_iff in Ht as ([i m] & <- & _). reflexivity.
  - intros m Hm. apply In_nth_error in Hm as [i Hi].
    exists (mkTerm i (toBinary numVars m) [m] false). split; [|now left].
    apply in_map_iff. exists (i, m). split; [reflexivity|].
    now apply (indexed_In mins).
Qed.

(** The prime implicant list: every member is a well-formed term over
    [ones], and every member of [ones] is listed by some member. *)
Lemma quineMcCluskey_spec :
  Forall (termOk numVars ones) (quineMcCluskey ones numVars) /\
  forall m, In m ones -> exists t, In t (quineMcCluskey ones numVars) /\ In m (minterms t).
Proof.
  destruct (initialTerms_spec ones (fun m H => H)) as (Hok & Hnd & Hun & Hcov).
  unfold quineMcCluskey, quineMcCluskeyRun.
  apply qmLoop_inv; auto.
  intros m Hm. destruct (Hcov m Hm) as (t & Ht & Hmt).
  exists t. split; [apply in_app_iff; now left | exact Hmt].
Qed.

End Tabulation.

(* ================================================================== *)
(** * The selected implicants cover the required minterms *)
(* ================================================================== *)

Section Cover.

Lemma term_eqb_eq (a b : term) : term_eqb a b = true <-> a = b.
Proof.
  unfold term_eqb, list_nat_eqb. destruct a as [i1 b1 m1 u1], b as [i2 b2 m2 u2]; simpl.
  rewrite !andb_true_iff, Nat.eqb_eq, String.eqb_eq, Bool.eqb_true_iff.
  destruct (list_eq_dec Nat.eq_dec m1 m2) as [E|E].
  - split; [intros [[[-> ->] _] ->]; now rewrite E | intros [= -> -> _ ->]; auto].
  - split; [intros [[_ H] _]; discriminate | intros [= _ _ H _]; contradiction].
Qed.

Lemma includesTerm_In (l : list term) (t : term) : includesTerm l t = true <-> In t l.
Proof.
  unfold includesTerm. rewrite existsb_exists. split.
  - intros (x & Hx & E). apply term_eqb_eq in E. now subst.
  - intro H. exists t. split; [exact H | now apply term_eqb_eq].
Qed.

Lemma eligible_iff (ess add : list term) (t : term) :
  eligible ess add t = true <-> ~ In t (ess ++ add).
Proof.
  unfold eligible. rewrite andb_true_iff, !negb_true_iff, in_app_iff.
  rewrite <- !includesTerm_In.
  destruct (includesTerm ess t), (includesTerm add t); intuition congruence.
Qed.

Variables (pis : list term) (mins : list nat).
Hypothesis mins_distinct : NoDup mins.
Hypothesis pis_cover : forall m, In m mins -> exists t, In t pis /\ In m (minterms t).

Lemma greedyInv_initial :
  let ess := essentialOnly pis mins in
  greedyInv mins ess (uncoveredAfterEssential ess mins, []).
Proof.
  cbv zeta. unfold greedyInv, uncoveredAfterEssential; simpl. rewrite app_nil_r.
  split; [now apply NoDup_filter|].
  split; [intros m Hm; now apply filter_In in Hm|].
  split.
  - intros m Hm.
    destruct (includesNat (flat_map minterms (essentialOnly pis mins)) m) eqn:E.
    + right. apply includesNat_In, in_flat_map in E. exact E.
    + left. apply filter_In. split; [exact Hm | now rewrite E].
  - intros t Ht m Hm Hin. apply filter_In in Hin as [_ Hin].
    apply negb_true_iff in Hin.
    assert (H : includesNat (flat_map minterms (essentialOnly pis mins)) m = true).
    { apply includesNat_In, in_flat_map. now exists t. }
    congruence.
Qed.

(** While a minterm is uncovered the step selects an implicant, keeps
    the invariant and shortens [uncovered]. *)
Lemma greedyStep_inv (ess : list term) (st : list nat * list term) :
  greedyInv mins ess st -> fst st <> [] ->
  exists st', greedyStep pis ess st = Some st' /\
              greedyInv mins ess st' /\
              List.length (fst st') < List.length (fst st).
Proof.
  destruct st as [unc add]. intros (Hnd & Hincl & Hcov & Hdisj) Hne; simpl in *.
  unfold greedyStep.
  pose proof (selectBest_spec ess add unc pis) as Hsel. unfold selectInv in Hsel.
  destruct (fst (selectBest pis ess add unc)) as [best|].
  - destruct Hsel as (_ & k & Hk & Hel & Hpos & _).
    destruct (removeCovered_spec best unc Hnd) as (Hnd' & Hin' & Hlt).
    eexists. split; [reflexivity|]. split; [|simpl; auto].
    unfold greedyInv; simpl. split; [exact Hnd'|].
    split; [intros x Hx; apply Hincl; now apply Hin' in Hx|].
    split.
    + intros m Hm. destruct (Hcov m Hm) as [Hu | (t & Ht & Hmt)].
      * destruct (in_dec Nat.eq_dec m (minterms best)) as [Hb | Hb].
        -- right. exists best. split; [|exact Hb].
           rewrite app_assoc. apply in_app_iff. right. now left.
        -- left. apply Hin'. now split.
      * right. exists t. split; [|exact Hmt].
        rewrite app_assoc. apply in_app_iff. now left.
    + intros t Ht m Hm Hin. apply Hin' in Hin as [Hin Hnot].
      rewrite app_assoc in Ht. apply in_app_iff in Ht as [Ht | [<- | []]].
      * exact (Hdisj t Ht m Hm Hin).
      * contradiction.
  - (* no implicant selected: impossible while a minterm is uncovered *)
    exfalso. destruct Hsel as (_ & Hzero).
    destruct unc as [|u unc']; [congruence|].
    assert (Hu : In u mins) by (apply Hincl; now left).
    destruct (pis_cover u Hu) as (t & Ht & Hut).
    assert (Hel : eligible ess add t = true).
    { apply eligible_iff. intro Hin. apply (Hdisj t Hin u Hut). now left. }
    specialize (Hzero t Ht Hel).
    assert (Hpos : 0 < coverageCount t (u :: unc')).
    { apply coverageCount_positive. exists u. split; [exact Hut | now left]. }
    lia.
Qed.

Lemma greedyLoop_unfold (ess : list term) (fuel u : nat) (unc : list nat) (add : list term) :
  greedyLoop (S fuel) pis ess (u :: unc, add)
  = match greedyStep pis ess (u :: unc, add) with
    | Some st' => greedyLoop fuel pis ess st'
    | None => (u :: unc, add)
    end.
Proof. reflexivity. Qed.

(** Given [uncovered.length] units of fuel or more, the loop stops with
    [uncovered] empty, and the selection does not depend on the fuel. *)
Lemma greedyLoop_complete (ess : list term) (fuel : nat) :
  forall st,
    List.length (fst st) <= fuel ->
    greedyInv mins ess st ->
    fst (greedyLoop fuel pis ess st) = [] /\
    greedyInv mins ess (greedyLoop fuel pis ess st) /\
    forall fuel', List.length (fst st) <= fuel' ->
                  greedyLoop fuel' pis ess st = greedyLoop fuel pis ess st.
Proof.
  induction fuel as [|fuel IH]; intros st Hlen Hinv.
  - destruct st as [[|u unc] add]; simpl in *; [|lia].
    split; [reflexivity|]. split; [exact Hinv|]. intros [|fuel'] _; reflexivity.
  - destruct st as [[|u unc] add].
    + simpl. split; [reflexivity|]. split; [exact Hinv|]. intros [|fuel'] _; reflexivity.
    + destruct (greedyStep_inv ess (u :: unc, add) Hinv ltac:(discriminate))
        as (st' & Hstep & Hinv' & Hlt).
      simpl in Hlen, Hlt.
      destruct (IH st' ltac:(lia) Hinv') as (H1 & H2 & H3).
      rewrite greedyLoop_unfold, Hstep.
      split; [exact H1|]. split; [exact H2|].
      intros [|fuel'] Hlen'; simpl in Hlen'; [lia|].
      rewrite greedyLoop_unfold, Hstep. apply H3. lia.
Qed.

Lemma findEssential_covers :
  incl (findEssentialPrimeImplicants pis mins) pis /\
  forall m, In m mins ->
            exists t, In t (findEssentialPrimeImplicants pis mins) /\ In m (minterms t).
Proof.
  unfold findEssentialPrimeImplicants. split.
  - intros t Ht. apply in_app_iff in Ht as [Ht | Ht].
    + apply essentialOnly_In in Ht as (m & i & _ & Hnth). exact (nth_error_In _ _ Hnth).
    + now apply additionalOnly_In in Ht as [Ht _].
  - unfold additionalOnly.
    set (ess := essentialOnly pis mins).
    set (unc := uncoveredAfterEssential ess mins).
    destruct (greedyLoop_complete ess (List.length unc) (unc, []) (le_n _) greedyInv_initial)
      as (Hempty & (_ & _ & Hcov & _) & _).
    intros m Hm. destruct (Hcov m Hm) as [Hu | Ht]; [|exact Ht].
    rewrite Hempty in Hu. contradiction.
Qed.

End Cover.

(* ================================================================== *)
(** * Reading back the text of convertToSOP *)
(* ================================================================== *)

Section Rendering.

Variables (letters : list ascii) (bits : string).
Hypothesis letters_distinct : NoDup letters.
Hypothesis letters_ok : Forall (fun c => isLetter c = true) letters.
Hypothesis bits_length : String.length bits = List.length letters.

Lemma letter_plain (x : ascii) :
  isLetter x = true ->
  Ascii.eqb x " " = false /\ Ascii.eqb x "1" = false /\
  Ascii.eqb x "0" = false /\ Ascii.eqb x "'" = false.
Proof.
  intro H. repeat split; apply Ascii.eqb_neq; intros ->; discriminate.
Qed.

Lemma varName_letter (i : nat) :
  i < List.length letters ->
  exists x, nth_error letters i = Some x /\ isLetter x = true /\
            varName (letterNames letters) i = String x EmptyString.
Proof.
  intro Hi. destruct (nth_error letters i) as [x|] eqn:E;
    [|apply nth_error_None in E; lia].
  exists x. split; [reflexivity|]. split.
  - rewrite Forall_forall in letters_ok. apply letters_ok. exact (nth_error_In _ _ E).
  - unfold varName, letterNames.
    apply nth_error_nth. now rewrite nth_error_map, E.
Qed.

Lemma lookupVar_nth (cs : list ascii) :
  forall (bs : string) (i : nat) (x b : ascii),
    NoDup cs -> nth_error cs i = Some x -> String.get i bs = Some b ->
    lookupVar (letterNames cs) bs x = Some (Ascii.eqb b "1").
Proof.
  induction cs as [|a cs IH]; intros bs i x b Hnd Hx Hb; [destruct i; discriminate|].
  destruct bs as [|b0 bs]; [destruct i; discriminate|].
  inversion Hnd as [|? ? Ha Hcs]; subst. simpl.
  destruct i as [|i]; simpl in Hx, Hb.
  - injection Hx as ->. injection Hb as ->. now rewrite Ascii.eqb_refl.
  - assert (Hne : Ascii.eqb a x = false).
    { apply Ascii.eqb_neq. intros ->. apply Ha. exact (nth_error_In _ _ Hx). }
    rewrite Hne. simpl. now apply (IH bs i).
Qed.

Lemma get_drop (s : string) :
  forall i b, String.get i s = Some b ->
              JsString.drop i s = String b (JsString.drop (S i) s).
Proof.
  induction s as [|c s IH]; intros [|i] b H; simpl in *; try discriminate.
  - injection H as ->. now destruct s.
  - rewrite (IH i b H). reflexivity.
Qed.

Lemma get_some (s : string) (i : nat) :
  i < String.length s -> exists b, String.get i s = Some b.
Proof.
  revert i. induction s as [|c s IH]; intros [|i] H; simpl in *; try lia.
  - now exists c.
  - apply IH. lia.
Qed.

Lemma eval_positive (x : ascii) (v : bool) (rest : string) (cur : bool) :
  isLetter x = true ->
  lookupVar (letterNames letters) bits x = Some v ->
  JsString.head rest <> Some "'"%char ->
  evalFrom (letterNames letters) bits (String x rest) cur
  = evalFrom (letterNames letters) bits rest (cur && v).
Proof.
  intros Hx Hv Hrest. destruct (letter_plain x Hx) as (E1 & E2 & E3 & _).
  simpl. rewrite E1, E2, E3, Hv.
  destruct rest as [|q rest]; [reflexivity|].
  destruct (Ascii.eqb_spec q "'") as [->|_]; [simpl in Hrest; congruence | reflexivity].
Qed.

Lemma eval_negative (x : ascii) (v : bool) (rest : string) (cur : bool) :
  isLetter x = true ->
  lookupVar (letterNames letters) bits x = Some v ->
  evalFrom (letterNames letters) bits (String x (String "'" rest)) cur
  = evalFrom (letterNames letters) bits rest (cur && negb v).
Proof.
  intros Hx Hv. destruct (letter_plain x Hx) as (E1 & E2 & E3 & _).
  simpl. now rewrite E1, E2, E3, Hv.
Qed.

Lemma sopTerm_head (bin : string) :
  forall (i : nat) (rest : string),
    i + String.length bin <= List.length letters ->
    JsString.head rest <> Some "'"%char ->
    JsString.head (sopTermFrom (letterNames letters) i bin +++ rest) <> Some "'"%char.
Proof.
  induction bin as [|c bin IH]; intros i rest Hi Hrest; simpl in *; [exact Hrest|].
  destruct (varName_letter i ltac:(lia)) as (x & _ & Hx & ->).
  destruct (letter_plain x Hx) as (_ & _ & _ & E).
  apply Ascii.eqb_neq in E.
  destruct (Ascii.eqb c "1"); [simpl; congruence|].
  destruct (Ascii.eqb c "0"); [simpl; congruence|].
  simpl. apply IH; [lia | exact Hrest].
Qed.

Lemma eval_sopTermFrom (bin : string) :
  forall (i : nat) (rest : string) (cur : bool),
    i + String.length bin = List.length letters ->
    JsString.head rest <> Some "'"%char ->
    evalFrom (letterNames letters) bits (sopTermFrom (letterNames letters) i bin +++ rest) cur
    = evalFrom (letterNames letters) bits rest (cur && termValue bin (JsString.drop i bits)).
Proof.
  induction bin as [|c bin IH]; intros i rest cur Hi Hrest; cbn [sopTermFrom termValue String.append String.length] in *.
  - now rewrite andb_true_r.
  - destruct (varName_letter i ltac:(lia)) as (x & Hnth & Hx & ->).
    destruct (get_some bits i ltac:(lia)) as [b Hb].
    pose proof (lookupVar_nth letters bits i x b letters_distinct Hnth Hb) as Hv.
    rewrite (get_drop bits i b Hb). unfold litValue.
    assert (Hnext : JsString.head (sopTermFrom (letterNames letters) (S i) bin +++ rest)
                    <> Some "'"%char) by (apply sopTerm_head; [lia | exact Hrest]).
    destruct (Ascii.eqb c "1").
    + cbn [String.append]. rewrite (eval_positive x _ _ cur Hx Hv Hnext).
      rewrite IH by (try lia; exact Hrest). now rewrite andb_assoc.
    + destruct (Ascii.eqb c "0").
      * cbn [String.append]. rewrite (eval_negative x _ _ cur Hx Hv).
        rewrite IH by (try lia; exact Hrest). now rewrite andb_assoc.
      * cbn [String.append]. rewrite IH by (try lia; exact Hrest). reflexivity.
Qed.

Lemma eval_sopTerm (pi : term) (rest : string) (cur : bool) :
  String.length (binary pi) = List.length letters ->
  JsString.head rest <> Some "'"%char ->
  evalFrom (letterNames letters) bits (sopTerm (letterNames letters) pi +++ rest) cur
  = evalFrom (letterNames letters) bits rest (cur && termValue (binary pi) bits).
Proof.
  intros Hlen Hrest.
  pose proof (eval_sopTermFrom (binary pi) 0 rest cur Hlen Hrest) as H.
  replace (JsString.drop 0 bits) with bits in H by (now destruct bits).
  unfold sopTerm. destruct (sopTermFrom (letterNames letters) 0 (binary pi)) as [|c t].
  - simpl in *. exact H.
  - exact H.
Qed.

Lemma eval_join (pis : list term) :
  Forall (fun pi => String.length (binary pi) = List.length letters) pis ->
  pis <> [] ->
  evalFrom (letterNames letters) bits
           (JsString.join " + " (map (sopTerm (letterNames letters)) pis)) true
  = Some (existsb (fun pi => termValue (binary pi) bits) pis).
Proof.
  induction pis as [|pi pis IH]; intros Hlen Hne; [congruence|].
  inversion Hlen as [|? ? Hpi Hrest]; subst.
  destruct pis as [|pi' pis].
  - simpl. rewrite <- (append_empty_r (sopTerm (letterNames letters) pi)).
    rewrite eval_sopTerm by (auto; simpl; congruence).
    simpl. now rewrite orb_false_r.
  - change (JsString.join " + " (map (sopTerm (letterNames letters)) (pi :: pi' :: pis)))
      with (sopTerm (letterNames letters) pi +++ " + " +++
            JsString.join " + " (map (sopTerm (letterNames letters)) (pi' :: pis))).
    rewrite eval_sopTerm by (auto; simpl; congruence).
    change (evalFrom (letterNames letters) bits
              (" + " +++ JsString.join " + " (map (sopTerm (letterNames letters)) (pi' :: pis)))
              (true && termValue (binary pi) bits))
      with (option_map (orb (true && termValue (binary pi) bits))
              (evalFrom (letterNames letters) bits
                 (JsString.join " + " (map (sopTerm (letterNames letters)) (pi' :: pis))) true)).
    rewrite IH by (auto; congruence). reflexivity.
Qed.

Lemma eval_convertToSOP (pis : list term) :
  Forall (fun pi => String.length (binary pi) = List.length letters) pis ->
  evalFrom (letterNames letters) bits (convertToSOP pis (letterNames letters)) true
  = Some (existsb (fun pi => termValue (binary pi) bits) pis).
Proof.
  intro Hlen. destruct pis as [|pi pis]; [reflexivity|].
  unfold convertToSOP. apply eval_join; [exact Hlen | discriminate].
Qed.

End Rendering.

(* ================================================================== *)
(** * Round trip: minimise, then evaluate the expression *)
(* ================================================================== *)

Section RoundTrip.

Lemma termValue_covers (cube : string) :
  forall bits,
    triState cube -> allBits bits -> String.length cube = String.length bits ->
    termValue cube bits = covers cube bits.
Proof.
  induction cube as [|c cube IH]; intros [|b bits] Hc Hb Hlen; simpl in *;
    try discriminate; [reflexivity|].
  destruct Hc as [Hc Hcube], Hb as [Hb Hbits].
  rewrite (IH bits Hcube Hbits) by congruence. f_equal.
  unfold litValue, triStateChar in *.
  destruct Hc as [-> | [-> | ->]], Hb as [-> | ->]; reflexivity.
Qed.

Lemma whole_domain (mins : list nat) (size m : nat) :
  NoDup mins -> (forall x, In x mins -> x < size) -> List.length mins = size ->
  m < size -> In m mins.
Proof.
  intros Hnd Hr Hlen Hm.
  apply (NoDup_length_incl Hnd (l' := seq 0 size)).
  - rewrite length_seq. lia.
  - intros x Hx. apply in_seq. specialize (Hr x Hx). lia.
  - apply in_seq. lia.
Qed.

(** C1. For 2 to 6 variables named by distinct letters, and a
    duplicate-free list [mins] of indices below [2^n] given as the
    minterms with no don't-care, the text [sop] returned by [simplify]
    evaluates, at every assignment index below [2^n], to 1 when the
    index is in [mins] and to 0 otherwise. *)
Theorem simplify_round_trip (numVars : nat) (letters : list ascii) (mins : list nat) :
  2 <= numVars <= 6 ->
  List.length letters = numVars ->
  NoDup letters ->
  Forall (fun c => isLetter c = true) letters ->
  NoDup mins ->
  (forall m, In m mins -> m < 2 ^ numVars) ->
  forall idx, idx < 2 ^ numVars ->
    evalSOP (letterNames letters) numVars
            (sop (simplify (mkKmapInput mins (letterNames letters) numVars []))) idx
    = Some (includesNat mins idx).
Proof.
  intros Hn Hlen Hletters Hok Hnd Hrange idx Hidx.
  unfold simplify; simpl.
  destruct (Nat.eqb_spec (List.length mins) 0) as [E0|_]; simpl.
  { apply length_zero_iff_nil in E0. subst mins. reflexivity. }
  destruct (Nat.eqb_spec (List.length mins) (2 ^ numVars)) as [Efull|_]; simpl.
  { assert (Hin : includesNat mins idx = true)
      by (apply includesNat_In; now apply (whole_domain mins (2 ^ numVars))).
    rewrite Hin. reflexivity. }
  rewrite app_nil_r.
  assert (Hpos : 1 <= numVars) by lia.
  destruct (quineMcCluskey_spec numVars mins Hpos Hrange) as [Hterms Hcover].
  destruct (findEssential_covers (quineMcCluskey mins numVars) mins Hnd Hcover)
    as [Hsub Hsel].
  set (sel := findEssentialPrimeImplicants (quineMcCluskey mins numVars) mins) in *.
  assert (Hselok : Forall (termOk numVars mins) sel).
  { apply Forall_forall. intros t Ht. rewrite Forall_forall in Hterms. auto. }
  assert (Hbits : String.length (toBinary numVars idx) = List.length letters)
    by (rewrite Hlen; now apply length_toBinary).
  unfold evalSOP. rewrite eval_convertToSOP; auto.
  2:{ apply Forall_forall. intros t Ht. rewrite Forall_forall in Hselok.
      destruct (Hselok t Ht) as (L & _). congruence. }
  f_equal. apply eq_true_iff_eq. rewrite existsb_exists, includesNat_In.
  rewrite Forall_forall in Hselok. split.
  - intros (t & Ht & Hv). destruct (Hselok t Ht) as (L & T & C & I).
    rewrite termValue_covers in Hv; auto using allBits_toBinary; [|congruence].
    apply I. now apply (C idx Hidx).
  - intro Hin. destruct (Hsel idx Hin) as (t & Ht & Hmt).
    exists t. split; [exact Ht|]. destruct (Hselok t Ht) as (L & T & C & I).
    rewrite termValue_covers; auto using allBits_toBinary; [|congruence].
    now apply (C idx Hidx).
Qed.

Lemma simplify_round_trip_witness :
  sop (simplify (mkKmapInput [3; 5; 6; 7] ["A"; "B"; "C"]%string 3 [])) = "BC + AC + AB"%string /\
  map (evalSOP ["A"; "B"; "C"]%string 3 "BC + AC + AB") [0; 3; 4; 5]
  = [Some false; Some true; Some false; Some true].
Proof.
  split; [reflexivity|].
  assert (H : forall idx, idx < 2 ^ 3 ->
            evalSOP (letterNames ["A"; "B"; "C"]%char) 3
              (sop (simplify (mkKmapInput [3; 5; 6; 7] (letterNames ["A"; "B"; "C"]%char) 3 [])))
              idx
            = Some (includesNat [3; 5; 6; 7] idx)).
  { apply simplify_round_trip.
    - lia.
    - reflexivity.
    - repeat constructor; simpl; intuition discriminate.
    - repeat constructor.
    - repeat constructor; simpl; intuition discriminate.
    - simpl. intros m Hm. lia. }
  change (sop (simplify (mkKmapInput [3; 5; 6; 7] (letterNames ["A"; "B"; "C"]%char) 3 [])))
    with "BC + AC + AB"%string in H.
  change (letterNames ["A"; "B"; "C"]%char) with ["A"; "B"; "C"]%string in H.
  simpl map.
  rewrite (H 0), (H 3), (H 4), (H 5) by (simpl; lia). reflexivity.
Defined.

End RoundTrip.

(* ================================================================== *)
(** * Further properties of the simplifier *)
(* ================================================================== *)

Section SimplifierProperties.

Lemma existsb_agree {A : Type} (f g : A -> bool) (l : list A) :
  (forall x, In x l -> f x = g x) -> existsb f l = existsb g l.
Proof.
  induction l as [|a l IH]; intro H; simpl; [reflexivity|].
  rewrite (H a (or_introl eq_refl)), IH; [reflexivity|].
  intros x Hx. apply H. now right.
Qed.

(** X1. For a list [ones] of indices below [2^numVars], every term
    returned by [quineMcCluskey] has a pattern of [numVars] symbols 0, 1
    or -, its minterm list holds exactly the indices that the pattern
    covers, all of them taken from [ones]; and every member of [ones]
    is listed by some returned term. *)
Theorem quineMcCluskey_terms_exact (numVars : nat) (ones : list nat) :
  1 <= numVars ->
  (forall m, In m ones -> m < 2 ^ numVars) ->
  (forall t, In t (quineMcCluskey ones numVars) ->
     String.length (binary t) = numVars /\
     triState (binary t) /\
     (forall m, m < 2 ^ numVars ->
                (covers (binary t) (toBinary numVars m) = true <-> In m (minterms t))) /\
     (forall m, In m (minterms t) -> In m ones))
  /\
  (forall m, In m ones -> exists t, In t (quineMcCluskey ones numVars) /\ In m (minterms t)).
Proof.
  intros Hn Hr. destruct (quineMcCluskey_spec numVars ones Hn Hr) as [Hok Hcov].
  split; [|exact Hcov].
  intros t Ht. rewrite Forall_forall in Hok.
  destruct (Hok t Ht) as (L & T & C & I). repeat split; auto; apply C; auto.
Qed.

Lemma quineMcCluskey_terms_exact_witness :
  (forall m, In m [1; 2; 3] -> m < 2 ^ 2) /\
  exists t, In t (quineMcCluskey [1; 2; 3] 2) /\ In 3 (minterms t).
Proof.
  assert (Hr : forall m, In m [1; 2; 3] -> m < 2 ^ 2) by (simpl; intros m H; lia).
  split; [exact Hr|].
  apply (quineMcCluskey_terms_exact 2 [1; 2; 3]); [lia | exact Hr | simpl; auto].
Defined.

(** X2. When the required minterms are pairwise distinct and each is
    listed by some prime implicant, the selection returned by
    [findEssentialPrimeImplicants] is made of prime implicants of the
    list and lists every required minterm: the greedy loop is never left
    with a minterm uncovered. *)
Theorem findEssentialPrimeImplicants_covers (pis : list term) (mins : list nat) :
  NoDup mins ->
  (forall m, In m mins -> exists t, In t pis /\ In m (minterms t)) ->
  (forall t, In t (findEssentialPrimeImplicants pis mins) -> In t pis) /\
  (forall m, In m mins ->
             exists t, In t (findEssentialPrimeImplicants pis mins) /\ In m (minterms t)).
Proof.
  intros Hnd Hcov. destruct (findEssential_covers pis mins Hnd Hcov) as [H1 H2].
  split; [exact H1 | exact H2].
Qed.

Lemma findEssentialPrimeImplicants_covers_witness :
  NoDup [0; 1; 3] /\
  exists t, In t (findEssentialPrimeImplicants (quineMcCluskey [0; 1; 3] 2) [0; 1; 3]) /\
            In 3 (minterms t).
Proof.
  assert (Hnd : NoDup [0; 1; 3]) by (repeat constructor; simpl; intuition discriminate).
  split; [exact Hnd|].
  apply (findEssentialPrimeImplicants_covers (quineMcCluskey [0; 1; 3] 2) [0; 1; 3] Hnd);
    [|simpl; auto].
  intros m Hm.
  apply (quineMcCluskey_spec 2 [0; 1; 3]); [lia | simpl; intros x Hx; lia | exact Hm].
Defined.

(** X3. A successful merge loses nothing and adds nothing: on every
    assignment written as a string of binary digits, the cube returned
    by [combineBinary] covers it exactly when one of the two merged
    cubes does. *)
Theorem combineBinary_covers_union (a b c bits : string) :
  String.length a = String.length b ->
  triState a -> triState b -> allBits bits ->
  combineBinary a b = Some c ->
  covers c bits = covers a bits || covers b bits.
Proof.
  intros Hlen Ta Tb Hbits Hc.
  destruct (combineBinary_inv _ _ _ Hlen Hc) as (pre & x & y & post & Hsp & ->).
  destruct Hsp as (-> & -> & Hxy & Hx & Hy).
  apply covers_merged; [exact Hbits | exact Hxy | |].
  - exact (triState_middle _ _ _ Ta Hx).
  - exact (triState_middle _ _ _ Tb Hy).
Qed.

Lemma combineBinary_covers_union_witness :
  combineBinary "0-10" "0-11" = Some "0-1-"%string /\
  covers "0-1-" "0111" = covers "0-10" "0111" || covers "0-11" "0111".
Proof.
  split; [reflexivity|].
  apply (combineBinary_covers_union "0-10" "0-11" "0-1-" "0111");
    simpl; unfold triStateChar; try tauto; reflexivity.
Defined.

(** X4. The text of [convertToSOP], for variables named by distinct
    letters and cubes of as many symbols 0, 1 or - as there are
    variables, reads as the disjunction of the cubes: it is 1 at an
    assignment exactly when one of the cubes covers it (and reads as 0
    for the empty list). *)
Theorem convertToSOP_reads_as_cubes
  (numVars : nat) (letters : list ascii) (pis : list term) (idx : nat) :
  1 <= numVars ->
  List.length letters = numVars ->
  NoDup letters ->
  Forall (fun c => isLetter c = true) letters ->
  Forall (fun pi => String.length (binary pi) = numVars /\ triState (binary pi)) pis ->
  idx < 2 ^ numVars ->
  evalSOP (letterNames letters) numVars (convertToSOP pis (letterNames letters)) idx
  = Some (existsb (fun pi => covers (binary pi) (toBinary numVars idx)) pis).
Proof.
  intros Hn Hlen Hnd Hok Hpis Hidx.
  assert (Hbits : String.length (toBinary numVars idx) = List.length letters)
    by (rewrite Hlen; now apply length_toBinary).
  unfold evalSOP. rewrite eval_convertToSOP; auto.
  - f_equal. apply existsb_agree. intros pi Hpi.
    rewrite Forall_forall in Hpis. destruct (Hpis pi Hpi) as [L T].
    apply termValue_covers; auto using allBits_toBinary. congruence.
  - apply Forall_forall. intros pi Hpi. rewrite Forall_forall in Hpis.
    destruct (Hpis pi Hpi) as [L _]. congruence.
Qed.

End SimplifierProperties.

Section DontCares.

Lemma convertToSOP_reads_as_cubes_witness :
  evalSOP (letterNames ["A"; "B"]%char) 2
          (convertToSOP [mkTerm 0 "-1" [1; 3] false; mkTerm 1 "1-" [2; 3] false]
                        (letterNames ["A"; "B"]%char)) 2
  = Some true.
Proof.
  rewrite (convertToSOP_reads_as_cubes 2 ["A"; "B"]%char);
    try reflexivity; try (simpl; lia).
  - repeat constructor; simpl; intuition discriminate.
  - repeat constructor.
  - apply Forall_forall. intros pi [<- | [<- | []]]; simpl; unfold triStateChar; tauto.
Defined.

(** [sop] of [simplify] with don't-cares, at one index. *)
Lemma simplify_sop_dont_cares
  (numVars : nat) (letters : list ascii) (mins dontCares : list nat) (idx : nat) :
  1 <= numVars ->
  List.length letters = numVars ->
  NoDup letters ->
  Forall (fun c => isLetter c = true) letters ->
  NoDup mins ->
  (forall m, In m (mins ++ dontCares) -> m < 2 ^ numVars) ->
  idx < 2 ^ numVars ->
  exists value,
    evalSOP (letterNames letters) numVars
            (sop (simplify (mkKmapInput mins (letterNames letters) numVars dontCares))) idx
    = Some value /\
    (In idx mins -> value = true) /\
    (value = true -> In idx mins \/ In idx dontCares).
Proof.
  intros Hn Hlen Hletters Hok Hnd Hrange Hidx.
  assert (Hrmins : forall m, In m mins -> m < 2 ^ numVars)
    by (intros m Hm; apply Hrange, in_app_iff; now left).
  unfold simplify; simpl.
  destruct (Nat.eqb_spec (List.length mins) 0) as [E0|_]; simpl.
  { apply length_zero_iff_nil in E0. subst mins. exists false.
    split; [reflexivity|]. split; [contradiction | discriminate]. }
  destruct (Nat.eqb_spec (List.length mins) (2 ^ numVars)) as [Efull|_]; simpl.
  { exists true. split; [reflexivity|]. split; [reflexivity|].
    intros _. left. now apply (whole_domain mins (2 ^ numVars)). }
  destruct (quineMcCluskey_spec numVars (mins ++ dontCares) Hn Hrange) as [Hterms Hcover].
  assert (Hcover' : forall m, In m mins ->
            exists t, In t (quineMcCluskey (mins ++ dontCares) numVars) /\ In m (minterms t))
    by (intros m Hm; apply Hcover, in_app_iff; now left).
  destruct (findEssential_covers _ mins Hnd Hcover') as [Hsub Hsel].
  set (sel := findEssentialPrimeImplicants (quineMcCluskey (mins ++ dontCares) numVars) mins)
    in *.
  assert (Hselok : forall t, In t sel -> termOk numVars (mins ++ dontCares) t).
  { intros t Ht. rewrite Forall_forall in Hterms. auto. }
  assert (Hbits : String.length (toBinary numVars idx) = List.length letters)
    by (rewrite Hlen; now apply length_toBinary).
  unfold evalSOP. rewrite eval_convertToSOP; auto.
  2:{ apply Forall_forall. intros t Ht. destruct (Hselok t Ht) as (L & _). congruence. }
  eexists. split; [reflexivity|]. split.
  - intro Hin. destruct (Hsel idx Hin) as (t & Ht & Hmt).
    apply existsb_exists. exists t. split; [exact Ht|].
    destruct (Hselok t Ht) as (L & T & C & I).
    rewrite termValue_covers; auto using allBits_toBinary; [|congruence].
    now apply (C idx Hidx).
  - intro Hv. apply existsb_exists in Hv as (t & Ht & Hv).
    destruct (Hselok t Ht) as (L & T & C & I).
    rewrite termValue_covers in Hv; auto using allBits_toBinary; [|congruence].
    apply in_app_iff, I. now apply (C idx Hidx).
Qed.

(** X5. With don't-cares: for variables named by distinct letters,
    pairwise distinct required minterms and all indices below [2^n],
    the text [sop] returned by [simplify] evaluates to 1 at every
    required minterm and to 0 at every index that is neither a required
    minterm nor a don't-care. *)
Theorem simplify_respects_dont_cares
  (numVars : nat) (letters : list ascii) (mins dontCares : list nat) (idx : nat) :
  1 <= numVars ->
  List.length letters = numVars ->
  NoDup letters ->
  Forall (fun c => isLetter c = true) letters ->
  NoDup mins ->
  (forall m, In m (mins ++ dontCares) -> m < 2 ^ numVars) ->
  idx < 2 ^ numVars ->
  exists value,
    evalSOP (letterNames letters) numVars
            (sop (simplify (mkKmapInput mins (letterNames letters) numVars dontCares))) idx
    = Some value /\
    (In idx mins -> value = true) /\
    (value = true -> In idx mins \/ In idx dontCares).
Proof.
  intros Hn Hlen Hletters Hok Hnd Hrange Hidx.
  exact (simplify_sop_dont_cares numVars letters mins dontCares idx
           Hn Hlen Hletters Hok Hnd Hrange Hidx).
Qed.

Lemma simplify_respects_dont_cares_witness :
  exists value,
    evalSOP (letterNames ["A"; "B"; "C"]%char) 3
      (sop (simplify (mkKmapInput [7] (letterNames ["A"; "B"; "C"]%char) 3 [3; 4; 5; 6]))) 1
    = Some value /\
    (In 1 [7] -> value = true) /\
    (value = true -> In 1 [7] \/ In 1 [3; 4; 5; 6]).
Proof.
  apply (simplify_respects_dont_cares 3 ["A"; "B"; "C"]%char [7] [3; 4; 5; 6] 1).
  - lia.
  - reflexivity.
  - repeat constructor; simpl; intuition discriminate.
  - repeat constructor.
  - repeat constructor; simpl; tauto.
  - simpl. intros m Hm. lia.
  - simpl. lia.
Defined.

End DontCares.

(* ================================================================== *)
(** * The schematic generator reads the expression back *)
(* ================================================================== *)

Section SchematicParser.

Lemma space_not_letter (c : ascii) : JsText.isSpace c = true -> isLetter c = false.
Proof.
  unfold JsText.isSpace, isLetter. intro H.
  destruct (Nat.leb_spec 65 (nat_of_ascii c)), (Nat.leb_spec (nat_of_ascii c) 90),
    (Nat.leb_spec 97 (nat_of_ascii c)), (Nat.leb_spec (nat_of_ascii c) 122);
    simpl; try reflexivity;
    destruct (Nat.leb_spec 9 (nat_of_ascii c)), (Nat.leb_spec (nat_of_ascii c) 13),
      (Nat.eqb_spec (nat_of_ascii c) 32); simpl in H; try discriminate; lia.
Qed.

Lemma space_not_quote (c : ascii) : JsText.isSpace c = true -> Ascii.eqb c "'" = false.
Proof. intro H. apply Ascii.eqb_neq. intros ->. discriminate. Qed.

Lemma scan_spaces (ws : string) : allSpaces ws -> scanLiterals ws = [].
Proof.
  induction ws as [|c ws IH]; simpl; [reflexivity|].
  intros [Hc Hws]. rewrite (space_not_letter c Hc). now apply IH.
Qed.

(** Trailing white space does not change what the scan returns. *)
Lemma scan_append_spaces (ws : string) (n : nat) :
  allSpaces ws ->
  forall t, String.length t <= n -> scanLiterals (t +++ ws) = scanLiterals t.
Proof.
  intro Hws. induction n as [|n IH]; intros t Hlen.
  - destruct t; [|simpl in Hlen; lia]. simpl. now apply scan_spaces.
  - destruct t as [|c rest]; [simpl; now apply scan_spaces|].
    simpl in Hlen. cbn [String.append scanLiterals].
    destruct (isLetter c).
    + destruct rest as [|q rest']; cbn [String.append].
      * destruct ws as [|w ws']; [reflexivity|].
        pose proof Hws as [Hw Hws']. rewrite (space_not_quote w Hw).
        now rewrite (scan_spaces (String w ws') Hws).
      * destruct (Ascii.eqb q "'").
        -- rewrite IH by (simpl in Hlen; lia). reflexivity.
        -- change (String q (rest' +++ ws)) with (String q rest' +++ ws).
           rewrite IH by lia. reflexivity.
    + apply IH. lia.
Qed.

Lemma trimEnd_split (s : string) : exists ws, allSpaces ws /\ s = JsText.trimEnd s +++ ws.
Proof.
  induction s as [|c s (ws & Hws & E)]; [exists EmptyString; now split|].
  simpl. destruct (JsText.trimEnd s) as [|d r] eqn:Et.
  - destruct (JsText.isSpace c) eqn:Ec.
    + exists (String c ws). simpl in *. split; [now split | now rewrite <- E].
    + exists ws. split; [exact Hws|]. simpl in *. now rewrite <- E.
  - exists ws. split; [exact Hws|]. simpl in *. now rewrite <- E.
Qed.

Lemma scan_trimStart (s : string) :
  scanLiterals (JsText.trimStart s) = scanLiterals s.
Proof.
  induction s as [|c s IH]; simpl; [reflexivity|].
  destruct (JsText.isSpace c) eqn:Ec; [|reflexivity].
  now rewrite (space_not_letter c Ec).
Qed.

(** [trim] is immaterial to the scan of a product term. *)
Lemma scan_trim (s : string) : scanLiterals (JsText.trim s) = scanLiterals s.
Proof.
  unfold JsText.trim.
  destruct (trimEnd_split (JsText.trimStart s)) as (ws & Hws & E).
  transitivity (scanLiterals (JsText.trimStart s)); [|apply scan_trimStart].
  set (u := JsText.trimStart s) in *.
  transitivity (scanLiterals (JsText.trimEnd u +++ ws)); [|now rewrite <- E].
  symmetry. now apply (scan_append_spaces ws (String.length (JsText.trimEnd u))).
Qed.

Lemma split_noPlus (a b : string) :
  noPlus a -> JsText.split "+" (a +++ String "+" b) = a :: JsText.split "+" b.
Proof.
  induction a as [|c a IH]; simpl; [reflexivity|].
  intros [Hc Ha]. apply Ascii.eqb_neq in Hc. rewrite Hc, (IH Ha). reflexivity.
Qed.

Lemma split_single (a : string) : noPlus a -> JsText.split "+" a = [a].
Proof.
  induction a as [|c a IH]; simpl; [reflexivity|].
  intros [Hc Ha]. apply Ascii.eqb_neq in Hc. rewrite Hc, (IH Ha). reflexivity.
Qed.

Lemma noPlus_append (a b : string) : noPlus (a +++ b) <-> noPlus a /\ noPlus b.
Proof. induction a as [|c a IH]; simpl; tauto. Qed.

Variable letters : list ascii.
Hypothesis letters_ok : Forall (fun c => isLetter c = true) letters.

Lemma name_at (i : nat) :
  i < List.length letters ->
  exists x, nth_error letters i = Some x /\ isLetter x = true /\
            varName (letterNames letters) i = String x EmptyString.
Proof.
  apply (varName_letter letters (JsString.repeat "0" (List.length letters)) letters_ok).
  apply length_repeat.
Qed.

Lemma term_head (bin : string) (i : nat) (rest : string) :
  i + String.length bin <= List.length letters ->
  JsString.head rest <> Some "'"%char ->
  JsString.head (sopTermFrom (letterNames letters) i bin +++ rest) <> Some "'"%char.
Proof.
  apply (sopTerm_head letters (JsString.repeat "0" (List.length letters)) letters_ok).
  apply length_repeat.
Qed.

Lemma noPlus_sopTermFrom (bin : string) :
  forall i, i + String.length bin <= List.length letters ->
            noPlus (sopTermFrom (letterNames letters) i bin).
Proof.
  induction bin as [|c bin IH]; intros i Hi; simpl in *; [exact I|].
  destruct (name_at i ltac:(lia)) as (x & _ & Hx & ->).
  assert (Hxp : x <> "+"%char) by (intros ->; discriminate).
  apply noPlus_append. split; [|apply IH; lia].
  destruct (Ascii.eqb c "1"); [simpl; auto|].
  destruct (Ascii.eqb c "0"); simpl; [|exact I].
  repeat split; auto. discriminate.
Qed.

Lemma noPlus_sopTerm (pi : term) :
  String.length (binary pi) <= List.length letters ->
  noPlus (sopTerm (letterNames letters) pi).
Proof.
  intro Hlen. unfold sopTerm.
  pose proof (noPlus_sopTermFrom (binary pi) 0 Hlen) as H.
  destruct (sopTermFrom (letterNames letters) 0 (binary pi)); [simpl; split; [discriminate | exact I] | exact H].
Qed.

Lemma skipn_nth_error {A : Type} (l : list A) :
  forall i x, nth_error l i = Some x -> skipn i l = x :: skipn (S i) l.
Proof.
  induction l as [|a l IH]; intros [|i] x H; simpl in *; try discriminate.
  - now injection H as ->.
  - now apply IH.
Qed.

Lemma scan_positive (x : ascii) (rest : string) :
  isLetter x = true -> JsString.head rest <> Some "'"%char ->
  scanLiterals (String x rest) = mkLiteral (String x EmptyString) false :: scanLiterals rest.
Proof.
  intros Hx Hrest. cbn [scanLiterals]. rewrite Hx.
  destruct rest as [|q r]; [reflexivity|].
  destruct (Ascii.eqb_spec q "'") as [->|_]; [simpl in Hrest; congruence | reflexivity].
Qed.

Lemma scan_negative (x : ascii) (rest : string) :
  isLetter x = true ->
  scanLiterals (String x (String "'" rest))
  = mkLiteral (String x EmptyString) true :: scanLiterals rest.
Proof. intro Hx. cbn [scanLiterals]. now rewrite Hx. Qed.

Lemma scan_sopTermFrom (bin : string) :
  forall i rest,
    i + String.length bin <= List.length letters ->
    JsString.head rest <> Some "'"%char ->
    scanLiterals (sopTermFrom (letterNames letters) i bin +++ rest)
    = cubeLiterals (skipn i letters) bin ++ scanLiterals rest.
Proof.
  induction bin as [|c bin IH]; intros i rest Hi Hrest;
    cbn [sopTermFrom String.append String.length] in *.
  - now destruct (skipn i letters).
  - destruct (name_at i ltac:(lia)) as (x & Hnth & Hx & ->).
    rewrite (skipn_nth_error letters i x Hnth). cbn [cubeLiterals].
    assert (Hnext : JsString.head (sopTermFrom (letterNames letters) (S i) bin +++ rest)
                    <> Some "'"%char)
      by (apply term_head; [lia | exact Hrest]).
    destruct (Ascii.eqb c "1").
    + cbn [String.append]. rewrite (scan_positive x _ Hx Hnext).
      rewrite IH by (try lia; exact Hrest). reflexivity.
    + destruct (Ascii.eqb c "0").
      * cbn [String.append]. rewrite (scan_negative x _ Hx).
        rewrite IH by (try lia; exact Hrest). reflexivity.
      * cbn [String.append]. rewrite IH by (try lia; exact Hrest). reflexivity.
Qed.

Lemma scan_sopTerm (pi : term) (pre post : string) :
  String.length (binary pi) <= List.length letters ->
  allSpaces pre -> allSpaces post ->
  scanLiterals (pre +++ sopTerm (letterNames letters) pi +++ post)
  = cubeLiterals letters (binary pi).
Proof.
  intros Hlen Hpre Hpost.
  assert (Hskip : forall t, scanLiterals (pre +++ t) = scanLiterals t).
  { intro t. clear - Hpre. induction pre as [|c p IH]; simpl; [reflexivity|].
    destruct Hpre as [Hc Hp]. rewrite (space_not_letter c Hc). now apply IH. }
  rewrite Hskip.
  rewrite (scan_append_spaces post (String.length (sopTerm (letterNames letters) pi)) Hpost)
    by lia.
  pose proof (scan_sopTermFrom (binary pi) 0 EmptyString Hlen ltac:(discriminate)) as H.
  rewrite append_empty_r, app_nil_r in H. simpl skipn in H.
  unfold sopTerm. destruct (sopTermFrom (letterNames letters) 0 (binary pi)) as [|c t].
  - simpl in *. exact H.
  - exact H.
Qed.

Lemma parse_join (pis : list term) :
  forall pre,
    allSpaces pre -> noPlus pre ->
    Forall (fun pi => String.length (binary pi) <= List.length letters) pis ->
    pis <> [] ->
    map (fun t => scanLiterals (JsText.trim t))
        (JsText.split "+" (pre +++ JsString.join " + " (map (sopTerm (letterNames letters)) pis)))
    = map (fun pi => cubeLiterals letters (binary pi)) pis.
Proof.
  induction pis as [|pi pis IH]; intros pre Hpre Hnp Hlen Hne; [congruence|].
  inversion Hlen as [|? ? Hpi Hrest]; subst.
  destruct pis as [|pi' pis].
  - cbn [map JsString.join].
    rewrite split_single by (apply noPlus_append; split; [exact Hnp | now apply noPlus_sopTerm]).
    cbn [map]. rewrite scan_trim.
    rewrite <- (append_empty_r (sopTerm (letterNames letters) pi)).
    rewrite scan_sopTerm; simpl; auto.
  - change (JsString.join " + " (map (sopTerm (letterNames letters)) (pi :: pi' :: pis)))
      with (sopTerm (letterNames letters) pi +++ " + " +++
            JsString.join " + " (map (sopTerm (letterNames letters)) (pi' :: pis))).
    replace (pre +++ sopTerm (letterNames letters) pi +++ " + " +++
             JsString.join " + " (map (sopTerm (letterNames letters)) (pi' :: pis)))
      with ((pre +++ sopTerm (letterNames letters) pi +++ " ") +++
            String "+" (" " +++ JsString.join " + " (map (sopTerm (letterNames letters)) (pi' :: pis))))
      by (rewrite !append_assoc; reflexivity).
    rewrite split_noPlus.
    + cbn [map]. rewrite scan_trim, scan_sopTerm; auto; [|simpl; auto].
      f_equal. apply IH; auto; [simpl; auto | simpl; split; [discriminate | exact I] | discriminate].
    + apply noPlus_append. split; [exact Hnp|]. apply noPlus_append.
      split; [now apply noPlus_sopTerm | simpl; split; [discriminate | exact I]].
Qed.

End SchematicParser.

Section SchematicRoundTrip.

(** X6. For variables named by letters and a non-empty list of cubes
    no longer than the variable list, [parseSOPTerms] applied to the
    text of [convertToSOP] returns, term by term, the literals of the
    cubes: one literal per symbol 0 or 1, inverted for 0 (a cube of
    dashes only, written "1", gives a term without literal). *)
Theorem parseSOPTerms_convertToSOP (letters : list ascii) (pis : list term) :
  Forall (fun c => isLetter c = true) letters ->
  Forall (fun pi => String.length (binary pi) <= List.length letters) pis ->
  pis <> [] ->
  parseSOPTerms (convertToSOP pis (letterNames letters))
  = map (fun pi => cubeLiterals letters (binary pi)) pis.
Proof.
  intros Hok Hlen Hne. unfold parseSOPTerms, convertToSOP.
  destruct pis as [|pi pis]; [congruence|].
  apply (parse_join letters Hok (pi :: pis) EmptyString); simpl; auto.
Qed.

Lemma parseSOPTerms_convertToSOP_witness :
  parseSOPTerms
    (convertToSOP [mkTerm 6 "00-" [0; 1] false; mkTerm 9 "1-0" [4; 6] false;
                   mkTerm 10 "-11" [3; 7] false]
                  (letterNames ["A"; "B"; "C"]%char))
  = [[mkLiteral "A" true; mkLiteral "B" true];
     [mkLiteral "A" false; mkLiteral "C" true];
     [mkLiteral "B" false; mkLiteral "C" false]].
Proof.
  rewrite parseSOPTerms_convertToSOP.
  - reflexivity.
  - repeat constructor.
  - repeat constructor.
  - discriminate.
Defined.

End SchematicRoundTrip.

(* ================================================================== *)
(** * Reading back the text of convertToPOS and toPOS *)
(* ================================================================== *)

Section PosRendering.

Variables (letters : list ascii) (bits : string).
Hypothesis letters_distinct : NoDup letters.
Hypothesis letters_ok : Forall (fun c => isLetter c = true) letters.
Hypothesis bits_length : String.length bits = List.length letters.

Lemma letter_plain_pos (x : ascii) :
  isLetter x = true ->
  Ascii.eqb x "(" = false /\ Ascii.eqb x ")" = false /\ Ascii.eqb x " " = false /\
  Ascii.eqb x (ascii_of_nat 194) = false /\
  Ascii.eqb x "1" = false /\ Ascii.eqb x "0" = false.
Proof.
  intro H. repeat split; apply Ascii.eqb_neq; intros ->; discriminate.
Qed.

Lemma pos_name_at (i : nat) :
  i < List.length letters ->
  exists x b, nth_error letters i = Some x /\ isLetter x = true /\
              String.get i bits = Some b /\
              varName (letterNames letters) i = String x EmptyString /\
              varJoined (letterNames letters) i = String x EmptyString /\
              lookupVar (letterNames letters) bits x = Some (Ascii.eqb b "1").
Proof.
  intro Hi.
  destruct (varName_letter letters bits letters_ok bits_length i Hi) as (x & Hnth & Hx & Hname).
  destruct (get_some letters bits bits_length bits i ltac:(lia)) as [b Hb].
  exists x, b. repeat split; auto.
  - unfold varJoined, letterNames. apply nth_error_nth. now rewrite nth_error_map, Hnth.
  - now apply (lookupVar_nth letters bits i).
Qed.

(** A positive literal followed by something else than a quote. *)
Lemma evalPOS_positive (x : ascii) (v : bool) (q : ascii) (rest : string) (acc cur : bool) :
  isLetter x = true -> lookupVar (letterNames letters) bits x = Some v ->
  q <> "'"%char ->
  evalPOSFrom (letterNames letters) bits (String x (String q rest)) acc cur
  = evalPOSFrom (letterNames letters) bits (String q rest) acc (cur || v).
Proof.
  intros Hx Hv Hq. destruct (letter_plain_pos x Hx) as (E1 & E2 & E3 & E4 & E5 & E6).
  cbn [evalPOSFrom]. rewrite E1, E2, E3, E4, E5, E6, Hv.
  apply Ascii.eqb_neq in Hq. now rewrite Hq.
Qed.

Lemma evalPOS_negative (x : ascii) (v : bool) (rest : string) (acc cur : bool) :
  isLetter x = true -> lookupVar (letterNames letters) bits x = Some v ->
  evalPOSFrom (letterNames letters) bits (String x (String "'" rest)) acc cur
  = evalPOSFrom (letterNames letters) bits rest acc (cur || negb v).
Proof.
  intros Hx Hv. destruct (letter_plain_pos x Hx) as (E1 & E2 & E3 & E4 & E5 & E6).
  cbn [evalPOSFrom]. now rewrite E1, E2, E3, E4, E5, E6, Hv.
Qed.

(** The literals of a sum term, from position [i] on, up to the
    closing parenthesis. *)
Lemma evalPOS_literals (cs : list ascii) :
  forall i rest acc cur,
    cs <> [] ->
    i + List.length cs <= List.length letters ->
    evalPOSFrom (letterNames letters) bits
      (JsString.join " + "
         (map (posLiteral (letterNames letters)) (combine (seq i (List.length cs)) cs))
       +++ String ")" rest) acc cur
    = evalPOSFrom (letterNames letters) bits rest
        (acc && (cur || sumValue cs (JsString.drop i bits))) false.
Proof.
  induction cs as [|c cs IH]; intros i rest acc cur Hne Hi; [congruence|].
  simpl in Hi.
  destruct (pos_name_at i ltac:(lia)) as (x & b & Hnth & Hx & Hb & Hname & Hjoin & Hv).
  rewrite (get_drop bits i b Hb). cbn [sumValue].
  assert (Hlit : forall tail : string, JsString.head tail <> Some "'"%char ->
            tail <> EmptyString ->
            evalPOSFrom (letterNames letters) bits
              (posLiteral (letterNames letters) (i, c) +++ tail) acc cur
            = evalPOSFrom (letterNames letters) bits tail acc
                (cur || (if Ascii.eqb c "0" then Ascii.eqb b "1" else negb (Ascii.eqb b "1")))).
  { intros tail Htail Hne'. unfold posLiteral. cbn [fst snd].
    destruct tail as [|q tail]; [congruence|].
    destruct (Ascii.eqb c "0").
    - rewrite Hjoin. cbn [String.append]. apply evalPOS_positive; auto.
      simpl in Htail. congruence.
    - rewrite Hname. cbn [String.append]. now apply evalPOS_negative. }
  destruct cs as [|c' cs].
  - cbn [List.length seq combine map JsString.join].
    rewrite Hlit by (simpl; congruence).
    cbn [evalPOSFrom]. simpl (Ascii.eqb ")" "("). simpl (Ascii.eqb ")" ")"). cbv iota.
    destruct (JsString.drop (S i) bits); cbn [sumValue]; now rewrite orb_false_r.
  - change (JsString.join " + "
              (map (posLiteral (letterNames letters))
                 (combine (seq i (List.length (c :: c' :: cs))) (c :: c' :: cs))))
      with (posLiteral (letterNames letters) (i, c) +++ " + " +++
            JsString.join " + "
              (map (posLiteral (letterNames letters))
                 (combine (seq (S i) (List.length (c' :: cs))) (c' :: cs)))).
    rewrite !append_assoc. rewrite Hlit by (simpl; congruence).
    change (" + " +++ ?t) with (String " " (String "+" (String " " t))).
    cbn [evalPOSFrom String.append]. simpl (Ascii.eqb " " "("). simpl (Ascii.eqb " " ")").
    simpl (Ascii.eqb " " " "). simpl (Ascii.eqb "+" "+"). cbv iota. cbn [andb].
    rewrite IH by (simpl in *; try lia; congruence).
    now rewrite orb_assoc.
Qed.

End PosRendering.

Section PosProducts.

Lemma length_chars (s : string) : List.length (JsString.chars s) = String.length s.
Proof. unfold JsString.chars. induction s as [|c s IH]; simpl; [reflexivity | now rewrite IH]. Qed.

Lemma sumValue_chars (bin : string) :
  forall bits,
    allBits bin -> allBits bits -> String.length bin = String.length bits ->
    sumValue (JsString.chars bin) bits = negb (String.eqb bin bits).
Proof.
  unfold JsString.chars.
  induction bin as [|c bin IH]; intros [|b bits] Hc Hb Hlen; simpl in *;
    try discriminate; [reflexivity|].
  destruct Hc as [Hc Hbin], Hb as [Hb Hbits].
  rewrite (IH bits Hbin Hbits) by congruence.
  destruct Hc as [-> | ->], Hb as [-> | ->]; simpl; reflexivity.
Qed.

Variables (numVars : nat) (letters : list ascii) (idx : nat).
Hypothesis numVars_pos : 1 <= numVars.
Hypothesis letters_length : List.length letters = numVars.
Hypothesis letters_distinct : NoDup letters.
Hypothesis letters_ok : Forall (fun c => isLetter c = true) letters.
Hypothesis idx_in_range : idx < 2 ^ numVars.

Lemma names_length : List.length (letterNames letters) = numVars.
Proof. unfold letterNames. now rewrite length_map. Qed.

Lemma evalPOS_posTerm (m : nat) (rest : string) (acc cur : bool) :
  m < 2 ^ numVars ->
  evalPOSFrom (letterNames letters) (toBinary numVars idx)
              (posTerm (letterNames letters) m +++ rest) acc cur
  = evalPOSFrom (letterNames letters) (toBinary numVars idx) rest
                (acc && negb (m =? idx)) false.
Proof.
  intro Hm. unfold posTerm. rewrite names_length.
  assert (Hlen : String.length (toBinary numVars m) = numVars) by (now apply length_toBinary).
  assert (Hbits : String.length (toBinary numVars idx) = List.length letters)
    by (rewrite letters_length; now apply length_toBinary).
  change ("(" +++ ?t) with (String "(" t). cbn [String.append evalPOSFrom].
  simpl (Ascii.eqb "(" "("). cbv iota.
  rewrite append_assoc. cbn [String.append].
  unfold indexed.
  pose proof (evalPOS_literals letters (toBinary numVars idx) letters_distinct letters_ok Hbits
                (JsString.chars (toBinary numVars m)) 0 rest acc false) as H.
  unfold posLiteral in H. rewrite H.
  - replace (JsString.drop 0 (toBinary numVars idx)) with (toBinary numVars idx)
      by (now destruct (toBinary numVars idx)).
    rewrite sumValue_chars by (auto using allBits_toBinary; rewrite Hlen; lia).
    simpl. do 2 f_equal.
    destruct (String.eqb_spec (toBinary numVars m) (toBinary numVars idx)) as [E|E];
      destruct (Nat.eqb_spec m idx) as [E'|E']; try reflexivity.
    + apply toBinary_inj in E. contradiction.
    + subst. contradiction.
  - intro E. apply (f_equal (@List.length ascii)) in E. rewrite length_chars, Hlen in E.
    simpl in E. lia.
  - rewrite length_chars, Hlen. lia.
Qed.

Lemma evalPOS_product (sep : string) (ms : list nat) :
  (forall t acc, evalPOSFrom (letterNames letters) (toBinary numVars idx) (sep +++ t) acc false
                 = evalPOSFrom (letterNames letters) (toBinary numVars idx) t acc false) ->
  (forall m, In m ms -> m < 2 ^ numVars) ->
  ms <> [] ->
  forall acc,
    evalPOSFrom (letterNames letters) (toBinary numVars idx)
                (JsString.join sep (map (posTerm (letterNames letters)) ms)) acc false
    = Some (acc && negb (includesNat ms idx)).
Proof.
  intros Hsep. induction ms as [|m ms IH]; intros Hr Hne acc; [congruence|].
  assert (Hm : m < 2 ^ numVars) by (apply Hr; now left).
  assert (Hinc : includesNat (m :: ms) idx = (m =? idx) || includesNat ms idx)
    by (unfold includesNat; simpl; now rewrite (Nat.eqb_sym idx m)).
  rewrite Hinc, negb_orb, andb_assoc.
  destruct ms as [|m' ms].
  - cbn [map JsString.join].
    rewrite <- (append_empty_r (posTerm (letterNames letters) m)).
    rewrite evalPOS_posTerm by exact Hm. simpl. now rewrite andb_true_r.
  - change (JsString.join sep (map (posTerm (letterNames letters)) (m :: m' :: ms)))
      with (posTerm (letterNames letters) m +++ sep +++
            JsString.join sep (map (posTerm (letterNames letters)) (m' :: ms))).
    rewrite evalPOS_posTerm by exact Hm. rewrite Hsep.
    apply IH; [intros x Hx; apply Hr; now right | discriminate].
Qed.

Lemma evalPOS_convertToPOS (ms : list nat) :
  (forall m, In m ms -> m < 2 ^ numVars) ->
  evalPOS (letterNames letters) numVars (convertToPOS ms (letterNames letters)) idx
  = Some (negb (includesNat ms idx)).
Proof.
  intro Hr. unfold evalPOS, convertToPOS. destruct ms as [|m ms]; [reflexivity|].
  rewrite (evalPOS_product middleDot); auto; discriminate.
Qed.

End PosProducts.

Section PosTheorems.

(** X7. The text of [convertToPOS], for variables named by distinct
    letters and maxterm indices below [2^n], reads as the product of
    the maxterms: it is 0 at an assignment exactly when the assignment
    is one of the listed maxterms (and reads as 1 for the empty list). *)
Theorem convertToPOS_reads_as_maxterms
  (numVars : nat) (letters : list ascii) (maxterms : list nat) (idx : nat) :
  1 <= numVars ->
  List.length letters = numVars ->
  NoDup letters ->
  Forall (fun c => isLetter c = true) letters ->
  (forall m, In m maxterms -> m < 2 ^ numVars) ->
  idx < 2 ^ numVars ->
  evalPOS (letterNames letters) numVars (convertToPOS maxterms (letterNames letters)) idx
  = Some (negb (includesNat maxterms idx)).
Proof.
  intros Hn Hlen Hnd Hok Hr Hidx. now apply evalPOS_convertToPOS.
Qed.

Lemma convertToPOS_reads_as_maxterms_witness :
  convertToPOS [0; 3] ["A"; "B"]%string
  = ("(A + B)" +++ middleDot +++ "(A' + B')") /\
  evalPOS (letterNames ["A"; "B"]%char) 2 (convertToPOS [0; 3] (letterNames ["A"; "B"]%char)) 3
  = Some false.
Proof.
  split; [reflexivity|].
  rewrite (convertToPOS_reads_as_maxterms 2 ["A"; "B"]%char [0; 3] 3);
    try reflexivity; try (simpl; lia);
    repeat constructor; simpl; intuition discriminate.
Defined.

(** X8. The text [pos] returned by [simplify], for variables named by
    distinct letters: outside the two constant results it evaluates to
    0 exactly at the indices below [2^n] that are neither required
    minterms nor don't-cares; with no required minterm it is the
    constant 1, and with [2^n] required minterms the constant 0. *)
Theorem simplify_pos_value
  (numVars : nat) (letters : list ascii) (mins dontCares : list nat) (idx : nat) :
  1 <= numVars ->
  List.length letters = numVars ->
  NoDup letters ->
  Forall (fun c => isLetter c = true) letters ->
  idx < 2 ^ numVars ->
  evalPOS (letterNames letters) numVars
          (pos (simplify (mkKmapInput mins (letterNames letters) numVars dontCares))) idx
  = Some (if List.length mins =? 0 then true
          else if List.length mins =? 2 ^ numVars then false
          else includesNat mins idx || includesNat dontCares idx).
Proof.
  intros Hn Hlen Hnd Hok Hidx. unfold simplify; simpl.
  destruct (List.length mins =? 0); [reflexivity|].
  destruct (List.length mins =? 2 ^ numVars); [reflexivity|]. simpl.
  rewrite evalPOS_convertToPOS; auto.
  - f_equal. apply eq_true_iff_eq.
    rewrite negb_true_iff, orb_true_iff, <- not_true_iff_false, !includesNat_In, filter_In.
    rewrite in_seq, andb_true_iff, !negb_true_iff, <- !not_true_iff_false, !includesNat_In.
    split.
    + intro H. destruct (in_dec Nat.eq_dec idx mins) as [H1|H1]; [now left|].
      destruct (in_dec Nat.eq_dec idx dontCares) as [H2|H2]; [now right|].
      exfalso. apply H. repeat split; auto; lia.
    + intros [H | H] (_ & H1 & H2); contradiction.
  - intros m Hm. apply filter_In in Hm as [Hm _]. apply in_seq in Hm. lia.
Qed.

Lemma simplify_pos_value_witness :
  pos (simplify (mkKmapInput [1; 2; 3] ["A"; "B"]%string 2 [])) = "(A + B)"%string /\
  evalPOS (letterNames ["A"; "B"]%char) 2
          (pos (simplify (mkKmapInput [1; 2; 3] (letterNames ["A"; "B"]%char) 2 []))) 0
  = Some false.
Proof.
  split; [reflexivity|].
  rewrite (simplify_pos_value 2 ["A"; "B"]%char [1; 2; 3] [] 0);
    try reflexivity; try (simpl; lia);
    repeat constructor; simpl; intuition discriminate.
Defined.

(** X9. The canonical product of sums of the parser: for variables
    named by distinct letters and pairwise distinct maxterm indices
    below [2^n], the text of [toPOS] is 0 at an assignment exactly when
    the assignment is one of the maxterms. *)
Theorem toPOS_reads_as_maxterms
  (numVars : nat) (letters : list ascii) (maxterms : list nat) (idx : nat) :
  1 <= numVars ->
  List.length letters = numVars ->
  NoDup letters ->
  Forall (fun c => isLetter c = true) letters ->
  NoDup maxterms ->
  (forall m, In m maxterms -> m < 2 ^ numVars) ->
  idx < 2 ^ numVars ->
  evalPOS (letterNames letters) numVars (toPOS maxterms (letterNames letters)) idx
  = Some (negb (includesNat maxterms idx)).
Proof.
  intros Hn Hlen Hnd Hok Hms Hr Hidx. unfold toPOS.
  rewrite (names_length numVars letters Hlen).
  destruct (Nat.eqb_spec (List.length maxterms) 0) as [E0|Hne0].
  { apply length_zero_iff_nil in E0. subst. reflexivity. }
  destruct (Nat.eqb_spec (List.length maxterms) (2 ^ numVars)) as [Efull|_].
  { assert (Hin : includesNat maxterms idx = true)
      by (apply includesNat_In; now apply (whole_domain maxterms (2 ^ numVars))).
    rewrite Hin. reflexivity. }
  unfold evalPOS. rewrite (evalPOS_product numVars letters idx); auto.
  intros ->. now apply Hne0.
Qed.

Lemma toPOS_reads_as_maxterms_witness :
  toPOS [0; 3] ["A"; "B"]%string = "(A + B)(A' + B')"%string /\
  evalPOS (letterNames ["A"; "B"]%char) 2 (toPOS [0; 3] (letterNames ["A"; "B"]%char)) 1
  = Some true.
Proof.
  split; [reflexivity|].
  rewrite (toPOS_reads_as_maxterms 2 ["A"; "B"]%char [0; 3] 1);
    try reflexivity; try (simpl; lia);
    repeat constructor; simpl; intuition discriminate.
Defined.

End PosTheorems.

(* ================================================================== *)
(** * The canonical sum of products of the parser *)
(* ================================================================== *)

Section CanonicalSop.

Variables (numVars : nat) (letters : list ascii).
Hypothesis numVars_pos : 1 <= numVars.
Hypothesis letters_length : List.length letters = numVars.
Hypothesis letters_distinct : NoDup letters.
Hypothesis letters_ok : Forall (fun c => isLetter c = true) letters.

Lemma canonical_literals (bin : string) :
  forall i,
    allBits bin -> i + String.length bin <= List.length letters ->
    JsString.join EmptyString
      (map (fun bi : nat * ascii =>
              if Ascii.eqb (snd bi) "1" then varJoined (letterNames letters) (fst bi)
              else varName (letterNames letters) (fst bi) +++ "'")
           (combine (seq i (List.length (JsString.chars bin))) (JsString.chars bin)))
    = sopTermFrom (letterNames letters) i bin.
Proof.
  unfold JsString.chars.
  induction bin as [|c bin IH]; intros i Hb Hi; [reflexivity|].
  destruct Hb as [Hc Hb]. simpl in Hi.
  destruct (name_at letters letters_ok i ltac:(lia)) as (x & Hnth & Hx & Hname).
  assert (Hjoin : varJoined (letterNames letters) i = String x EmptyString).
  { unfold varJoined, letterNames. apply nth_error_nth. now rewrite nth_error_map, Hnth. }
  specialize (IH (S i) Hb ltac:(lia)).
  cbn [list_ascii_of_string List.length seq combine map sopTermFrom fst snd].
  rewrite <- IH, Hname, Hjoin.
  set (rest := map _ (combine (seq (S i) _) _)).
  assert (Hj : forall lit, JsString.join EmptyString (lit :: rest)
                           = lit +++ JsString.join EmptyString rest).
  { intro lit. destruct rest; simpl; [now rewrite append_empty_r | reflexivity]. }
  rewrite Hj. destruct Hc as [-> | ->]; reflexivity.
Qed.

Lemma canonicalProduct_sopTerm (m : nat) :
  m < 2 ^ numVars ->
  canonicalProduct (letterNames letters) m
  = sopTerm (letterNames letters) (mkTerm 0 (toBinary numVars m) [m] false).
Proof.
  intro Hm. unfold canonicalProduct, sopTerm, indexed. simpl binary.
  rewrite (names_length numVars letters letters_length).
  assert (Hlen : String.length (toBinary numVars m) = numVars) by (now apply length_toBinary).
  rewrite (canonical_literals (toBinary numVars m) 0 (allBits_toBinary _ _)) by lia.
  destruct (toBinary numVars m) as [|c bin] eqn:E; [simpl in Hlen; lia|].
  pose proof (allBits_toBinary numVars m) as Hb. rewrite E in Hb. destruct Hb as [Hc _].
  destruct (name_at letters letters_ok 0 ltac:(lia)) as (x & _ & _ & Hname).
  cbn [sopTermFrom]. rewrite Hname. destruct Hc as [-> | ->]; reflexivity.
Qed.

Lemma toSOP_general (mins : list nat) :
  (forall m, In m mins -> m < 2 ^ numVars) ->
  map (canonicalProduct (letterNames letters)) mins
  = map (sopTerm (letterNames letters))
        (map (fun m => mkTerm 0 (toBinary numVars m) [m] false) mins).
Proof.
  intro Hr. rewrite map_map. apply map_ext_in. intros m Hm.
  apply canonicalProduct_sopTerm. now apply Hr.
Qed.

End CanonicalSop.

Section CanonicalSopTheorem.

(** X10. The canonical sum of products of the parser: for variables
    named by distinct letters and pairwise distinct minterm indices
    below [2^n], the text of [toSOP] is 1 at an assignment exactly when
    the assignment is one of the minterms. *)
Theorem toSOP_reads_as_minterms
  (numVars : nat) (letters : list ascii) (mins : list nat) (idx : nat) :
  1 <= numVars ->
  List.length letters = numVars ->
  NoDup letters ->
  Forall (fun c => isLetter c = true) letters ->
  NoDup mins ->
  (forall m, In m mins -> m < 2 ^ numVars) ->
  idx < 2 ^ numVars ->
  evalSOP (letterNames letters) numVars (toSOP mins (letterNames letters)) idx
  = Some (includesNat mins idx).
Proof.
  intros Hn Hlen Hnd Hok Hms Hr Hidx. unfold toSOP.
  rewrite (names_length numVars letters Hlen).
  destruct (Nat.eqb_spec (List.length mins) 0) as [E0|Hne0].
  { apply length_zero_iff_nil in E0. subst. reflexivity. }
  destruct (Nat.eqb_spec (List.length mins) (2 ^ numVars)) as [Efull|_].
  { assert (Hin : includesNat mins idx = true)
      by (apply includesNat_In; now apply (whole_domain mins (2 ^ numVars))).
    rewrite Hin. reflexivity. }
  rewrite (toSOP_general numVars letters Hn Hlen Hok mins Hr).
  assert (Hbits : String.length (toBinary numVars idx) = List.length letters)
    by (rewrite Hlen; now apply length_toBinary).
  set (terms := map (fun m => mkTerm 0 (toBinary numVars m) [m] false) mins).
  assert (Hterms : terms <> []) by (unfold terms; destruct mins; simpl; [now elim Hne0 | discriminate]).
  unfold evalSOP. rewrite eval_join; auto.
  2:{ apply Forall_forall. intros t Ht. unfold terms in Ht.
      apply in_map_iff in Ht as (m & <- & Hm). simpl.
      rewrite Hlen. apply length_toBinary; auto. }
  f_equal. unfold terms. apply eq_true_iff_eq.
  rewrite existsb_exists, includesNat_In. split.
  - intros (t & Ht & Hv). apply in_map_iff in Ht as (m & <- & Hm). simpl in Hv.
    rewrite termValue_covers in Hv;
      auto using allBits_toBinary, allBits_triState;
      [|rewrite !length_toBinary; auto].
    apply covers_bits in Hv; [|apply allBits_toBinary].
    apply toBinary_inj in Hv. now subst.
  - intro Hin. exists (mkTerm 0 (toBinary numVars idx) [idx] false).
    split; [apply in_map_iff; now exists idx|]. simpl.
    rewrite termValue_covers; auto using allBits_toBinary, allBits_triState.
    apply covers_bits; [apply allBits_toBinary | reflexivity].
Qed.

Lemma toSOP_reads_as_minterms_witness :
  toSOP [1; 2] ["A"; "B"]%string = "A'B + AB'"%string /\
  evalSOP (letterNames ["A"; "B"]%char) 2 (toSOP [1; 2] (letterNames ["A"; "B"]%char)) 2
  = Some true.
Proof.
  split; [reflexivity|].
  rewrite (toSOP_reads_as_minterms 2 ["A"; "B"]%char [1; 2] 2);
    try reflexivity; try (simpl; lia);
    repeat constructor; simpl; intuition discriminate.
Defined.

End CanonicalSopTheorem.

(* ================================================================== *)
(** * js/kmap.js: cells and indices *)
(* ================================================================== *)

Section CellsAndIndices.

Lemma cellRoundTripCheck_all : forallb cellRoundTripCheck [2; 3; 4; 5; 6] = true.
Proof. vm_compute. reflexivity. Qed.

Lemma positionRoundTripCheck_all : forallb positionRoundTripCheck [2; 3; 4; 5; 6] = true.
Proof. vm_compute. reflexivity. Qed.

Lemma neighbourCheck_all : forallb neighbourCheck [2; 3; 4; 5; 6] = true.
Proof. vm_compute. reflexivity. Qed.

Lemma cellInside_cellsOf (numVars : nat) (p : cellPos) :
  cellInside numVars p = true -> In p (cellsOf numVars).
Proof.
  destruct p as [k r c]. unfold cellInside, cellsOf. simpl.
  rewrite !andb_true_iff, !Z.leb_le, !Z.ltb_lt.
  intros [[[[[Hk1 Hk2] Hr1] Hr2] Hc1] Hc2].
  apply in_flat_map. exists (Z.to_nat k). split; [apply in_seq; lia|].
  apply in_flat_map. exists (Z.to_nat r). split; [apply in_seq; lia|].
  apply in_map_iff. exists (Z.to_nat c). split; [|apply in_seq; lia].
  rewrite !Z2Nat.id by lia. reflexivity.
Qed.

Lemma cellPos_eqb_eq (p q : cellPos) : cellPos_eqb p q = true -> p = q.
Proof.
  destruct p, q. unfold cellPos_eqb. simpl.
  rewrite !andb_true_iff, !Z.eqb_eq. intros [[-> ->] ->]. reflexivity.
Qed.

Lemma isPowerOfTwo_sound (x : nat) : isPowerOfTwo x = true -> exists k, x = 2 ^ k.
Proof.
  unfold isPowerOfTwo. intro H. apply existsb_exists in H as [k [_ H]].
  apply Nat.eqb_eq in H. now exists k.
Qed.

Lemma cell_round_trip (numVars m : nat) :
  2 <= numVars <= 6 -> m < 2 ^ numVars ->
  exists p, cellOf numVars m = Some p /\ cellInside numVars p = true /\
            mintermAt numVars p = Some m.
Proof.
  intros Hn Hm.
  pose proof cellRoundTripCheck_all as H. rewrite forallb_forall in H.
  assert (Hin : In numVars [2; 3; 4; 5; 6]) by (simpl; lia).
  specialize (H _ Hin). unfold cellRoundTripCheck in H. rewrite forallb_forall in H.
  specialize (H m ltac:(apply in_seq; lia)).
  destruct (cellOf numVars m) as [p|]; [|discriminate].
  apply andb_true_iff in H as [Hp H].
  destruct (mintermAt numVars p) as [m'|] eqn:E; [|discriminate].
  apply Nat.eqb_eq in H. subst m'. now exists p.
Qed.

Lemma position_round_trip (numVars : nat) (p : cellPos) :
  2 <= numVars <= 6 -> cellInside numVars p = true ->
  exists m, mintermAt numVars p = Some m /\ m < 2 ^ numVars /\ cellOf numVars m = Some p.
Proof.
  intros Hn Hp.
  pose proof positionRoundTripCheck_all as H. rewrite forallb_forall in H.
  assert (Hin : In numVars [2; 3; 4; 5; 6]) by (simpl; lia).
  specialize (H _ Hin). unfold positionRoundTripCheck in H. rewrite forallb_forall in H.
  specialize (H p (cellInside_cellsOf _ _ Hp)).
  destruct (mintermAt numVars p) as [m|]; [|discriminate].
  apply andb_true_iff in H as [Hm H]. apply Nat.ltb_lt in Hm.
  destruct (cellOf numVars m) as [q|] eqn:E; [|discriminate].
  apply cellPos_eqb_eq in H. subst q. now exists m.
Qed.

(** X13. For 2 to 6 variables, two neighbouring cells of the map
    (neighbours in a row or a column of one tile, the first and the last
    position being neighbours, or the same place in two tiles whose
    selector bits differ in one bit) hold, by [getMintermFromPosition],
    two indices that differ in exactly one bit. *)
Theorem adjacent_cells_one_bit (numVars : nat) (p q : cellPos) :
  2 <= numVars <= 6 ->
  cellInside numVars p = true -> cellInside numVars q = true ->
  adjacentCells numVars p q = true ->
  exists m1 m2 k,
    getMintermFromPosition (Z.to_nat (c_row p)) (Z.to_nat (c_col p)) numVars
                           (Z.to_nat (c_map p)) = Some m1 /\
    getMintermFromPosition (Z.to_nat (c_row q)) (Z.to_nat (c_col q)) numVars
                           (Z.to_nat (c_map q)) = Some m2 /\
    Nat.lxor m1 m2 = 2 ^ k.
Proof.
  intros Hn Hp Hq Hadj.
  pose proof neighbourCheck_all as H. rewrite forallb_forall in H.
  assert (Hin : In numVars [2; 3; 4; 5; 6]) by (simpl; lia).
  specialize (H _ Hin). unfold neighbourCheck in H. rewrite forallb_forall in H.
  specialize (H p (cellInside_cellsOf _ _ Hp)). rewrite forallb_forall in H.
  specialize (H q (cellInside_cellsOf _ _ Hq)). rewrite Hadj in H. simpl in H.
  fold (mintermAt numVars p). fold (mintermAt numVars q).
  destruct (mintermAt numVars p) as [m1|]; [|discriminate].
  destruct (mintermAt numVars q) as [m2|]; [|discriminate].
  destruct (isPowerOfTwo_sound _ H) as [k Hk].
  now exists m1, m2, k.
Qed.

Lemma adjacent_cells_one_bit_witness :
  exists m1 m2 k,
    getMintermFromPosition 0 1 4 0 = Some m1 /\
    getMintermFromPosition 3 1 4 0 = Some m2 /\
    Nat.lxor m1 m2 = 2 ^ k.
Proof.
  apply (adjacent_cells_one_bit 4 (mkCell 0 0 1) (mkCell 0 3 1)); [lia | reflexivity ..].
Defined.

End CellsAndIndices.

(* ================================================================== *)
(** * js/kmap.js: writes into the grid *)
(* ================================================================== *)

Section GridWrites.

Lemma nth_error_update {A : Type} (l : list A) (x : A) :
  forall r k, r < List.length l ->
    nth_error (firstn r l ++ x :: skipn (S r) l) k =
    if k =? r then Some x else nth_error l k.
Proof.
  induction l as [|y l IH]; intros r k Hr; simpl in Hr; [lia|].
  destruct r as [|r]; destruct k as [|k]; simpl; try reflexivity.
  apply IH. lia.
Qed.

Lemma length_update {A : Type} (l : list A) (x : A) :
  forall r, r < List.length l ->
    List.length (firstn r l ++ x :: skipn (S r) l) = List.length l.
Proof.
  induction l as [|y l IH]; intros r Hr; simpl in Hr; [lia|].
  destruct r as [|r]; simpl; [reflexivity|]. f_equal. apply IH. lia.
Qed.

Lemma update_same {A : Type} (l : list A) (x : A) :
  forall r, nth_error l r = Some x -> firstn r l ++ x :: skipn (S r) l = l.
Proof.
  induction l as [|y l IH]; intros [|r] H; simpl in *; try discriminate.
  - now injection H as ->.
  - f_equal. now apply IH.
Qed.

Lemma In_update {A : Type} (l : list A) (x y : A) :
  forall r, In y (firstn r l ++ x :: skipn (S r) l) -> y = x \/ In y l.
Proof.
  induction l as [|z l IH]; intros [|r]; simpl; intros H.
  - destruct H as [<- | []]. now left.
  - destruct H as [<- | []]. now left.
  - destruct H as [<- | H]; auto.
  - destruct H as [<- | H]; auto. destruct (IH _ H); auto.
Qed.

Lemma writeRow_length (row : gridRow) (col : Z) (v : cellValue) :
  (col = (-1)%Z \/ (0 <= col < Z.of_nat (List.length (row_cells row)))%Z) ->
  List.length (row_cells (writeRow row col v)) = List.length (row_cells row).
Proof.
  unfold writeRow. intros [-> | H]; [reflexivity|].
  destruct (col <? 0)%Z eqn:E; [reflexivity|].
  assert (Hc : Z.to_nat col < List.length (row_cells row)) by lia.
  apply Nat.ltb_lt in Hc as Hc'. cbn [row_cells]. rewrite Hc'. now apply length_update.
Qed.

Lemma writeRow_nth (row : gridRow) (col : Z) (v : cellValue) (c : nat) :
  (col = (-1)%Z \/ (0 <= col < Z.of_nat (List.length (row_cells row)))%Z) ->
  nth_error (row_cells (writeRow row col v)) c =
  if (col =? Z.of_nat c)%Z then Some v else nth_error (row_cells row) c.
Proof.
  unfold writeRow. intros [-> | H].
  - change (-1 <? 0)%Z with true. cbv iota. cbn [row_cells].
    destruct (-1 =? Z.of_nat c)%Z eqn:E; [apply Z.eqb_eq in E; lia | reflexivity].
  - destruct (col <? 0)%Z eqn:E; [apply Z.ltb_lt in E; lia|].
    assert (Hc : Z.to_nat col < List.length (row_cells row)) by lia.
    apply Nat.ltb_lt in Hc as Hc'. cbn [row_cells]. rewrite Hc'.
    rewrite nth_error_update by exact Hc.
    destruct (c =? Z.to_nat col) eqn:E1; destruct (col =? Z.of_nat c)%Z eqn:E2;
      try reflexivity.
    + apply Nat.eqb_eq in E1. apply Z.eqb_neq in E2. lia.
    + apply Nat.eqb_neq in E1. apply Z.eqb_eq in E2. lia.
Qed.

Lemma gridAt_update (g : grid2) (cells : gridRow) (r r' c : nat) :
  r < List.length g ->
  gridAt (firstn r g ++ cells :: skipn (S r) g) r' c =
  if r' =? r then nth_error (row_cells cells) c else gridAt g r' c.
Proof.
  intro Hr. unfold gridAt. rewrite nth_error_update by exact Hr.
  now destruct (r' =? r).
Qed.

Lemma writeCell_spec (rows cols : nat) (g : grid2) (row col : Z) (v : cellValue) :
  wellShaped rows cols g ->
  (0 <= row < Z.of_nat rows)%Z ->
  (col = (-1)%Z \/ (0 <= col < Z.of_nat cols)%Z) ->
  exists g', writeCell g row col v = Return g' /\
             wellShaped rows cols g' /\
             forall r c, gridAt g' r c =
                         if ((row =? Z.of_nat r) && (col =? Z.of_nat c))%Z then Some v
                         else gridAt g r c.
Proof.
  intros [Hlen Hrows] Hrow Hcol. unfold writeCell.
  destruct (row <? 0)%Z eqn:E; [apply Z.ltb_lt in E; lia|].
  assert (Hr : Z.to_nat row < List.length g) by lia.
  destruct (nth_error g (Z.to_nat row)) as [cells|] eqn:En;
    [|apply nth_error_None in En; lia].
  assert (Hcells : List.length (row_cells cells) = cols)
    by (apply Hrows; eapply nth_error_In; exact En).
  eexists. split; [reflexivity|]. split; [split|].
  - rewrite length_update by exact Hr. exact Hlen.
  - intros cells' Hin. apply In_update in Hin as [-> | Hin]; [|now apply Hrows].
    rewrite writeRow_length; [exact Hcells | rewrite Hcells; exact Hcol].
  - intros r c. rewrite gridAt_update by exact Hr.
    destruct (r =? Z.to_nat row) eqn:E1.
    + apply Nat.eqb_eq in E1. subst r.
      rewrite writeRow_nth by (rewrite Hcells; exact Hcol).
      replace (row =? Z.of_nat (Z.to_nat row))%Z with true
        by (symmetry; apply Z.eqb_eq; lia).
      simpl. unfold gridAt. now rewrite En.
    + apply Nat.eqb_neq in E1.
      replace (row =? Z.of_nat r)%Z with false by (symmetry; apply Z.eqb_neq; lia).
      reflexivity.
Qed.

Lemma writeCell_outside (rows cols : nat) (g : grid2) (row col : Z) (v : cellValue) :
  wellShaped rows cols g ->
  (Z.of_nat rows <= row)%Z ->
  writeCell g row col v = Throw TypeError.
Proof.
  intros [Hlen _] Hrow. unfold writeCell.
  destruct (row <? 0)%Z; [reflexivity|].
  destruct (nth_error g (Z.to_nat row)) as [cells|] eqn:En; [|reflexivity].
  assert (nth_error g (Z.to_nat row) <> None) by congruence.
  apply nth_error_Some in H. lia.
Qed.

Lemma fillGrid_cons (cell : nat -> cellPos) (v : cellValue) (m : nat) (l : list nat)
  (g g1 : grid2) :
  writeCell g (c_row (cell m)) (c_col (cell m)) v = Return g1 ->
  fillGrid cell v (m :: l) g = fillGrid cell v l g1.
Proof. intro H. unfold fillGrid. simpl. now rewrite H. Qed.

Lemma fold_Throw {A : Type} (f : A -> nat -> outcome A) (e : jsError) (l : list nat) :
  fold_left (fun acc m => bind acc (fun a => f a m)) l (Throw e) = Throw e.
Proof. induction l as [|m l IH]; simpl; [reflexivity | exact IH]. Qed.

Lemma fillGrid_cons_throw (cell : nat -> cellPos) (v : cellValue) (m : nat) (l : list nat)
  (g : grid2) (e : jsError) :
  writeCell g (c_row (cell m)) (c_col (cell m)) v = Throw e ->
  fillGrid cell v (m :: l) g = Throw e.
Proof.
  intro H. unfold fillGrid. simpl. rewrite H.
  apply (fold_Throw (fun g m => writeCell g (c_row (cell m)) (c_col (cell m)) v)).
Qed.

Lemma fillGrid_spec (rows cols : nat) (cell : nat -> cellPos) (v : cellValue) :
  forall (l : list nat) (g : grid2),
    wellShaped rows cols g ->
    (forall m, In m l -> writable rows cols (cell m)) ->
    exists g', fillGrid cell v l g = Return g' /\
               wellShaped rows cols g' /\
               forall r c, gridAt g' r c =
                           if existsb (fun m => hits (cell m) r c) l then Some v
                           else gridAt g r c.
Proof.
  induction l as [|m l IH]; intros g Hg Hl.
  - exists g. repeat split; try apply Hg. 
  - destruct (Hl m (or_introl eq_refl)) as [Hrow Hcol].
    destruct (writeCell_spec rows cols g _ _ v Hg Hrow Hcol) as [g1 [E1 [Hg1 Hat1]]].
    destruct (IH g1 Hg1 (fun m' H => Hl m' (or_intror H))) as [g' [E' [Hg' Hat']]].
    exists g'. split; [rewrite (fillGrid_cons _ _ _ _ _ _ E1); exact E'|].
    split; [exact Hg'|].
    intros r c. rewrite Hat', Hat1. simpl. unfold hits at 2.
    destruct (existsb _ l); [now rewrite orb_true_r|].
    now rewrite orb_false_r.
Qed.

Lemma wellShaped_zeroGrid (rows cols : nat) : wellShaped rows cols (zeroGrid rows cols).
Proof.
  unfold zeroGrid. split; [apply repeat_length|].
  intros cells H. apply repeat_spec in H. subst. apply repeat_length.
Qed.

Lemma nth_error_repeat_lt {A : Type} (x : A) (n k : nat) :
  k < n -> nth_error (repeat x n) k = Some x.
Proof.
  revert k. induction n as [|n IH]; intros [|k] H; simpl; try lia; try reflexivity.
  apply IH. lia.
Qed.

Lemma gridAt_zeroGrid (rows cols r c : nat) :
  r < rows -> c < cols -> gridAt (zeroGrid rows cols) r c = Some CZero.
Proof.
  intros Hr Hc. unfold gridAt, zeroGrid.
  rewrite nth_error_repeat_lt by exact Hr. cbn [row_cells]. now apply nth_error_repeat_lt.
Qed.

Lemma readGrid_gridAt (g : grid2) (row col : Z) :
  (0 <= row)%Z -> (0 <= col)%Z ->
  readGrid g row col = gridAt g (Z.to_nat row) (Z.to_nat col).
Proof.
  intros Hr Hc. unfold readGrid, gridAt.
  destruct (row <? 0)%Z eqn:E1; [apply Z.ltb_lt in E1; lia|].
  destruct (col <? 0)%Z eqn:E2; [apply Z.ltb_lt in E2; lia|].
  reflexivity.
Qed.

End GridWrites.

Section TileWrites.

Lemma Forall_update {A : Type} (P : A -> Prop) (l : list A) (x : A) (r : nat) :
  Forall P l -> P x -> Forall P (firstn r l ++ x :: skipn (S r) l).
Proof.
  intros Hl Hx. apply Forall_forall. intros y Hy.
  apply In_update in Hy as [-> | Hy]; [exact Hx|].
  rewrite Forall_forall in Hl. now apply Hl.
Qed.

Lemma gridsAt_update (gs : list grid2) (g : grid2) (k j r c : nat) :
  k < List.length gs ->
  gridsAt (firstn k gs ++ g :: skipn (S k) gs) j r c =
  if j =? k then gridAt g r c else gridsAt gs j r c.
Proof.
  intro Hk. unfold gridsAt. rewrite nth_error_update by exact Hk.
  now destruct (j =? k).
Qed.

Lemma writeCell3_spec (rows cols : nat) (gs : list grid2) (k row col : Z) (v : cellValue) :
  Forall (wellShaped rows cols) gs ->
  (0 <= k < Z.of_nat (List.length gs))%Z ->
  (0 <= row < Z.of_nat rows)%Z ->
  (col = (-1)%Z \/ (0 <= col < Z.of_nat cols)%Z) ->
  exists gs', writeCell3 gs k row col v = Return gs' /\
              Forall (wellShaped rows cols) gs' /\
              List.length gs' = List.length gs /\
              forall j r c,
                gridsAt gs' j r c =
                if ((k =? Z.of_nat j) && ((row =? Z.of_nat r) && (col =? Z.of_nat c)))%Z
                then Some v else gridsAt gs j r c.
Proof.
  intros Hgs Hk Hrow Hcol. unfold writeCell3.
  destruct (k <? 0)%Z eqn:E; [apply Z.ltb_lt in E; lia|].
  assert (Hk' : Z.to_nat k < List.length gs) by lia.
  destruct (nth_error gs (Z.to_nat k)) as [g|] eqn:En;
    [|apply nth_error_None in En; lia].
  assert (Hg : wellShaped rows cols g).
  { rewrite Forall_forall in Hgs. apply Hgs. eapply nth_error_In. exact En. }
  destruct (writeCell_spec rows cols g row col v Hg Hrow Hcol) as [g' [E' [Hg' Hat]]].
  rewrite E'. simpl. eexists. split; [reflexivity|]. split; [|split].
  - now apply Forall_update.
  - now apply length_update.
  - intros j r c. rewrite gridsAt_update by exact Hk'.
    destruct (j =? Z.to_nat k) eqn:E1.
    + apply Nat.eqb_eq in E1. subst j.
      replace (k =? Z.of_nat (Z.to_nat k))%Z with true
        by (symmetry; apply Z.eqb_eq; lia).
      simpl. rewrite Hat. unfold gridsAt. now rewrite En.
    + apply Nat.eqb_neq in E1.
      replace (k =? Z.of_nat j)%Z with false by (symmetry; apply Z.eqb_neq; lia).
      reflexivity.
Qed.

Lemma fillGrids_cons (cell : nat -> cellPos) (v : cellValue) (m : nat) (l : list nat)
  (gs gs1 : list grid2) :
  writeCell3 gs (c_map (cell m)) (c_row (cell m)) (c_col (cell m)) v = Return gs1 ->
  fillGrids cell v (m :: l) gs = fillGrids cell v l gs1.
Proof. intro H. unfold fillGrids. simpl. now rewrite H. Qed.

Lemma fillGrids_spec (rows cols : nat) (cell : nat -> cellPos) (v : cellValue) :
  forall (l : list nat) (gs : list grid2),
    Forall (wellShaped rows cols) gs ->
    (forall m, In m l ->
               (0 <= c_map (cell m) < Z.of_nat (List.length gs))%Z /\
               writable rows cols (cell m)) ->
    exists gs', fillGrids cell v l gs = Return gs' /\
                Forall (wellShaped rows cols) gs' /\
                List.length gs' = List.length gs /\
                forall j r c,
                  gridsAt gs' j r c =
                  if existsb (fun m => hits3 (cell m) j r c) l then Some v
                  else gridsAt gs j r c.
Proof.
  induction l as [|m l IH]; intros gs Hgs Hl.
  - exists gs. repeat split; auto.
  - destruct (Hl m (or_introl eq_refl)) as [Hk [Hrow Hcol]].
    destruct (writeCell3_spec rows cols gs _ _ _ v Hgs Hk Hrow Hcol)
      as [gs1 [E1 [Hgs1 [Hlen1 Hat1]]]].
    destruct (IH gs1 Hgs1) as [gs' [E' [Hgs' [Hlen' Hat']]]].
    { intros m' H. rewrite Hlen1. apply Hl. now right. }
    exists gs'. split; [rewrite (fillGrids_cons _ _ _ _ _ _ E1); exact E'|].
    split; [exact Hgs'|]. split; [congruence|].
    intros j r c. rewrite Hat', Hat1. simpl. unfold hits3 at 2, hits.
    destruct (existsb _ l); [now rewrite orb_true_r|].
    now rewrite orb_false_r.
Qed.

End TileWrites.

Section CellFunctions.

Lemma indexOf_gray_range (s : string) :
  JsString.indexOf grayCode s = (-1)%Z \/ (0 <= JsString.indexOf grayCode s < 4)%Z.
Proof.
  unfold JsString.indexOf, grayCode. simpl.
  repeat match goal with |- context [if ?b then _ else _] => destruct b end; lia.
Qed.

Lemma indexOf_gray_bits (s : string) :
  allBits s -> String.length s = 2 -> (0 <= JsString.indexOf grayCode s < 4)%Z.
Proof.
  destruct s as [|a [|b [|c s]]]; simpl; try discriminate.
  intros [[-> | ->] [[-> | ->] _]] _; vm_compute; split; congruence.
Qed.

Lemma indexOf_gray_other (s : string) :
  String.length s <> 2 -> JsString.indexOf grayCode s = (-1)%Z.
Proof.
  intro H. unfold JsString.indexOf, grayCode. cbn [JsString.indexOfFrom].
  repeat match goal with
         | |- context [String.eqb ?g s] =>
             destruct (String.eqb_spec g s) as [<- | _]; [simpl in H; lia|]
         end.
  reflexivity.
Qed.

Lemma allBits_take (s : string) : forall k, allBits s -> allBits (JsString.take k s).
Proof.
  induction s as [|c s IH]; intros [|k] H; simpl; auto.
  destruct H as [Hc H]. split; [exact Hc | now apply IH].
Qed.

Lemma allBits_drop (s : string) : forall k, allBits s -> allBits (JsString.drop k s).
Proof.
  induction s as [|c s IH]; intros [|k] H; simpl; auto.
  destruct H as [_ H]. now apply IH.
Qed.

Lemma length_take (s : string) :
  forall k, String.length (JsString.take k s) = Nat.min k (String.length s).
Proof.
  induction s as [|c s IH]; intros [|k]; simpl; auto.
Qed.

Lemma length_drop (s : string) :
  forall k, String.length (JsString.drop k s) = String.length s - k.
Proof.
  induction s as [|c s IH]; intros [|k]; simpl; auto.
Qed.

Lemma indexOf_gray_slice (s : string) (i : nat) :
  allBits s -> i + 2 <= String.length s ->
  (0 <= JsString.indexOf grayCode (JsString.slice i (i + 2) s) < 4)%Z.
Proof.
  intros Hs Hlen. apply indexOf_gray_bits.
  - unfold JsString.slice. now apply allBits_take, allBits_drop.
  - unfold JsString.slice. rewrite length_take, length_drop. lia.
Qed.

Lemma length_toBinary_ge (n m : nat) : n <= String.length (toBinary n m).
Proof.
  unfold toBinary, JsString.padStart. rewrite length_append, length_repeat. lia.
Qed.

Lemma posBits_lower (p : positive) : Pos.to_nat p < 2 ^ String.length (JsString.posBits p).
Proof.
  induction p as [q IH|q IH|]; simpl.
  - rewrite length_append. simpl. rewrite Pos2Nat.inj_xI, Nat.add_1_r, Nat.pow_succ_r'. lia.
  - rewrite length_append. simpl. rewrite Pos2Nat.inj_xO, Nat.add_1_r, Nat.pow_succ_r'. lia.
  - rewrite Pos2Nat.inj_1. lia.
Qed.

Lemma length_toBinary_gt (n m : nat) : 2 ^ n <= m -> n < String.length (toBinary n m).
Proof.
  intro Hm. unfold toBinary, JsString.padStart. rewrite length_append, length_repeat.
  assert (H : n < String.length (JsString.toString2 m)); [|lia].
  unfold JsString.toString2. destruct (N.of_nat m) as [|p] eqn:E.
  - assert (m = 0) by lia. subst m. pose proof (Nat.pow_nonzero 2 n). lia.
  - assert (Hp : Pos.to_nat p = m) by (rewrite <- (Nat2N.id m), E; reflexivity).
    pose proof (posBits_lower p) as Hlow. rewrite Hp in Hlow.
    destruct (Nat.lt_ge_cases n (String.length (JsString.posBits p))) as [|Hle]; [assumption|].
    apply (Nat.pow_le_mono_r 2) in Hle; lia.
Qed.

Lemma parseBit_range (s : string) : (0 <= parseBit s < 2)%Z.
Proof. unfold parseBit. destruct (String.eqb s "1"); lia. Qed.

(** For 3 to 6 variables, whatever the index, the row and the tile
    computed by [generate] exist and the column exists or is -1. *)
Lemma cellFun_writable (numVars m : nat) :
  3 <= numVars <= 6 ->
  (0 <= c_map (cellFun numVars m) < gridMaps numVars)%Z /\
  writable (tileRows numVars) (tileCols numVars) (cellFun numVars m).
Proof.
  intros Hn.
  assert (Hcases : numVars = 3 \/ numVars = 4 \/ numVars = 5 \/ numVars = 6) by lia.
  pose proof (allBits_toBinary numVars m) as Hbits.
  pose proof (length_toBinary_ge numVars m) as Hlen.
  unfold writable.
  destruct Hcases as [-> | [-> | [-> | ->]]];
    cbn [cellFun gridMaps]; unfold tileRows, tileCols; cbn [gridRows gridCols].
  - unfold cell3. cbn [c_map c_row c_col].
    pose proof (parseBit_range (JsString.slice 0 1 (toBinary 3 m))).
    pose proof (indexOf_gray_range (JsString.drop 1 (toBinary 3 m))).
    change (Z.of_nat (Z.to_nat 2)) with 2%Z. change (Z.of_nat (Z.to_nat 4)) with 4%Z. lia.
  - unfold cell4. cbn [c_map c_row c_col].
    pose proof (indexOf_gray_slice (toBinary 4 m) 0 Hbits ltac:(lia)).
    pose proof (indexOf_gray_range (JsString.drop 2 (toBinary 4 m))).
    change (0 + 2) with 2 in *.
    change (Z.of_nat (Z.to_nat 4)) with 4%Z. lia.
  - unfold cell5. cbn [c_map c_row c_col].
    pose proof (indexOf_gray_slice (toBinary 5 m) 1 Hbits ltac:(lia)).
    pose proof (indexOf_gray_range (JsString.drop 3 (toBinary 5 m))).
    change (1 + 2) with 3 in *.
    change (Z.of_nat (Z.to_nat 4)) with 4%Z.
    destruct (String.eqb _ "0"); lia.
  - unfold cell6. cbn [c_map c_row c_col].
    pose proof (indexOf_gray_slice (toBinary 6 m) 0 Hbits ltac:(lia)).
    pose proof (indexOf_gray_slice (toBinary 6 m) 2 Hbits ltac:(lia)).
    pose proof (indexOf_gray_range (JsString.drop 4 (toBinary 6 m))).
    change (0 + 2) with 2 in *. change (2 + 2) with 4 in *.
    change (Z.of_nat (Z.to_nat 4)) with 4%Z. lia.
Qed.

(** For 3 to 6 variables, an index that has no assignment gets the
    column -1. *)
Lemma cellFun_out_of_range (numVars m : nat) :
  3 <= numVars <= 6 -> 2 ^ numVars <= m -> c_col (cellFun numVars m) = (-1)%Z.
Proof.
  intros Hn Hm.
  assert (Hcases : numVars = 3 \/ numVars = 4 \/ numVars = 5 \/ numVars = 6) by lia.
  pose proof (length_toBinary_gt numVars m Hm) as Hlen.
  destruct Hcases as [-> | [-> | [-> | ->]]]; cbn [cellFun];
    [unfold cell3 | unfold cell4 | unfold cell5 | unfold cell6]; cbn [c_col];
    apply indexOf_gray_other; rewrite length_drop; lia.
Qed.

Lemma cellOf_cellFun (numVars m : nat) :
  2 <= numVars <= 6 -> cellOf numVars m = Some (cellFun numVars m).
Proof.
  intro Hn.
  assert (Hcases : numVars = 2 \/ numVars = 3 \/ numVars = 4 \/ numVars = 5 \/ numVars = 6)
    by lia.
  destruct Hcases as [-> | [-> | [-> | [-> | ->]]]]; reflexivity.
Qed.

(** An index that has an assignment is written inside the map. *)
Lemma cellFun_inside (numVars m : nat) :
  2 <= numVars <= 6 -> m < 2 ^ numVars ->
  cellInside numVars (cellFun numVars m) = true /\
  mintermAt numVars (cellFun numVars m) = Some m.
Proof.
  intros Hn Hm. destruct (cell_round_trip numVars m Hn Hm) as [p [E [Hp Hback]]].
  rewrite (cellOf_cellFun numVars m Hn) in E. injection E as <-. now split.
Qed.

Lemma cellInside_bounds (numVars : nat) (p : cellPos) :
  cellInside numVars p = true ->
  (0 <= c_map p < gridMaps numVars)%Z /\
  (0 <= c_row p < gridRows numVars)%Z /\
  (0 <= c_col p < gridCols numVars)%Z.
Proof.
  unfold cellInside. rewrite !andb_true_iff, !Z.leb_le, !Z.ltb_lt. lia.
Qed.

Lemma gridRows_pos (numVars : nat) : (0 < gridRows numVars)%Z.
Proof. unfold gridRows. destruct numVars as [|[|[|[|n]]]]; lia. Qed.

Lemma gridCols_pos (numVars : nat) : (0 < gridCols numVars)%Z.
Proof. unfold gridCols. destruct numVars as [|[|[|n]]]; lia. Qed.

Lemma cellInside_writable (numVars : nat) (p : cellPos) :
  cellInside numVars p = true ->
  writable (tileRows numVars) (tileCols numVars) p.
Proof.
  intro H. apply cellInside_bounds in H as [_ [Hr Hc]].
  unfold writable, tileRows, tileCols.
  pose proof (gridRows_pos numVars). pose proof (gridCols_pos numVars).
  rewrite !Z2Nat.id by lia. split; [exact Hr | now right].
Qed.

(** Two indices with an assignment that share a cell are equal. *)
Lemma cellFun_inj (numVars m1 m2 : nat) :
  2 <= numVars <= 6 -> m1 < 2 ^ numVars -> m2 < 2 ^ numVars ->
  cellFun numVars m1 = cellFun numVars m2 -> m1 = m2.
Proof.
  intros Hn H1 H2 E.
  destruct (cellFun_inside numVars m1 Hn H1) as [_ G1].
  destruct (cellFun_inside numVars m2 Hn H2) as [_ G2].
  rewrite E in G1. rewrite G1 in G2. now injection G2.
Qed.

End CellFunctions.

(* ================================================================== *)
(** * js/kmap.js: the generated map *)
(* ================================================================== *)

Section GeneratedMap.

Lemma hits3_same_cell (numVars m m' : nat) :
  2 <= numVars <= 6 -> m < 2 ^ numVars -> m' < 2 ^ numVars ->
  hits3 (cellFun numVars m')
        (Z.to_nat (c_map (cellFun numVars m)))
        (Z.to_nat (c_row (cellFun numVars m)))
        (Z.to_nat (c_col (cellFun numVars m))) = true <-> m' = m.
Proof.
  intros Hn Hm Hm'. split.
  - intro H. apply (cellFun_inj numVars m' m Hn Hm' Hm).
    destruct (cellFun_inside numVars m Hn Hm) as [Hin _].
    apply cellInside_bounds in Hin as [Hk [Hr Hc]].
    unfold hits3, hits in H. rewrite !andb_true_iff, !Z.eqb_eq in H.
    rewrite !Z2Nat.id in H by lia.
    destruct (cellFun numVars m') as [k' r' c'], (cellFun numVars m) as [k r c].
    simpl in *. destruct H as [-> [-> ->]]. reflexivity.
  - intros ->.
    destruct (cellFun_inside numVars m Hn Hm) as [Hin _].
    apply cellInside_bounds in Hin as [Hk [Hr Hc]].
    unfold hits3, hits. rewrite !andb_true_iff, !Z.eqb_eq.
    rewrite !Z2Nat.id by lia. auto.
Qed.

Lemma existsb_hits3 (numVars m : nat) (l : list nat) :
  2 <= numVars <= 6 -> m < 2 ^ numVars ->
  (forall m', In m' l -> m' < 2 ^ numVars) ->
  existsb (fun m' => hits3 (cellFun numVars m')
                       (Z.to_nat (c_map (cellFun numVars m)))
                       (Z.to_nat (c_row (cellFun numVars m)))
                       (Z.to_nat (c_col (cellFun numVars m)))) l
  = includesNat l m.
Proof.
  intros Hn Hm Hl. apply eq_iff_eq_true.
  rewrite existsb_exists, includesNat_In. split.
  - intros [m' [Hin H]]. apply hits3_same_cell in H; auto. now subst.
  - intro Hin. exists m. split; [exact Hin|]. apply hits3_same_cell; auto.
Qed.

Lemma single_tile (numVars m : nat) :
  2 <= numVars <= 4 -> c_map (cellFun numVars m) = 0%Z.
Proof.
  intro Hn. assert (Hcases : numVars = 2 \/ numVars = 3 \/ numVars = 4) by lia.
  destruct Hcases as [-> | [-> | ->]]; reflexivity.
Qed.

Lemma existsb_hits (numVars m : nat) (l : list nat) :
  2 <= numVars <= 4 -> m < 2 ^ numVars ->
  (forall m', In m' l -> m' < 2 ^ numVars) ->
  existsb (fun m' => hits (cellFun numVars m')
                       (Z.to_nat (c_row (cellFun numVars m)))
                       (Z.to_nat (c_col (cellFun numVars m)))) l
  = includesNat l m.
Proof.
  intros Hn Hm Hl. rewrite <- (existsb_hits3 numVars m l) by (auto; lia).
  apply existsb_agree.
  intros m' _. unfold hits3. rewrite !single_tile by exact Hn. reflexivity.
Qed.

Lemma in_range_writable (numVars : nat) (l : list nat) :
  2 <= numVars <= 6 ->
  (forall m, In m l -> m < 2 ^ numVars) ->
  forall m, In m l ->
    (0 <= c_map (cellFun numVars m) < gridMaps numVars)%Z /\
    writable (tileRows numVars) (tileCols numVars) (cellFun numVars m).
Proof.
  intros Hn Hl m Hm.
  destruct (cellFun_inside numVars m Hn (Hl m Hm)) as [Hin _]. split.
  - now apply cellInside_bounds in Hin as [Hk _].
  - now apply cellInside_writable.
Qed.

(** The two [forEach] loops on a single grid. *)
Lemma fill_single_contents (numVars : nat) (mins dontCares : list nat) :
  2 <= numVars <= 4 ->
  (forall m, In m (mins ++ dontCares) -> m < 2 ^ numVars) ->
  exists g1 g2,
    fillGrid (cellFun numVars) COne mins
             (zeroGrid (tileRows numVars) (tileCols numVars)) = Return g1 /\
    fillGrid (cellFun numVars) CX dontCares g1 = Return g2 /\
    forall m, m < 2 ^ numVars ->
      readCell (SingleGrid g2) (cellFun numVars m) = Some (cellContent mins dontCares m).
Proof.
  intros Hn Hl.
  assert (Hn' : 2 <= numVars <= 6) by lia.
  assert (Hmins : forall m, In m mins -> m < 2 ^ numVars)
    by (intros m H; apply Hl, in_or_app; now left).
  assert (Hdcs : forall m, In m dontCares -> m < 2 ^ numVars)
    by (intros m H; apply Hl, in_or_app; now right).
  destruct (fillGrid_spec (tileRows numVars) (tileCols numVars) (cellFun numVars) COne
              mins _ (wellShaped_zeroGrid _ _)) as [g1 [E1 [Hg1 Hat1]]].
  { intros m H. now apply (in_range_writable numVars mins Hn' Hmins). }
  destruct (fillGrid_spec (tileRows numVars) (tileCols numVars) (cellFun numVars) CX
              dontCares g1 Hg1) as [g2 [E2 [Hg2 Hat2]]].
  { intros m H. now apply (in_range_writable numVars dontCares Hn' Hdcs). }
  exists g1, g2. split; [exact E1|]. split; [exact E2|].
  intros m Hm. unfold readCell. rewrite single_tile by exact Hn. simpl.
  destruct (cellFun_inside numVars m Hn' Hm) as [Hin _].
  apply cellInside_bounds in Hin as [_ [Hr Hc]].
  rewrite readGrid_gridAt by lia.
  rewrite Hat2, Hat1, !existsb_hits by auto.
  unfold cellContent.
  destruct (includesNat dontCares m); [reflexivity|].
  destruct (includesNat mins m); [reflexivity|].
  apply gridAt_zeroGrid; unfold tileRows, tileCols; lia.
Qed.

Lemma gridsAt_zero (maps rows cols k r c : nat) :
  k < maps -> r < rows -> c < cols ->
  gridsAt (repeat (zeroGrid rows cols) maps) k r c = Some CZero.
Proof.
  intros Hk Hr Hc. unfold gridsAt. rewrite nth_error_repeat_lt by exact Hk.
  now apply gridAt_zeroGrid.
Qed.

Lemma readCell_gridsAt (gs : list grid2) (p : cellPos) :
  (0 <= c_map p)%Z -> (0 <= c_row p)%Z -> (0 <= c_col p)%Z ->
  readCell (MultiGrid gs) p =
  gridsAt gs (Z.to_nat (c_map p)) (Z.to_nat (c_row p)) (Z.to_nat (c_col p)).
Proof.
  intros Hk Hr Hc. unfold readCell, gridsAt.
  destruct (c_map p <? 0)%Z eqn:E; [apply Z.ltb_lt in E; lia|].
  destruct (nth_error gs _); [|reflexivity]. now apply readGrid_gridAt.
Qed.

(** The two [forEach] loops on an array of grids. *)
Lemma fill_tiles_contents (numVars : nat) (mins dontCares : list nat) :
  5 <= numVars <= 6 ->
  (forall m, In m (mins ++ dontCares) -> m < 2 ^ numVars) ->
  exists gs1 gs2,
    fillGrids (cellFun numVars) COne mins
              (repeat (zeroGrid 4 4) (Z.to_nat (gridMaps numVars))) = Return gs1 /\
    fillGrids (cellFun numVars) CX dontCares gs1 = Return gs2 /\
    forall m, m < 2 ^ numVars ->
      readCell (MultiGrid gs2) (cellFun numVars m) = Some (cellContent mins dontCares m).
Proof.
  intros Hn Hl.
  assert (Hn' : 2 <= numVars <= 6) by lia.
  assert (Hmins : forall m, In m mins -> m < 2 ^ numVars)
    by (intros m H; apply Hl, in_or_app; now left).
  assert (Hdcs : forall m, In m dontCares -> m < 2 ^ numVars)
    by (intros m H; apply Hl, in_or_app; now right).
  assert (Hshape : tileRows numVars = 4 /\ tileCols numVars = 4).
  { assert (Hcases : numVars = 5 \/ numVars = 6) by lia.
    destruct Hcases as [-> | ->]; split; reflexivity. }
  destruct Hshape as [HR HC].
  assert (Hmaps : (0 < gridMaps numVars)%Z).
  { assert (Hcases : numVars = 5 \/ numVars = 6) by lia.
    destruct Hcases as [-> | ->]; reflexivity. }
  assert (Hzero : Forall (wellShaped 4 4) (repeat (zeroGrid 4 4) (Z.to_nat (gridMaps numVars)))).
  { apply Forall_forall. intros g H. apply repeat_spec in H. subst.
    apply wellShaped_zeroGrid. }
  destruct (fillGrids_spec 4 4 (cellFun numVars) COne mins _ Hzero)
    as [gs1 [E1 [Hgs1 [Hlen1 Hat1]]]].
  { intros m H. rewrite repeat_length, Z2Nat.id by lia. rewrite <- HR at 1. rewrite <- HC.
    now apply (in_range_writable numVars mins Hn' Hmins). }
  destruct (fillGrids_spec 4 4 (cellFun numVars) CX dontCares gs1 Hgs1)
    as [gs2 [E2 [Hgs2 [Hlen2 Hat2]]]].
  { intros m H. rewrite Hlen1, repeat_length, Z2Nat.id by lia.
    rewrite <- HR at 1. rewrite <- HC.
    now apply (in_range_writable numVars dontCares Hn' Hdcs). }
  exists gs1, gs2. split; [exact E1|]. split; [exact E2|].
  intros m Hm.
  destruct (cellFun_inside numVars m Hn' Hm) as [Hin _].
  apply cellInside_bounds in Hin as [Hk [Hr Hc]].
  rewrite readCell_gridsAt by lia.
  rewrite Hat2, Hat1, !existsb_hits3 by auto.
  unfold cellContent.
  destruct (includesNat dontCares m); [reflexivity|].
  destruct (includesNat mins m); [reflexivity|].
  unfold tileRows in HR. unfold tileCols in HC.
  apply gridsAt_zero; lia.
Qed.

Lemma generate_contents (tt : kmapInput) :
  2 <= k_numVars tt <= 6 ->
  (forall m, In m (k_minterms tt ++ k_dontCares tt) -> m < 2 ^ k_numVars tt) ->
  exists k,
    generate tt = Return k /\ km_input k = tt /\
    forall m, m < 2 ^ k_numVars tt ->
      readCell (b_grid (km_body k)) (cellFun (k_numVars tt) m)
      = Some (cellContent (k_minterms tt) (k_dontCares tt) m).
Proof.
  destruct tt as [mins variables numVars dontCares]. cbn [k_numVars k_minterms k_dontCares].
  intros Hn Hl.
  assert (Hcases : numVars = 2 \/ numVars = 3 \/ numVars = 4 \/ numVars = 5 \/ numVars = 6)
    by lia.
  destruct Hcases as [-> | [-> | [-> | [-> | ->]]]].
  - destruct (fill_single_contents 2 mins dontCares ltac:(lia) Hl) as [g1 [g2 [E1 [E2 H]]]].
    unfold generate, create2VarKMap. cbn [k_numVars k_minterms k_dontCares k_variables].
    change cell2 with (cellFun 2).
    change (zeroGrid 2 2) with (zeroGrid (tileRows 2) (tileCols 2)).
    cbn [Nat.ltb Nat.leb orb]. rewrite E1. cbn [bind]. rewrite E2. cbn [bind].
    eexists. split; [reflexivity|]. split; [reflexivity|]. exact H.
  - destruct (fill_single_contents 3 mins dontCares ltac:(lia) Hl) as [g1 [g2 [E1 [E2 H]]]].
    unfold generate, create3VarKMap. cbn [k_numVars k_minterms k_dontCares k_variables].
    change cell3 with (cellFun 3).
    change (zeroGrid 2 4) with (zeroGrid (tileRows 3) (tileCols 3)).
    cbn [Nat.ltb Nat.leb orb]. rewrite E1. cbn [bind]. rewrite E2. cbn [bind].
    eexists. split; [reflexivity|]. split; [reflexivity|]. exact H.
  - destruct (fill_single_contents 4 mins dontCares ltac:(lia) Hl) as [g1 [g2 [E1 [E2 H]]]].
    unfold generate, create4VarKMap. cbn [k_numVars k_minterms k_dontCares k_variables].
    change cell4 with (cellFun 4).
    change (zeroGrid 4 4) with (zeroGrid (tileRows 4) (tileCols 4)).
    cbn [Nat.ltb Nat.leb orb]. rewrite E1. cbn [bind]. rewrite E2. cbn [bind].
    eexists. split; [reflexivity|]. split; [reflexivity|]. exact H.
  - destruct (fill_tiles_contents 5 mins dontCares ltac:(lia) Hl) as [g1 [g2 [E1 [E2 H]]]].
    unfold generate, create5VarKMap. cbn [k_numVars k_minterms k_dontCares k_variables].
    change cell5 with (cellFun 5).
    change [zeroGrid 4 4; zeroGrid 4 4]
      with (repeat (zeroGrid 4 4) (Z.to_nat (gridMaps 5))).
    cbn [Nat.ltb Nat.leb orb]. rewrite E1. cbn [bind]. rewrite E2. cbn [bind].
    eexists. split; [reflexivity|]. split; [reflexivity|]. exact H.
  - destruct (fill_tiles_contents 6 mins dontCares ltac:(lia) Hl) as [g1 [g2 [E1 [E2 H]]]].
    unfold generate, create6VarKMap. cbn [k_numVars k_minterms k_dontCares k_variables].
    change cell6 with (cellFun 6).
    change [zeroGrid 4 4; zeroGrid 4 4; zeroGrid 4 4; zeroGrid 4 4]
      with (repeat (zeroGrid 4 4) (Z.to_nat (gridMaps 6))).
    cbn [Nat.ltb Nat.leb orb]. rewrite E1. cbn [bind]. rewrite E2. cbn [bind].
    eexists. split; [reflexivity|]. split; [reflexivity|]. exact H.
Qed.

End GeneratedMap.

(* ================================================================== *)
(** * js/kmap.js: where generate records an index *)
(* ================================================================== *)

Section Placement.

Lemma recordsAt_cellFun (numVars m : nat) :
  2 <= numVars <= 6 -> m < 2 ^ numVars -> recordsAt numVars m (cellFun numVars m).
Proof.
  intros Hn Hm tt Ett Hrange. subst numVars.
  destruct (generate_contents tt Hn Hrange) as [k [E [_ H]]].
  exists k. split; [exact E|]. exact (H m Hm).
Qed.

(** A cell records one index only. *)
Lemma recordsAt_inj (numVars m m' : nat) (p : cellPos) :
  2 <= numVars <= 6 -> m < 2 ^ numVars -> m' < 2 ^ numVars ->
  recordsAt numVars m p -> recordsAt numVars m' p -> m = m'.
Proof.
  intros Hn Hm Hm' H H'.
  destruct (H (mkKmapInput [m] [] numVars []) eq_refl) as [k [E R]].
  { intros i [<- | []]. exact Hm. }
  destruct (H' (mkKmapInput [m] [] numVars []) eq_refl) as [k' [E' R']].
  { intros i [<- | []]. exact Hm. }
  rewrite E in E'. injection E' as <-. rewrite R in R'.
  cbn [k_dontCares k_minterms includesNat existsb] in R'.
  rewrite Nat.eqb_refl in R'. cbn [orb] in R'.
  destruct (Nat.eqb_spec m' m) as [-> | _]; [reflexivity | discriminate].
Qed.

(** C6. For 2 to 6 variables, two assignment indices below [2^n]
    that differ in exactly one bit are recorded by [generate] (in every
    map it builds, the cell of an index holds the class of that index)
    either in neighbouring cells of one tile (same row and neighbouring
    columns, or same column and neighbouring rows, the first and last
    row, and the first and last column, being neighbours), or in the
    same row and column of two tiles whose selector bits differ in
    exactly one bit. *)
Theorem one_bit_apart_adjacent (numVars m1 m2 : nat) :
  2 <= numVars <= 6 ->
  m1 < 2 ^ numVars -> m2 < 2 ^ numVars ->
  (exists k, Nat.lxor m1 m2 = 2 ^ k) ->
  exists p q,
    cellOf numVars m1 = Some p /\ cellOf numVars m2 = Some q /\
    (forall tt : kmapInput,
        k_numVars tt = numVars ->
        (forall i, In i (k_minterms tt ++ k_dontCares tt) -> i < 2 ^ numVars) ->
        exists map,
          generate tt = Return map /\
          readCell (b_grid (km_body map)) p =
            Some (if includesNat (k_dontCares tt) m1 then CX
                  else if includesNat (k_minterms tt) m1 then COne else CZero) /\
          readCell (b_grid (km_body map)) q =
            Some (if includesNat (k_dontCares tt) m2 then CX
                  else if includesNat (k_minterms tt) m2 then COne else CZero)) /\
    (sameTileAdjacent numVars p q = true \/ sameCellAdjacentTiles numVars p q = true).
Proof.
  intros Hn H1 H2 [k Hk].
  pose proof adjacencyCheck_all as H. rewrite forallb_forall in H.
  assert (Hin : In numVars [2; 3; 4; 5; 6]) by (simpl; lia).
  specialize (H _ Hin). unfold adjacencyCheck in H. rewrite forallb_forall in H.
  specialize (H m1 ltac:(apply in_seq; lia)). rewrite forallb_forall in H.
  specialize (H m2 ltac:(apply in_seq; lia)). unfold adjacencyCheckAt in H.
  apply andb_true_iff in H as [Hlt Himp]. apply Nat.ltb_lt in Hlt.
  rewrite (isPowerOfTwo_complete _ k Hlt Hk) in Himp. simpl in Himp.
  rewrite !(cellOf_cellFun numVars) in Himp by exact Hn.
  exists (cellFun numVars m1), (cellFun numVars m2).
  split; [now apply cellOf_cellFun|]. split; [now apply cellOf_cellFun|]. split.
  - intros tt Ett Hrange.
    destruct (recordsAt_cellFun numVars m1 Hn H1 tt Ett Hrange) as [map [E R1]].
    destruct (recordsAt_cellFun numVars m2 Hn H2 tt Ett Hrange) as [map' [E' R2]].
    rewrite E in E'. injection E' as <-.
    exists map. split; [exact E|]. split; [exact R1 | exact R2].
  - unfold adjacentCells in Himp. now apply orb_true_iff in Himp.
Qed.

Lemma one_bit_apart_adjacent_witness :
  exists p q,
    cellOf 4 3 = Some p /\ cellOf 4 11 = Some q /\
    (forall tt : kmapInput,
        k_numVars tt = 4 ->
        (forall i, In i (k_minterms tt ++ k_dontCares tt) -> i < 2 ^ 4) ->
        exists map,
          generate tt = Return map /\
          readCell (b_grid (km_body map)) p =
            Some (if includesNat (k_dontCares tt) 3 then CX
                  else if includesNat (k_minterms tt) 3 then COne else CZero) /\
          readCell (b_grid (km_body map)) q =
            Some (if includesNat (k_dontCares tt) 11 then CX
                  else if includesNat (k_minterms tt) 11 then COne else CZero)) /\
    (sameTileAdjacent 4 p q = true \/ sameCellAdjacentTiles 4 p q = true).
Proof.
  apply (one_bit_apart_adjacent 4 3 11); [lia | simpl; lia | simpl; lia |].
  exists 3. reflexivity.
Defined.

(** X11. For 2 to 6 variables, [getMintermFromPosition] undoes the
    placement of [generate]: every index below [2^n] has a cell inside
    the map in which [generate] records it (in every map built from a
    truth table with indices below [2^n], that cell holds the class of
    the index), and [getMintermFromPosition], given the row, column and
    tile of that cell, returns the index. *)
Theorem getMintermFromPosition_of_cell (numVars m : nat) :
  2 <= numVars <= 6 -> m < 2 ^ numVars ->
  exists p,
    cellInside numVars p = true /\
    recordsAt numVars m p /\
    getMintermFromPosition (Z.to_nat (c_row p)) (Z.to_nat (c_col p)) numVars
                           (Z.to_nat (c_map p)) = Some m.
Proof.
  intros Hn Hm. exists (cellFun numVars m).
  destruct (cellFun_inside numVars m Hn Hm) as [Hin Hback].
  split; [exact Hin|]. split; [now apply recordsAt_cellFun | exact Hback].
Qed.

Lemma getMintermFromPosition_of_cell_witness :
  exists p,
    cellInside 5 p = true /\
    recordsAt 5 22 p /\
    getMintermFromPosition (Z.to_nat (c_row p)) (Z.to_nat (c_col p)) 5
                           (Z.to_nat (c_map p)) = Some 22.
Proof. apply (getMintermFromPosition_of_cell 5 22); simpl; lia. Defined.

(** X12. For 2 to 6 variables, every cell of the map holds exactly one
    index: for each row, column and tile inside the map,
    [getMintermFromPosition] returns an index below [2^n], [generate]
    records that index in that very cell, and it records no other index
    below [2^n] there. *)
Theorem cell_of_getMintermFromPosition (numVars : nat) (p : cellPos) :
  2 <= numVars <= 6 -> cellInside numVars p = true ->
  exists m,
    getMintermFromPosition (Z.to_nat (c_row p)) (Z.to_nat (c_col p)) numVars
                           (Z.to_nat (c_map p)) = Some m /\
    m < 2 ^ numVars /\
    recordsAt numVars m p /\
    forall m', m' < 2 ^ numVars -> recordsAt numVars m' p -> m' = m.
Proof.
  intros Hn Hp.
  destruct (position_round_trip numVars p Hn Hp) as [m [Hback [Hm Hcell]]].
  rewrite (cellOf_cellFun numVars m Hn) in Hcell. injection Hcell as <-.
  exists m. split; [exact Hback|]. split; [exact Hm|].
  assert (Hrec : recordsAt numVars m (cellFun numVars m)) by now apply recordsAt_cellFun.
  split; [exact Hrec|].
  intros m' Hm' Hrec'. exact (recordsAt_inj numVars m' m _ Hn Hm' Hm Hrec' Hrec).
Qed.

Lemma cell_of_getMintermFromPosition_witness :
  exists m,
    getMintermFromPosition 2 3 6 1 = Some m /\
    m < 2 ^ 6 /\
    recordsAt 6 m (mkCell 1 2 3) /\
    forall m', m' < 2 ^ 6 -> recordsAt 6 m' (mkCell 1 2 3) -> m' = m.
Proof.
  apply (cell_of_getMintermFromPosition 6 (mkCell 1 2 3)); [lia | reflexivity].
Defined.

End Placement.

Section IndicesWithoutAssignment.

Lemma hits_out_of_range (numVars m r c : nat) :
  3 <= numVars <= 6 -> 2 ^ numVars <= m -> hits (cellFun numVars m) r c = false.
Proof.
  intros Hn Hm. unfold hits. rewrite (cellFun_out_of_range numVars m Hn Hm).
  replace (-1 =? Z.of_nat c)%Z with false by (symmetry; apply Z.eqb_neq; lia).
  apply andb_false_r.
Qed.

Lemma existsb_hits_in_range (numVars : nat) (l : list nat) (r c : nat) :
  3 <= numVars <= 6 ->
  existsb (fun m => hits (cellFun numVars m) r c) (filter (fun m => m <? 2 ^ numVars) l)
  = existsb (fun m => hits (cellFun numVars m) r c) l.
Proof.
  intro Hn. induction l as [|m l IH]; [reflexivity|]. cbn [filter existsb].
  destruct (Nat.ltb_spec m (2 ^ numVars)) as [Hm | Hm].
  - cbn [existsb]. now rewrite IH.
  - now rewrite (hits_out_of_range numVars m r c Hn Hm), IH.
Qed.

Lemma existsb_hits3_in_range (numVars : nat) (l : list nat) (k r c : nat) :
  3 <= numVars <= 6 ->
  existsb (fun m => hits3 (cellFun numVars m) k r c) (filter (fun m => m <? 2 ^ numVars) l)
  = existsb (fun m => hits3 (cellFun numVars m) k r c) l.
Proof.
  intro Hn. induction l as [|m l IH]; [reflexivity|]. cbn [filter existsb].
  destruct (Nat.ltb_spec m (2 ^ numVars)) as [Hm | Hm].
  - cbn [existsb]. now rewrite IH.
  - unfold hits3 at 2. rewrite (hits_out_of_range numVars m r c Hn Hm), andb_false_r, IH.
    reflexivity.
Qed.

(** The two [forEach] loops on a single grid, whatever the indices. *)
Lemma fill_single_any (numVars : nat) (mins dontCares : list nat) :
  3 <= numVars <= 4 ->
  exists g1 g2,
    fillGrid (cellFun numVars) COne mins
             (zeroGrid (tileRows numVars) (tileCols numVars)) = Return g1 /\
    fillGrid (cellFun numVars) CX dontCares g1 = Return g2 /\
    forall r c,
      gridAt g2 r c =
      if existsb (fun m => hits (cellFun numVars m) r c) dontCares then Some CX
      else if existsb (fun m => hits (cellFun numVars m) r c) mins then Some COne
      else gridAt (zeroGrid (tileRows numVars) (tileCols numVars)) r c.
Proof.
  intro Hn. assert (Hn' : 3 <= numVars <= 6) by lia.
  assert (Hw : forall (l : list nat) m, In m l ->
                 writable (tileRows numVars) (tileCols numVars) (cellFun numVars m))
    by (intros l m _; apply (cellFun_writable numVars m Hn')).
  destruct (fillGrid_spec _ _ (cellFun numVars) COne mins _
              (wellShaped_zeroGrid (tileRows numVars) (tileCols numVars)) (Hw mins))
    as [g1 [E1 [Hg1 Hat1]]].
  destruct (fillGrid_spec _ _ (cellFun numVars) CX dontCares g1 Hg1 (Hw dontCares))
    as [g2 [E2 [_ Hat2]]].
  exists g1, g2. split; [exact E1|]. split; [exact E2|].
  intros r c. rewrite Hat2, Hat1. reflexivity.
Qed.

(** The same on an array of grids. *)
Lemma fill_tiles_any (numVars : nat) (mins dontCares : list nat) :
  5 <= numVars <= 6 ->
  exists gs1 gs2,
    fillGrids (cellFun numVars) COne mins
              (repeat (zeroGrid 4 4) (Z.to_nat (gridMaps numVars))) = Return gs1 /\
    fillGrids (cellFun numVars) CX dontCares gs1 = Return gs2 /\
    forall k r c,
      gridsAt gs2 k r c =
      if existsb (fun m => hits3 (cellFun numVars m) k r c) dontCares then Some CX
      else if existsb (fun m => hits3 (cellFun numVars m) k r c) mins then Some COne
      else gridsAt (repeat (zeroGrid 4 4) (Z.to_nat (gridMaps numVars))) k r c.
Proof.
  intro Hn. assert (Hn' : 3 <= numVars <= 6) by lia.
  assert (Hshape : tileRows numVars = 4 /\ tileCols numVars = 4 /\ (0 < gridMaps numVars)%Z).
  { assert (Hcases : numVars = 5 \/ numVars = 6) by lia.
    destruct Hcases as [-> | ->]; repeat split; reflexivity. }
  destruct Hshape as [HR [HC Hmaps]].
  assert (Hw : forall (l : list nat) (gs : list grid2),
             List.length gs = Z.to_nat (gridMaps numVars) ->
             forall m, In m l ->
               (0 <= c_map (cellFun numVars m) < Z.of_nat (List.length gs))%Z /\
               writable 4 4 (cellFun numVars m)).
  { intros l gs Hlen m _. rewrite Hlen, Z2Nat.id by lia.
    rewrite <- HR at 1. rewrite <- HC. apply (cellFun_writable numVars m Hn'). }
  assert (Hzero : Forall (wellShaped 4 4) (repeat (zeroGrid 4 4) (Z.to_nat (gridMaps numVars)))).
  { apply Forall_forall. intros g H. apply repeat_spec in H. subst.
    apply wellShaped_zeroGrid. }
  destruct (fillGrids_spec 4 4 (cellFun numVars) COne mins _ Hzero
              (Hw mins _ (repeat_length _ _)))
    as [gs1 [E1 [Hgs1 [Hlen1 Hat1]]]].
  rewrite repeat_length in Hlen1.
  destruct (fillGrids_spec 4 4 (cellFun numVars) CX dontCares gs1 Hgs1 (Hw dontCares _ Hlen1))
    as [gs2 [E2 [_ [_ Hat2]]]].
  exists gs1, gs2. split; [exact E1|]. split; [exact E2|].
  intros k r c. rewrite Hat2, Hat1. reflexivity.
Qed.

Lemma readCell_single_ext (g h : grid2) :
  (forall r c, gridAt g r c = gridAt h r c) ->
  forall p, readCell (SingleGrid g) p = readCell (SingleGrid h) p.
Proof.
  intros H p. unfold readCell. destruct (c_map p =? 0)%Z; [|reflexivity].
  unfold readGrid. destruct ((c_row p <? 0)%Z || (c_col p <? 0)%Z); [reflexivity|].
  apply (H (Z.to_nat (c_row p)) (Z.to_nat (c_col p))).
Qed.

Lemma readCell_tiles_ext (gs hs : list grid2) :
  (forall k r c, gridsAt gs k r c = gridsAt hs k r c) ->
  forall p, readCell (MultiGrid gs) p = readCell (MultiGrid hs) p.
Proof.
  intros H p. unfold readCell. destruct (c_map p <? 0)%Z; [reflexivity|].
  unfold readGrid. destruct ((c_row p <? 0)%Z || (c_col p <? 0)%Z).
  - destruct (nth_error gs _), (nth_error hs _); reflexivity.
  - apply (H (Z.to_nat (c_map p)) (Z.to_nat (c_row p)) (Z.to_nat (c_col p))).
Qed.

(** In 3 to 6 variables the cells do not depend on the indices that
    have no assignment. *)
Lemma single_cells_in_range (numVars : nat) (mins dontCares : list nat) :
  3 <= numVars <= 4 ->
  exists g1 g2 h1 h2,
    fillGrid (cellFun numVars) COne mins
             (zeroGrid (tileRows numVars) (tileCols numVars)) = Return g1 /\
    fillGrid (cellFun numVars) CX dontCares g1 = Return g2 /\
    fillGrid (cellFun numVars) COne (filter (fun m => m <? 2 ^ numVars) mins)
             (zeroGrid (tileRows numVars) (tileCols numVars)) = Return h1 /\
    fillGrid (cellFun numVars) CX (filter (fun m => m <? 2 ^ numVars) dontCares) h1
    = Return h2 /\
    forall p, readCell (SingleGrid g2) p = readCell (SingleGrid h2) p.
Proof.
  intro Hn. assert (Hn' : 3 <= numVars <= 6) by lia.
  destruct (fill_single_any numVars mins dontCares Hn) as [g1 [g2 [E1 [E2 Hg]]]].
  destruct (fill_single_any numVars (filter (fun m => m <? 2 ^ numVars) mins)
              (filter (fun m => m <? 2 ^ numVars) dontCares) Hn) as [h1 [h2 [F1 [F2 Hh]]]].
  exists g1, g2, h1, h2. repeat split; try assumption.
  apply readCell_single_ext. intros r c.
  rewrite Hg, Hh, !existsb_hits_in_range by exact Hn'. reflexivity.
Qed.

Lemma tiles_cells_in_range (numVars : nat) (mins dontCares : list nat) :
  5 <= numVars <= 6 ->
  exists g1 g2 h1 h2,
    fillGrids (cellFun numVars) COne mins
              (repeat (zeroGrid 4 4) (Z.to_nat (gridMaps numVars))) = Return g1 /\
    fillGrids (cellFun numVars) CX dontCares g1 = Return g2 /\
    fillGrids (cellFun numVars) COne (filter (fun m => m <? 2 ^ numVars) mins)
              (repeat (zeroGrid 4 4) (Z.to_nat (gridMaps numVars))) = Return h1 /\
    fillGrids (cellFun numVars) CX (filter (fun m => m <? 2 ^ numVars) dontCares) h1
    = Return h2 /\
    forall p, readCell (MultiGrid g2) p = readCell (MultiGrid h2) p.
Proof.
  intro Hn. assert (Hn' : 3 <= numVars <= 6) by lia.
  destruct (fill_tiles_any numVars mins dontCares Hn) as [g1 [g2 [E1 [E2 Hg]]]].
  destruct (fill_tiles_any numVars (filter (fun m => m <? 2 ^ numVars) mins)
              (filter (fun m => m <? 2 ^ numVars) dontCares) Hn) as [h1 [h2 [F1 [F2 Hh]]]].
  exists g1, g2, h1, h2. repeat split; try assumption.
  apply readCell_tiles_ext. intros k r c.
  rewrite Hg, Hh, !existsb_hits3_in_range by exact Hn'. reflexivity.
Qed.

(** What the loops leave in the properties of the rows. *)
Lemma setProp_not_nil (props : list (Z * cellValue)) (key : Z) (v : cellValue) :
  setProp props key v <> [].
Proof.
  destruct props as [|[k w] rest]; cbn [setProp]; [discriminate|].
  destruct (k =? key)%Z; discriminate.
Qed.

Lemma writeRow_props_neg (x : gridRow) (col : Z) (v : cellValue) :
  (col < 0)%Z -> row_props (writeRow x col v) = setProp (row_props x) col v.
Proof. intro H. unfold writeRow. apply Z.ltb_lt in H. now rewrite H. Qed.

Lemma writeRow_props_pos (x : gridRow) (col : Z) (v : cellValue) :
  (0 <= col)%Z -> row_props (writeRow x col v) = row_props x.
Proof. intro H. unfold writeRow. destruct (Z.ltb_spec col 0); [lia | reflexivity]. Qed.

Lemma writeRow_strayOnly (x : gridRow) (col : Z) (v : cellValue) :
  col = (-1)%Z \/ (0 <= col)%Z -> strayOnly x -> strayOnly (writeRow x col v).
Proof.
  intros [-> | H] Hx; unfold strayOnly.
  - rewrite writeRow_props_neg by lia.
    destruct Hx as [-> | [w ->]]; right; exists v; reflexivity.
  - rewrite writeRow_props_pos by exact H. exact Hx.
Qed.

Lemma writeRow_keeps_props (x : gridRow) (col : Z) (v : cellValue) :
  row_props x <> [] -> row_props (writeRow x col v) <> [].
Proof.
  intro H. destruct (Z.ltb_spec col 0).
  - rewrite writeRow_props_neg by assumption. apply setProp_not_nil.
  - now rewrite writeRow_props_pos.
Qed.

Lemma split_at_nth {A : Type} (l : list A) :
  forall (n : nat) (x : A),
    nth_error l n = Some x -> l = firstn n l ++ x :: skipn (S n) l.
Proof.
  induction l as [|a l IH]; intros [|n] x E; try discriminate.
  - cbn in E. injection E as ->. reflexivity.
  - cbn in E. cbn [firstn skipn app]. f_equal. now apply IH.
Qed.

Lemma writeCell_inv (g g' : grid2) (row col : Z) (v : cellValue) :
  writeCell g row col v = Return g' ->
  exists before x after,
    g = before ++ x :: after /\ g' = before ++ writeRow x col v :: after.
Proof.
  unfold writeCell. destruct (row <? 0)%Z; [discriminate|].
  destruct (nth_error g (Z.to_nat row)) as [x|] eqn:E; [|discriminate].
  intro H. injection H as <-.
  exists (firstn (Z.to_nat row) g), x, (skipn (S (Z.to_nat row)) g).
  split; [now apply split_at_nth | reflexivity].
Qed.

Lemma writeCell_rows (R : gridRow -> Prop) (g g' : grid2) (row col : Z) (v : cellValue) :
  (forall x, R x -> R (writeRow x col v)) ->
  Forall R g -> writeCell g row col v = Return g' -> Forall R g'.
Proof.
  intros HR Hg E. destruct (writeCell_inv _ _ _ _ _ E) as (b & x & a & -> & ->).
  apply Forall_app in Hg as [Hb Hxa]. inversion Hxa; subst.
  apply Forall_app. split; [exact Hb|]. constructor; auto.
Qed.

Lemma writeCell_some_row (R : gridRow -> Prop) (g g' : grid2) (row col : Z)
  (v : cellValue) :
  (forall x, R x -> R (writeRow x col v)) ->
  Exists R g -> writeCell g row col v = Return g' -> Exists R g'.
Proof.
  intros HR Hg E. destruct (writeCell_inv _ _ _ _ _ E) as (b & x & a & -> & ->).
  apply Exists_app in Hg as [Hb | Hxa]; apply Exists_app; [now left | right].
  inversion Hxa; subst; [left; auto | now right].
Qed.

Lemma writeCell_stray (g g' : grid2) (row col : Z) (v : cellValue) :
  (col < 0)%Z -> writeCell g row col v = Return g' ->
  Exists (fun x => row_props x <> []) g'.
Proof.
  intros Hcol E. destruct (writeCell_inv _ _ _ _ _ E) as (b & x & a & -> & ->).
  apply Exists_app. right. left.
  rewrite writeRow_props_neg by exact Hcol. apply setProp_not_nil.
Qed.

Lemma fillGrid_rows (R : gridRow -> Prop) (cell : nat -> cellPos) (v : cellValue) :
  forall (l : list nat) (g g' : grid2),
    (forall m, In m l -> forall x, R x -> R (writeRow x (c_col (cell m)) v)) ->
    Forall R g -> fillGrid cell v l g = Return g' -> Forall R g'.
Proof.
  induction l as [|m l IH]; intros g g' HR Hg E.
  - unfold fillGrid in E. cbn in E. now injection E as <-.
  - destruct (writeCell g (c_row (cell m)) (c_col (cell m)) v) as [g1|e] eqn:E1.
    + rewrite (fillGrid_cons _ _ _ _ _ _ E1) in E. apply (IH g1 g'); [| |exact E].
      * intros m' H. apply HR. now right.
      * exact (writeCell_rows R _ _ _ _ _ (HR m (or_introl eq_refl)) Hg E1).
    + rewrite (fillGrid_cons_throw _ _ _ _ _ _ E1) in E. discriminate.
Qed.

Lemma fillGrid_stray (cell : nat -> cellPos) (v : cellValue) :
  forall (l : list nat) (g g' : grid2),
    fillGrid cell v l g = Return g' ->
    Exists (fun x => row_props x <> []) g \/
    (exists m, In m l /\ (c_col (cell m) < 0)%Z) ->
    Exists (fun x => row_props x <> []) g'.
Proof.
  induction l as [|m l IH]; intros g g' E H.
  - unfold fillGrid in E. cbn in E. injection E as <-.
    destruct H as [H | [m [[] _]]]. exact H.
  - destruct (writeCell g (c_row (cell m)) (c_col (cell m)) v) as [g1|e] eqn:E1.
    + rewrite (fillGrid_cons _ _ _ _ _ _ E1) in E. apply (IH g1 g' E).
      destruct H as [H | [m' [[<- | Hin] Hneg]]].
      * left. refine (writeCell_some_row _ _ _ _ _ _ _ H E1).
        intros x. apply writeRow_keeps_props.
      * left. exact (writeCell_stray _ _ _ _ _ Hneg E1).
      * right. now exists m'.
    + rewrite (fillGrid_cons_throw _ _ _ _ _ _ E1) in E. discriminate.
Qed.

Lemma writeCell3_inv (gs gs' : list grid2) (k row col : Z) (v : cellValue) :
  writeCell3 gs k row col v = Return gs' ->
  exists before g after g1,
    gs = before ++ g :: after /\ writeCell g row col v = Return g1 /\
    gs' = before ++ g1 :: after.
Proof.
  unfold writeCell3. destruct (k <? 0)%Z; [discriminate|].
  destruct (nth_error gs (Z.to_nat k)) as [g|] eqn:E; [|discriminate].
  destruct (writeCell g row col v) as [g1|e] eqn:E1; cbn [bind]; [|discriminate].
  intro H. injection H as <-.
  exists (firstn (Z.to_nat k) gs), g, (skipn (S (Z.to_nat k)) gs), g1.
  split; [now apply split_at_nth|]. split; [exact E1 | reflexivity].
Qed.

Lemma writeCell3_rows (R : gridRow -> Prop) (gs gs' : list grid2) (k row col : Z)
  (v : cellValue) :
  (forall x, R x -> R (writeRow x col v)) ->
  Forall R (List.concat gs) -> writeCell3 gs k row col v = Return gs' ->
  Forall R (List.concat gs').
Proof.
  intros HR Hgs E.
  destruct (writeCell3_inv _ _ _ _ _ _ E) as (b & g & a & g1 & -> & E1 & ->).
  rewrite concat_app in *. cbn [List.concat] in *.
  apply Forall_app in Hgs as [Hb Hga]. apply Forall_app in Hga as [Hg Ha].
  apply Forall_app. split; [exact Hb|]. apply Forall_app. split; [|exact Ha].
  exact (writeCell_rows R _ _ _ _ _ HR Hg E1).
Qed.

Lemma writeCell3_some_row (R : gridRow -> Prop) (gs gs' : list grid2) (k row col : Z)
  (v : cellValue) :
  (forall x, R x -> R (writeRow x col v)) ->
  Exists R (List.concat gs) -> writeCell3 gs k row col v = Return gs' ->
  Exists R (List.concat gs').
Proof.
  intros HR Hgs E.
  destruct (writeCell3_inv _ _ _ _ _ _ E) as (b & g & a & g1 & -> & E1 & ->).
  rewrite concat_app in *. cbn [List.concat] in *.
  apply Exists_app in Hgs as [Hb | Hga]; apply Exists_app; [now left | right].
  apply Exists_app in Hga as [Hg | Ha]; apply Exists_app; [left | now right].
  exact (writeCell_some_row R _ _ _ _ _ HR Hg E1).
Qed.

Lemma writeCell3_stray (gs gs' : list grid2) (k row col : Z) (v : cellValue) :
  (col < 0)%Z -> writeCell3 gs k row col v = Return gs' ->
  Exists (fun x => row_props x <> []) (List.concat gs').
Proof.
  intros Hcol E.
  destruct (writeCell3_inv _ _ _ _ _ _ E) as (b & g & a & g1 & -> & E1 & ->).
  rewrite concat_app. cbn [List.concat].
  apply Exists_app. right. apply Exists_app. left.
  exact (writeCell_stray _ _ _ _ _ Hcol E1).
Qed.

Lemma fillGrids_cons_throw (cell : nat -> cellPos) (v : cellValue) (m : nat)
  (l : list nat) (gs : list grid2) (e : jsError) :
  writeCell3 gs (c_map (cell m)) (c_row (cell m)) (c_col (cell m)) v = Throw e ->
  fillGrids cell v (m :: l) gs = Throw e.
Proof.
  intro H. unfold fillGrids. simpl. rewrite H.
  apply (fold_Throw
           (fun gs m => writeCell3 gs (c_map (cell m)) (c_row (cell m)) (c_col (cell m)) v)).
Qed.

Lemma fillGrids_rows (R : gridRow -> Prop) (cell : nat -> cellPos) (v : cellValue) :
  forall (l : list nat) (gs gs' : list grid2),
    (forall m, In m l -> forall x, R x -> R (writeRow x (c_col (cell m)) v)) ->
    Forall R (List.concat gs) -> fillGrids cell v l gs = Return gs' ->
    Forall R (List.concat gs').
Proof.
  induction l as [|m l IH]; intros gs gs' HR Hgs E.
  - unfold fillGrids in E. cbn in E. now injection E as <-.
  - destruct (writeCell3 gs (c_map (cell m)) (c_row (cell m)) (c_col (cell m)) v)
      as [gs1|e] eqn:E1.
    + rewrite (fillGrids_cons _ _ _ _ _ _ E1) in E. apply (IH gs1 gs'); [| |exact E].
      * intros m' H. apply HR. now right.
      * exact (writeCell3_rows R _ _ _ _ _ _ (HR m (or_introl eq_refl)) Hgs E1).
    + rewrite (fillGrids_cons_throw _ _ _ _ _ _ E1) in E. discriminate.
Qed.

Lemma fillGrids_stray (cell : nat -> cellPos) (v : cellValue) :
  forall (l : list nat) (gs gs' : list grid2),
    fillGrids cell v l gs = Return gs' ->
    Exists (fun x => row_props x <> []) (List.concat gs) \/
    (exists m, In m l /\ (c_col (cell m) < 0)%Z) ->
    Exists (fun x => row_props x <> []) (List.concat gs').
Proof.
  induction l as [|m l IH]; intros gs gs' E H.
  - unfold fillGrids in E. cbn in E. injection E as <-.
    destruct H as [H | [m [[] _]]]. exact H.
  - destruct (writeCell3 gs (c_map (cell m)) (c_row (cell m)) (c_col (cell m)) v)
      as [gs1|e] eqn:E1.
    + rewrite (fillGrids_cons _ _ _ _ _ _ E1) in E. apply (IH gs1 gs' E).
      destruct H as [H | [m' [[<- | Hin] Hneg]]].
      * left. refine (writeCell3_some_row _ _ _ _ _ _ _ _ H E1).
        intros x. apply writeRow_keeps_props.
      * left. exact (writeCell3_stray _ _ _ _ _ _ Hneg E1).
      * right. now exists m'.
    + rewrite (fillGrids_cons_throw _ _ _ _ _ _ E1) in E. discriminate.
Qed.

Lemma zeroGrid_no_props (rows cols : nat) :
  Forall (fun x => row_props x = []) (zeroGrid rows cols).
Proof.
  apply Forall_forall. intros x H. apply repeat_spec in H. now subst.
Qed.

Lemma zeroGrids_no_props (rows cols n : nat) :
  Forall (fun x => row_props x = []) (List.concat (repeat (zeroGrid rows cols) n)).
Proof.
  apply Forall_forall. intros x H. apply in_concat in H as [g [Hg Hx]].
  apply repeat_spec in Hg. subst g. apply repeat_spec in Hx. now subst.
Qed.

Lemma no_props_strayOnly (g : list gridRow) :
  Forall (fun x => row_props x = []) g -> Forall strayOnly g.
Proof. apply Forall_impl. intros x H. now left. Qed.

Lemma stray_property (g : list gridRow) :
  Forall strayOnly g -> Exists (fun x => row_props x <> []) g ->
  exists row v, In row g /\ row_props row = [((-1)%Z, v)].
Proof.
  intros Hall Hex. apply Exists_exists in Hex as [row [Hin Hne]].
  rewrite Forall_forall in Hall. destruct (Hall row Hin) as [E | [v E]]; [contradiction|].
  now exists row, v.
Qed.

Lemma cellFun_col_any (numVars m : nat) :
  3 <= numVars <= 6 ->
  c_col (cellFun numVars m) = (-1)%Z \/ (0 <= c_col (cellFun numVars m))%Z.
Proof.
  intro Hn. destruct (cellFun_writable numVars m Hn) as [_ [_ [H | H]]];
    [now left | right; lia].
Qed.

Lemma cellFun_col_in_range (numVars m : nat) :
  3 <= numVars <= 6 -> m < 2 ^ numVars -> (0 <= c_col (cellFun numVars m))%Z.
Proof.
  intros Hn Hm. destruct (cellFun_inside numVars m ltac:(lia) Hm) as [Hin _].
  apply cellInside_bounds in Hin. lia.
Qed.

(** The properties of the rows after the two loops on a single grid. *)
Lemma single_props (numVars : nat) (mins dontCares : list nat) (g1 g2 h1 h2 : grid2) :
  3 <= numVars <= 6 ->
  fillGrid (cellFun numVars) COne mins
           (zeroGrid (tileRows numVars) (tileCols numVars)) = Return g1 ->
  fillGrid (cellFun numVars) CX dontCares g1 = Return g2 ->
  fillGrid (cellFun numVars) COne (filter (fun m => m <? 2 ^ numVars) mins)
           (zeroGrid (tileRows numVars) (tileCols numVars)) = Return h1 ->
  fillGrid (cellFun numVars) CX (filter (fun m => m <? 2 ^ numVars) dontCares) h1
  = Return h2 ->
  (forall row, In row g2 -> strayOnly row) /\
  (forall row, In row h2 -> row_props row = []) /\
  ((exists m, In m (mins ++ dontCares) /\ 2 ^ numVars <= m) ->
   exists row v, In row g2 /\ row_props row = [((-1)%Z, v)]).
Proof.
  intros Hn E1 E2 F1 F2.
  assert (Hany : forall (v : cellValue) (l : list nat) m, In m l ->
                   forall x, strayOnly x ->
                             strayOnly (writeRow x (c_col (cellFun numVars m)) v)).
  { intros v l m _ x. apply writeRow_strayOnly. now apply cellFun_col_any. }
  assert (Hin : forall (v : cellValue) (l : list nat) m,
             In m (filter (fun m => m <? 2 ^ numVars) l) ->
             forall x, row_props x = [] ->
                       row_props (writeRow x (c_col (cellFun numVars m)) v) = []).
  { intros v l m H x Hx. apply filter_In in H as [_ H]. apply Nat.ltb_lt in H.
    rewrite writeRow_props_pos; [exact Hx | now apply cellFun_col_in_range]. }
  assert (Hg2 : Forall strayOnly g2).
  { refine (fillGrid_rows strayOnly _ _ _ _ _ (Hany CX dontCares) _ E2).
    refine (fillGrid_rows strayOnly _ _ _ _ _ (Hany COne mins) _ E1).
    apply no_props_strayOnly, zeroGrid_no_props. }
  split; [now apply Forall_forall|]. split.
  - apply Forall_forall.
    refine (fillGrid_rows _ _ _ _ _ _ (Hin CX dontCares) _ F2).
    refine (fillGrid_rows _ _ _ _ _ _ (Hin COne mins) _ F1).
    apply zeroGrid_no_props.
  - intros [m [Hm Hbig]]. apply (stray_property g2 Hg2).
    assert (Hcol : (c_col (cellFun numVars m) < 0)%Z)
      by (rewrite (cellFun_out_of_range numVars m Hn Hbig); lia).
    apply in_app_or in Hm as [Hm | Hm].
    + apply (fillGrid_stray _ _ _ _ _ E2). left.
      apply (fillGrid_stray _ _ _ _ _ E1). right. now exists m.
    + apply (fillGrid_stray _ _ _ _ _ E2). right. now exists m.
Qed.

(** The same on an array of grids. *)
Lemma tiles_props (numVars : nat) (mins dontCares : list nat)
  (g1 g2 h1 h2 : list grid2) :
  3 <= numVars <= 6 ->
  fillGrids (cellFun numVars) COne mins
            (repeat (zeroGrid 4 4) (Z.to_nat (gridMaps numVars))) = Return g1 ->
  fillGrids (cellFun numVars) CX dontCares g1 = Return g2 ->
  fillGrids (cellFun numVars) COne (filter (fun m => m <? 2 ^ numVars) mins)
            (repeat (zeroGrid 4 4) (Z.to_nat (gridMaps numVars))) = Return h1 ->
  fillGrids (cellFun numVars) CX (filter (fun m => m <? 2 ^ numVars) dontCares) h1
  = Return h2 ->
  (forall row, In row (List.concat g2) -> strayOnly row) /\
  (forall row, In row (List.concat h2) -> row_props row = []) /\
  ((exists m, In m (mins ++ dontCares) /\ 2 ^ numVars <= m) ->
   exists row v, In row (List.concat g2) /\ row_props row = [((-1)%Z, v)]).
Proof.
  intros Hn E1 E2 F1 F2.
  assert (Hany : forall (v : cellValue) (l : list nat) m, In m l ->
                   forall x, strayOnly x ->
                             strayOnly (writeRow x (c_col (cellFun numVars m)) v)).
  { intros v l m _ x. apply writeRow_strayOnly. now apply cellFun_col_any. }
  assert (Hin : forall (v : cellValue) (l : list nat) m,
             In m (filter (fun m => m <? 2 ^ numVars) l) ->
             forall x, row_props x = [] ->
                       row_props (writeRow x (c_col (cellFun numVars m)) v) = []).
  { intros v l m H x Hx. apply filter_In in H as [_ H]. apply Nat.ltb_lt in H.
    rewrite writeRow_props_pos; [exact Hx | now apply cellFun_col_in_range]. }
  assert (Hg2 : Forall strayOnly (List.concat g2)).
  { refine (fillGrids_rows strayOnly _ _ _ _ _ (Hany CX dontCares) _ E2).
    refine (fillGrids_rows strayOnly _ _ _ _ _ (Hany COne mins) _ E1).
    apply no_props_strayOnly, zeroGrids_no_props. }
  split; [now apply Forall_forall|]. split.
  - apply Forall_forall.
    refine (fillGrids_rows _ _ _ _ _ _ (Hin CX dontCares) _ F2).
    refine (fillGrids_rows _ _ _ _ _ _ (Hin COne mins) _ F1).
    apply zeroGrids_no_props.
  - intros [m [Hm Hbig]]. apply (stray_property _ Hg2).
    assert (Hcol : (c_col (cellFun numVars m) < 0)%Z)
      by (rewrite (cellFun_out_of_range numVars m Hn Hbig); lia).
    apply in_app_or in Hm as [Hm | Hm].
    + apply (fillGrids_stray _ _ _ _ _ E2). left.
      apply (fillGrids_stray _ _ _ _ _ E1). right. now exists m.
    + apply (fillGrids_stray _ _ _ _ _ E2). right. now exists m.
Qed.

Lemma fillGrid_two_variables (v : cellValue) :
  forall (l : list nat) (g : grid2),
    wellShaped 2 2 g ->
    ((forall m, In m l -> m < 4) /\
     exists g', fillGrid cell2 v l g = Return g' /\ wellShaped 2 2 g') \/
    ((exists m, In m l /\ 4 <= m) /\ fillGrid cell2 v l g = Throw TypeError).
Proof.
  induction l as [|m l IH]; intros g Hg.
  - left. split; [intros m []|]. now exists g.
  - destruct (Nat.lt_ge_cases m 4) as [Hm | Hm].
    + destruct (writeCell_spec 2 2 g (c_row (cell2 m)) (c_col (cell2 m)) v Hg)
        as [g1 [E1 [Hg1 _]]].
      { unfold cell2. cbn [c_row]. pose proof (Nat.Div0.div_lt_upper_bound m 2 2). lia. }
      { right. unfold cell2. cbn [c_col]. pose proof (Nat.mod_upper_bound m 2). lia. }
      rewrite (fillGrid_cons _ _ _ _ _ _ E1).
      destruct (IH g1 Hg1) as [[Hall Hret] | [[m' [Hin Hbig]] Hthrow]].
      * left. split; [|exact Hret]. intros m' [<- | H]; auto.
      * right. split; [|exact Hthrow]. exists m'. split; [now right | exact Hbig].
    + right. split; [exists m; split; [now left | exact Hm]|].
      apply fillGrid_cons_throw. apply (writeCell_outside 2 2); [exact Hg|].
      unfold cell2. cbn [c_row].
      assert (2 <= m / 2) by (apply Nat.div_le_lower_bound; lia). lia.
Qed.

(** X14. What [generate] leaves in the grid.  For 2 to 6 variables and
    lists of required and don't-care indices that are all below [2^n],
    [generate] returns a map that carries the four fields of its input
    and in which, for every index [m] below [2^n], the cell of [m] holds
    'X' if [m] is a don't-care index, else 1 if [m] is a required index,
    else 0. *)
Theorem generate_grid_contents (tt : kmapInput) :
  2 <= k_numVars tt <= 6 ->
  (forall m, In m (k_minterms tt ++ k_dontCares tt) -> m < 2 ^ k_numVars tt) ->
  exists k,
    generate tt = Return k /\
    km_input k = tt /\
    forall m, m < 2 ^ k_numVars tt ->
      exists p,
        cellOf (k_numVars tt) m = Some p /\
        readCell (b_grid (km_body k)) p =
        Some (if includesNat (k_dontCares tt) m then CX
              else if includesNat (k_minterms tt) m then COne
              else CZero).
Proof.
  intros Hn Hl. destruct (generate_contents tt Hn Hl) as [k [E [Hin H]]].
  exists k. split; [exact E|]. split; [exact Hin|].
  intros m Hm. exists (cellFun (k_numVars tt) m).
  split; [now apply cellOf_cellFun|]. exact (H m Hm).
Qed.

Lemma generate_grid_contents_witness :
  exists k,
    generate (mkKmapInput [1; 3; 7] ["A"; "B"; "C"]%string 3 [3; 5]) = Return k /\
    km_input k = mkKmapInput [1; 3; 7] ["A"; "B"; "C"]%string 3 [3; 5] /\
    forall m, m < 2 ^ 3 ->
      exists p,
        cellOf 3 m = Some p /\
        readCell (b_grid (km_body k)) p =
        Some (if includesNat [3; 5] m then CX
              else if includesNat [1; 3; 7] m then COne
              else CZero).
Proof.
  apply (generate_grid_contents (mkKmapInput [1; 3; 7] ["A"; "B"; "C"]%string 3 [3; 5])).
  - simpl. lia.
  - simpl. intros m H. lia.
Defined.

(** X15. For 3 to 6 variables and indices that are non-negative
    integers, [generate] returns whatever the size of the indices.  An
    index of [2^n] or more is written at column -1: the write sets the
    property "-1" of a row and changes no cell.  The returned map has,
    at every position, the cell of the map generated without such
    indices, and the same labels, variables and dimensions.  Its rows
    have no other property than "-1", which at least one row has when
    some index is [2^n] or more; the rows of the map generated without
    such indices have none.  (A negative index is outside the lists
    modelled here.) *)
Theorem generate_ignores_out_of_range (tt : kmapInput) :
  3 <= k_numVars tt <= 6 ->
  exists k k',
    generate tt = Return k /\
    generate (dropOutOfRange tt) = Return k' /\
    (forall p, readCell (b_grid (km_body k)) p = readCell (b_grid (km_body k')) p) /\
    (forall row, In row (shapeRows (b_grid (km_body k))) -> strayOnly row) /\
    (forall row, In row (shapeRows (b_grid (km_body k'))) -> row_props row = []) /\
    ((exists m, In m (k_minterms tt ++ k_dontCares tt) /\ 2 ^ k_numVars tt <= m) ->
     exists row v, In row (shapeRows (b_grid (km_body k))) /\
                   row_props row = [((-1)%Z, v)]) /\
    b_rowLabels (km_body k) = b_rowLabels (km_body k') /\
    b_colLabels (km_body k) = b_colLabels (km_body k') /\
    b_rowVars (km_body k) = b_rowVars (km_body k') /\
    b_colVars (km_body k) = b_colVars (km_body k') /\
    b_mapLabels (km_body k) = b_mapLabels (km_body k') /\
    b_dimensions (km_body k) = b_dimensions (km_body k').
Proof.
  destruct tt as [mins variables numVars dontCares]. unfold dropOutOfRange.
  cbn [k_numVars k_minterms k_dontCares k_variables].
  intros Hn.
  assert (Hcases : numVars = 3 \/ numVars = 4 \/ numVars = 5 \/ numVars = 6) by lia.
  destruct Hcases as [-> | [-> | [-> | ->]]].
  - destruct (single_cells_in_range 3 mins dontCares ltac:(lia))
      as [g1 [g2 [h1 [h2 [E1 [E2 [F1 [F2 H]]]]]]]].
    unfold generate, create3VarKMap. cbn [k_numVars k_minterms k_dontCares k_variables].
    change cell3 with (cellFun 3).
    change (zeroGrid 2 4) with (zeroGrid (tileRows 3) (tileCols 3)).
    change ((3 <? 2) || (6 <? 3)) with false. cbv iota.
    rewrite E1, F1. cbn [bind]. rewrite E2, F2. cbn [bind].
    eexists. eexists. split; [reflexivity|]. split; [reflexivity|].
    cbn [km_body b_grid b_rowLabels b_colLabels b_rowVars b_colVars b_mapLabels b_dimensions
         shapeRows].
    destruct (single_props 3 mins dontCares g1 g2 h1 h2 ltac:(lia) E1 E2 F1 F2) as [P1 [P2 P3]].
    split; [exact H|]. split; [exact P1|]. split; [exact P2|]. split; [exact P3|].
    repeat split.
  - destruct (single_cells_in_range 4 mins dontCares ltac:(lia))
      as [g1 [g2 [h1 [h2 [E1 [E2 [F1 [F2 H]]]]]]]].
    unfold generate, create4VarKMap. cbn [k_numVars k_minterms k_dontCares k_variables].
    change cell4 with (cellFun 4).
    change (zeroGrid 4 4) with (zeroGrid (tileRows 4) (tileCols 4)).
    change ((4 <? 2) || (6 <? 4)) with false. cbv iota.
    rewrite E1, F1. cbn [bind]. rewrite E2, F2. cbn [bind].
    eexists. eexists. split; [reflexivity|]. split; [reflexivity|].
    cbn [km_body b_grid b_rowLabels b_colLabels b_rowVars b_colVars b_mapLabels b_dimensions
         shapeRows].
    destruct (single_props 4 mins dontCares g1 g2 h1 h2 ltac:(lia) E1 E2 F1 F2) as [P1 [P2 P3]].
    split; [exact H|]. split; [exact P1|]. split; [exact P2|]. split; [exact P3|].
    repeat split.
  - destruct (tiles_cells_in_range 5 mins dontCares ltac:(lia))
      as [g1 [g2 [h1 [h2 [E1 [E2 [F1 [F2 H]]]]]]]].
    unfold generate, create5VarKMap. cbn [k_numVars k_minterms k_dontCares k_variables].
    change cell5 with (cellFun 5).
    change [zeroGrid 4 4; zeroGrid 4 4]
      with (repeat (zeroGrid 4 4) (Z.to_nat (gridMaps 5))).
    change ((5 <? 2) || (6 <? 5)) with false. cbv iota.
    rewrite E1, F1. cbn [bind]. rewrite E2, F2. cbn [bind].
    eexists. eexists. split; [reflexivity|]. split; [reflexivity|].
    cbn [km_body b_grid b_rowLabels b_colLabels b_rowVars b_colVars b_mapLabels b_dimensions
         shapeRows].
    destruct (tiles_props 5 mins dontCares g1 g2 h1 h2 ltac:(lia) E1 E2 F1 F2) as [P1 [P2 P3]].
    split; [exact H|]. split; [exact P1|]. split; [exact P2|]. split; [exact P3|].
    repeat split.
  - destruct (tiles_cells_in_range 6 mins dontCares ltac:(lia))
      as [g1 [g2 [h1 [h2 [E1 [E2 [F1 [F2 H]]]]]]]].
    unfold generate, create6VarKMap. cbn [k_numVars k_minterms k_dontCares k_variables].
    change cell6 with (cellFun 6).
    change [zeroGrid 4 4; zeroGrid 4 4; zeroGrid 4 4; zeroGrid 4 4]
      with (repeat (zeroGrid 4 4) (Z.to_nat (gridMaps 6))).
    change ((6 <? 2) || (6 <? 6)) with false. cbv iota.
    rewrite E1, F1. cbn [bind]. rewrite E2, F2. cbn [bind].
    eexists. eexists. split; [reflexivity|]. split; [reflexivity|].
    cbn [km_body b_grid b_rowLabels b_colLabels b_rowVars b_colVars b_mapLabels b_dimensions
         shapeRows].
    destruct (tiles_props 6 mins dontCares g1 g2 h1 h2 ltac:(lia) E1 E2 F1 F2) as [P1 [P2 P3]].
    split; [exact H|]. split; [exact P1|]. split; [exact P2|]. split; [exact P3|].
    repeat split.
Qed.

Lemma generate_ignores_out_of_range_witness :
  exists k k',
    generate (mkKmapInput [1; 9; 3] ["A"; "B"; "C"]%string 3 [64]) = Return k /\
    generate (dropOutOfRange (mkKmapInput [1; 9; 3] ["A"; "B"; "C"]%string 3 [64]))
    = Return k' /\
    (forall p, readCell (b_grid (km_body k)) p = readCell (b_grid (km_body k')) p) /\
    (forall row, In row (shapeRows (b_grid (km_body k))) -> strayOnly row) /\
    (forall row, In row (shapeRows (b_grid (km_body k'))) -> row_props row = []) /\
    ((exists m, In m ([1; 9; 3] ++ [64]) /\ 2 ^ 3 <= m) ->
     exists row v, In row (shapeRows (b_grid (km_body k))) /\
                   row_props row = [((-1)%Z, v)]) /\
    b_rowLabels (km_body k) = b_rowLabels (km_body k') /\
    b_colLabels (km_body k) = b_colLabels (km_body k') /\
    b_rowVars (km_body k) = b_rowVars (km_body k') /\
    b_colVars (km_body k) = b_colVars (km_body k') /\
    b_mapLabels (km_body k) = b_mapLabels (km_body k') /\
    b_dimensions (km_body k) = b_dimensions (km_body k').
Proof.
  apply (generate_ignores_out_of_range
           (mkKmapInput [1; 9; 3] ["A"; "B"; "C"]%string 3 [64])).
  simpl. lia.
Defined.

(** X16. For 2 variables and indices that are non-negative integers,
    [generate] throws a TypeError exactly when some required or
    don't-care index is 4 or more: the row [Math.floor(m / 2)] of such
    an index is not a row of the grid.  (A negative index is outside the
    lists modelled here.) *)
Theorem generate_two_variables_TypeError (tt : kmapInput) :
  k_numVars tt = 2 ->
  (generate tt = Throw TypeError <->
   exists m, In m (k_minterms tt ++ k_dontCares tt) /\ 4 <= m).
Proof.
  destruct tt as [mins variables numVars dontCares].
  cbn [k_numVars k_minterms k_dontCares]. intros ->.
  unfold generate, create2VarKMap. cbn [k_numVars k_minterms k_dontCares k_variables].
  cbn [Nat.ltb Nat.leb orb].
  destruct (fillGrid_two_variables COne mins (zeroGrid 2 2) (wellShaped_zeroGrid 2 2))
    as [[Hall [g1 [E1 Hg1]]] | [[m [Hin Hbig]] Hthrow]].
  - rewrite E1. cbn [bind].
    destruct (fillGrid_two_variables CX dontCares g1 Hg1)
      as [[Hall2 [g2 [E2 Hg2]]] | [[m [Hin Hbig]] Hthrow]].
    + rewrite E2. cbn [bind]. split; [discriminate|].
      intros [m [Hin Hbig]]. apply in_app_or in Hin as [Hin | Hin].
      * specialize (Hall m Hin). lia.
      * specialize (Hall2 m Hin). lia.
    + rewrite Hthrow. cbn [bind]. split; [|reflexivity].
      intros _. exists m. split; [apply in_or_app; now right | exact Hbig].
  - rewrite Hthrow. cbn [bind]. split; [|reflexivity].
    intros _. exists m. split; [apply in_or_app; now left | exact Hbig].
Qed.

Lemma generate_two_variables_TypeError_witness :
  generate (mkKmapInput [1; 4] ["A"; "B"]%string 2 []) = Throw TypeError <->
  exists m, In m ([1; 4] ++ []) /\ 4 <= m.
Proof.
  apply (generate_two_variables_TypeError (mkKmapInput [1; 4] ["A"; "B"]%string 2 [])).
  reflexivity.
Defined.

End IndicesWithoutAssignment.

(* ================================================================== *)
(** * js/truthTable.js: the lists of generateFromOutputs *)
(* ================================================================== *)

Section TruthTableLists.

Variable variables : list string.
Variable dontCares : list nat.

Lemma ttStep_as_class (st : ttState) (io : nat * jsValue) :
  ttStep variables (List.length variables) dontCares st io =
  let c := classifyOutput dontCares (fst io) (snd io) in
  mkTTState
    (s_rows st ++ [mkRow (fst io)
                         (rowInputs variables (toBinary (List.length variables) (fst io)))
                         c (toBinary (List.length variables) (fst io)) (sameOutput c OutX)])
    (s_minterms st ++ (if sameOutput c Out1 then [fst io] else []))
    (s_maxterms st ++ (if sameOutput c Out0 then [fst io] else []))
    (s_dontCareTerms st ++ (if sameOutput c OutX then [fst io] else [])).
Proof.
  unfold ttStep, classifyOutput. cbv zeta.
  destruct (isX (snd io) || includesNat dontCares (fst io)); simpl.
  - now rewrite !app_nil_r.
  - destruct (truthy (snd io)); simpl; now rewrite !app_nil_r.
Qed.

Lemma ttFold_lists (l : list (nat * jsValue)) :
  forall st,
    let st' := fold_left (ttStep variables (List.length variables) dontCares) l st in
    let cls := fun io : nat * jsValue => classifyOutput dontCares (fst io) (snd io) in
    s_rows st' =
      s_rows st ++
      map (fun io => mkRow (fst io)
                           (rowInputs variables (toBinary (List.length variables) (fst io)))
                           (cls io) (toBinary (List.length variables) (fst io))
                           (sameOutput (cls io) OutX)) l /\
    s_minterms st' = s_minterms st ++ map fst (filter (fun io => sameOutput (cls io) Out1) l) /\
    s_maxterms st' = s_maxterms st ++ map fst (filter (fun io => sameOutput (cls io) Out0) l) /\
    s_dontCareTerms st' =
      s_dontCareTerms st ++ map fst (filter (fun io => sameOutput (cls io) OutX) l).
Proof.
  induction l as [|io l IH]; intro st; cbv zeta.
  - simpl. now rewrite !app_nil_r.
  - cbn [fold_left]. specialize (IH (ttStep variables (List.length variables) dontCares st io)).
    cbv zeta in IH. destruct IH as [H1 [H2 [H3 H4]]].
    rewrite H1, H2, H3, H4, ttStep_as_class. cbv zeta.
    cbn [s_rows s_minterms s_maxterms s_dontCareTerms map filter].
    rewrite <- !app_assoc.
    repeat split.
    + destruct (sameOutput _ Out1); reflexivity.
    + destruct (sameOutput _ Out0); reflexivity.
    + destruct (sameOutput _ OutX); reflexivity.
Qed.

Lemma filter_combine_seq (P : nat -> jsValue -> bool) :
  forall (outputs : list jsValue) (s : nat),
    map fst (filter (fun io => P (fst io) (snd io))
                    (combine (seq s (List.length outputs)) outputs)) =
    filter (fun i => P i (nth (i - s) outputs JUndefined)) (seq s (List.length outputs)).
Proof.
  induction outputs as [|o outputs IH]; intro s; [reflexivity|].
  cbn [List.length seq combine filter fst snd].
  rewrite Nat.sub_diag. change (nth 0 (o :: outputs) JUndefined) with o.
  assert (Htail : filter (fun i => P i (nth (i - s) (o :: outputs) JUndefined))
                    (seq (S s) (List.length outputs)) =
                  filter (fun i => P i (nth (i - S s) outputs JUndefined))
                    (seq (S s) (List.length outputs))).
  { apply filter_ext_in. intros i Hi. apply in_seq in Hi.
    replace (i - s) with (S (i - S s)) by lia. reflexivity. }
  destruct (P s o); cbn [map fst]; rewrite IH, Htail; reflexivity.
Qed.

Lemma map_combine_seq {B : Type} (f : nat -> jsValue -> B) :
  forall (outputs : list jsValue) (s : nat),
    map (fun io => f (fst io) (snd io)) (combine (seq s (List.length outputs)) outputs) =
    map (fun i => f i (nth (i - s) outputs JUndefined)) (seq s (List.length outputs)).
Proof.
  induction outputs as [|o outputs IH]; intro s; [reflexivity|].
  cbn [List.length seq combine map fst snd].
  rewrite Nat.sub_diag. change (nth 0 (o :: outputs) JUndefined) with o.
  f_equal. rewrite IH.
  apply map_ext_in. intros i Hi. apply in_seq in Hi.
  replace (i - s) with (S (i - S s)) by lia. reflexivity.
Qed.

Lemma generateFromOutputs_exact (outputs : list jsValue) :
  List.length outputs = 2 ^ List.length variables ->
  generateFromOutputs variables outputs dontCares =
  Return (mkTT variables
               (map (rowOf variables outputs dontCares) (seq 0 (2 ^ List.length variables)))
               (indicesOfClass (List.length variables) outputs dontCares Out1)
               (indicesOfClass (List.length variables) outputs dontCares Out0)
               (indicesOfClass (List.length variables) outputs dontCares OutX)
               (List.length variables)).
Proof.
  intro Hlen. unfold generateFromOutputs. cbv zeta. rewrite Hlen, Nat.eqb_refl. cbn [negb].
  destruct (ttFold_lists (combine (seq 0 (2 ^ List.length variables)) outputs)
              (mkTTState [] [] [] [])) as [H1 [H2 [H3 H4]]].
  cbn [s_rows s_minterms s_maxterms s_dontCareTerms app] in H1, H2, H3, H4.
  rewrite H1, H2, H3, H4. unfold indicesOfClass.
  rewrite <- Hlen.
  rewrite (filter_combine_seq (fun i o => sameOutput (classifyOutput dontCares i o) Out1)),
          (filter_combine_seq (fun i o => sameOutput (classifyOutput dontCares i o) Out0)),
          (filter_combine_seq (fun i o => sameOutput (classifyOutput dontCares i o) OutX)).
  rewrite (map_combine_seq
             (fun i o => mkRow i (rowInputs variables (toBinary (List.length variables) i))
                               (classifyOutput dontCares i o)
                               (toBinary (List.length variables) i)
                               (sameOutput (classifyOutput dontCares i o) OutX))).
  f_equal. f_equal.
  - apply map_ext. intro i. rewrite Nat.sub_0_r. reflexivity.
  - apply filter_ext. intro i. now rewrite Nat.sub_0_r.
  - apply filter_ext. intro i. now rewrite Nat.sub_0_r.
  - apply filter_ext. intro i. now rewrite Nat.sub_0_r.
Qed.

End TruthTableLists.

Section TruthTableTheorems.

Lemma indicesOfClass_In (numVars : nat) (outputs : list jsValue) (dontCares : list nat)
  (c : rowOutput) (i : nat) :
  In i (indicesOfClass numVars outputs dontCares c) <->
  i < 2 ^ numVars /\
  sameOutput (classifyOutput dontCares i (nth i outputs JUndefined)) c = true.
Proof.
  unfold indicesOfClass. rewrite filter_In, in_seq. intuition lia.
Qed.

Lemma indicesOfClass_NoDup (numVars : nat) (outputs : list jsValue) (dontCares : list nat)
  (c : rowOutput) :
  NoDup (indicesOfClass numVars outputs dontCares c).
Proof. unfold indicesOfClass. apply NoDup_filter, seq_NoDup. Qed.

Lemma sameOutput_eq (a b : rowOutput) : sameOutput a b = true <-> a = b.
Proof. destruct a, b; simpl; split; congruence. Qed.

(** X17. The lists of [generateFromOutputs].  When [outputs] has
    [2^n] entries the call returns; [minterms], [maxterms] and
    [dontCares] are, in ascending order, the indices below [2^n] whose
    output is truthy, falsy, and 'X' or listed in the [dontCares]
    argument (the last class taking precedence); [rows] has one row per
    index, in ascending order, with the binary text of the index and
    its class. *)
Theorem generateFromOutputs_lists
  (variables : list string) (outputs : list jsValue) (dontCares : list nat) :
  List.length outputs = 2 ^ List.length variables ->
  exists tt,
    generateFromOutputs variables outputs dontCares = Return tt /\
    tt_variables tt = variables /\
    tt_numVars tt = List.length variables /\
    tt_minterms tt =
      filter (fun i => negb (isX (nth i outputs JUndefined) || includesNat dontCares i)
                       && truthy (nth i outputs JUndefined))
             (seq 0 (2 ^ List.length variables)) /\
    tt_maxterms tt =
      filter (fun i => negb (isX (nth i outputs JUndefined) || includesNat dontCares i)
                       && negb (truthy (nth i outputs JUndefined)))
             (seq 0 (2 ^ List.length variables)) /\
    tt_dontCares tt =
      filter (fun i => isX (nth i outputs JUndefined) || includesNat dontCares i)
             (seq 0 (2 ^ List.length variables)) /\
    map r_index (tt_rows tt) = seq 0 (2 ^ List.length variables) /\
    forall row, In row (tt_rows tt) ->
      r_binary row = toBinary (List.length variables) (r_index row) /\
      r_output row =
        classifyOutput dontCares (r_index row) (nth (r_index row) outputs JUndefined) /\
      r_isDontCare row =
        (isX (nth (r_index row) outputs JUndefined) || includesNat dontCares (r_index row)).
Proof.
  intro Hlen. rewrite (generateFromOutputs_exact variables dontCares outputs Hlen).
  eexists. split; [reflexivity|]. cbn [tt_variables tt_numVars tt_minterms tt_maxterms
                                        tt_dontCares tt_rows].
  split; [reflexivity|]. split; [reflexivity|].
  unfold indicesOfClass, classifyOutput.
  split; [|split; [|split; [|split]]].
  - apply filter_ext. intro i.
    destruct (isX _ || includesNat dontCares i); [reflexivity|].
    destruct (truthy _); reflexivity.
  - apply filter_ext. intro i.
    destruct (isX _ || includesNat dontCares i); [reflexivity|].
    destruct (truthy _); reflexivity.
  - apply filter_ext. intro i.
    destruct (isX _ || includesNat dontCares i); [reflexivity|].
    destruct (truthy _); reflexivity.
  - rewrite map_map. cbn [rowOf r_index]. apply map_id.
  - intros row Hrow. apply in_map_iff in Hrow as [i [<- _]].
    unfold rowOf. cbv zeta. cbn [r_binary r_output r_index r_isDontCare].
    split; [reflexivity|]. split; [reflexivity|].
    unfold classifyOutput.
    destruct (isX _ || includesNat dontCares i); [reflexivity|].
    destruct (truthy _); reflexivity.
Qed.

Lemma generateFromOutputs_lists_witness :
  exists tt,
    generateFromOutputs ["A"; "B"]%string [JNum 1; JStr "X"; JNum 0; JBool true] [3]
    = Return tt /\
    tt_minterms tt = [0] /\ tt_maxterms tt = [2] /\ tt_dontCares tt = [1; 3].
Proof.
  destruct (generateFromOutputs_lists
              ["A"; "B"]%string [JNum 1; JStr "X"; JNum 0; JBool true] [3] eq_refl)
    as [tt [E [_ [_ [H1 [H2 [H3 _]]]]]]].
  exists tt. split; [exact E|]. split; [exact H1|]. split; [exact H2 | exact H3].
Defined.

(** X18. From a table of outputs to the simplified expression, as the
    page chains the calls: [generateFromOutputs], then [generate] on
    its result, then [simplify] on the generated map.  For 2 to 6
    variables named by distinct letters and [2^n] outputs, both calls
    return, the map holds at the cell of every index below [2^n] the
    class of the index (1, 0 or 'X'), and the text [sop] evaluates to 1
    at every index whose class is 1 and to 0 at every index whose class
    is 0. *)
Theorem truth_table_to_expression
  (letters : list ascii) (outputs : list jsValue) (dontCares : list nat) :
  2 <= List.length letters <= 6 ->
  NoDup letters ->
  Forall (fun c => isLetter c = true) letters ->
  List.length outputs = 2 ^ List.length letters ->
  exists tt kmap,
    generateFromOutputs (letterNames letters) outputs dontCares = Return tt /\
    generate (asKmapInput tt) = Return kmap /\
    forall idx, idx < 2 ^ List.length letters ->
      exists p value,
        cellOf (List.length letters) idx = Some p /\
        readCell (b_grid (km_body kmap)) p =
          Some (match classifyOutput dontCares idx (nth idx outputs JUndefined) with
                | Out1 => COne
                | Out0 => CZero
                | OutX => CX
                end) /\
        evalSOP (letterNames letters) (List.length letters)
                (sop (simplify (km_input kmap))) idx = Some value /\
        match classifyOutput dontCares idx (nth idx outputs JUndefined) with
        | Out1 => value = true
        | Out0 => value = false
        | OutX => True
        end.
Proof.
  intros Hn Hnd Hok Hlen.
  assert (Hnames : List.length (letterNames letters) = List.length letters)
    by (unfold letterNames; apply length_map).
  rewrite <- Hnames in Hlen.
  rewrite (generateFromOutputs_exact (letterNames letters) dontCares outputs Hlen).
  rewrite Hnames in *.
  set (n := List.length letters) in *.
  set (mins := indicesOfClass n outputs dontCares Out1).
  set (dcs := indicesOfClass n outputs dontCares OutX).
  eexists. unfold asKmapInput.
  cbn [tt_minterms tt_variables tt_numVars tt_dontCares].
  assert (Hrange : forall m, In m (mins ++ dcs) -> m < 2 ^ n).
  { intros m H. apply in_app_or in H as [H | H]; apply indicesOfClass_In in H; tauto. }
  destruct (generate_contents (mkKmapInput mins (letterNames letters) n dcs) Hn Hrange)
    as [kmap [E [Hin Hcells]]].
  cbn [k_numVars k_minterms k_dontCares] in Hcells.
  exists kmap. split; [reflexivity|]. split; [exact E|].
  intros idx Hidx. rewrite Hin.
  destruct (simplify_sop_dont_cares n letters mins dcs idx ltac:(lia) eq_refl Hnd Hok
              (indicesOfClass_NoDup _ _ _ _) Hrange Hidx) as [value [Hval [Hone Hzero]]].
  exists (cellFun n idx), value.
  split; [now apply cellOf_cellFun|].
  assert (Hmins : includesNat mins idx = true <->
                  classifyOutput dontCares idx (nth idx outputs JUndefined) = Out1).
  { rewrite includesNat_In. unfold mins. rewrite indicesOfClass_In, sameOutput_eq. tauto. }
  assert (Hdcs : includesNat dcs idx = true <->
                 classifyOutput dontCares idx (nth idx outputs JUndefined) = OutX).
  { rewrite includesNat_In. unfold dcs. rewrite indicesOfClass_In, sameOutput_eq. tauto. }
  split; [|split; [exact Hval|]].
  - rewrite (Hcells idx Hidx). unfold cellContent. f_equal.
    destruct (classifyOutput dontCares idx (nth idx outputs JUndefined)) eqn:Ec.
    + destruct (includesNat dcs idx); [now apply proj1 in Hdcs; specialize (Hdcs eq_refl)|].
      destruct (includesNat mins idx); [now apply proj1 in Hmins; specialize (Hmins eq_refl)|].
      reflexivity.
    + destruct (includesNat dcs idx); [now apply proj1 in Hdcs; specialize (Hdcs eq_refl)|].
      now rewrite (proj2 Hmins eq_refl).
    + now rewrite (proj2 Hdcs eq_refl).
  - destruct (classifyOutput dontCares idx (nth idx outputs JUndefined)) eqn:Ec.
    + destruct value; [|reflexivity]. exfalso.
      destruct (Hzero eq_refl) as [H | H]; apply includesNat_In in H.
      * apply Hmins in H. discriminate.
      * apply Hdcs in H. discriminate.
    + apply Hone. apply includesNat_In. now apply Hmins.
    + exact I.
Qed.

Lemma truth_table_to_expression_witness :
  exists tt kmap,
    generateFromOutputs (letterNames ["A"; "B"; "C"]%char)
      [JNum 0; JNum 1; JNum 0; JStr "X"; JNum 0; JNum 1; JNum 1; JNum 0] [3] = Return tt /\
    generate (asKmapInput tt) = Return kmap /\
    forall idx, idx < 2 ^ 3 ->
      exists p value,
        cellOf 3 idx = Some p /\
        readCell (b_grid (km_body kmap)) p =
          Some (match classifyOutput [3] idx
                        (nth idx [JNum 0; JNum 1; JNum 0; JStr "X";
                                  JNum 0; JNum 1; JNum 1; JNum 0] JUndefined) with
                | Out1 => COne
                | Out0 => CZero
                | OutX => CX
                end) /\
        evalSOP (letterNames ["A"; "B"; "C"]%char) 3
                (sop (simplify (km_input kmap))) idx = Some value /\
        match classifyOutput [3] idx
                (nth idx [JNum 0; JNum 1; JNum 0; JStr "X";
                          JNum 0; JNum 1; JNum 1; JNum 0] JUndefined) with
        | Out1 => value = true
        | Out0 => value = false
        | OutX => True
        end.
Proof.
  apply (truth_table_to_expression ["A"; "B"; "C"]%char
           [JNum 0; JNum 1; JNum 0; JStr "X"; JNum 0; JNum 1; JNum 1; JNum 0] [3]).
  - simpl. lia.
  - repeat constructor; simpl; intuition discriminate.
  - repeat constructor.
  - reflexivity.
Defined.

End TruthTableTheorems.

(* ================================================================== *)
(** * js/parser.js: extractVariables *)
(* ================================================================== *)

Section ExtractVariables.

Lemma existsb_eqb_In (c : ascii) (seen : list ascii) :
  existsb (Ascii.eqb c) seen = true <-> In c seen.
Proof.
  rewrite existsb_exists. split.
  - intros [d [Hd E]]. apply Ascii.eqb_eq in E. now subst.
  - intro H. exists c. split; [exact H | apply Ascii.eqb_refl].
Qed.

Lemma uniqChars_In (cs : list ascii) :
  forall seen c, In c (uniqChars seen cs) <-> In c cs /\ ~ In c seen.
Proof.
  induction cs as [|d cs IH]; intros seen c; simpl; [tauto|].
  destruct (existsb (Ascii.eqb d) seen) eqn:E.
  - apply existsb_eqb_In in E. rewrite IH. split.
    + intros [H1 H2]. auto.
    + intros [[<- | H1] H2]; [contradiction | auto].
  - assert (Hd : ~ In d seen) by (rewrite <- existsb_eqb_In; congruence).
    simpl. rewrite IH. simpl. split.
    + intros [<- | [H1 H2]]; auto.
    + intros [[<- | H1] H2]; [now left|].
      destruct (ascii_dec d c) as [<- | Hne]; [now left|]. right. tauto.
Qed.

Lemma uniqChars_NoDup (cs : list ascii) : forall seen, NoDup (uniqChars seen cs).
Proof.
  induction cs as [|d cs IH]; intro seen; simpl; [constructor|].
  destruct (existsb (Ascii.eqb d) seen); [apply IH|].
  constructor; [|apply IH].
  rewrite uniqChars_In. simpl. tauto.
Qed.

Lemma insertChar_In (c : ascii) (l : list ascii) :
  forall x, In x (insertChar c l) <-> x = c \/ In x l.
Proof.
  induction l as [|d l IH]; intro x; simpl.
  - intuition.
  - destruct (nat_of_ascii c <=? nat_of_ascii d); simpl; [intuition|].
    rewrite IH. intuition.
Qed.

Lemma code_inj (c d : ascii) : nat_of_ascii c = nat_of_ascii d -> c = d.
Proof.
  intro H. rewrite <- (ascii_nat_embedding c), <- (ascii_nat_embedding d). now rewrite H.
Qed.

Lemma insertChar_ascending (c : ascii) (l : list ascii) :
  ascendingCodes l -> ~ In c l -> ascendingCodes (insertChar c l).
Proof.
  induction l as [|d l IH]; intros Hl Hc; simpl.
  - split; [intros d []|exact I].
  - destruct Hl as [Hd Hl].
    destruct (Nat.leb_spec (nat_of_ascii c) (nat_of_ascii d)) as [Hle | Hgt].
    + assert (Hlt : nat_of_ascii c < nat_of_ascii d).
      { destruct (Nat.eq_dec (nat_of_ascii c) (nat_of_ascii d)) as [E | E]; [|lia].
        apply code_inj in E. subst. exfalso. apply Hc. now left. }
      simpl. split; [|split; assumption].
      intros x [<- | Hx]; [exact Hlt|]. specialize (Hd x Hx). lia.
    + simpl. split.
      * intros x Hx. apply insertChar_In in Hx as [-> | Hx]; [exact Hgt | now apply Hd].
      * apply IH; [exact Hl|]. intro H. apply Hc. now right.
Qed.

Lemma sortChars_In (cs : list ascii) : forall x, In x (sortChars cs) <-> In x cs.
Proof.
  induction cs as [|c cs IH]; intro x; simpl; [tauto|].
  rewrite insertChar_In, IH. intuition.
Qed.

Lemma sortChars_ascending (cs : list ascii) : NoDup cs -> ascendingCodes (sortChars cs).
Proof.
  induction cs as [|c cs IH]; intro H; simpl; [exact I|].
  inversion H as [|? ? Hc Hcs]; subst.
  apply insertChar_ascending; [now apply IH|].
  now rewrite sortChars_In.
Qed.

Lemma ascendingCodes_NoDup (cs : list ascii) : ascendingCodes cs -> NoDup cs.
Proof.
  induction cs as [|c cs IH]; simpl; intro H; constructor.
  - intro Hin. destruct H as [H _]. specialize (H c Hin). lia.
  - apply IH, H.
Qed.

(** X19. [extractVariables] returns the letters of the expression,
    each once, as one-character names in strictly ascending order of
    character code: a character is returned exactly when it is a letter
    A-Z or a-z that occurs in the expression. *)
Theorem extractVariables_sorted_letters (expression : string) :
  exists cs,
    extractVariables expression = letterNames cs /\
    ascendingCodes cs /\
    NoDup (extractVariables expression) /\
    forall c, In c cs <-> isLetter c = true /\ In c (JsString.chars expression).
Proof.
  unfold extractVariables.
  set (found := filter isLetter (JsString.chars expression)).
  exists (sortChars (uniqChars [] found)).
  split; [reflexivity|].
  assert (Hasc : ascendingCodes (sortChars (uniqChars [] found)))
    by apply sortChars_ascending, uniqChars_NoDup.
  split; [exact Hasc|]. split.
  - unfold letterNames. apply Finite.Injective_map_NoDup.
    + intros a b E. now injection E.
    + now apply ascendingCodes_NoDup.
  - intro c. rewrite sortChars_In, uniqChars_In. unfold found. rewrite filter_In.
    simpl. tauto.
Qed.

End ExtractVariables.

(* ================================================================== *)
(** * The tabulation returns prime implicants *)
(* ================================================================== *)

Section CubeFacts.

Lemma dashCount_append (a b : string) : dashCount (a +++ b) = dashCount a + dashCount b.
Proof. induction a as [|c a IH]; simpl; [reflexivity | rewrite IH; lia]. Qed.

Lemma countOnes_append (a b : string) : countOnes (a +++ b) = countOnes a + countOnes b.
Proof. induction a as [|c a IH]; simpl; [reflexivity | rewrite IH; lia]. Qed.

Lemma dashCount_allBits (s : string) : allBits s -> dashCount s = 0.
Proof.
  induction s as [|c s IH]; simpl; [reflexivity|].
  intros [[-> | ->] H]; simpl; now apply IH.
Qed.

Lemma no_dash_allBits (s : string) : triState s -> dashCount s = 0 -> allBits s.
Proof.
  induction s as [|c s IH]; simpl; [tauto|].
  intros [Hc Hs] H. unfold triStateChar in Hc.
  destruct Hc as [-> | [-> | ->]]; simpl in H; try discriminate; split; auto.
Qed.

Lemma dashCount_le (s : string) : dashCount s <= String.length s.
Proof.
  induction s as [|c s IH]; simpl; [lia|]. destruct (Ascii.eqb c "-"); lia.
Qed.

Lemma all_dashes (s : string) :
  dashCount s = String.length s ->
  forall pre x post, s = pre +++ String x post -> x = "-"%char.
Proof.
  intros H pre x post ->.
  rewrite dashCount_append, length_append in H. simpl in H.
  pose proof (dashCount_le pre). pose proof (dashCount_le post).
  destruct (Ascii.eqb_spec x "-"); [assumption | lia].
Qed.

Lemma some_dash (s : string) :
  1 <= dashCount s -> exists pre post, s = pre +++ String "-" post.
Proof.
  induction s as [|c s IH]; simpl; [lia|].
  destruct (Ascii.eqb_spec c "-") as [-> | Hc].
  - intros _. now exists EmptyString, s.
  - intro H. destruct (IH H) as (pre & post & ->).
    now exists (String c pre), post.
Qed.

Lemma forallb_false {A : Type} (f : A -> bool) (l : list A) :
  forallb f l = false -> exists x, In x l /\ f x = false.
Proof.
  induction l as [|a l IH]; simpl; [discriminate|].
  destruct (f a) eqn:E; simpl.
  - intro H. destruct (IH H) as (x & Hx & Hf). exists x. auto.
  - intros _. exists a. auto.
Qed.

Lemma parseBinaryFrom_linear (s : string) :
  forall acc, parseBinaryFrom acc s = acc * 2 ^ String.length s + parseBinaryFrom 0 s.
Proof.
  induction s as [|c s IH]; intro acc; simpl; [lia|].
  rewrite (IH (acc + (acc + 0) + _)), (IH (if Ascii.eqb c "1" then 1 else 0)).
  destruct (Ascii.eqb c "1"); lia.
Qed.

Lemma parseBinary_bound (s : string) : parseBinaryFrom 0 s < 2 ^ String.length s.
Proof.
  induction s as [|c s IH]; simpl; [lia|].
  rewrite parseBinaryFrom_linear. destruct (Ascii.eqb c "1"); lia.
Qed.

Lemma parseBinary_inj (a : string) :
  forall b, allBits a -> allBits b -> String.length a = String.length b ->
            parseBinaryFrom 0 a = parseBinaryFrom 0 b -> a = b.
Proof.
  induction a as [|x a IH]; intros [|y b] Ha Hb Hlen E; simpl in *; try discriminate.
  - reflexivity.
  - destruct Ha as [Hx Ha], Hb as [Hy Hb]. injection Hlen as Hlen.
    rewrite (parseBinaryFrom_linear a), (parseBinaryFrom_linear b), Hlen in E.
    pose proof (parseBinary_bound a) as Ba. pose proof (parseBinary_bound b) as Bb.
    rewrite Hlen in Ba.
    destruct Hx as [-> | ->], Hy as [-> | ->]; simpl in E.
    + f_equal. apply IH; auto; lia.
    + exfalso. lia.
    + exfalso. lia.
    + f_equal. apply IH; auto; lia.
Qed.

Lemma bits_are_toBinary (numVars : nat) (s : string) :
  1 <= numVars -> allBits s -> String.length s = numVars ->
  exists m, m < 2 ^ numVars /\ toBinary numVars m = s.
Proof.
  intros Hn Hs Hlen. exists (parseBinary s).
  assert (Hm : parseBinary s < 2 ^ numVars)
    by (rewrite <- Hlen; apply parseBinary_bound).
  split; [exact Hm|].
  apply parseBinary_inj.
  - apply allBits_toBinary.
  - exact Hs.
  - rewrite Hlen. now apply length_toBinary.
  - apply (parseBinary_toBinary numVars (parseBinary s)).
Qed.

Lemma other_digit (x : ascii) :
  x = "0"%char \/ x = "1"%char ->
  exists y, (y = "0"%char \/ y = "1"%char) /\ x <> y /\ y <> "-"%char /\
            (x = "0"%char -> y = "1"%char) /\ (x = "1"%char -> y = "0"%char).
Proof.
  intros [-> | ->].
  - exists "1"%char. repeat split; auto; discriminate.
  - exists "0"%char. repeat split; auto; discriminate.
Qed.

Lemma digit_not_dash (x : ascii) : x = "0"%char \/ x = "1"%char -> Ascii.eqb x "-" = false.
Proof. intros [-> | ->]; reflexivity. Qed.

(** The two halves of a cube along one of its dashes. *)
Lemma half_shape (pre post : string) (x y : ascii) :
  x = "0"%char \/ x = "1"%char -> y = "0"%char \/ y = "1"%char ->
  triState (pre +++ String x post) ->
  String.length (pre +++ String y post) = String.length (pre +++ String x post) /\
  triState (pre +++ String y post) /\
  dashCount (pre +++ String y post) = dashCount (pre +++ String x post) /\
  dashCount (pre +++ String "-" post) = S (dashCount (pre +++ String x post)).
Proof.
  intros Hx Hy T. rewrite !length_append, !dashCount_append. simpl.
  rewrite (digit_not_dash x Hx), (digit_not_dash y Hy).
  split; [reflexivity|]. split; [|split; lia].
  apply triState_append in T as [Tpre [_ Tpost]].
  apply triState_append. split; [exact Tpre|]. simpl. split; [|exact Tpost].
  unfold triStateChar. tauto.
Qed.

Lemma dash_shape (pre post : string) (x : ascii) :
  x = "0"%char \/ x = "1"%char ->
  triState (pre +++ String "-" post) ->
  String.length (pre +++ String x post) = String.length (pre +++ String "-" post) /\
  triState (pre +++ String x post) /\
  S (dashCount (pre +++ String x post)) = dashCount (pre +++ String "-" post).
Proof.
  intros Hx T. rewrite !length_append, !dashCount_append. simpl.
  rewrite (digit_not_dash x Hx).
  split; [reflexivity|]. split; [|lia].
  apply triState_append in T as [Tpre [_ Tpost]].
  apply triState_append. split; [exact Tpre|]. simpl. split; [|exact Tpost].
  unfold triStateChar. tauto.
Qed.

Lemma countOnes_halves (pre post : string) :
  countOnes (pre +++ String "1" post) = S (countOnes (pre +++ String "0" post)).
Proof. rewrite !countOnes_append. simpl. lia. Qed.

End CubeFacts.

Section GroupsOfAPass.

Lemma get_keys {V : Type} (o : JsObject.t V) (k : nat) (v : V) :
  JsObject.get o k = Some v -> In k (JsObject.keys o).
Proof.
  intro H. apply get_In in H. unfold JsObject.keys.
  apply in_map_iff. now exists (k, v).
Qed.

(** In an object with ascending keys the values of two consecutive
    numbers are neighbours. *)
Lemma consecutive_keys {V : Type} (o : JsObject.t V) (k : nat) (v1 v2 : V) :
  ascending o ->
  JsObject.get o k = Some v1 -> JsObject.get o (S k) = Some v2 ->
  exists pre post, JsObject.values o = pre ++ v1 :: v2 :: post.
Proof.
  induction o as [|[k0 v0] o IH]; [simpl; discriminate|].
  cbn [JsObject.get ascending].
  intros [Hlt Hasc] H1 H2.
  destruct (Nat.eqb_spec k k0) as [-> | Hne].
  - injection H1 as ->.
    destruct (Nat.eqb_spec (S k0) k0) as [E | _]; [lia|].
    destruct o as [|[k1 w1] o]; cbn [JsObject.get] in H2; [discriminate|].
    destruct (Nat.eqb_spec (S k0) k1) as [<- | Hne1].
    + injection H2 as ->. now exists [], (JsObject.values o).
    + exfalso. apply get_keys in H2.
      destruct Hasc as [Hlt1 _]. specialize (Hlt1 _ H2).
      specialize (Hlt k1 (or_introl eq_refl)). lia.
  - destruct (Nat.eqb_spec (S k) k0) as [E | _].
    + exfalso. apply get_keys in H1. specialize (Hlt _ H1). lia.
    + destruct (IH Hasc H1 H2) as (pre & post & E).
      exists (v0 :: pre), post. unfold JsObject.values in *. simpl. now rewrite E.
Qed.

Lemma groupByOnes_grouped (terms : list term) :
  forall groups : JsObject.t (list term),
    ascending groups ->
    let result :=
      fold_left
        (fun (groups : JsObject.t (list term)) (t : term) =>
           let ones := countOnes (binary t) in
           let groups' :=
             match JsObject.get groups ones with
             | None => JsObject.set groups ones []
             | Some _ => groups
             end in
           match JsObject.get groups' ones with
           | Some g => JsObject.set groups' ones (g ++ [t])
           | None => groups'
           end) terms groups in
    ascending result /\
    (forall k g, JsObject.get groups k = Some g ->
                 exists g', JsObject.get result k = Some g' /\ incl g g') /\
    (forall t, In t terms ->
               exists g, JsObject.get result (countOnes (binary t)) = Some g /\ In t g).
Proof.
  induction terms as [|t0 terms IH]; intros groups Hasc; cbv zeta.
  - simpl. split; [exact Hasc|]. split; [|contradiction].
    intros k g H. exists g. split; [exact H | apply incl_refl].
  - cbn [fold_left].
    set (ones := countOnes (binary t0)).
    set (groups' := match JsObject.get groups ones with
                    | None => JsObject.set groups ones []
                    | Some _ => groups
                    end).
    assert (Hasc' : ascending groups').
    { unfold groups'. destruct (JsObject.get groups ones); [exact Hasc|].
      now apply ascending_set. }
    assert (Hkeep' : forall k g, JsObject.get groups k = Some g ->
                                 JsObject.get groups' k = Some g).
    { unfold groups'. intros k g H.
      destruct (JsObject.get groups ones) eqn:E; [exact H|].
      rewrite get_set. destruct (Nat.eqb_spec k ones) as [-> | _]; [congruence | exact H]. }
    assert (Hsome : exists g0, JsObject.get groups' ones = Some g0).
    { unfold groups'. destruct (JsObject.get groups ones) as [g|] eqn:E.
      - now exists g.
      - exists []. rewrite get_set, Nat.eqb_refl. reflexivity. }
    destruct Hsome as [g0 Eg0]. rewrite Eg0.
    specialize (IH (JsObject.set groups' ones (g0 ++ [t0])) (ascending_set _ _ _ Hasc')).
    cbv zeta in IH. destruct IH as [Hres [Hkeep Hin]].
    split; [exact Hres|]. split.
    + intros k g H. apply Hkeep' in H.
      destruct (Nat.eqb_spec k ones) as [-> | Hne].
      * rewrite Eg0 in H. injection H as <-.
        destruct (Hkeep ones (g0 ++ [t0])) as (g' & Eg' & Hincl).
        { rewrite get_set, Nat.eqb_refl. reflexivity. }
        exists g'. split; [exact Eg'|].
        intros x Hx. apply Hincl, in_or_app. now left.
      * apply (Hkeep k g). rewrite get_set.
        destruct (Nat.eqb_spec k ones); [contradiction | exact H].
    + intros t [<- | Ht]; [|now apply Hin].
      destruct (Hkeep ones (g0 ++ [t0])) as (g' & Eg' & Hincl).
      { rewrite get_set, Nat.eqb_refl. reflexivity. }
      exists g'. split; [exact Eg'|]. apply Hincl, in_or_app. right. now left.
Qed.

(** Two terms whose numbers of ones differ by one are in neighbouring
    groups. *)
Lemma groupByOnes_neighbours (terms : list term) (t1 t2 : term) :
  In t1 terms -> In t2 terms ->
  countOnes (binary t2) = S (countOnes (binary t1)) ->
  exists pre g1 g2 post,
    groupByOnes terms = pre ++ g1 :: g2 :: post /\ In t1 g1 /\ In t2 g2.
Proof.
  intros H1 H2 Hc. unfold groupByOnes.
  destruct (groupByOnes_grouped terms JsObject.empty I) as [Hasc [_ Hin]].
  cbv zeta in Hasc, Hin.
  destruct (Hin t1 H1) as (g1 & E1 & G1). destruct (Hin t2 H2) as (g2 & E2 & G2).
  rewrite Hc in E2.
  destruct (consecutive_keys _ _ _ _ Hasc E1 E2) as (pre & post & E).
  exists pre, g1, g2, post. now split.
Qed.

End GroupsOfAPass.

Section PairsOfAPass.

Variable terms0 : list term.

Lemma pairLoop_preserves (P : passState -> Prop) (group1 group2 : list term) :
  (forall a b st, In a terms0 -> In b terms0 -> P st -> P (tryPair a b st)) ->
  incl group1 terms0 -> incl group2 terms0 ->
  forall st, P st -> P (pairLoop group1 group2 st).
Proof.
  intros Hstep G1 G2. unfold pairLoop.
  induction group1 as [|t1 group1 IH1]; intros st Hst; simpl; [exact Hst|].
  apply IH1; [intros x Hx; apply G1; now right|].
  assert (Hin1 : In t1 terms0) by (apply G1; now left).
  clear IH1 G1. revert st Hst.
  induction group2 as [|t2 group2 IH2]; intros st Hst; simpl; [exact Hst|].
  apply IH2; [intros x Hx; apply G2; now right|].
  apply Hstep; auto. apply G2. now left.
Qed.

Lemma adjacentLoop_preserves (P : passState -> Prop) (groups : list (list term)) :
  (forall a b st, In a terms0 -> In b terms0 -> P st -> P (tryPair a b st)) ->
  (forall g, In g groups -> incl g terms0) ->
  forall st, P st -> P (adjacentLoop groups st).
Proof.
  intro Hstep.
  induction groups as [|g1 groups IH]; intros Hg st Hst; simpl; [exact Hst|].
  destruct groups as [|g2 groups]; [exact Hst|].
  apply IH; [intros g Hin; apply Hg; now right|].
  apply pairLoop_preserves; auto; apply Hg; simpl; auto.
Qed.

Lemma markUsed_used (i : nat) (terms : list term) (t : term) :
  In t (markUsed i terms) ->
  exists t0, In t0 terms /\ tid t = tid t0 /\
             (used t0 = true -> used t = true) /\ (tid t0 = i -> used t = true).
Proof.
  unfold markUsed. intro H. apply in_map_iff in H as (t0 & E & Hin).
  exists t0. split; [exact Hin|].
  destruct (Nat.eqb_spec (tid t0) i) as [Ei | Ei]; subst t; simpl; intuition.
Qed.

Lemma tryPair_done (term1 term2 : term) (c : string) (st : passState) :
  combineBinary (binary term1) (binary term2) = Some c ->
  pairDone term1 term2 c (tryPair term1 term2 st).
Proof.
  intro Hc. unfold tryPair. rewrite Hc.
  assert (Hmarks : forall t,
            In t (markUsed (tid term2) (markUsed (tid term1) (ps_terms st))) ->
            tid t = tid term1 \/ tid t = tid term2 -> used t = true).
  { intros t Ht Htid.
    apply markUsed_used in Ht as (ta & Hta & Ea & Ua & Ia).
    apply markUsed_used in Hta as (tb & Htb & Eb & Ub & Ib).
    destruct Htid as [E | E].
    - apply Ua, Ib. congruence.
    - apply Ia. congruence. }
  destruct (existsb (fun t => String.eqb (binary t) c) (ps_newTerms st)) eqn:Hex.
  - split; [exact Hmarks|]. cbn [ps_newTerms].
    apply existsb_exists in Hex as (t' & Ht' & E). apply String.eqb_eq in E.
    now exists t'.
  - split; [exact Hmarks|]. cbn [ps_newTerms].
    eexists. split; [apply in_or_app; right; left; reflexivity | reflexivity].
Qed.

Lemma tryPair_keeps_done (term1 term2 : term) (c : string) (a b : term) (st : passState) :
  pairDone term1 term2 c st -> pairDone term1 term2 c (tryPair a b st).
Proof.
  intros [Hmarked (t' & Ht' & E)]. unfold tryPair.
  destruct (combineBinary (binary a) (binary b)) as [c'|]; [|now split; [|exists t']].
  assert (Hmarks : forall t,
            In t (markUsed (tid b) (markUsed (tid a) (ps_terms st))) ->
            tid t = tid term1 \/ tid t = tid term2 -> used t = true).
  { intros t Ht Htid.
    apply markUsed_used in Ht as (ta & Hta & Ea & Ua & _).
    apply markUsed_used in Hta as (tb & Htb & Eb & Ub & _).
    apply Ua, Ub, Hmarked; [exact Htb|]. rewrite <- Eb, <- Ea. exact Htid. }
  destruct (existsb _ (ps_newTerms st)).
  - split; [exact Hmarks|]. now exists t'.
  - split; [exact Hmarks|]. exists t'. split; [|exact E].
    cbn [ps_newTerms]. apply in_or_app. now left.
Qed.

Lemma pairLoop_done (term1 term2 : term) (c : string) (group1 group2 : list term) :
  combineBinary (binary term1) (binary term2) = Some c ->
  In term1 group1 -> In term2 group2 ->
  forall st, pairDone term1 term2 c (pairLoop group1 group2 st).
Proof.
  intros Hc H1 H2. unfold pairLoop.
  assert (Hinner : forall (t1 : term) (g2 : list term) st,
            pairDone term1 term2 c st ->
            pairDone term1 term2 c (fold_left (fun st2 t2 => tryPair t1 t2 st2) g2 st)).
  { intros t1 g2. induction g2 as [|t2 g2 IH]; intros st Hst; simpl; [exact Hst|].
    apply IH. now apply tryPair_keeps_done. }
  assert (Houter : forall (g1 : list term) st,
            pairDone term1 term2 c st ->
            pairDone term1 term2 c
              (fold_left (fun st1 t1 => fold_left (fun st2 t2 => tryPair t1 t2 st2) group2 st1)
                         g1 st)).
  { induction g1 as [|t1 g1 IH]; intros st Hst; simpl; [exact Hst|].
    apply IH. now apply Hinner. }
  assert (Hrow : forall (g2 : list term) st,
            In term2 g2 ->
            pairDone term1 term2 c (fold_left (fun st2 t2 => tryPair term1 t2 st2) g2 st)).
  { induction g2 as [|t2 g2 IH]; intros st Hin; simpl; [contradiction|].
    destruct Hin as [-> | Hin].
    - apply Hinner. now apply tryPair_done.
    - now apply IH. }
  induction group1 as [|t1 group1 IH]; intro st; simpl; [contradiction|].
  destruct H1 as [-> | H1].
  - apply Houter. now apply Hrow.
  - now apply IH.
Qed.

Lemma adjacentLoop_cons (g1 g2 : list term) (rest : list (list term)) (st : passState) :
  adjacentLoop (g1 :: g2 :: rest) st = adjacentLoop (g2 :: rest) (pairLoop g1 g2 st).
Proof. reflexivity. Qed.

Lemma adjacentLoop_keeps_done (term1 term2 : term) (c : string) (groups : list (list term)) :
  forall st, pairDone term1 term2 c st -> pairDone term1 term2 c (adjacentLoop groups st).
Proof.
  induction groups as [|g1 groups IH]; intros st Hst; simpl; [exact Hst|].
  destruct groups as [|g2 groups]; [exact Hst|].
  apply IH. unfold pairLoop.
  assert (Hinner : forall (t1 : term) (g : list term) s,
            pairDone term1 term2 c s ->
            pairDone term1 term2 c (fold_left (fun st2 t2 => tryPair t1 t2 st2) g s)).
  { intros t1 g. induction g as [|t2 g IHg]; intros s Hs; simpl; [exact Hs|].
    apply IHg. now apply tryPair_keeps_done. }
  revert st Hst. induction g1 as [|t1 g1 IH1]; intros st Hst; simpl; [exact Hst|].
  apply IH1. now apply Hinner.
Qed.

Lemma adjacentLoop_done (term1 term2 : term) (c : string)
  (pre : list (list term)) (group1 group2 : list term) (post : list (list term)) :
  combineBinary (binary term1) (binary term2) = Some c ->
  In term1 group1 -> In term2 group2 ->
  forall st, pairDone term1 term2 c (adjacentLoop (pre ++ group1 :: group2 :: post) st).
Proof.
  intros Hc H1 H2.
  induction pre as [|g pre IH]; intro st.
  - cbn [app]. rewrite adjacentLoop_cons.
    apply adjacentLoop_keeps_done. now apply pairLoop_done.
  - destruct pre as [|g' pre]; cbn [app] in *; rewrite adjacentLoop_cons; apply IH.
Qed.

End PairsOfAPass.

Section PrimeImplicants.

Variables (numVars : nat) (ones : list nat).
Hypothesis numVars_pos : 1 <= numVars.
Hypothesis ones_in_range : forall m, In m ones -> m < 2 ^ numVars.

Lemma implicantb_true (cube : string) :
  implicantb numVars ones cube = true -> implicant numVars ones cube.
Proof.
  unfold implicantb, implicant. rewrite forallb_forall. intros H m Hm Hc.
  specialize (H m ltac:(apply in_seq; lia)). rewrite Hc in H. simpl in H.
  now apply includesNat_In.
Qed.

Lemma implicantb_false (cube : string) :
  implicantb numVars ones cube = false ->
  exists m, m < 2 ^ numVars /\ covers cube (toBinary numVars m) = true /\ ~ In m ones.
Proof.
  unfold implicantb. intro H. apply forallb_false in H as (m & Hm & Hf).
  apply in_seq in Hm. exists m. split; [lia|].
  destruct (covers cube (toBinary numVars m)); [|discriminate].
  split; [reflexivity|]. simpl in Hf. intro Hin.
  apply includesNat_In in Hin. congruence.
Qed.

Lemma implicant_half (pre post : string) (x : ascii) :
  x = "0"%char \/ x = "1"%char ->
  implicant numVars ones (pre +++ String "-" post) ->
  implicant numVars ones (pre +++ String x post).
Proof.
  intros Hx H m Hm Hc. apply (H m Hm).
  destruct (other_digit x Hx) as (y & Hy & Hxy & _).
  rewrite (covers_merged pre post x y _ (allBits_toBinary numVars m) Hxy Hx Hy), Hc.
  reflexivity.
Qed.

(** The halves of an implicant are merged by the pass that handles them. *)
Lemma halves_merged (k : nat) (terms : list term) (next : nat) (t0 t1 : term)
  (pre post : string) :
  In t0 terms -> In t1 terms ->
  binary t0 = pre +++ String "0" post ->
  binary t1 = pre +++ String "1" post ->
  pairDone t0 t1 (pre +++ String "-" post) (mergePass terms next).
Proof.
  intros H0 H1 E0 E1.
  assert (Hs : splitAt (binary t0) (binary t1) pre "0" "1" post).
  { unfold splitAt. repeat split; auto; discriminate. }
  pose proof (combineBinary_split _ _ _ _ _ _ Hs) as Hc.
  assert (Hones : countOnes (binary t1) = S (countOnes (binary t0)))
    by (rewrite E0, E1; apply countOnes_halves).
  destruct (groupByOnes_neighbours terms t0 t1 H0 H1 Hones)
    as (gpre & g0 & g1 & gpost & Eg & G0 & G1).
  unfold mergePass. rewrite Eg. now apply adjacentLoop_done.
Qed.

Lemma merge_marks (k : nat) (terms : list term) (next : nat) (t0 : term)
  (pre post : string) (x : ascii) :
  levelInv numVars ones k terms ->
  In t0 terms ->
  binary t0 = pre +++ String x post -> x <> "-"%char ->
  implicant numVars ones (pre +++ String "-" post) ->
  forall t, In t (ps_terms (mergePass terms next)) -> tid t = tid t0 -> used t = true.
Proof.
  intros (Hok & Hnd & Hun & Hlevel & Hcomplete) H0 E Hx Himp t Ht Htid.
  rewrite Forall_forall in Hok. destruct (Hok t0 H0) as (L0 & T0 & _).
  rewrite E in T0, L0.
  pose proof (triState_middle _ _ _ T0 Hx) as Hx'.
  destruct (other_digit x Hx') as (y & Hy & Hxy & Hyd & Hy1 & Hy0).
  destruct (half_shape pre post x y Hx' Hy T0) as (Ly & Ty & Dy & _).
  destruct (Hcomplete (pre +++ String y post)) as (t1 & H1 & E1).
  - congruence.
  - exact Ty.
  - rewrite Dy, <- E. now apply Hlevel.
  - now apply implicant_half.
  - destruct Hx' as [-> | ->].
    + rewrite (Hy1 eq_refl) in E1.
      destruct (halves_merged k terms next t0 t1 pre post H0 H1 E E1) as [Hm _].
      apply (Hm t Ht). now left.
    + rewrite (Hy0 eq_refl) in E1.
      destruct (halves_merged k terms next t1 t0 pre post H1 H0 E1 E) as [Hm _].
      apply (Hm t Ht). now right.
Qed.

Lemma merge_complete (k : nat) (terms : list term) (next : nat) :
  levelInv numVars ones k terms ->
  complete numVars ones (S k) (ps_newTerms (mergePass terms next)).
Proof.
  intros (Hok & Hnd & Hun & Hlevel & Hcomplete) cube L T D Himp.
  destruct (some_dash cube ltac:(lia)) as (pre & post & ->).
  destruct (dash_shape pre post "0" (or_introl eq_refl) T) as (L0 & T0 & D0).
  destruct (dash_shape pre post "1" (or_intror eq_refl) T) as (L1 & T1 & D1).
  destruct (Hcomplete (pre +++ String "0" post)) as (t0 & H0 & E0);
    [congruence | exact T0 | lia | apply implicant_half; auto |].
  destruct (Hcomplete (pre +++ String "1" post)) as (t1 & H1 & E1);
    [congruence | exact T1 | lia | apply implicant_half; auto |].
  destruct (halves_merged k terms next t0 t1 pre post H0 H1 E0 E1) as [_ Hnew].
  exact Hnew.
Qed.

Lemma merge_level (k : nat) (terms : list term) (next : nat) :
  levelInv numVars ones k terms ->
  forall t', In t' (ps_newTerms (mergePass terms next)) -> dashCount (binary t') = S k.
Proof.
  intros (Hok & Hnd & Hun & Hlevel & Hcomplete). unfold mergePass.
  apply (adjacentLoop_preserves terms
           (fun st => forall t', In t' (ps_newTerms st) -> dashCount (binary t') = S k)).
  - intros a b st Ha Hb Hst. unfold tryPair.
    destruct (combineBinary (binary a) (binary b)) as [c|] eqn:Hc; [|exact Hst].
    destruct (existsb _ (ps_newTerms st)); [exact Hst|].
    cbn [ps_newTerms]. intros t' Ht'. apply in_app_or in Ht' as [Ht' | [<- | []]];
      [now apply Hst|].
    cbn [binary]. rewrite Forall_forall in Hok.
    destruct (Hok a Ha) as (La & Ta & _). destruct (Hok b Hb) as (Lb & _).
    assert (Hlen : String.length (binary a) = String.length (binary b)) by congruence.
    destruct (combineBinary_inv _ _ _ Hlen Hc)
      as (pre & x & y & post & (Ea & Eb & Hxy & Hx & Hy) & ->).
    rewrite Ea in Ta. pose proof (triState_middle _ _ _ Ta Hx) as Hx'.
    destruct (half_shape pre post x x Hx' Hx' Ta) as (_ & _ & _ & D).
    rewrite D, <- Ea. f_equal. now apply Hlevel.
  - intros g Hg. now apply groupByOnes_In.
  - intros t' [].
Qed.

Lemma merge_next_level (k : nat) (terms : list term) (next : nat) :
  levelInv numVars ones k terms ->
  levelInv numVars ones (S k) (ps_newTerms (mergePass terms next)).
Proof.
  intro Hinv. pose proof Hinv as (Hok & Hnd & Hun & _).
  destruct (mergePass_inv numVars ones numVars_pos ones_in_range terms next Hok Hnd Hun)
    as (_ & Hnew & Hnewun & Hnewnd & _).
  split; [exact Hnew|]. split; [exact Hnewnd|]. split; [exact Hnewun|].
  split; [now apply merge_level | now apply merge_complete].
Qed.

Lemma merge_unused_prime (k : nat) (terms : list term) (next : nat) :
  levelInv numVars ones k terms ->
  forall t, In t (ps_terms (mergePass terms next)) -> used t = false ->
            prime numVars ones (binary t).
Proof.
  intro Hinv. pose proof Hinv as (Hok & Hnd & Hun & _).
  destruct (mergePass_inv numVars ones numVars_pos ones_in_range terms next Hok Hnd Hun)
    as (Hfro & _).
  intros t Ht Hu pre x post E Hx.
  destruct (implicantb numVars ones (pre +++ String "-" post)) eqn:Hb;
    [|now apply implicantb_false].
  exfalso. apply implicantb_true in Hb.
  destruct (frozen_preimage _ _ _ Hfro Ht) as (t0 & H0 & E0).
  injection E0 as Etid Ebin _.
  assert (Hused : used t = true).
  { apply (merge_marks k terms next t0 pre post x Hinv H0); try assumption; congruence. }
  congruence.
Qed.

Lemma top_level_prime (terms : list term) :
  levelInv numVars ones numVars terms ->
  forall t, In t terms -> prime numVars ones (binary t).
Proof.
  intros (Hok & _ & _ & Hlevel & _) t Ht pre x post E Hx.
  rewrite Forall_forall in Hok. destruct (Hok t Ht) as (L & _).
  exfalso. apply Hx. apply (all_dashes (binary t)) with (pre := pre) (post := post).
  - rewrite L. now apply Hlevel.
  - exact E.
Qed.

Lemma qmLoop_prime (remaining : nat) :
  forall (terms pis : list term) (next passes k : nat),
    k + remaining = numVars ->
    levelInv numVars ones k terms ->
    (forall t, In t pis -> prime numVars ones (binary t)) ->
    let r := qmLoop remaining terms pis next passes in
    forall t, In t (pushUnused (run_primeImplicants r) (run_terms r)) ->
              prime numVars ones (binary t).
Proof.
  induction remaining as [|remaining IH]; intros terms pis next passes k Hk Hinv Hpis; cbv zeta.
  - cbn [qmLoop run_primeImplicants run_terms]. intros t Ht.
    unfold pushUnused in Ht. apply in_app_or in Ht as [Ht | Ht]; [now apply Hpis|].
    apply filter_In in Ht as [Ht _].
    replace k with numVars in Hinv by lia.
    now apply (top_level_prime terms).
  - cbn [qmLoop].
    assert (Hpis' : forall t, In t (pushUnused pis (ps_terms (mergePass terms next))) ->
                              prime numVars ones (binary t)).
    { intros t Ht. unfold pushUnused in Ht. apply in_app_or in Ht as [Ht | Ht];
        [now apply Hpis|].
      apply filter_In in Ht as [Ht Hu]. apply negb_true_iff in Hu.
      now apply (merge_unused_prime k terms next). }
    pose proof (merge_next_level k terms next Hinv) as Hnext.
    destruct (ps_newTerms (mergePass terms next)) as [|t' new] eqn:Enew.
    + cbn [run_primeImplicants run_terms]. intros t Ht.
      unfold pushUnused at 1 in Ht. apply in_app_or in Ht as [Ht | Ht]; [now apply Hpis'|].
      apply filter_In in Ht as [Ht Hu]. apply negb_true_iff in Hu.
      now apply (merge_unused_prime k terms next).
    + apply (IH (t' :: new) _ (ps_next (mergePass terms next)) (S passes) (S k));
        [lia | exact Hnext | exact Hpis'].
Qed.

Lemma initial_level : levelInv numVars ones 0 (initialTerms ones numVars).
Proof.
  destruct (initialTerms_spec numVars ones numVars_pos ones_in_range ones (fun m H => H))
    as (Hok & Hnd & Hun & _).
  split; [exact Hok|]. split; [exact Hnd|]. split; [exact Hun|]. split.
  - intros t Ht. unfold initialTerms in Ht. apply in_map_iff in Ht as ([i m] & <- & _).
    cbn [binary]. apply dashCount_allBits, allBits_toBinary.
  - intros cube L T D Himp.
    pose proof (no_dash_allBits cube T D) as Hbits.
    destruct (bits_are_toBinary numVars cube numVars_pos Hbits L) as (m & Hm & <-).
    assert (Hin : In m ones).
    { apply (Himp m Hm). now apply (covers_bits _ _ Hbits). }
    apply In_nth_error in Hin as [i Hi].
    exists (mkTerm i (toBinary numVars m) [m] false). split; [|reflexivity].
    unfold initialTerms. apply in_map_iff. exists (i, m). split; [reflexivity|].
    now apply (indexed_In ones).
Qed.

Lemma quineMcCluskey_prime (t : term) :
  In t (quineMcCluskey ones numVars) -> prime numVars ones (binary t).
Proof.
  unfold quineMcCluskey, quineMcCluskeyRun.
  apply (qmLoop_prime numVars (initialTerms ones numVars) [] (List.length ones) 0 0).
  - reflexivity.
  - exact initial_level.
  - intros t' [].
Qed.

End PrimeImplicants.

Section AllPrimeImplicants.

Variables (numVars : nat) (ones : list nat).
Hypothesis numVars_pos : 1 <= numVars.
Hypothesis ones_in_range : forall m, In m ones -> m < 2 ^ numVars.

Lemma implicant_shrink (j : nat) :
  forall (d : nat) (cube : string),
    dashCount cube = j + d ->
    triState cube -> implicant numVars ones cube ->
    exists cube',
      String.length cube' = String.length cube /\ triState cube' /\
      implicant numVars ones cube' /\ dashCount cube' = j.
Proof.
  induction d as [|d IH]; intros cube D T Himp.
  - exists cube. repeat split; auto. lia.
  - destruct (some_dash cube ltac:(lia)) as (pre & post & ->).
    destruct (dash_shape pre post "0" (or_introl eq_refl) T) as (L0 & T0 & D0).
    destruct (IH (pre +++ String "0" post)) as (cube' & L' & T' & I' & D').
    + lia.
    + exact T0.
    + apply (implicant_half numVars ones); auto.
    + exists cube'. repeat split; auto. congruence.
Qed.

Lemma flags_justified (terms : list term) (next : nat) :
  Forall (fun t => used t = false) terms ->
  flagsJustified terms (mergePass terms next).
Proof.
  intro Hun. unfold mergePass.
  apply (adjacentLoop_preserves terms (flagsJustified terms)).
  - intros a b st Ha Hb Hst. unfold tryPair.
    destruct (combineBinary (binary a) (binary b)) as [c|] eqn:Hc; [|exact Hst].
    assert (Hmarks : forall t,
              In t (markUsed (tid b) (markUsed (tid a) (ps_terms st))) -> used t = true ->
              exists a' b' c',
                In a' terms /\ In b' terms /\
                combineBinary (binary a') (binary b') = Some c' /\
                (tid t = tid a' \/ tid t = tid b')).
    { intros t Ht Hu.
      apply markUsed_In in Ht as (ta & Hta & Ea & Hua).
      apply markUsed_In in Hta as (tb & Htb & Eb & Hub).
      assert (Etid : tid t = tid tb)
        by (injection Ea as Ea _ _; injection Eb as Eb _ _; congruence).
      assert (Etid' : tid ta = tid tb) by (injection Eb as Eb _ _; exact Eb).
      destruct (Hua Hu) as [Hu' | Htid].
      - destruct (Hub Hu') as [Hu'' | Htid].
        + destruct (Hst tb Htb Hu'') as (a' & b' & c' & Ha' & Hb' & Hc' & Ht').
          exists a', b', c'. repeat split; auto. now rewrite Etid.
        + exists a, b, c. repeat split; auto. left. congruence.
      - exists a, b, c. repeat split; auto. right. congruence. }
    destruct (existsb _ (ps_newTerms st)); exact Hmarks.
  - intros g Hg. now apply groupByOnes_In.
  - intros t Ht Hu. cbn [ps_terms] in Ht. rewrite Forall_forall in Hun.
    rewrite (Hun t Ht) in Hu. discriminate.
Qed.

(** A merge of two implicants is an implicant. *)
Lemma merged_implicant (a b : term) (c : string) :
  termOk numVars ones a -> termOk numVars ones b ->
  combineBinary (binary a) (binary b) = Some c ->
  implicant numVars ones c.
Proof.
  intros (La & Ta & Ca & Ia) (Lb & Tb & Cb & Ib) Hc m Hm Hcov.
  assert (Hlen : String.length (binary a) = String.length (binary b)) by congruence.
  rewrite (covers_combined numVars _ _ _ m Hlen Ta Tb Hc) in Hcov.
  apply orb_true_iff in Hcov as [H | H].
  - apply Ia. now apply (Ca m Hm).
  - apply Ib. now apply (Cb m Hm).
Qed.

(** A prime implicant handled by a pass keeps its flag unset. *)
Lemma prime_stays_unused (k : nat) (terms : list term) (next : nat) (t : term) :
  levelInv numVars ones k terms ->
  In t (ps_terms (mergePass terms next)) ->
  prime numVars ones (binary t) ->
  used t = false.
Proof.
  intros (Hok & Hnd & Hun & _) Ht Hprime.
  destruct (used t) eqn:Hu; [|reflexivity]. exfalso.
  destruct (mergePass_inv numVars ones numVars_pos ones_in_range terms next Hok Hnd Hun)
    as (Hfro & _).
  destruct (flags_justified terms next Hun t Ht Hu) as (a & b & c & Ha & Hb & Hc & Htid).
  destruct (frozen_preimage _ _ _ Hfro Ht) as (t0 & H0 & E0).
  injection E0 as Etid Ebin _.
  rewrite Forall_forall in Hok.
  pose proof (merged_implicant a b c (Hok a Ha) (Hok b Hb) Hc) as Himp.
  assert (Hlen : String.length (binary a) = String.length (binary b)).
  { destruct (Hok a Ha) as (La & _). destruct (Hok b Hb) as (Lb & _). congruence. }
  destruct (combineBinary_inv _ _ _ Hlen Hc)
    as (pre & x & y & post & (Ea & Eb & Hxy & Hx & Hy) & ->).
  destruct Htid as [E | E].
  - assert (t0 = a) by (apply (NoDup_map_inj tid terms); auto; congruence). subst t0.
    destruct (Hprime pre x post ltac:(congruence) Hx) as (m & Hm & Hcov & Hout).
    apply Hout. now apply (Himp m Hm).
  - assert (t0 = b) by (apply (NoDup_map_inj tid terms); auto; congruence). subst t0.
    destruct (Hprime pre y post ltac:(congruence) Hy) as (m & Hm & Hcov & Hout).
    apply Hout. now apply (Himp m Hm).
Qed.

Lemma qmLoop_keeps (remaining : nat) :
  forall (terms pis : list term) (next passes : nat) (t : term),
    In t pis ->
    let r := qmLoop remaining terms pis next passes in
    In t (pushUnused (run_primeImplicants r) (run_terms r)).
Proof.
  induction remaining as [|remaining IH]; intros terms pis next passes t Ht; cbv zeta.
  - cbn [qmLoop run_primeImplicants run_terms]. unfold pushUnused.
    apply in_or_app. now left.
  - cbn [qmLoop].
    assert (Ht' : In t (pushUnused pis (ps_terms (mergePass terms next))))
      by (unfold pushUnused; apply in_or_app; now left).
    destruct (ps_newTerms (mergePass terms next)) as [|t' new].
    + cbn [run_primeImplicants run_terms]. unfold pushUnused at 1.
      apply in_or_app. now left.
    + now apply IH.
Qed.

Lemma qmLoop_all_primes (remaining : nat) :
  forall (terms pis : list term) (next passes k : nat),
    k + remaining = numVars ->
    levelInv numVars ones k terms ->
    forall cube,
      String.length cube = numVars -> triState cube ->
      implicant numVars ones cube -> prime numVars ones cube ->
      k <= dashCount cube ->
      let r := qmLoop remaining terms pis next passes in
      exists t, In t (pushUnused (run_primeImplicants r) (run_terms r)) /\ binary t = cube.
Proof.
  induction remaining as [|remaining IH];
    intros terms pis next passes k Hk Hinv cube L T Himp Hprime Hd; cbv zeta.
  - cbn [qmLoop run_primeImplicants run_terms].
    pose proof (dashCount_le cube) as Hle.
    destruct Hinv as (_ & _ & Hun & _ & Hcomplete).
    destruct (Hcomplete cube L T ltac:(lia) Himp) as (t & Ht & E).
    exists t. split; [|exact E].
    unfold pushUnused. apply in_or_app. right. apply filter_In. split; [exact Ht|].
    rewrite Forall_forall in Hun. now rewrite (Hun t Ht).
  - cbn [qmLoop].
    pose proof Hinv as (Hok & Hnd & Hun & _ & Hcomplete).
    destruct (mergePass_inv numVars ones numVars_pos ones_in_range terms next Hok Hnd Hun)
      as (Hfro & _).
    pose proof (merge_next_level numVars ones numVars_pos ones_in_range k terms next Hinv)
      as Hnext.
    destruct (Nat.eq_dec (dashCount cube) k) as [Hdk | Hdk].
    + (* the cube is handled by this pass *)
      destruct (Hcomplete cube L T Hdk Himp) as (t0 & H0 & E0).
      destruct (frozen_preimage _ _ _ (eq_sym Hfro) H0) as (t & Ht & Et).
      injection Et as Etid Ebin Emin.
      assert (Hu : used t = false).
      { apply (prime_stays_unused k terms next t Hinv Ht). now rewrite Ebin, E0. }
      assert (Hin : In t (pushUnused pis (ps_terms (mergePass terms next)))).
      { unfold pushUnused. apply in_or_app. right. apply filter_In.
        split; [exact Ht | now rewrite Hu]. }
      exists t. split; [|congruence].
      destruct (ps_newTerms (mergePass terms next)) as [|t' new].
      * cbn [run_primeImplicants run_terms]. unfold pushUnused at 1.
        apply in_or_app. now left.
      * now apply qmLoop_keeps.
    + (* the cube has more dashes: the loop goes on *)
      destruct (implicant_shrink (S k) (dashCount cube - S k) cube ltac:(lia) T Himp)
        as (cube' & L' & T' & I' & D').
      destruct Hnext as (Hok' & Hnd' & Hun' & Hlevel' & Hcomplete').
      destruct (Hcomplete' cube' ltac:(congruence) T' D' I') as (t' & Ht' & _).
      destruct (ps_newTerms (mergePass terms next)) as [|t1 new] eqn:Enew;
        [contradiction|].
      apply (IH (t1 :: new) _ (ps_next (mergePass terms next)) (S passes) (S k));
        auto; try lia.
      repeat split; assumption.
Qed.

Lemma quineMcCluskey_all_primes (cube : string) :
  String.length cube = numVars -> triState cube ->
  implicant numVars ones cube -> prime numVars ones cube ->
  exists t, In t (quineMcCluskey ones numVars) /\ binary t = cube.
Proof.
  intros L T Himp Hprime. unfold quineMcCluskey, quineMcCluskeyRun.
  apply (qmLoop_all_primes numVars (initialTerms ones numVars) [] (List.length ones) 0 0);
    auto; try lia.
  apply initial_level; assumption.
Qed.

End AllPrimeImplicants.

Section PrimeImplicantTheorems.

(** X20. Every term returned by [quineMcCluskey], for indices below
    [2^n], is a prime implicant of the function whose ones and
    don't-cares are the given indices: each assignment its pattern
    contains is one of the indices, and replacing any digit of the
    pattern by a dash gives a cube that contains an assignment which is
    not. *)
Theorem quineMcCluskey_returns_prime_implicants (numVars : nat) (ones : list nat) (t : term) :
  1 <= numVars ->
  (forall m, In m ones -> m < 2 ^ numVars) ->
  In t (quineMcCluskey ones numVars) ->
  (forall m, m < 2 ^ numVars ->
             covers (binary t) (toBinary numVars m) = true -> In m ones) /\
  (forall pre x post,
     binary t = pre +++ String x post -> x <> "-"%char ->
     exists m, m < 2 ^ numVars /\
               covers (pre +++ String "-" post) (toBinary numVars m) = true /\
               ~ In m ones).
Proof.
  intros Hn Hrange Ht. split.
  - destruct (quineMcCluskey_spec numVars ones Hn Hrange) as [Hok _].
    rewrite Forall_forall in Hok. destruct (Hok t Ht) as (_ & _ & C & I).
    intros m Hm Hc. apply I. now apply (C m Hm).
  - exact (quineMcCluskey_prime numVars ones Hn Hrange t Ht).
Qed.

Lemma quineMcCluskey_returns_prime_implicants_witness :
  (forall m, m < 2 ^ 2 -> covers "-1" (toBinary 2 m) = true -> In m [1; 3; 2]) /\
  (forall pre x post,
     "-1"%string = pre +++ String x post -> x <> "-"%char ->
     exists m, m < 2 ^ 2 /\
               covers (pre +++ String "-" post) (toBinary 2 m) = true /\
               ~ In m [1; 3; 2]).
Proof.
  apply (quineMcCluskey_returns_prime_implicants 2 [1; 3; 2] (mkTerm 3 "-1" [1; 3] false)).
  - lia.
  - simpl. intros m H. lia.
  - simpl. now left.
Defined.

(** X21. [quineMcCluskey] misses no prime implicant: for indices below
    [2^n], every cube of [n] symbols 0, 1 or - that is an implicant of
    the function and cannot be enlarged is the pattern of a returned
    term. *)
Theorem quineMcCluskey_finds_every_prime_implicant
  (numVars : nat) (ones : list nat) (cube : string) :
  1 <= numVars ->
  (forall m, In m ones -> m < 2 ^ numVars) ->
  String.length cube = numVars ->
  triState cube ->
  (forall m, m < 2 ^ numVars ->
             covers cube (toBinary numVars m) = true -> In m ones) ->
  (forall pre x post,
     cube = pre +++ String x post -> x <> "-"%char ->
     exists m, m < 2 ^ numVars /\
               covers (pre +++ String "-" post) (toBinary numVars m) = true /\
               ~ In m ones) ->
  exists t, In t (quineMcCluskey ones numVars) /\ binary t = cube.
Proof.
  intros Hn Hrange L T Himp Hprime.
  exact (quineMcCluskey_all_primes numVars ones Hn Hrange cube L T Himp Hprime).
Qed.

Lemma quineMcCluskey_finds_every_prime_implicant_witness :
  exists t, In t (quineMcCluskey [1; 3; 2] 2) /\ binary t = "1-"%string.
Proof.
  apply (quineMcCluskey_finds_every_prime_implicant 2 [1; 3; 2] "1-").
  - lia.
  - simpl. intros m H. lia.
  - reflexivity.
  - simpl. unfold triStateChar. tauto.
  - intros m Hm Hc.
    assert (Hcases : m = 0 \/ m = 1 \/ m = 2 \/ m = 3) by (simpl in Hm; lia).
    destruct Hcases as [-> | [-> | [-> | ->]]]; simpl in *; try discriminate; tauto.
  - intros pre x post E Hx. exists 0. split; [simpl; lia|].
    destruct pre as [|a [|b pre]]; simpl in E.
    + injection E as <- <-. split; [reflexivity|]. simpl. lia.
    + injection E as <- <- <-. now elim Hx.
    + destruct pre; discriminate.
Defined.

End PrimeImplicantTheorems.

Section SimplifiedTerms.

(** X22. The product terms chosen by [simplify] are prime implicants.
    For pairwise distinct required minterms and indices all below
    [2^n], every term of [essentialPrimeImplicants] (the terms written
    in [sop]) is one of [primeImplicants], contains only required or
    don't-care assignments, and cannot be enlarged. *)
Theorem simplify_uses_prime_implicants (kmap : kmapInput) (t : term) :
  1 <= k_numVars kmap ->
  NoDup (k_minterms kmap) ->
  (forall m, In m (k_minterms kmap ++ k_dontCares kmap) -> m < 2 ^ k_numVars kmap) ->
  In t (essentialPrimeImplicants (simplify kmap)) ->
  In t (primeImplicants (simplify kmap)) /\
  implicant (k_numVars kmap) (k_minterms kmap ++ k_dontCares kmap) (binary t) /\
  prime (k_numVars kmap) (k_minterms kmap ++ k_dontCares kmap) (binary t).
Proof.
  destruct kmap as [mins variables numVars dontCares].
  cbn [k_numVars k_minterms k_dontCares]. intros Hn Hnd Hrange.
  unfold simplify. cbn [k_numVars k_minterms k_dontCares k_variables].
  destruct (List.length mins =? 0); [intros []|].
  destruct (List.length mins =? 2 ^ numVars); [intros []|].
  cbn [essentialPrimeImplicants primeImplicants]. intro Ht.
  destruct (quineMcCluskey_spec numVars (mins ++ dontCares) Hn Hrange) as [Hok Hcover].
  assert (Hcover' : forall m, In m mins ->
            exists t', In t' (quineMcCluskey (mins ++ dontCares) numVars) /\
                       In m (minterms t'))
    by (intros m Hm; apply Hcover, in_app_iff; now left).
  destruct (findEssential_covers _ mins Hnd Hcover') as [Hsub _].
  pose proof (Hsub t Ht) as Hpi.
  split; [exact Hpi|]. split.
  - rewrite Forall_forall in Hok. destruct (Hok t Hpi) as (_ & _ & C & I).
    intros m Hm Hc. apply I. now apply (C m Hm).
  - exact (quineMcCluskey_prime numVars (mins ++ dontCares) Hn Hrange t Hpi).
Qed.

Lemma simplify_uses_prime_implicants_witness :
  In (mkTerm 3 "-1" [1; 3] false)
     (primeImplicants (simplify (mkKmapInput [1; 3] ["A"; "B"]%string 2 [2]))) /\
  implicant 2 ([1; 3] ++ [2]) "-1" /\
  prime 2 ([1; 3] ++ [2]) "-1".
Proof.
  apply (simplify_uses_prime_implicants
           (mkKmapInput [1; 3] ["A"; "B"]%string 2 [2]) (mkTerm 3 "-1" [1; 3] false)).
  - simpl. lia.
  - repeat constructor; simpl; intuition discriminate.
  - simpl. intros m H. lia.
  - simpl. now left.
Defined.

(** X23. The binary text of an index.  With [n >= 1] digits asked
    for, [m.toString(2).padStart(n, '0')] writes every index below
    [2^n] as exactly [n] binary digits that [parseInt(text, 2)] reads
    back as the index; an index of [2^n] or more gets more than [n]
    digits; and every text of [n] binary digits is the text of the index
    it denotes, which is below [2^n]. *)
Theorem toBinary_round_trip (numVars : nat) :
  1 <= numVars ->
  (forall m, allBits (toBinary numVars m) /\ parseBinary (toBinary numVars m) = m) /\
  (forall m, m < 2 ^ numVars -> String.length (toBinary numVars m) = numVars) /\
  (forall m, 2 ^ numVars <= m -> numVars < String.length (toBinary numVars m)) /\
  (forall text, allBits text -> String.length text = numVars ->
                parseBinary text < 2 ^ numVars /\
                toBinary numVars (parseBinary text) = text).
Proof.
  intro Hn. split; [|split; [|split]].
  - intro m. split; [apply allBits_toBinary | apply parseBinary_toBinary].
  - intros m Hm. now apply length_toBinary.
  - intros m Hm. now apply length_toBinary_gt.
  - intros text Hbits Hlen.
    destruct (bits_are_toBinary numVars text Hn Hbits Hlen) as (m & Hm & E).
    assert (Hp : parseBinary text = m) by (rewrite <- E; apply parseBinary_toBinary).
    rewrite Hp. now split.
Qed.

Lemma toBinary_round_trip_witness :
  toBinary 4 5 = "0101"%string /\ parseBinary "0101" = 5 /\
  String.length (toBinary 4 21) = 5 /\
  (forall text, allBits text -> String.length text = 4 ->
                parseBinary text < 2 ^ 4 /\ toBinary 4 (parseBinary text) = text).
Proof.
  destruct (toBinary_round_trip 4 ltac:(lia)) as (_ & _ & _ & H).
  split; [reflexivity|]. split; [reflexivity|]. split; [reflexivity | exact H].
Defined.

End SimplifiedTerms.

(* ================================================================== *)
(** * No product term is written twice *)
(* ================================================================== *)

Section SelectionDistinct.

Lemma essentialIndices_NoDup (vals : list (list nat)) :
  forall acc,
    NoDup acc ->
    NoDup (fold_left (fun essentialIndices piList =>
                        match piList with
                        | [i] => setAdd essentialIndices i
                        | _ => essentialIndices
                        end) vals acc).
Proof.
  induction vals as [|pl vals IH]; intros acc Hacc; simpl; [exact Hacc|].
  apply IH. destruct pl as [|a [|b r]]; auto. now apply setAdd_NoDup.
Qed.

Lemma lookupAll_NoDup (pis : list term) (indices : list nat) :
  NoDup indices ->
  (forall i j p, In i indices -> In j indices ->
                 nth_error pis i = Some p -> nth_error pis j = Some p -> i = j) ->
  NoDup (lookupAll pis indices).
Proof.
  induction indices as [|i indices IH]; intros Hnd Hinj; [constructor|].
  inversion Hnd as [|? ? Hi Hrest]; subst.
  assert (Htail : NoDup (lookupAll pis indices)).
  { apply IH; [exact Hrest|]. intros a b p Ha Hb. apply Hinj; now right. }
  unfold lookupAll in *. cbn [flat_map].
  destruct (nth_error pis i) as [p|] eqn:E; [|exact Htail].
  cbn [app]. constructor; [|exact Htail].
  intro Hin. apply in_flat_map in Hin as (j & Hj & Hp).
  destruct (nth_error pis j) as [q|] eqn:Ej; [|contradiction].
  destruct Hp as [-> | []].
  apply Hi. rewrite (Hinj i j p); auto; [now left | now right].
Qed.

Lemma essentialOnly_NoDup (pis : list term) (mins : list nat) :
  NoDup (essentialOnly pis mins).
Proof.
  unfold essentialOnly. apply lookupAll_NoDup.
  - unfold essentialIndicesOf. apply essentialIndices_NoDup. constructor.
  - intros i j p Hi Hj Ei Ej.
    destruct (buildCoverage_spec pis mins) as [Hasc _].
    unfold essentialIndicesOf in Hi.
    apply essentialIndices_fold in Hi as [[] | Hi].
    apply (values_get _ _ Hasc) in Hi as [m Hm].
    destruct (sole_entry pis mins m i p Hm Ei) as (_ & Hcov & Hsole).
    symmetry. now apply (Hsole j p).
Qed.

Lemma greedyLoop_NoDup (pis ess : list term) (fuel : nat) :
  forall unc add,
    NoDup (ess ++ add) ->
    NoDup (ess ++ snd (greedyLoop fuel pis ess (unc, add))).
Proof.
  induction fuel as [|fuel IH]; intros unc add Hnd; [exact Hnd|].
  destruct unc as [|u unc']; [exact Hnd|].
  cbn [greedyLoop fst].
  set (unc := u :: unc') in *.
  unfold greedyStep.
  pose proof (selectBest_spec ess add unc pis) as Hinv. unfold selectInv in Hinv.
  destruct (fst (selectBest pis ess add unc)) as [best|]; [|exact Hnd].
  destruct Hinv as (_ & k & _ & Hel & _).
  apply IH. rewrite app_assoc.
  apply NoDup_app; [exact Hnd | repeat constructor; auto |].
  intros t Ht [<- | []]. now apply eligible_iff in Hel.
Qed.

Lemma findEssentialPrimeImplicants_NoDup (pis : list term) (mins : list nat) :
  NoDup (findEssentialPrimeImplicants pis mins).
Proof.
  unfold findEssentialPrimeImplicants, additionalOnly.
  apply greedyLoop_NoDup. rewrite app_nil_r. apply essentialOnly_NoDup.
Qed.

Lemma NoDup_map_on {A B : Type} (f : A -> B) (l : list A) :
  NoDup l ->
  (forall a b, In a l -> In b l -> f a = f b -> a = b) ->
  NoDup (map f l).
Proof.
  induction l as [|x l IH]; intros Hnd Hinj; simpl; [constructor|].
  inversion Hnd as [|? ? Hx Hl]; subst. constructor.
  - intro Hin. apply in_map_iff in Hin as (y & E & Hy).
    apply Hx. rewrite (Hinj x y); auto; [now left | now right].
  - apply IH; [exact Hl|]. intros a b Ha Hb. apply Hinj; now right.
Qed.

End SelectionDistinct.

Section PatternsOfTheTabulation.

Variables (numVars : nat) (ones : list nat).
Hypothesis numVars_pos : 1 <= numVars.
Hypothesis ones_in_range : forall m, In m ones -> m < 2 ^ numVars.

Lemma binary_of_frozen (l l0 : list term) :
  map frozen l = map frozen l0 -> map binary l = map binary l0.
Proof.
  intro H.
  assert (E : forall l : list term, map binary l = map (fun x => snd (fst x)) (map frozen l)).
  { intro l'. rewrite map_map. apply map_ext. intro t. reflexivity. }
  now rewrite (E l), (E l0), H.
Qed.

Lemma newTerms_distinct (terms : list term) (next : nat) :
  NoDup (map binary (ps_newTerms (mergePass terms next))).
Proof.
  unfold mergePass.
  apply (adjacentLoop_preserves terms (fun st => NoDup (map binary (ps_newTerms st)))).
  - intros a b st _ _ Hst. unfold tryPair.
    destruct (combineBinary (binary a) (binary b)) as [c|]; [|exact Hst].
    destruct (existsb (fun t => String.eqb (binary t) c) (ps_newTerms st)) eqn:Hex;
      [exact Hst|].
    cbn [ps_newTerms]. rewrite map_app. cbn [map binary].
    apply NoDup_app; [exact Hst | repeat constructor; auto |].
    intros x Hx [<- | []]. apply in_map_iff in Hx as (t & E & Ht).
    assert (Hex' : existsb (fun t => String.eqb (binary t) c) (ps_newTerms st) = true).
    { apply existsb_exists. exists t. split; [exact Ht | now apply String.eqb_eq]. }
    congruence.
  - intros g Hg. now apply groupByOnes_In.
  - constructor.
Qed.

Lemma mixed_distinct (pis level l : list term) (k : nat) :
  samePatternSameTerm pis ->
  NoDup (map binary level) ->
  (forall t, In t pis -> dashCount (binary t) < k) ->
  (forall t, In t level -> dashCount (binary t) = k) ->
  (forall t, In t l -> In t pis \/ In t level) ->
  samePatternSameTerm l.
Proof.
  intros Hpis Hlevel Hlow Hk Hl t1 t2 H1 H2 E.
  destruct (Hl t1 H1) as [P1 | L1], (Hl t2 H2) as [P2 | L2].
  - now apply Hpis.
  - exfalso. specialize (Hlow t1 P1). specialize (Hk t2 L2). rewrite E in Hlow. lia.
  - exfalso. specialize (Hlow t2 P2). specialize (Hk t1 L1). rewrite E in Hk. lia.
  - now apply (NoDup_map_inj binary level).
Qed.

Lemma qmLoop_distinct (remaining : nat) :
  forall (terms pis : list term) (next passes k : nat),
    levelInv numVars ones k terms ->
    NoDup (map binary terms) ->
    (forall t, In t pis -> dashCount (binary t) < k) ->
    samePatternSameTerm pis ->
    let r := qmLoop remaining terms pis next passes in
    samePatternSameTerm (pushUnused (run_primeImplicants r) (run_terms r)).
Proof.
  induction remaining as [|remaining IH];
    intros terms pis next passes k Hinv Hnd Hlow Hpis; cbv zeta.
  - cbn [qmLoop run_primeImplicants run_terms].
    destruct Hinv as (_ & _ & _ & Hlevel & _).
    apply (mixed_distinct pis terms _ k); auto.
    intros t Ht. unfold pushUnused in Ht. apply in_app_or in Ht as [Ht | Ht]; [now left|].
    right. now apply filter_In in Ht as [Ht _].
  - cbn [qmLoop].
    pose proof Hinv as (Hok & Hndt & Hun & Hlevel & _).
    destruct (mergePass_inv numVars ones numVars_pos ones_in_range terms next Hok Hndt Hun)
      as (Hfro & _).
    pose proof (merge_next_level numVars ones numVars_pos ones_in_range k terms next Hinv)
      as Hnext.
    set (st := mergePass terms next) in *.
    assert (Hnd' : NoDup (map binary (ps_terms st)))
      by (rewrite (binary_of_frozen _ _ Hfro); exact Hnd).
    assert (Hlevel' : forall t, In t (ps_terms st) -> dashCount (binary t) = k).
    { intros t Ht. destruct (frozen_preimage _ _ _ Hfro Ht) as (t0 & H0 & E0).
      injection E0 as _ Ebin _. rewrite <- Ebin. now apply Hlevel. }
    assert (Hmem : forall t, In t (pushUnused pis (ps_terms st)) ->
                             In t pis \/ In t (ps_terms st)).
    { intros t Ht. unfold pushUnused in Ht. apply in_app_or in Ht as [Ht | Ht]; [now left|].
      right. now apply filter_In in Ht as [Ht _]. }
    assert (Hpis' : samePatternSameTerm (pushUnused pis (ps_terms st)))
      by (apply (mixed_distinct pis (ps_terms st) _ k); auto).
    destruct (ps_newTerms st) as [|t' new] eqn:Enew.
    + cbn [run_primeImplicants run_terms].
      apply (mixed_distinct pis (ps_terms st) _ k); auto.
      intros t Ht. unfold pushUnused at 1 in Ht. apply in_app_or in Ht as [Ht | Ht];
        [now apply Hmem|].
      right. now apply filter_In in Ht as [Ht _].
    + apply (IH (t' :: new) _ (ps_next st) (S passes) (S k)).
      * exact Hnext.
      * rewrite <- Enew. apply newTerms_distinct.
      * intros t Ht. destruct (Hmem t Ht) as [H | H].
        -- specialize (Hlow t H). lia.
        -- rewrite (Hlevel' t H). lia.
      * exact Hpis'.
Qed.

Lemma map_snd_combine {A B : Type} (l1 : list A) :
  forall l2 : list B, List.length l1 = List.length l2 -> map snd (combine l1 l2) = l2.
Proof.
  induction l1 as [|a l1 IH]; intros [|b l2] H; simpl in *; try discriminate; auto.
  f_equal. apply IH. now injection H.
Qed.

Lemma initialTerms_distinct : NoDup ones -> NoDup (map binary (initialTerms ones numVars)).
Proof.
  intro Hnd. unfold initialTerms. rewrite map_map. cbn [binary].
  assert (E : map (fun x : nat * nat => toBinary numVars (snd x))
                  (combine (seq 0 (List.length ones)) ones)
              = map (toBinary numVars) ones).
  { rewrite <- (map_map snd (toBinary numVars)). f_equal.
    apply map_snd_combine. now rewrite length_seq. }
  rewrite E. apply Finite.Injective_map_NoDup; [|exact Hnd].
  intros a b. apply toBinary_inj.
Qed.

Lemma quineMcCluskey_distinct :
  NoDup ones -> samePatternSameTerm (quineMcCluskey ones numVars).
Proof.
  intro Hnd. unfold quineMcCluskey, quineMcCluskeyRun.
  apply (qmLoop_distinct numVars (initialTerms ones numVars) [] (List.length ones) 0 0).
  - now apply initial_level.
  - now apply initialTerms_distinct.
  - intros t [].
  - intros t1 t2 [].
Qed.

End PatternsOfTheTabulation.

Section NoRepeatedTerm.

(** X24. No product term is written twice.  For pairwise distinct
    required and don't-care indices, all below [2^n], the terms of
    [essentialPrimeImplicants] returned by [simplify] (the terms written
    in [sop]) have pairwise distinct patterns, although the list
    [primeImplicants] they are taken from may hold a term twice. *)
Theorem simplify_no_repeated_term (kmap : kmapInput) :
  1 <= k_numVars kmap ->
  NoDup (k_minterms kmap ++ k_dontCares kmap) ->
  (forall m, In m (k_minterms kmap ++ k_dontCares kmap) -> m < 2 ^ k_numVars kmap) ->
  NoDup (map binary (essentialPrimeImplicants (simplify kmap))).
Proof.
  destruct kmap as [mins variables numVars dontCares].
  cbn [k_numVars k_minterms k_dontCares]. intros Hn Hnd Hrange.
  unfold simplify. cbn [k_numVars k_minterms k_dontCares k_variables].
  destruct (List.length mins =? 0); [constructor|].
  destruct (List.length mins =? 2 ^ numVars); [constructor|].
  cbn [essentialPrimeImplicants].
  assert (Hmins : NoDup mins) by (now apply NoDup_app_remove_r in Hnd).
  destruct (quineMcCluskey_spec numVars (mins ++ dontCares) Hn Hrange) as [_ Hcover].
  assert (Hcover' : forall m, In m mins ->
            exists t', In t' (quineMcCluskey (mins ++ dontCares) numVars) /\
                       In m (minterms t'))
    by (intros m Hm; apply Hcover, in_app_iff; now left).
  destruct (findEssential_covers _ mins Hmins Hcover') as [Hsub _].
  apply NoDup_map_on; [apply findEssentialPrimeImplicants_NoDup|].
  intros a b Ha Hb E.
  apply (quineMcCluskey_distinct numVars (mins ++ dontCares) Hn Hrange Hnd); auto.
Qed.

Lemma simplify_no_repeated_term_witness :
  NoDup (map binary (essentialPrimeImplicants
                       (simplify (mkKmapInput [0; 1; 3; 7] ["A"; "B"; "C"]%string 3 [6])))).
Proof.
  apply (simplify_no_repeated_term (mkKmapInput [0; 1; 3; 7] ["A"; "B"; "C"]%string 3 [6])).
  - simpl. lia.
  - repeat constructor; simpl; intuition discriminate.
  - simpl. intros m H. lia.
Defined.

End NoRepeatedTerm.

(* ================================================================== *)
(** * The contents of the list of selected implicants *)
(* ================================================================== *)

Section GreedyTrace.

Variables (pis ess : list term) (mins : list nat).






End GreedyTrace.

Section EssentialListContents.




End EssentialListContents.
